(* ===== verification/_CoqProject ===== *)
-Q . S2P
Prelude.v
JsString.v
Types.v
Env.v
Generate.v
Loop.v
App.v
Schedule.v
Session.v
Uri.v
DataUrl.v
Dom.v
HistoryPage.v
VideoPlayer.v
HistoryCard.v
Mount.v
Page.v
Gestures.v
