(* ===== verification/Prelude.v ===== *)
(** * Veo Gallery: a verification development

    The program is a single-page React application. The file
    [src/unnamed/part_000] holds its [App] component together with the
    helpers [bloblToBase64] and [generateVideoFromText];
    [src/components] holds three of its child components ([HistoryPage],
    [HistoryCard], [VideoPlayer]); [src/types.ts] the two record types.
    The application shows a gallery of videos, lets the user ask a remote
    service for a generated video (from a prompt typed in the form, or as
    a remix of a video of the gallery), polls the remote job until it is
    done, downloads the result, converts it to a data URL and puts it in
    front of the gallery and of a history list. While a generation runs
    the whole page is replaced by a progress page.

    ** Files, in dependency order

    - [Prelude] (this file): the [outcome] of a JavaScript computation
      (fulfilled, rejected, pending for ever, or out of model fuel), the
      answers of the environment ([settlement], [completion]), the
      state-and-outcome monad [M] in which effectful code is written, the
      development's tactics and hint databases, and the list functions
      shared by the components ([drop_while], [count_if]).
    - [JsString]: JavaScript strings as lists of UTF-16 code units, and
      the string operations the sources call: [startsWith], [trim],
      [substring], [split], [join], the two [replace] calls of
      [handleDownload], template-literal interpolation of values that may
      be undefined, truthiness; the [Error] objects.
    - [Types]: [Video] and [HistoryVideo] of [src/types.ts].
    - [Env]: what the program calls and does not define (the SDK, [fetch],
      [FileReader], timers, the console, the clock, [crypto.randomUUID]),
      as the class [Env] of oracles; the trace of [Effect]s; the
      predicates [emits], [fueled], [lively] and [yields] on effectful
      code, with their composition lemmas in the hint database [js];
      [scripted_env], an environment to run the program on.
    - [Generate]: [bloblToBase64] and [generateVideoFromText]
      (part_000:18-78): the request, the polling loop [poll], the
      downloads started by [videos.map] ([start_all], [finish_all]) and
      [Promise.all] ([promise_all]).
    - [Loop]: the same loop and function without fuel, as the inductive
      predicates [polls] and [generates] (one rule per way an iteration
      or the call can go), and their agreement with [poll] and
      [generateVideoFromText].
    - [App]: the [App] component (part_000:84-344). [AppState] is its
      eleven state cells, [Update] a call of a setter, each handler the
      list of its setter calls; the two asynchronous handlers are split at
      their [await] ([handleSaveEdit_begin], [handleSaveEdit_settled],
      and the same for [handleGenerateNewVideo]). [render] is the JSX
      reduced to which component is mounted with which props, [enabled]
      which handlers the rendered tree can call. [step] is the transition
      system on a [Config] (the state and the generations in flight)
      whose labels are the events of the user and the settlements of
      generations; [handleSaveEdit] and [handleGenerateNewVideo] are the
      handlers run against an [Env].
    - [Schedule]: the downloads of one call as they really run
      (part_000:62-72): every callback of [videos.map] is a [Task]
      suspended at one of its three [await]s, [Promise.all] a [Pool] that
      keeps the first rejection it sees; [pool_step] resumes any task
      that waits, [run_schedule] follows a given order, [collects] is
      the call with the downloads in any order. [Generate.finish_all] is
      the order by index.
    - [Session]: a whole session of the user: [on_event] runs the
      handler of one event against the environment when the page shown
      offers it, [session] a list of events from the initial state.
    - [Uri]: [decodeURIComponent] and [encodeURIComponent] as ECMAScript
      defines them ([Decode], [Encode], with the UTF-8 and surrogate
      checks), the reference for the oracle [env_decodeURIComponent]
      that line 64 calls; [standard_decoder], the environments that
      follow it.
    - [DataUrl]: reference definitions of what the program takes from
      the browser without defining it: base64 ([base64_encode],
      [base64_decode], RFC 4648), the data URL [FileReader] makes of a
      blob ([readAsDataURL]) and the reading of a data URL by a video
      element ([parse_data_url], RFC 2397); [standard_reader], the
      environments whose reader follows them.
    - [Dom]: the tree a component returns ([Element], with the
      attributes and the [Listener]s of its JSX) and the dispatch of an
      event to a node ([dispatch]): [click] and [change] bubble until a
      listener stops them, the media events do not bubble, a disabled
      control hears nothing; a component outside the repository is a
      leaf with the props it is given, which it may call ([component],
      [PropValue], [offers]).
    - [HistoryPage]: the component of [src/components/HistoryPage.tsx]:
      the empty state, the sort by date ([sortedVideos], a stable
      insertion sort for [Array.prototype.sort]) and the cards.
    - [VideoPlayer]: the component of [src/components/VideoPlayer.tsx]:
      [handleDownload] and [handleShare], with the browser as a
      [Browser] record and the feedback timers as [ShareState], and the
      tree it returns ([VideoPlayer], lines 71-134).
    - [HistoryCard]: the component of [src/components/HistoryCard.tsx]:
      the tree it returns ([HistoryCard], lines 59-112), its date and its
      share handler, which has the body of the player's.
    - [Mount]: the two components as [App] mounts them, with the handlers
      it binds to their props ([player_props], [card_props],
      [mounted_player], [mounted_cards]).
    - [Page]: the whole return value of [App] (part_000:236-343) as a
      tree, [App_tree]: the progress page, or the edit page or the
      gallery page (header, form, tabs, grid or history page), the
      player and the error modal.
    - [Gestures]: the application under the events of the browser. A
      [Gesture] is an event on a node of [App_tree] or a call of a prop
      by a component outside the repository; [called] is what it calls,
      by [Dom.dispatch]; [on_gesture] runs the handlers called as one
      batch against the render of the page; [gestures] is a list of
      gestures, each with the state of the share buttons at that time
      ([Local]).

    Each file opens with a comment that says which source lines it
    models; the definitions keep the names of the source.

    ** What is proved

    - The generation workflow ([Generate]): the polling loop terminates
      with fuel [k] as soon as the service reports the job done within [k]
      polls ([generateVideoFromText_terminates]), and more fuel never
      changes a run ([generateVideoFromText_fuel_mono]); the effects of a
      call follow the protocol request, polling rounds, fetches, reads
      ([generateVideoFromText_trace]); a resolved call returns a non-empty
      array ([generateVideoFromText_nonempty]) and a job without videos is
      an error before any download ([generateVideoFromText_no_videos]);
      what [bloblToBase64] extracts from a data URL
      ([bloblToBase64_payload], [bloblToBase64_no_comma]).
    - The loop without fuel ([Loop]): the model with fuel computes the
      natural semantics, in both directions ([poll_sound],
      [poll_complete], [generateVideoFromText_natural]); a service that
      never reports the job done leaves the loop without any outcome
      ([poll_diverges]).
    - Data URLs ([DataUrl]): decoding undoes encoding
      ([base64_decode_encode]) and parsing undoes [readAsDataURL]
      ([parse_readAsDataURL]); with a standard reader the result of
      [generateVideoFromText] has its declared type
      ([generateVideoFromText_strings]) and the source the handlers
      build holds the bytes downloaded ([download_round_trip]), so that
      every video of the history has a source that plays
      ([history_data_urls]); a blob type with a comma breaks this
      ([codecs_blob_cut]).
    - The user interface ([App]): the invariant [ui_inv] of the reachable
      configurations, by induction on the steps
      ([one_generation_in_flight], [in_flight_blocks_events],
      [player_mounted]); the data invariants
      ([gallery_is_history_then_mock], and [unique_ids] under the
      assumption [good_env] on the identifiers and dates provided); the
      effect of a settled generation on every branch ([settle_success],
      [settle_failure]) and its atomicity for the user
      ([settled_keeps_progress_page]); the refinement of the transition
      system by the handlers run against the environment
      ([handleSaveEdit_simulates], [handleGenerateNewVideo_simulates]),
      in which [crypto.randomUUID] may throw inside [try]: where the
      browser does not define it every generation ends in the error
      message, after the video was made and downloaded
      ([no_randomUUID_fails], [insecure_generation_fails]);
      what a generation that never settles does to the page
      ([pending_generation_blocks]) and, when the environment answers
      every request ([responsive]), that the handler resumes and leaves
      the progress page ([generation_ends]); bounds on the generated title and
      prompt; a reachable state in which the loading identifier names a
      video that is not the one played ([spinner_on_another_video]).
    - The order of the downloads ([Schedule]): every order of resuming
      the callbacks ends, after at most three steps per video
      ([every_order_ends]); when the answers of the environment to a
      download do not depend on the downloads made before ([oblivious]),
      every order settles every callback as the order by index does
      ([settled_any_order]), and the call returns the same array or
      fails, with the effects of the order by index up to a permutation
      and the downloads still running at a failure
      ([collect_any_order]); the order by index is one of the orders
      ([collect_is_an_order]); a rejection already there when
      [Promise.all] is called is the one it reports
      ([start_rejection_wins]), while two downloads that fail later are
      reported according to the order ([failing_orders],
      [index_order_error_differs]).
    - Sessions ([Session]): the state after any list of events, with the
      handlers run against the environment, is a reachable configuration
      of the transition system ([session_reachable]); when the
      environment answers every request and the service finishes its
      jobs within the fuel, no generation is in flight at the end of a
      session and the progress page is not shown
      ([session_interactive]).
    - The URI of a video ([Uri]): decoding undoes encoding
      ([Decode_Encode]), so a URI handed out encoded is requested as it
      was ([fetch_start_round_trip]); a URI without a percent sign is
      requested unchanged ([fetch_start_plain]); a percent sign that
      starts no escape rejects the callback before any request
      ([fetch_start_malformed], [malformed_uri_rejects]); an escaped
      delimiter of a URL is decoded with the rest
      ([decoded_uri_differs]).
    - The history page ([HistoryPage]): [sortedVideos] is a stable sort
      ([sortedVideos_spec]) and the only one ([sort_unique]); the page
      offers the videos it is given ([HistoryPage_playable]), with at most
      one card loading ([HistoryPage_one_loading]), so that the mounted
      page shows at most one spinner ([mounted_one_spinner]); in the
      application the sort
      changes nothing ([history_shown_as_stored]).
    - Download and share ([VideoPlayer]): which code units a file name
      can hold ([fileName_stem], [fileName_safe], [remix_fileName]); which
      URL is shared ([generated_shares_page]); the branches of
      [handleShare] ([handleShare_clipboard], [handleShare_abort]); the
      timers that are never cancelled ([feedback_cleared_early]).
    - The rendered trees ([Dom], [VideoPlayer], [HistoryCard], [Mount]):
      an event can be dispatched exactly to the nodes [paths] lists
      ([dispatch_paths]), so a property of every node of a tree is
      checked node by node; a click on the player calls at most one
      handler and closes it only from the backdrop or the close button
      ([VideoPlayer_click]), the media events are heard by the video
      only ([VideoPlayer_media]); a click on a card plays, shares or does
      nothing according to where it is made, with or without the
      [stopPropagation] of its share handler ([HistoryCard_click]), and
      the card shows the spinner exactly while its video loads
      ([HistoryCard_spinner]); every prop a mounted component calls is
      an event the transition system of [App] allows, handled by the
      function bound to the prop ([mounted_player_calls],
      [mounted_card_calls]).
    - The page and the transition system ([Page]): [App.enabled], on
      which the invariants of [App] rest, is the page reduced to the
      events it can cause. What the page offers, by an event of the
      browser on any of its nodes or by a call of a component outside
      the repository, is enabled ([App_offers_enabled]); what is enabled
      is offered by the page, up to the handler called
      ([enabled_App_offers]). No event on the page calls two handlers
      ([App_once]), and the page depends on the state through
      [App.render] only ([App_tree_render]).
    - The page under the events of the browser ([Gestures]): a gesture
      calls at most one handler, which [App.enabled] allows
      ([called_once], [called_enabled]); whatever the user does, the
      transition system has a run that ends in the state of the page
      and whose events are the handlers called ([gestures_simulated]),
      so that the invariants of [App] are invariants of the page; every
      session of [Session] is made of gestures ([session_gestures]); in
      an environment that answers every request the page always comes
      back to its controls ([gestures_interactive]).

    Every theorem with hypotheses is applied to a concrete input at the
    end of its file (the lemmas named [_witness]), on the scripted
    environment and the example session defined there.

    ** Conventions

    - A JavaScript [string] is a [list N] of code units; a literal is
      written [lit "..."]. A value that may be [undefined] or [null] is an
      [option]; truthiness ([if (x)], [!x], [x && y]) is written out with
      the [truthy_*] functions of [JsString].
    - A [Promise] is modelled by the [outcome] of awaiting it. [Pending]
      is a promise that never settles (the program waits for ever);
      [OutOfFuel] is an artefact of the model and never the description of
      a real run: the environment cannot answer with it ([settlement] has
      no such constructor).
    - The environment is an oracle: a record of functions from the trace
      of the effects so far to the next answer. A theorem stated for every
      [Env] holds of every run of the program.
    - A [Date] is its time value, an integer number of milliseconds.

    ** Simplifications

    Where the model is coarser than the program, and why no theorem
    gains from it:

    - Numbers are not bounded: a code unit is an [N], not a 16-bit
      integer, and a time value a [Z]. The program does no arithmetic on
      either but the comparison of dates; [Uri.code_units] states the
      bound where a theorem needs it.
    - A synchronous call of the environment returns or throws
      ([completion]): [decodeURIComponent], [crypto.randomUUID] and
      [navigator.clipboard.writeText] throw where the browser says so.
      [new Date()], [console.log] and [setTimeout] do not throw, and the
      timer of line 51 always fires.
    - [App.finish_job] leaves the state alone when the generation is
      [Pending] and when the model is out of fuel; the theorems on it
      either assume that the generation settles, which excludes both, or
      that it does not, which the program can only meet by a promise
      that never settles.
    - [Array.prototype.sort] and [Promise.all] are the engine's: the
      model has a stable insertion sort ([HistoryPage.sort], justified
      by [sort_unique]) and the semantics of [Promise.all] on settled
      and pending promises ([Generate.promise_all], [Schedule.Pool]);
      which callback the event loop resumes next is a choice of
      [Schedule.fire], over which the theorems of [Schedule] quantify.
    - [App.enabled] reads the tree and not its layout: a control under
      the overlay of the player counts as one the user can reach. The
      transition system then allows more than the mouse does, never
      less.
    - A card passes its [HistoryVideo] to [handlePlayVideo], which keeps
      it as a [Video]; the model drops the date there, which the program
      does not read again ([Mount.card_props]).
    - What the components outside the repository do with their props is
      assumed, not read: [VideoGrid] plays only the videos it is given,
      [EditVideoPage] calls [onSave] with any video and [onCancel],
      [ErrorModal] its two props, [SavingProgressPage] nothing
      ([Page.VideoGrid_calls] and the like).

    ** Fuel

    The only loop of the program is [while (!operation.done)]
    (part_000:50-54); [poll] takes one unit of fuel per iteration, and
    [generateVideoFromText] passes its fuel to it. The downloads recurse
    on the list of videos, and the steps of [Schedule] are bounded by
    the measure [pool_work], not by fuel. [Uri.Decode] and [Uri.Encode]
    take the length of their input as fuel, which is enough because
    every iteration consumes at least one code unit (they never return
    for lack of it: [Decode_plain], [Decode_Encode]). The service decides
    the number of iterations, so no fixed fuel is enough for every
    environment; the theorems are stated for every fuel, and
    [generateVideoFromText_terminates] and
    [generateVideoFromText_fuel_mono] show that any fuel at least the
    number of polls the service needs gives the run of the real loop.
    [Loop] states the real loop without fuel, and
    [generateVideoFromText_natural] shows that the outcomes of the model
    other than [OutOfFuel] are exactly the outcomes of the real
    function.

    ** What is not modelled

    The child components whose sources are not in the repository's [src]
    ([VideoGrid], [EditVideoPage], [SavingProgressPage], [ErrorModal],
    the icons, [constants]: [MOCK_VIDEOS] is a parameter; they are
    leaves of the page, of which only the props they are given are
    known); CSS class names that are constant, and layout;
    of the DOM, capture, default actions, focus and the keyboard; the
    decoding of the video; [Date.prototype.toLocaleString] (a parameter
    of the card); the React scheduler (setters are applied in program
    order, which is what React does for the plain and functional updates
    the program makes, and a handler's calls are rendered as one batch)
    and its reconciliation of the state of a component across renders
    (the feedback of the share buttons is followed inside one component,
    in [VideoPlayer], and is arbitrary at every gesture on the page);
    the SDK's HTTP traffic (its answers are oracle values); the
    interleaving of two calls of [generateVideoFromText], which the
    page excludes ([one_generation_in_flight]); the microtask order
    between a settled download and the continuation of [Promise.all],
    which no state of the program can observe. [Schedule] interleaves
    the downloads of one call at their [await]s, the only points where
    JavaScript can switch between the callbacks. *)

From stdpp Require Export base tactics option list numbers relations sorting.

Set Default Proof Using "Type".

(** * Outcomes *)

(** What awaiting a promise, or calling a function that may throw, produces. *)
Inductive outcome (E A : Type) : Type :=
| Fulfilled (a : A)
| Rejected (e : E)
| Pending
| OutOfFuel.

Arguments Fulfilled {E A} a.
Arguments Rejected {E A} e.
Arguments Pending {E A}.
Arguments OutOfFuel {E A}.

#[export] Instance outcome_eq_dec {E A} `{EqDecision E, EqDecision A} :
  EqDecision (outcome E A).
Proof. solve_decision. Defined.

Definition is_fulfilled {E A} (o : outcome E A) : bool :=
  match o with Fulfilled _ => true | _ => false end.

Definition is_rejected {E A} (o : outcome E A) : bool :=
  match o with Rejected _ => true | _ => false end.

(** A settled promise is fulfilled or rejected: the code after [await]
    (or the [catch] block) runs. *)
Definition is_settled {E A} (o : outcome E A) : bool :=
  match o with Fulfilled _ | Rejected _ => true | _ => false end.

Definition outcome_bind {E A B} (o : outcome E A) (k : A → outcome E B) :
  outcome E B :=
  match o with
  | Fulfilled a => k a
  | Rejected e => Rejected e
  | Pending => Pending
  | OutOfFuel => OutOfFuel
  end.

Definition outcome_map {E A B} (f : A → B) (o : outcome E A) : outcome E B :=
  outcome_bind o (λ a, Fulfilled (f a)).

(** What the environment does with a promise it hands out: it resolves it,
    rejects it, or leaves it pending for ever. *)
Inductive settlement (E A : Type) : Type :=
| Resolves (a : A)
| Rejects (e : E)
| NeverSettles.

Arguments Resolves {E A} a.
Arguments Rejects {E A} e.
Arguments NeverSettles {E A}.

(** [await p] *)
Definition await {E A} (s : settlement E A) : outcome E A :=
  match s with
  | Resolves a => Fulfilled a
  | Rejects e => Rejected e
  | NeverSettles => Pending
  end.

(** What a synchronous call of the environment does: it returns or throws. *)
Inductive completion (E A : Type) : Type :=
| Normal (a : A)
| Throws (e : E).

Arguments Normal {E A} a.
Arguments Throws {E A} e.

Definition complete {E A} (c : completion E A) : outcome E A :=
  match c with
  | Normal a => Fulfilled a
  | Throws e => Rejected e
  end.

(** * The monad of effectful code

    [W] is the state threaded through the calls (for the program: the
    history of its interaction with the environment). A computation that
    is rejected, pending or out of fuel keeps the state it reached. *)
Definition M (W E A : Type) : Type := W → outcome E A * W.

Definition ret {W E A} (a : A) : M W E A := λ w, (Fulfilled a, w).

Definition throw {W E A} (e : E) : M W E A := λ w, (Rejected e, w).

Definition bind {W E A B} (m : M W E A) (k : A → M W E B) : M W E B :=
  λ w, match m w with
       | (Fulfilled a, w') => k a w'
       | (Rejected e, w') => (Rejected e, w')
       | (Pending, w') => (Pending, w')
       | (OutOfFuel, w') => (OutOfFuel, w')
       end.

(** Lift a pure outcome (a synchronous call that may throw). *)
Definition lift {W E A} (o : outcome E A) : M W E A := λ w, (o, w).

(** An effect that cannot fail. *)
Definition effect {W E} (f : W → W) : M W E () := λ w, (Fulfilled (), f w).

Declare Scope js_scope.
Delimit Scope js_scope with js.

Notation "x <- m ;; k" := (bind m (λ x, k))
  (at level 100, m at next level, k at level 200, right associativity) : js_scope.
Notation "m ;; k" := (bind m (λ _, k))
  (at level 100, k at level 200, right associativity) : js_scope.

(** * Lists *)

(** The longest suffix whose head fails [p]. *)
Fixpoint drop_while {A} (p : A → bool) (l : list A) : list A :=
  match l with
  | [] => []
  | x :: l' => if p x then drop_while p l' else l
  end.

(** Number of elements that satisfy a boolean test. *)
Definition count_if {A} (p : A → bool) (l : list A) : nat :=
  length (filter (λ x, p x = true) l).

(** * Tactics *)

(** Case analysis on the outcome a [match] of the goal or of a hypothesis
    scrutinises, with the equation kept. *)
Ltac case_outcome :=
  match goal with
  | |- context [match ?o with Fulfilled _ => _ | _ => _ end] =>
      destruct o eqn:?
  | H : context [match ?o with Fulfilled _ => _ | _ => _ end] |- _ =>
      destruct o eqn:?
  end.

(** Case analysis on the pair a monadic computation returns. *)
Ltac case_run :=
  match goal with
  | |- context [let '(_, _) := ?m in _] => destruct m as [? ?] eqn:?
  | |- context [match ?m with (_, _) => _ end] => destruct m as [? ?] eqn:?
  | H : context [match ?m with (_, _) => _ end] |- _ =>
      destruct m as [? ?] eqn:?
  end.

(** Turn boolean facts of the context into propositions. *)
Ltac bool_to_prop :=
  repeat match goal with
  | H : _ && _ = true |- _ => apply andb_prop in H; destruct H
  | H : _ || _ = false |- _ => apply orb_false_elim in H; destruct H
  | H : negb _ = true |- _ => apply negb_true_iff in H
  | H : negb _ = false |- _ => apply negb_false_iff in H
  | H : (_ =? _)%N = true |- _ => apply N.eqb_eq in H
  | H : (_ =? _)%N = false |- _ => apply N.eqb_neq in H
  | H : (_ <=? _)%N = true |- _ => apply N.leb_le in H
  | H : (_ <=? _)%N = false |- _ => apply N.leb_gt in H
  end.

Create HintDb js discriminated.
Create Rewrite HintDb js.

(** * Lemmas on outcomes and the monad *)

Section outcome.
Context {E A B C : Type}.
Implicit Types (o : outcome E A).

Lemma outcome_bind_fulfilled o (k : A → outcome E B) b :
  outcome_bind o k = Fulfilled b ↔ ∃ a, o = Fulfilled a ∧ k a = Fulfilled b.
Proof. destruct o; naive_solver. Qed.

Lemma outcome_bind_assoc o (k : A → outcome E B) (h : B → outcome E C) :
  outcome_bind (outcome_bind o k) h = outcome_bind o (λ a, outcome_bind (k a) h).
Proof. by destruct o. Qed.

Lemma is_settled_spec o :
  is_settled o = is_fulfilled o || is_rejected o.
Proof. by destruct o. Qed.

(** Awaiting a promise of the environment never runs out of fuel. *)
Lemma await_not_out_of_fuel (s : settlement E A) : await s ≠ OutOfFuel.
Proof. by destruct s. Qed.

Lemma complete_settled (c : completion E A) : is_settled (complete c) = true.
Proof. by destruct c. Qed.

(** Settled is neither pending nor out of fuel. *)
Lemma is_settled_true (o : outcome E A) :
  o ≠ Pending → o ≠ OutOfFuel → is_settled o = true.
Proof. by destruct o. Qed.

(** A promise of the environment that settles is not awaited for ever. *)
Lemma await_resolves (s : settlement E A) :
  s ≠ NeverSettles → await s ≠ Pending.
Proof. by destruct s. Qed.

End outcome.

Section monad.
Context {W E : Type}.

Lemma bind_ret_l {A B} (a : A) (k : A → M W E B) w : bind (ret a) k w = k a w.
Proof. done. Qed.

Lemma bind_ret_r {A} (m : M W E A) w : bind m ret w = m w.
Proof. unfold bind, ret. by destruct (m w) as [[]]. Qed.

Lemma bind_assoc {A B C} (m : M W E A) (k : A → M W E B) (h : B → M W E C) w :
  bind (bind m k) h w = bind m (λ a, bind (k a) h) w.
Proof. unfold bind. by destruct (m w) as [[]]. Qed.

(** A bind is fulfilled exactly when both halves are. *)
Lemma bind_fulfilled {A B} (m : M W E A) (k : A → M W E B) w b w2 :
  bind m k w = (Fulfilled b, w2) ↔
  ∃ a w1, m w = (Fulfilled a, w1) ∧ k a w1 = (Fulfilled b, w2).
Proof.
  unfold bind. destruct (m w) as [[a|e| |] w1]; naive_solver.
Qed.

End monad.

(** * Lemmas on lists *)

Section lists.
Context {A : Type}.
Implicit Types (p : A → bool) (l k : list A).

Lemma drop_while_suffix p l : drop_while p l `suffix_of` l.
Proof.
  induction l as [|x l IH]; simpl; [done|].
  destruct (p x); [by apply suffix_cons_r | done].
Qed.

Lemma drop_while_length p l : length (drop_while p l) ≤ length l.
Proof. apply suffix_length, drop_while_suffix. Qed.

(** The head of what is left fails the test. *)
Lemma drop_while_head p l x l' : drop_while p l = x :: l' → p x = false.
Proof.
  induction l as [|y l IH]; simpl; [done|].
  destruct (p y) eqn:Hy; [done | naive_solver].
Qed.

Lemma drop_while_idemp p l : drop_while p (drop_while p l) = drop_while p l.
Proof.
  destruct (drop_while p l) as [|x l'] eqn:Heq; [done|].
  simpl. by rewrite (drop_while_head _ _ _ _ Heq).
Qed.

Lemma drop_while_all p l : Forall (λ x, p x = true) l → drop_while p l = [].
Proof. induction 1 as [|x l Hx _ IH]; simpl; [done | by rewrite Hx]. Qed.

Lemma drop_while_nil_inv p l : drop_while p l = [] → Forall (λ x, p x = true) l.
Proof.
  induction l as [|x l IH]; simpl; [done|].
  destruct (p x) eqn:Hx; [auto | done].
Qed.

(** An element that fails the test stops the dropping: what follows it is
    kept whatever precedes it. *)
Lemma drop_while_app_false p l x k :
  p x = false → drop_while p (l ++ x :: k) = drop_while p l ++ x :: k.
Proof.
  intros Hx. induction l as [|y l IH]; simpl; [by rewrite Hx|].
  by destruct (p y).
Qed.

Lemma count_if_nil p : count_if p [] = 0.
Proof. done. Qed.

Lemma count_if_app p l k : count_if p (l ++ k) = count_if p l + count_if p k.
Proof. unfold count_if. by rewrite filter_app, length_app. Qed.

Lemma count_if_cons p x l :
  count_if p (x :: l) = (if p x then 1 else 0) + count_if p l.
Proof.
  unfold count_if. rewrite filter_cons.
  destruct (p x); by case_decide.
Qed.

Lemma count_if_ext p q l :
  (∀ x, p x = q x) → count_if p l = count_if q l.
Proof.
  intros Hpq. induction l as [|x l IH]; [done|].
  by rewrite !count_if_cons, Hpq, IH.
Qed.

Lemma count_if_snoc p l x :
  count_if p (l ++ [x]) = count_if p l + (if p x then 1 else 0).
Proof. rewrite count_if_app, count_if_cons, count_if_nil. lia. Qed.

Lemma count_if_le p l : count_if p l ≤ length l.
Proof. apply length_filter. Qed.

End lists.

Lemma count_if_fmap {A B} (f : B → A) (p : A → bool) (l : list B) :
  count_if p (f <$> l) = count_if (p ∘ f) l.
Proof.
  induction l as [|x l IH]; [done|].
  by rewrite fmap_cons, !count_if_cons, IH.
Qed.

(** Replacing one summand of a sum. *)
Lemma sum_list_insert (l : list nat) i x y :
  l !! i = Some x → sum_list (<[i:=y]> l) + x = sum_list l + y.
Proof.
  revert i. induction l as [|a l IH]; intros [|i] Hi; simplify_eq/=; [lia|].
  specialize (IH _ Hi). lia.
Qed.

#[export] Hint Rewrite @count_if_nil @count_if_app @count_if_cons : js.
#[export] Hint Resolve drop_while_suffix drop_while_length : js.
