(* ===== verification/JsString.v ===== *)
(** * JavaScript strings and the string operations the sources call

    A string is the list of its UTF-16 code units. The operations are the
    ones [src/unnamed/part_000] and [src/components/VideoPlayer.tsx] call
    on strings, with the semantics ECMAScript gives them on code units:

    - [startsWith]: [videoUrl.startsWith('http')] (VideoPlayer.tsx:41,
      HistoryCard.tsx:29);
    - [trim]: [newVideoPrompt.trim()] (part_000:181, 188);
    - [substring]: [promptText.substring(0, 40)] (part_000:204);
    - [split]: [url.split(',')] (part_000:29);
    - [strip_non_word_space] and [spaces_to_underscores]: the two [replace]
      calls of [handleDownload] (VideoPlayer.tsx:31-33);
    - [tmpl]: interpolation of a possibly undefined value in a template
      literal (part_000:65, 147, 200).

    [isWhiteSpace] is the WhiteSpace and LineTerminator productions of
    ECMAScript, which both [String.prototype.trim] and the regular
    expression class [\s] use; [isWordChar] is the class [\w] of a regular
    expression without the [u] flag (with or without [i]). *)

From stdpp Require Export strings.
From stdpp Require Import pretty.
From S2P Require Export Prelude.

#[local] Open Scope N_scope.

(** * Code units and literals *)

Abbreviation jsstring := (list N).

(** The code units of an ASCII literal. *)
Definition lit (s : string) : jsstring :=
  Ascii.N_of_ascii <$> String.list_ascii_of_string s.

Arguments lit s%_string_scope.

(** [String(n)] for a non-negative integer: its decimal digits. *)
Definition of_N (n : N) : jsstring := lit (pretty n).

(** * Character classes *)

(** WhiteSpace and LineTerminator code units: TAB, LF, VT, FF, CR, SP, NBSP,
    OGHAM SPACE MARK, EN QUAD .. HAIR SPACE, LS, PS, NNBSP, MMSP,
    IDEOGRAPHIC SPACE, ZWNBSP. *)
Definition isWhiteSpace (c : N) : bool :=
  ((9 <=? c) && (c <=? 13))
  || (c =? 32) || (c =? 160) || (c =? 5760)
  || ((8192 <=? c) && (c <=? 8202))
  || (c =? 8232) || (c =? 8233) || (c =? 8239) || (c =? 8287)
  || (c =? 12288) || (c =? 65279).

(** [\w]: ASCII letters, digits and underscore. *)
Definition isWordChar (c : N) : bool :=
  ((48 <=? c) && (c <=? 57))
  || ((65 <=? c) && (c <=? 90))
  || (c =? 95)
  || ((97 <=? c) && (c <=? 122)).

(** * Values that may be undefined *)

(** A string is truthy when it is not empty. *)
Definition truthy_string (s : jsstring) : bool :=
  match s with [] => false | _ => true end.

(** An object reference is truthy when it is not null or undefined. *)
Definition truthy_ref {A} (o : option A) : bool :=
  match o with Some _ => true | None => false end.

(** An optional boolean is truthy when it is present and true. *)
Definition truthy_bool (o : option bool) : bool :=
  match o with Some b => b | None => false end.

(** An optional string interpolated by a template literal. *)
Definition tmpl (o : option jsstring) : jsstring :=
  match o with Some s => s | None => lit "undefined" end.

(** * Operations *)

(** [s.startsWith(p)] *)
Fixpoint startsWith (s p : jsstring) : bool :=
  match p, s with
  | [], _ => true
  | _ :: _, [] => false
  | a :: p', b :: s' => (a =? b) && startsWith s' p'
  end.

Definition trimStart (s : jsstring) : jsstring := drop_while isWhiteSpace s.

Definition trimEnd (s : jsstring) : jsstring :=
  reverse (drop_while isWhiteSpace (reverse s)).

(** [s.trim()] *)
Definition trim (s : jsstring) : jsstring := trimEnd (trimStart s).

(** [s.substring(a, b)]: the indices are clamped to the length and swapped
    when [a > b]. *)
Definition substring (s : jsstring) (a b : nat) : jsstring :=
  let lo := Nat.min a b in
  let hi := Nat.max a b in
  take (hi - lo) (drop lo s).

(** [s.split(sep)] for a separator of one code unit: the pieces between the
    occurrences of [sep]; never the empty array. *)
Fixpoint split (sep : N) (s : jsstring) : list jsstring :=
  match s with
  | [] => [[]]
  | c :: s' =>
      if c =? sep then [] :: split sep s'
      else match split sep s' with
           | [] => [[c]]
           | piece :: pieces => (c :: piece) :: pieces
           end
  end.

(** [s.replace(/[^\w\s]/gi, '')]: every code unit that is neither a word
    character nor white space is removed. *)
Definition strip_non_word_space (s : jsstring) : jsstring :=
  List.filter (λ c, isWordChar c || isWhiteSpace c) s.

(** [s.replace(/ /g, '_')] *)
Definition spaces_to_underscores (s : jsstring) : jsstring :=
  (λ c, if c =? 32 then 95 else c) <$> s.

(** [sep.join(pieces)] for a separator of one code unit. *)
Fixpoint join (sep : N) (pieces : list jsstring) : jsstring :=
  match pieces with
  | [] => []
  | [p] => p
  | p :: ps => p ++ sep :: join sep ps
  end.

(** * Errors *)

(** A thrown [Error] object: the fields the program reads or builds. *)
Record JsError := mkJsError {
  err_name : jsstring;
  err_message : jsstring;
}.

#[export] Instance JsError_eq_dec : EqDecision JsError.
Proof. solve_decision. Defined.

(** [new Error(msg)] *)
Definition Error (msg : jsstring) : JsError := mkJsError (lit "Error") msg.

(** The error a property access on [undefined] throws. *)
Definition TypeError (msg : jsstring) : JsError :=
  mkJsError (lit "TypeError") msg.

(** * Lemmas *)

Section classes.
Implicit Types (c : N).

Lemma isWordChar_bound c : isWordChar c = true → 48 ≤ c ≤ 122.
Proof. unfold isWordChar. intros H. repeat (apply orb_prop in H as [H|H]); bool_to_prop; lia. Qed.

Lemma isWordChar_not_space c : isWordChar c = true → isWhiteSpace c = false.
Proof.
  intros [??]%isWordChar_bound. unfold isWhiteSpace.
  repeat (apply orb_false_intro); try (apply N.eqb_neq; lia);
    apply andb_false_iff; rewrite !N.leb_gt; lia.
Qed.

Lemma isWhiteSpace_32 : isWhiteSpace 32 = true.
Proof. done. Qed.

End classes.

Section startsWith.
Implicit Types (s p : jsstring).

Lemma startsWith_prefix s p : startsWith s p = true ↔ p `prefix_of` s.
Proof.
  revert s. induction p as [|a p IH]; intros [|b s]; simpl.
  - split; [intros _; apply prefix_nil | done].
  - split; [intros _; apply prefix_nil | done].
  - split; [done | by intros ?%prefix_nil_not].
  - rewrite andb_true_iff, N.eqb_eq, IH. split.
    + intros [-> ?]. by apply prefix_cons.
    + intros H. split; [by apply prefix_cons_inv_1 in H | by apply prefix_cons_inv_2 in H].
Qed.

Lemma startsWith_app s p : startsWith (p ++ s) p = true.
Proof. apply startsWith_prefix, prefix_app_r. done. Qed.

(** Two strings that differ at the first code unit: neither starts with
    the other. *)
Lemma startsWith_head_ne a b s p : a ≠ b → startsWith (b :: s) (a :: p) = false.
Proof. intros Hne. simpl. by apply N.eqb_neq in Hne as ->. Qed.

End startsWith.

Section trim.
Implicit Types (s : jsstring).

Lemma trimStart_idemp s : trimStart (trimStart s) = trimStart s.
Proof. apply drop_while_idemp. Qed.

Lemma trimEnd_idemp s : trimEnd (trimEnd s) = trimEnd s.
Proof. unfold trimEnd. by rewrite reverse_involutive, drop_while_idemp. Qed.

Lemma trimStart_length s : (length (trimStart s) ≤ length s)%nat.
Proof. apply drop_while_length. Qed.

Lemma trimEnd_length s : (length (trimEnd s) ≤ length s)%nat.
Proof.
  unfold trimEnd. rewrite length_reverse, <-(length_reverse s).
  apply drop_while_length.
Qed.

Lemma trim_length s : (length (trim s) ≤ length s)%nat.
Proof.
  unfold trim. etrans; [apply trimEnd_length | apply trimStart_length].
Qed.

(** Trimming the end keeps the first code unit when it is not white space. *)
Lemma trimEnd_cons c s :
  isWhiteSpace c = false → trimEnd (c :: s) = c :: trimEnd s.
Proof.
  intros Hc. unfold trimEnd.
  by rewrite reverse_cons, drop_while_app_false, reverse_snoc.
Qed.

(** The result of [trim] neither starts nor ends with white space. *)
Lemma trim_head s c s' : trim s = c :: s' → isWhiteSpace c = false.
Proof.
  unfold trim. destruct (trimStart s) as [|d t] eqn:Ht.
  { by unfold trimEnd. }
  pose proof (drop_while_head _ _ _ _ Ht) as Hd.
  rewrite (trimEnd_cons d t Hd). by intros [= <- _].
Qed.

Lemma trim_last s c s' : trim s = s' ++ [c] → isWhiteSpace c = false.
Proof.
  unfold trim, trimEnd. intros H. apply (f_equal reverse) in H.
  rewrite reverse_involutive, reverse_snoc in H.
  by apply drop_while_head in H.
Qed.

Lemma trimEnd_no_trailing s :
  match reverse s with [] => True | c :: _ => isWhiteSpace c = false end →
  trimEnd s = s.
Proof.
  unfold trimEnd. destruct (reverse s) as [|c r] eqn:Hr; simpl.
  - intros _. apply (f_equal reverse) in Hr.
    by rewrite reverse_involutive in Hr.
  - intros ->. by rewrite <-Hr, reverse_involutive.
Qed.

Lemma trim_idemp s : trim (trim s) = trim s.
Proof.
  destruct (trim s) as [|c t] eqn:Ht; [done|].
  unfold trim at 1. unfold trimStart. simpl.
  rewrite (trim_head _ _ _ Ht). apply trimEnd_no_trailing.
  destruct (reverse (c :: t)) as [|d r] eqn:Hr; [done|].
  apply (f_equal reverse) in Hr. rewrite reverse_involutive, reverse_cons in Hr.
  rewrite Hr in Ht. by apply trim_last in Ht.
Qed.

End trim.

Section substring.
Implicit Types (s : jsstring).

Lemma substring_0 s n : substring s 0 n = take n s.
Proof. unfold substring. by rewrite Nat.min_0_l, Nat.max_0_l, Nat.sub_0_r. Qed.

Lemma substring_length s a b :
  (length (substring s a b) ≤ Nat.max a b - Nat.min a b)%nat.
Proof. unfold substring. rewrite length_take. lia. Qed.

Lemma substring_0_short s n : (length s ≤ n)%nat → substring s 0 n = s.
Proof. intros. rewrite substring_0. by apply take_ge. Qed.

End substring.

Section replace.
Implicit Types (s : jsstring).

Lemma strip_non_word_space_spec s c :
  c ∈ strip_non_word_space s ↔ c ∈ s ∧ (isWordChar c || isWhiteSpace c) = true.
Proof.
  unfold strip_non_word_space. rewrite !list_elem_of_In, List.filter_In. done.
Qed.

Lemma strip_non_word_space_idemp s :
  strip_non_word_space (strip_non_word_space s) = strip_non_word_space s.
Proof.
  unfold strip_non_word_space. induction s as [|c s IH]; simpl; [done|].
  destruct (isWordChar c || isWhiteSpace c) eqn:Hc; simpl; [|done].
  by rewrite Hc, IH.
Qed.

Lemma strip_non_word_space_length s :
  (length (strip_non_word_space s) ≤ length s)%nat.
Proof. apply List.filter_length_le. Qed.

Lemma spaces_to_underscores_length s :
  length (spaces_to_underscores s) = length s.
Proof. apply length_fmap. Qed.

Lemma spaces_to_underscores_no_space s : 32 ∉ spaces_to_underscores s.
Proof.
  unfold spaces_to_underscores. rewrite list_elem_of_fmap.
  intros (c & Hc & _). destruct (c =? 32) eqn:E; bool_to_prop; [done | congruence].
Qed.

End replace.

Section split.
Implicit Types (s : jsstring) (sep : N).

Lemma split_nonempty sep s : split sep s ≠ [].
Proof.
  induction s as [|c s IH]; simpl; [done|].
  destruct (c =? sep); [done|]. by destruct (split sep s).
Qed.

(** Joining the pieces with the separator gives the string back. *)
Lemma join_split sep s : join sep (split sep s) = s.
Proof.
  induction s as [|c s IH]; simpl; [done|].
  destruct (c =? sep) eqn:E; bool_to_prop.
  - subst. pose proof (split_nonempty sep s).
    simpl. destruct (split sep s) eqn:?; [done|]. by rewrite IH.
  - destruct (split sep s) as [|p ps] eqn:Hs; [by destruct (split_nonempty sep s)|].
    destruct ps; simpl in *; by rewrite <-IH.
Qed.

(** No piece contains the separator. *)
Lemma split_no_sep sep s : Forall (λ p, sep ∉ p) (split sep s).
Proof.
  induction s as [|c s IH]; simpl.
  - repeat constructor. by intros ?%elem_of_nil.
  - destruct (c =? sep) eqn:E; bool_to_prop.
    + constructor; [by intros ?%elem_of_nil | done].
    + destruct (split sep s) as [|p ps]; inversion_clear IH;
        (constructor; [|done]); intros [?|?]%elem_of_cons;
        first [congruence | by eapply elem_of_nil].
Qed.

(** A string without the separator is its own single piece. *)
Lemma split_no_occurrence sep s : sep ∉ s → split sep s = [s].
Proof.
  induction s as [|c s IH]; simpl; [done|].
  intros [Hne Hs]%not_elem_of_cons.
  apply not_eq_sym, N.eqb_neq in Hne as ->. by rewrite IH.
Qed.

(** Splitting [p ++ sep :: s] when [p] has no separator. *)
Lemma split_app_sep sep p s :
  sep ∉ p → split sep (p ++ sep :: s) = p :: split sep s.
Proof.
  induction p as [|c p IH]; simpl.
  - by rewrite N.eqb_refl.
  - intros [Hne Hp]%not_elem_of_cons.
    apply not_eq_sym, N.eqb_neq in Hne as ->. by rewrite IH.
Qed.

(** A string with the separator has a second piece. *)
Lemma split_second sep s : sep ∈ s → is_Some (split sep s !! 1%nat).
Proof.
  induction s as [|c s IH]; [by intros ?%elem_of_nil|]. simpl.
  destruct (c =? sep) eqn:E; bool_to_prop.
  - intros _. pose proof (split_nonempty sep s). by destruct (split sep s).
  - intros [?|Hs]%elem_of_cons; [congruence|]. specialize (IH Hs).
    by destruct (split sep s) as [|p [|q ps]].
Qed.

End split.

#[export] Hint Resolve trim_length trimStart_length trimEnd_length
  strip_non_word_space_length : js.
#[export] Hint Rewrite trim_idemp strip_non_word_space_idemp
  spaces_to_underscores_length substring_0 : js.
