(* ===== verification/Types.v ===== *)
(** * The two record types of [src/types.ts]

    [Video] is the interface of lines 9-14. [HistoryVideo] (lines 19-21)
    extends it with [createdAt]: the model keeps the [Video] part as a field
    with a coercion, so that a [HistoryVideo] can be passed where a [Video]
    is expected, as TypeScript's structural subtyping allows, and
    [{...newVideo, createdAt: new Date()}] is [mkHistoryVideo newVideo now].

    A [Date] is its time value: the milliseconds since the epoch, an
    integer. The program only builds dates with [new Date()], which is never
    an invalid date. *)

From S2P Require Import Prelude JsString.

Record Video := mkVideo {
  id : jsstring;
  videoUrl : jsstring;
  title : jsstring;
  description : jsstring;
}.

Record HistoryVideo := mkHistoryVideo {
  toVideo :> Video;
  createdAt : Z;
}.

#[export] Instance Video_eq_dec : EqDecision Video.
Proof. solve_decision. Defined.

#[export] Instance HistoryVideo_eq_dec : EqDecision HistoryVideo.
Proof. solve_decision. Defined.

(** The identifiers of a list of videos, in order. *)
Definition ids (l : list Video) : list jsstring := id <$> l.

Lemma ids_cons (v : Video) (l : list Video) : ids (v :: l) = id v :: ids l.
Proof. done. Qed.

Lemma ids_toVideo (l : list HistoryVideo) :
  ids (toVideo <$> l) = (λ h : HistoryVideo, id h) <$> l.
Proof. unfold ids. by rewrite <-list_fmap_compose. Qed.

(** Rearranging the videos rearranges the identifiers. *)
#[export] Instance ids_Permutation : Proper ((≡ₚ) ==> (≡ₚ)) ids.
Proof. intros l1 l2 Hl. unfold ids. by rewrite Hl. Qed.

(** Videos with distinct identifiers are distinct. *)
Lemma NoDup_ids (l : list Video) : NoDup (ids l) → NoDup l.
Proof. apply NoDup_fmap_1. Qed.
