(* ===== verification/Env.v ===== *)
(** * The environment of the program

    Everything the program calls and does not define: the video-generation
    SDK ([ai.models.generateVideos], [ai.operations.getVideosOperation],
    part_000:41, 53), [setTimeout] (51), [console.log] and [console.error]
    (52, 136, 170), [decodeURIComponent] (64), [fetch] and [Response.blob]
    (65, 71), [FileReader.readAsDataURL] (26-31), [process.env.API_KEY]
    (20, 65), [crypto.randomUUID] (150, 203) and [new Date()] (158, 213).

    The values exchanged are records with the fields the program reads;
    fields the SDK declares optional are [option]s.

    The environment is deterministic in the history of the interaction: an
    [Env] is a record of functions from the trace of effects so far to the
    answer of the next call. Every behaviour of a real environment along
    one run is such a function, so a theorem proved for every [Env] holds
    of every run. The trace records the calls in the order the program
    makes them. *)

From S2P Require Import Prelude JsString Types.

#[local] Open Scope N_scope.

(** * Values of the SDK and of the fetch API *)

(** [Video] of the SDK: the program reads [uri]. *)
Record SdkVideo := mkSdkVideo {
  uri : option jsstring;
}.

Record GeneratedVideo := mkGeneratedVideo {
  video : option SdkVideo;
}.

Record GenerateVideosResponse := mkGenerateVideosResponse {
  generatedVideos : option (list GeneratedVideo);
}.

(** A long-running operation; [name] identifies the remote job. *)
Record Operation := mkOperation {
  name : jsstring;
  done : option bool;
  response : option GenerateVideosResponse;
}.

(** The argument of [ai.models.generateVideos] (part_000:41-48). *)
Record GenerateVideosParameters := mkGenerateVideosParameters {
  model : jsstring;
  prompt : jsstring;
  numberOfVideos : N;
  aspectRatio : jsstring;
}.

Record Blob := mkBlob {
  blob_type : jsstring;
  blob_bytes : list N;
}.

(** A [Response] of [fetch]: the fields of lines 66-71. *)
Record Response := mkResponse {
  ok : bool;
  status : N;
  statusText : jsstring;
}.

#[export] Instance SdkVideo_eq_dec : EqDecision SdkVideo.
Proof. solve_decision. Defined.
#[export] Instance GeneratedVideo_eq_dec : EqDecision GeneratedVideo.
Proof. solve_decision. Defined.
#[export] Instance GenerateVideosResponse_eq_dec :
  EqDecision GenerateVideosResponse.
Proof. solve_decision. Defined.
#[export] Instance Operation_eq_dec : EqDecision Operation.
Proof. solve_decision. Defined.
#[export] Instance GenerateVideosParameters_eq_dec :
  EqDecision GenerateVideosParameters.
Proof. solve_decision. Defined.
#[export] Instance Blob_eq_dec : EqDecision Blob.
Proof. solve_decision. Defined.
#[export] Instance Response_eq_dec : EqDecision Response.
Proof. solve_decision. Defined.

(** * Effects *)

(** One call of the program to its environment. *)
Inductive Effect :=
| EGenerateVideos (p : GenerateVideosParameters)
| ESetTimeout (ms : N)
| EConsoleLog (args : list jsstring)
| EConsoleError (args : list jsstring)
| EGetVideosOperation (operation : Operation)
| EFetch (url : jsstring)
| EBlob (res : Response)
| EReadAsDataURL (blob : Blob)
| ERandomUUID
| ENewDate.

#[export] Instance Effect_eq_dec : EqDecision Effect.
Proof. solve_decision. Defined.

Abbreviation trace := (list Effect).

Definition is_timeout (e : Effect) : bool :=
  match e with ESetTimeout _ => true | _ => false end.
Definition is_poll (e : Effect) : bool :=
  match e with EGetVideosOperation _ => true | _ => false end.
Definition is_fetch (e : Effect) : bool :=
  match e with EFetch _ => true | _ => false end.
Definition is_log (e : Effect) : bool :=
  match e with EConsoleLog _ => true | _ => false end.
Definition is_generate (e : Effect) : bool :=
  match e with EGenerateVideos _ => true | _ => false end.

(** * The oracle *)

Class Env := {
  (** [process.env.API_KEY], undefined when the variable is not set *)
  API_KEY : option jsstring;
  sdk_generateVideos :
    trace → GenerateVideosParameters → settlement JsError Operation;
  sdk_getVideosOperation : trace → Operation → settlement JsError Operation;
  (** a pure function of its argument; throws a URIError *)
  env_decodeURIComponent : jsstring → completion JsError jsstring;
  env_fetch : trace → jsstring → settlement JsError Response;
  env_blob : trace → Response → settlement JsError Blob;
  (** [reader.result] when [onload] fires; [None] when it never does *)
  env_readAsDataURL : trace → Blob → option jsstring;
  (** [self.crypto.randomUUID()]: the identifier, or the [TypeError] of
      calling what is not a function where the browser does not define
      it (outside a secure context) *)
  env_randomUUID : trace → completion JsError jsstring;
  (** the time value of [new Date()] *)
  env_now : trace → Z;
}.

(** * Effectful code *)

Abbreviation JS := (M trace JsError).

(** Record an effect that has no answer. *)
Definition emit (e : Effect) : JS () := effect (λ tr, tr ++ [e]).

(** Record a call and return the environment's answer to it. The answer
    is a function of the history before the call. *)
Definition call {A} (e : Effect) (answer : trace → outcome JsError A) : JS A :=
  λ tr, (answer tr, tr ++ [e]).

(** The answer to a request started earlier, which arrives now. *)
Definition receive {A} (answer : trace → outcome JsError A) : JS A :=
  λ tr, (answer tr, tr).

(** The model ran out of fuel. *)
Definition out_of_fuel {A} : JS A := λ tr, (OutOfFuel, tr).

(** * A scripted environment

    The service finishes the job at the [n]-th poll and returns [videos];
    every download succeeds and reads as the data URL [dataurl], or is
    never read when there is none. Used to run the program on concrete
    inputs. *)
Definition scripted_env (n : nat) (videos : option (list GeneratedVideo))
    (dataurl : option jsstring) : Env := {|
  API_KEY := Some (lit "KEY");
  sdk_generateVideos _ p :=
    Resolves (mkOperation (lit "op/1") None None);
  sdk_getVideosOperation tr operation :=
    if bool_decide (n ≤ S (count_if is_poll tr))%nat
    then Resolves (mkOperation (name operation) (Some true)
                     (Some (mkGenerateVideosResponse videos)))
    else Resolves (mkOperation (name operation) (Some false) None);
  env_decodeURIComponent s := Normal s;
  env_fetch _ _ := Resolves (mkResponse true 200 (lit "OK"));
  env_blob _ _ := Resolves (mkBlob (lit "video/mp4") [0; 1; 2]);
  env_readAsDataURL _ _ := dataurl;
  env_randomUUID tr := Normal (lit "uuid-" ++ of_N (N.of_nat (length tr)));
  env_now tr := Z.of_nat (length tr);
|}.

(** * The trace only grows *)

(** [emits P m]: whatever [m] does, the trace it leaves is the one it
    started from followed by effects that satisfy [P]. *)
Definition emits {A} (P : Effect → bool) (m : JS A) : Prop :=
  ∀ tr, ∃ d, (m tr).2 = tr ++ d ∧ Forall (λ e, P e = true) d.

(** [fueled m]: [m] never runs out of fuel. *)
Definition fueled {A} (m : JS A) : Prop :=
  ∀ tr, (m tr).1 ≠ OutOfFuel.

(** [lively m]: [m] never waits for ever. *)
Definition lively {A} (m : JS A) : Prop :=
  ∀ tr, (m tr).1 ≠ Pending.

(** [yields Q m]: every value [m] is fulfilled with satisfies [Q]. *)
Definition yields {A} (Q : A → Prop) (m : JS A) : Prop :=
  ∀ tr a tr', m tr = (Fulfilled a, tr') → Q a.

Definition any_effect (e : Effect) : bool := true.

Section emits.
Context {A B : Type}.
Implicit Types (P Q : Effect → bool).

Lemma emits_silent P (m : JS A) : (∀ tr, (m tr).2 = tr) → emits P m.
Proof. intros Hm tr. exists []. by rewrite Hm, app_nil_r. Qed.

Lemma emits_ret P (a : A) : emits P (ret a).
Proof. by apply emits_silent. Qed.

Lemma emits_throw P (e : JsError) : emits P (throw (A:=A) e).
Proof. by apply emits_silent. Qed.

Lemma emits_lift P (o : outcome JsError A) : emits P (lift o).
Proof. by apply emits_silent. Qed.

Lemma emits_receive P (answer : trace → outcome JsError A) :
  emits P (receive answer).
Proof. by apply emits_silent. Qed.

Lemma emits_out_of_fuel P : emits P (out_of_fuel (A:=A)).
Proof. by apply emits_silent. Qed.

Lemma emits_emit P e : P e = true → emits P (emit e).
Proof. intros He tr. exists [e]. split; [done | by constructor]. Qed.

Lemma emits_call P e (answer : trace → outcome JsError A) :
  P e = true → emits P (call e answer).
Proof. intros He tr. exists [e]. split; [done | by constructor]. Qed.

Lemma emits_bind P (m : JS A) (k : A → JS B) :
  emits P m → (∀ a, emits P (k a)) → emits P (bind m k).
Proof.
  intros Hm Hk tr. unfold bind. destruct (Hm tr) as (d1 & Hd1 & HP1).
  destruct (m tr) as [[a|e| |] tr1]; simpl in *; subst tr1; [|by eauto..].
  destruct (Hk a (tr ++ d1)) as (d2 & -> & HP2).
  exists (d1 ++ d2). rewrite <-app_assoc. split; [done | by apply Forall_app].
Qed.

Lemma emits_mono P Q (m : JS A) :
  (∀ e, P e = true → Q e = true) → emits P m → emits Q m.
Proof.
  intros HPQ Hm tr. destruct (Hm tr) as (d & -> & HP).
  exists d. split; [done | by eapply Forall_impl].
Qed.

(** The trace only grows. *)
Lemma emits_prefix P (m : JS A) tr : emits P m → tr `prefix_of` (m tr).2.
Proof. intros Hm. destruct (Hm tr) as (d & -> & _). by apply prefix_app_r. Qed.

Lemma fueled_ret (a : A) : fueled (ret a).
Proof. by intros tr. Qed.

Lemma fueled_throw (e : JsError) : fueled (throw (A:=A) e).
Proof. by intros tr. Qed.

Lemma fueled_lift (o : outcome JsError A) : o ≠ OutOfFuel → fueled (lift o).
Proof. by intros Ho tr. Qed.

Lemma fueled_call e (answer : trace → outcome JsError A) :
  (∀ tr, answer tr ≠ OutOfFuel) → fueled (call e answer).
Proof. intros Ha tr. apply Ha. Qed.

Lemma fueled_receive (answer : trace → outcome JsError A) :
  (∀ tr, answer tr ≠ OutOfFuel) → fueled (receive answer).
Proof. intros Ha tr. apply Ha. Qed.

Lemma fueled_bind (m : JS A) (k : A → JS B) :
  fueled m → (∀ a, fueled (k a)) → fueled (bind m k).
Proof.
  intros Hm Hk tr. unfold bind. specialize (Hm tr).
  destruct (m tr) as [[a|e| |] tr1]; simpl in *; [apply Hk | done..].
Qed.

Lemma lively_ret (a : A) : lively (ret a).
Proof. by intros tr. Qed.

Lemma lively_throw (e : JsError) : lively (throw (A:=A) e).
Proof. by intros tr. Qed.

Lemma lively_out_of_fuel : lively (out_of_fuel (A:=A)).
Proof. by intros tr. Qed.

Lemma lively_call e (answer : trace → outcome JsError A) :
  (∀ tr, answer tr ≠ Pending) → lively (call e answer).
Proof. intros Ha tr. apply Ha. Qed.

Lemma lively_receive (answer : trace → outcome JsError A) :
  (∀ tr, answer tr ≠ Pending) → lively (receive answer).
Proof. intros Ha tr. apply Ha. Qed.

Lemma lively_bind (m : JS A) (k : A → JS B) :
  lively m → (∀ a, lively (k a)) → lively (bind m k).
Proof.
  intros Hm Hk tr. unfold bind. specialize (Hm tr).
  destruct (m tr) as [[a|e| |] tr1]; simpl in *; [apply Hk | done..].
Qed.

Lemma yields_ret (Q : A → Prop) (a : A) : Q a → yields Q (ret a).
Proof. by intros Ha tr a' tr' [= <- _]. Qed.

Lemma yields_throw (Q : A → Prop) (e : JsError) : yields Q (throw e).
Proof. by intros tr a tr'. Qed.

Lemma yields_lift (Q : A → Prop) (o : outcome JsError A) :
  (∀ a, o = Fulfilled a → Q a) → yields Q (lift o).
Proof. intros Ho tr a tr' [= -> _]. by apply Ho. Qed.

Lemma yields_out_of_fuel (Q : A → Prop) : yields Q out_of_fuel.
Proof. by intros tr a tr'. Qed.

Lemma yields_call (Q : A → Prop) e (answer : trace → outcome JsError A) :
  (∀ tr a, answer tr = Fulfilled a → Q a) → yields Q (call e answer).
Proof. intros Ha tr a tr' [= Heq _]. by eapply Ha. Qed.

Lemma yields_bind (Q : B → Prop) (m : JS A) (k : A → JS B) :
  (∀ a, yields Q (k a)) → yields Q (bind m k).
Proof. intros Hk tr b tr' (a & tr1 & _ & Hb)%bind_fulfilled. by eapply Hk. Qed.

(** The continuation may rely on what the first half yields. *)
Lemma yields_bind_strong (P : A → Prop) (Q : B → Prop) (m : JS A)
    (k : A → JS B) :
  yields P m → (∀ a, P a → yields Q (k a)) → yields Q (bind m k).
Proof.
  intros Hm Hk tr b tr' (a & tr1 & Ha & Hb)%bind_fulfilled.
  eapply Hk; [by eapply Hm | done].
Qed.

End emits.

Lemma fueled_emit e : fueled (emit e).
Proof. by intros tr. Qed.

Lemma lively_emit e : lively (emit e).
Proof. by intros tr. Qed.

(** Effects that fail a test are not counted by it. *)
Lemma count_if_Forall_false (p q : Effect → bool) (d : trace) :
  (∀ e, q e = true → p e = false) →
  Forall (λ e, q e = true) d → count_if p d = 0%nat.
Proof.
  intros Hpq. induction 1 as [|e d He _ IH]; [done|].
  by rewrite count_if_cons, (Hpq e He), IH.
Qed.

#[export] Hint Resolve emits_ret emits_throw emits_lift emits_receive
  emits_out_of_fuel emits_emit emits_call emits_bind
  fueled_ret fueled_throw fueled_lift fueled_call fueled_receive
  fueled_bind fueled_emit await_not_out_of_fuel
  lively_ret lively_throw lively_out_of_fuel lively_call lively_receive
  lively_bind lively_emit await_resolves : js.

(** Running [call] and [emit]: the equations used to step through code. *)
Lemma call_run {A} e (answer : trace → outcome JsError A) tr :
  call e answer tr = (answer tr, tr ++ [e]).
Proof. done. Qed.

Lemma emit_run e tr : emit e tr = (Fulfilled (), tr ++ [e]).
Proof. done. Qed.
