(* ===== verification/Generate.v ===== *)
(** * The generation workflow: [bloblToBase64] and [generateVideoFromText]

    [src/unnamed/part_000], lines 18-78: the request to the SDK, the polling
    loop, the download of every generated video and its conversion to
    base64.

    - [poll] is the [while (!operation.done)] loop of lines 50-54, with
      fuel: one unit per iteration. [poll_terminates] shows that the fuel
      is enough as soon as the service answers with a finished operation
      after a bounded number of polls, and [poll_fuel_mono] that more fuel
      does not change a result.
    - [videos.map(async ...)] (lines 63-73) starts every callback in index
      order: [fetch_start] is the part of the callback before its first
      [await] (it ends with the call to [fetch]), [fetch_finish] the rest.
      [Promise.all] (line 62) is [promise_all]. The answers are consumed in
      index order here; the file [Schedule] resumes the callbacks in any
      order and shows what the order can change: which error
      [Promise.all] rejects with when several callbacks fail, and how far
      the other downloads have come by then. *)

From S2P Require Import Prelude JsString Types Env.

#[local] Open Scope N_scope.
#[local] Open Scope js_scope.

Definition VEO_MODEL_NAME : jsstring := lit "veo-2.0-generate-001".

(** The comma, the separator of [url.split(',')]. *)
Definition comma : N := 44.

Section generate.
Context `{Env}.

(** [bloblToBase64] (lines 24-33). The promise resolves in [onload] with
    the second piece of the data URL, which is undefined when the URL has
    no comma; it has no [onerror], so it never rejects. *)
Definition bloblToBase64 (blob : Blob) : JS (option jsstring) :=
  url <- call (EReadAsDataURL blob)
           (λ tr, match env_readAsDataURL tr blob with
                  | Some url => Fulfilled url
                  | None => Pending
                  end) ;;
  ret (split comma url !! 1%nat).

(** The loop of lines 50-54. The promise of line 51 is resolved by its
    own timer and by nothing else: it is fulfilled after the delay and
    has no way to fail, so the wait is an effect without an answer. *)
Fixpoint poll (fuel : nat) (operation : Operation) : JS Operation :=
  if truthy_bool (done operation) then ret operation
  else match fuel with
       | O => out_of_fuel
       | S fuel' =>
           emit (ESetTimeout 10000) ;;
           emit (EConsoleLog [lit "...Generating..."]) ;;
           operation' <- call (EGetVideosOperation operation)
                           (λ tr, await (sdk_getVideosOperation tr operation)) ;;
           poll fuel' operation'
       end.

(** [generatedVideo.video.uri] (line 64): reading [uri] of an undefined
    [video] throws a TypeError. *)
Definition video_uri (generatedVideo : GeneratedVideo) :
  outcome JsError (option jsstring) :=
  match video generatedVideo with
  | Some v => Fulfilled (uri v)
  | None =>
      Rejected (TypeError (lit "Cannot read properties of undefined"))
  end.

(** The URL of line 65. *)
Definition fetch_url (url : jsstring) : jsstring :=
  url ++ lit "&key=" ++ tmpl API_KEY.

(** Lines 64-65 up to the [await]: the callback decodes the URI and calls
    [fetch]. The result is the URL requested, or the rejection of the
    callback's promise. *)
Definition fetch_start (generatedVideo : GeneratedVideo) :
  trace → outcome JsError jsstring * trace :=
  u <- lift (video_uri generatedVideo) ;;
  url <- lift (complete (env_decodeURIComponent (tmpl u))) ;;
  emit (EFetch (fetch_url url)) ;;
  ret (fetch_url url).

(** The error of lines 67-69. *)
Definition fetch_failed (res : Response) : JsError :=
  Error (lit "Failed to fetch video: " ++ of_N (status res) ++ lit " "
         ++ statusText res).

(** Lines 65-72 from the [await] on. *)
Definition fetch_finish (url : jsstring) : JS (option jsstring) :=
  res <- receive (λ tr, await (env_fetch tr url)) ;;
  if negb (ok res) then throw (fetch_failed res)
  else
    blob <- call (EBlob res) (λ tr, await (env_blob tr res)) ;;
    bloblToBase64 blob.

(** [videos.map(async ...)]: every callback runs to its first [await]; a
    callback that throws rejects its own promise and the others still
    start. *)
Fixpoint start_all (videos : list GeneratedVideo) (tr : trace) :
  list (outcome JsError jsstring) * trace :=
  match videos with
  | [] => ([], tr)
  | generatedVideo :: rest =>
      let '(o, tr1) := fetch_start generatedVideo tr in
      let '(os, tr2) := start_all rest tr1 in
      (o :: os, tr2)
  end.

(** The rest of one callback: a callback that threw before [fetch] stays
    rejected. *)
Definition finish_one (o : outcome JsError jsstring) : JS (option jsstring) :=
  match o with
  | Fulfilled url => fetch_finish url
  | Rejected e => throw e
  | Pending => lift Pending
  | OutOfFuel => out_of_fuel
  end.

(** The rest of every callback, whatever happens to the others. *)
Fixpoint finish_all (started : list (outcome JsError jsstring)) (tr : trace) :
  list (outcome JsError (option jsstring)) * trace :=
  match started with
  | [] => ([], tr)
  | o :: rest =>
      let '(r, tr1) := finish_one o tr in
      let '(rs, tr2) := finish_all rest tr1 in
      (r :: rs, tr2)
  end.

End generate.

(** [Promise.all]: rejected as soon as one promise is; fulfilled with all
    the values when every promise is; pending otherwise. *)
Fixpoint promise_all {E A} (promises : list (outcome E A)) : outcome E (list A) :=
  match promises with
  | [] => Fulfilled []
  | p :: rest =>
      match p, promise_all rest with
      | Rejected e, _ => Rejected e
      | _, Rejected e => Rejected e
      | Fulfilled a, Fulfilled l => Fulfilled (a :: l)
      | OutOfFuel, _ | _, OutOfFuel => OutOfFuel
      | Pending, _ | _, Pending => Pending
      end
  end.

Section generateVideoFromText.
Context `{Env}.

Definition No_videos_generated : JsError := Error (lit "No videos generated").

(** Lines 56-77: what the function does with a finished operation. *)
Definition collect (operation : Operation) : JS (list (option jsstring)) :=
  match response operation with
  | Some resp =>
      match generatedVideos resp with
      | None | Some [] => throw No_videos_generated
      | Some videos =>
          λ tr,
            let '(started, tr1) := start_all videos tr in
            let '(results, tr2) := finish_all started tr1 in
            (promise_all results, tr2)
      end
  | None => throw No_videos_generated
  end.

(** The argument of [generateVideos] (lines 41-48). *)
Definition request (prompt : jsstring) (numberOfVideos : N) :
  GenerateVideosParameters :=
  mkGenerateVideosParameters VEO_MODEL_NAME prompt numberOfVideos (lit "16:9").

(** [generateVideoFromText] (lines 37-78). *)
Definition generateVideoFromText (fuel : nat) (prompt : jsstring)
    (numberOfVideos : N) : JS (list (option jsstring)) :=
  operation <- call (EGenerateVideos (request prompt numberOfVideos))
                 (λ tr, await (sdk_generateVideos tr
                                 (request prompt numberOfVideos))) ;;
  operation <- poll fuel operation ;;
  collect operation.

End generateVideoFromText.

(** * Specification vocabulary *)

(** The effects of one iteration of the loop that polls [operation]. *)
Definition poll_round (operation : Operation) : trace :=
  [ESetTimeout 10000; EConsoleLog [lit "...Generating..."];
   EGetVideosOperation operation].

(** The effects of the iterations that poll [operations] in turn. *)
Definition poll_rounds (operations : list Operation) : trace :=
  operations ≫= poll_round.

(** The milliseconds of all the timeouts of a trace. *)
Definition total_timeout (tr : trace) : N :=
  foldr (λ e acc, match e with ESetTimeout ms => ms + acc | _ => acc end) 0 tr.

(** After the history [tr0], the service needs at most [k] polls: from the
    [k]-th poll on it does not answer with an unfinished operation. *)
Definition finishes_within `{Env} (k : nat) (tr0 : trace) : Prop :=
  ∀ d operation operation',
    (k ≤ S (count_if is_poll d))%nat →
    sdk_getVideosOperation (tr0 ++ d) operation = Resolves operation' →
    truthy_bool (done operation') = true.

(** A generated video whose callback reaches [fetch]. *)
Definition startable `{Env} (generatedVideo : GeneratedVideo) : bool :=
  match video generatedVideo with
  | Some v =>
      match env_decodeURIComponent (tmpl (uri v)) with
      | Normal _ => true
      | Throws _ => false
      end
  | None => false
  end.

(** The effects of reading a downloaded video. *)
Definition is_download (e : Effect) : bool :=
  match e with EBlob _ | EReadAsDataURL _ => true | _ => false end.

(** The videos of a finished operation, when it has some. *)
Definition videos_of (operation : Operation) : list GeneratedVideo :=
  default [] (response operation ≫= generatedVideos).

(** Every request to the environment is answered: the promises of the
    SDK and of [fetch] settle, and the reader delivers its result. *)
Record responsive `{Env} : Prop := {
  generateVideos_settles tr p : sdk_generateVideos tr p ≠ NeverSettles;
  getVideosOperation_settles tr operation :
    sdk_getVideosOperation tr operation ≠ NeverSettles;
  fetch_settles tr url : env_fetch tr url ≠ NeverSettles;
  blob_settles tr res : env_blob tr res ≠ NeverSettles;
  reader_loads tr blob : env_readAsDataURL tr blob ≠ None;
}.

(** * A concrete run

    A service that finishes at the second poll with one video, read as a
    data URL of four base64 characters. *)
Definition example_videos : list GeneratedVideo :=
  [mkGeneratedVideo (Some (mkSdkVideo (Some (lit "https://v/1?alt=media"))))].

Definition example_dataurl : jsstring := lit "data:video/mp4;base64,AAAA".

Definition example_env : Env :=
  scripted_env 2 (Some example_videos) (Some example_dataurl).

(** A service that finishes at once and has no video. *)
Definition empty_env : Env := scripted_env 1 (Some []) None.

Definition example_prompt : jsstring := lit "a cat".

(** * The polling loop *)

Section poll.
Context `{Env}.
Implicit Types (operation : Operation) (tr : trace) (fuel : nat).

Lemma poll_done fuel operation tr :
  truthy_bool (done operation) = true →
  poll fuel operation tr = (Fulfilled operation, tr).
Proof. intros Hd. destruct fuel; simpl; by rewrite Hd. Qed.

Lemma poll_O operation tr :
  truthy_bool (done operation) = false →
  poll 0 operation tr = (OutOfFuel, tr).
Proof. intros Hd. simpl. by rewrite Hd. Qed.

(** One iteration: the answer is read in the history that ends with the
    timeout and the log; the loop goes on with it when it is an operation. *)
Lemma poll_S fuel operation tr :
  truthy_bool (done operation) = false →
  poll (S fuel) operation tr =
    match sdk_getVideosOperation
            (tr ++ [ESetTimeout 10000; EConsoleLog [lit "...Generating..."]])
            operation with
    | Resolves operation' => poll fuel operation' (tr ++ poll_round operation)
    | Rejects e => (Rejected e, tr ++ poll_round operation)
    | NeverSettles => (Pending, tr ++ poll_round operation)
    end.
Proof.
  intros Hd. simpl. rewrite Hd.
  unfold bind, emit, effect, call, poll_round. simpl. rewrite <-!app_assoc. simpl.
  by destruct (sdk_getVideosOperation _ _).
Qed.

(** The trace the loop leaves: the one it started from, then one round per
    operation polled, at most [fuel] of them. *)
Lemma poll_trace fuel operation tr :
  ∃ operations,
    (poll fuel operation tr).2 = tr ++ poll_rounds operations
    ∧ (length operations ≤ fuel)%nat.
Proof.
  revert operation tr. induction fuel as [|fuel IH]; intros operation tr;
    destruct (truthy_bool (done operation)) eqn:Hd.
  - exists []. rewrite poll_done by done. by rewrite app_nil_r.
  - exists []. rewrite poll_O by done. by rewrite app_nil_r.
  - exists []. rewrite poll_done by done. split; [by rewrite app_nil_r | simpl; lia].
  - rewrite poll_S by done.
    destruct (sdk_getVideosOperation _ _) as [operation'|e|].
    + destruct (IH operation' (tr ++ poll_round operation)) as (ops & -> & Hlen).
      exists (operation :: ops). rewrite <-app_assoc. split; [done | simpl; lia].
    + exists [operation]. split; [done | simpl; lia].
    + exists [operation]. split; [done | simpl; lia].
Qed.

(** When the fuel runs out the loop has polled exactly [fuel] times. *)
Lemma poll_out_of_fuel fuel operation tr :
  (poll fuel operation tr).1 = OutOfFuel →
  ∃ operations,
    (poll fuel operation tr).2 = tr ++ poll_rounds operations
    ∧ length operations = fuel.
Proof.
  revert operation tr. induction fuel as [|fuel IH]; intros operation tr;
    destruct (truthy_bool (done operation)) eqn:Hd.
  - by rewrite poll_done.
  - exists []. rewrite poll_O by done. by rewrite app_nil_r.
  - by rewrite poll_done.
  - rewrite poll_S by done.
    destruct (sdk_getVideosOperation _ _) as [operation'|e|]; [|done..].
    intros (ops & -> & Hlen)%IH.
    exists (operation :: ops). rewrite <-app_assoc. split; [done | simpl; lia].
Qed.

(** More fuel does not change a result. *)
Lemma poll_fuel_mono fuel fuel' operation tr :
  (poll fuel operation tr).1 ≠ OutOfFuel →
  (fuel ≤ fuel')%nat →
  poll fuel' operation tr = poll fuel operation tr.
Proof.
  revert fuel' operation tr. induction fuel as [|fuel IH];
    intros fuel' operation tr Hne Hle;
    destruct (truthy_bool (done operation)) eqn:Hd.
  - by rewrite !poll_done.
  - by rewrite poll_O in Hne.
  - by rewrite !poll_done.
  - destruct fuel' as [|fuel']; [lia|].
    rewrite poll_S in Hne by done. rewrite !poll_S by done.
    destruct (sdk_getVideosOperation _ _); [|done..].
    apply IH; [done | lia].
Qed.

(** The loop exits exactly on a finished operation. *)
Lemma poll_fulfilled fuel operation tr operation' tr' :
  poll fuel operation tr = (Fulfilled operation', tr') →
  truthy_bool (done operation') = true.
Proof.
  revert operation tr. induction fuel as [|fuel IH]; intros operation tr;
    destruct (truthy_bool (done operation)) eqn:Hd.
  - rewrite poll_done by done. by intros [= <- _].
  - by rewrite poll_O.
  - rewrite poll_done by done. by intros [= <- _].
  - rewrite poll_S by done.
    destruct (sdk_getVideosOperation _ _); [apply IH | done..].
Qed.

(** Enough fuel: a service that needs at most [k] polls after [tr0] is
    polled at most [k] times. *)
Lemma poll_terminates k tr0 fuel d operation :
  finishes_within k tr0 →
  (k ≤ S fuel + count_if is_poll d)%nat →
  (poll (S fuel) operation (tr0 ++ d)).1 ≠ OutOfFuel.
Proof.
  intros Hk. revert d operation. induction fuel as [|fuel IH];
    intros d operation Hle;
    (destruct (truthy_bool (done operation)) eqn:Hd;
      [by rewrite poll_done | rewrite poll_S by done]);
    destruct (sdk_getVideosOperation _ _) as [operation'|e|] eqn:Hans;
    try done.
  - rewrite poll_done; [done|].
    rewrite <-app_assoc in Hans. eapply Hk; [|done].
    rewrite count_if_app. simpl. lia.
  - rewrite <-app_assoc. apply IH.
    rewrite count_if_app. unfold poll_round.
    rewrite !count_if_cons, count_if_nil. simpl. lia.
Qed.

End poll.

(** Counting the effects of polling rounds. *)
Section poll_rounds.
Implicit Types (operations : list Operation).

Lemma poll_rounds_cons operation operations :
  poll_rounds (operation :: operations)
  = poll_round operation ++ poll_rounds operations.
Proof. done. Qed.

Lemma poll_rounds_polls operations :
  count_if is_poll (poll_rounds operations) = length operations.
Proof.
  induction operations as [|o os IH]; [done|].
  rewrite poll_rounds_cons, count_if_app, IH. done.
Qed.

Lemma poll_rounds_timeouts operations :
  count_if is_timeout (poll_rounds operations) = length operations.
Proof.
  induction operations as [|o os IH]; [done|].
  rewrite poll_rounds_cons, count_if_app, IH. done.
Qed.

Lemma poll_rounds_fetches operations :
  count_if is_fetch (poll_rounds operations) = 0%nat.
Proof.
  induction operations as [|o os IH]; [done|].
  rewrite poll_rounds_cons, count_if_app, IH. done.
Qed.

Lemma total_timeout_app (tr1 tr2 : trace) :
  total_timeout (tr1 ++ tr2) = total_timeout tr1 + total_timeout tr2.
Proof.
  unfold total_timeout. induction tr1 as [|e tr1 IH]; simpl; [done|].
  destruct e; rewrite ?IH; lia.
Qed.

(** Every round waits ten seconds. *)
Lemma poll_rounds_total_timeout operations :
  total_timeout (poll_rounds operations) = 10000 * N.of_nat (length operations).
Proof.
  induction operations as [|o os IH]; [done|].
  rewrite poll_rounds_cons, total_timeout_app, IH.
  unfold total_timeout. simpl length. simpl foldr. lia.
Qed.

End poll_rounds.

#[export] Hint Rewrite poll_rounds_polls poll_rounds_timeouts
  poll_rounds_fetches poll_rounds_total_timeout total_timeout_app : js.

Arguments poll : simpl never.
Arguments collect : simpl never.

(** * [Promise.all] *)

Section promise_all.
Context {E A : Type}.
Implicit Types (ps : list (outcome E A)).

Lemma promise_all_fulfilled ps l :
  promise_all ps = Fulfilled l ↔ ps = Fulfilled <$> l.
Proof.
  revert l. induction ps as [|p ps IH]; intros l; simpl.
  - split; [by intros [= <-] | by destruct l].
  - destruct l as [|a l]; simpl.
    + split; [|done]. destruct p, (promise_all ps); done.
    + split.
      * destruct p, (promise_all ps) eqn:Hps; try done.
        intros [= -> ->]. f_equal. by apply IH.
      * intros [= -> ->]. by rewrite (proj2 (IH l) eq_refl).
Qed.

Lemma promise_all_length ps l :
  promise_all ps = Fulfilled l → length l = length ps.
Proof. intros ->%promise_all_fulfilled. by rewrite length_fmap. Qed.

(** [Promise.all] rejects exactly when one of the promises does,
    whether the others are fulfilled or never settle: one failed download
    fails the whole generation. *)
Theorem promise_all_rejected ps :
  (∃ e, promise_all ps = Rejected e) ↔ (∃ e, Rejected e ∈ ps).
Proof.
  induction ps as [|p ps IH]; simpl.
  - split; intros [e He]; [done | by apply elem_of_nil in He].
  - split.
    + intros [e He]. destruct p as [a|e'| |]; try (exists e'; by left);
        (destruct (promise_all ps) eqn:Hps; try done;
         destruct (proj1 IH) as [e'' ?]; [by eauto|]; exists e''; by right).
    + intros [e [<-|He]%elem_of_cons]; [by eauto|].
      destruct (proj2 IH) as [e' ->]; [by eauto|].
      destruct p; eauto.
Qed.

Lemma promise_all_out_of_fuel ps :
  promise_all ps = OutOfFuel → OutOfFuel ∈ ps.
Proof.
  induction ps as [|p ps IH]; simpl; [done|].
  destruct p, (promise_all ps); try done; intros _;
    first [by left | right; by apply IH].
Qed.

End promise_all.

(** * The downloads *)

Section fetch.
Context `{Env}.
Implicit Types (tr : trace) (videos : list GeneratedVideo).

Lemma bloblToBase64_emits blob : emits is_download (bloblToBase64 blob).
Proof. unfold bloblToBase64. eauto with js. Qed.

(** [bloblToBase64] never rejects, whatever the reader does: its
    promise has no [onerror] handler, so a read that fails leaves the
    promise, and the generation that awaits it, pending for ever. *)
Theorem bloblToBase64_not_rejected blob tr e :
  (bloblToBase64 blob tr).1 ≠ Rejected e.
Proof.
  unfold bloblToBase64, bind, call, ret.
  by destruct (env_readAsDataURL tr blob).
Qed.

Lemma bloblToBase64_fueled blob : fueled (bloblToBase64 blob).
Proof.
  unfold bloblToBase64. apply fueled_bind; [|eauto with js].
  apply fueled_call. intros tr. by destruct (env_readAsDataURL tr blob).
Qed.

Lemma fetch_finish_emits url : emits is_download (fetch_finish url).
Proof.
  unfold fetch_finish. apply emits_bind; [eauto with js|].
  intros res. destruct (negb (ok res)); eauto using bloblToBase64_emits with js.
Qed.

Lemma fetch_finish_fueled url : fueled (fetch_finish url).
Proof.
  unfold fetch_finish. apply fueled_bind; [eauto with js|].
  intros res. destruct (negb (ok res)); eauto using bloblToBase64_fueled with js.
Qed.

(** A startable callback calls [fetch] once, with the key appended. *)
Lemma fetch_start_startable generatedVideo tr :
  startable generatedVideo = true →
  ∃ url, fetch_start generatedVideo tr
         = (Fulfilled (fetch_url url), tr ++ [EFetch (fetch_url url)]).
Proof.
  unfold startable, fetch_start, video_uri, bind, lift.
  destruct (video generatedVideo) as [v|]; [|done].
  destruct (env_decodeURIComponent _) as [url|e]; [|done]. eauto.
Qed.

(** A callback that throws before [fetch] leaves no effect. *)
Lemma fetch_start_not_startable generatedVideo tr :
  startable generatedVideo = false →
  ∃ e, fetch_start generatedVideo tr = (Rejected e, tr).
Proof.
  unfold startable, fetch_start, video_uri, bind, lift.
  destruct (video generatedVideo) as [v|]; [|by eauto].
  destruct (env_decodeURIComponent _) as [url|e]; [done|]. eauto.
Qed.

Lemma start_all_length videos tr :
  length (start_all videos tr).1 = length videos.
Proof.
  revert tr. induction videos as [|v vs IH]; intros tr; simpl; [done|].
  destruct (fetch_start v tr) as [o tr1]. specialize (IH tr1).
  destruct (start_all vs tr1). simpl in *. by rewrite IH.
Qed.

(** [map] calls [fetch] once per startable video, in order, and every
    callback is then waiting for its answer or rejected. *)
Lemma start_all_spec videos tr :
  ∃ urls,
    (start_all videos tr).2 = tr ++ (EFetch ∘ fetch_url <$> urls)
    ∧ length urls = count_if startable videos
    ∧ Forall (λ o, is_settled o = true) (start_all videos tr).1.
Proof.
  revert tr. induction videos as [|v vs IH]; intros tr; simpl.
  { exists []. by rewrite app_nil_r. }
  rewrite count_if_cons. destruct (startable v) eqn:Hv.
  - destruct (fetch_start_startable v tr Hv) as [url ->].
    destruct (IH (tr ++ [EFetch (fetch_url url)])) as (urls & Htr & Hlen & Hs).
    destruct (start_all vs _) as [os tr2]. simpl in *. subst tr2.
    exists (url :: urls). rewrite <-app_assoc.
    split_and!; [done | simpl; lia | by constructor].
  - destruct (fetch_start_not_startable v tr Hv) as [e ->].
    destruct (IH tr) as (urls & Htr & Hlen & Hs).
    destruct (start_all vs _) as [os tr2]. simpl in *.
    exists urls. split_and!; [done.. | by constructor].
Qed.

(** What a callback is when it reaches its first [await] does not depend
    on the history. *)
Lemma fetch_start_outcome generatedVideo tr :
  (fetch_start generatedVideo tr).1 = (fetch_start generatedVideo []).1.
Proof.
  unfold fetch_start, video_uri, bind, lift.
  destruct (video generatedVideo) as [v|]; [|done].
  by destruct (env_decodeURIComponent _).
Qed.

Lemma start_all_outcomes videos tr :
  (start_all videos tr).1
  = (λ generatedVideo, (fetch_start generatedVideo []).1) <$> videos.
Proof.
  revert tr. induction videos as [|v vs IH]; intros tr; simpl; [done|].
  rewrite <-(fetch_start_outcome v tr).
  destruct (fetch_start v tr) as [o tr1]. specialize (IH tr1).
  destruct (start_all vs tr1). simpl in *. by rewrite IH.
Qed.

Lemma finish_all_length started tr :
  length (finish_all started tr).1 = length started.
Proof.
  revert tr. induction started as [|o os IH]; intros tr; simpl; [done|].
  destruct (finish_one o tr) as [r tr1].
  specialize (IH tr1). destruct (finish_all os tr1). simpl in *. by rewrite IH.
Qed.

Lemma finish_one_emits o : emits is_download (finish_one o).
Proof. destruct o; simpl; eauto using fetch_finish_emits with js. Qed.

Lemma finish_one_fueled o : is_settled o = true → fueled (finish_one o).
Proof. destruct o; simpl; eauto using fetch_finish_fueled with js; done. Qed.

(** The rest of the callbacks calls no [fetch] and runs out of no fuel. *)
Lemma finish_all_spec started tr :
  Forall (λ o, is_settled o = true) started →
  ∃ d, (finish_all started tr).2 = tr ++ d
       ∧ Forall (λ e, is_download e = true) d
       ∧ OutOfFuel ∉ (finish_all started tr).1.
Proof.
  intros Hs. revert tr. induction Hs as [|o os Ho _ IH]; intros tr.
  { exists []. simpl. rewrite app_nil_r. split_and!; [done..|]. by intros ?%elem_of_nil. }
  simpl.
  destruct (finish_one_emits o tr) as (d1 & Hd1 & HP1).
  pose proof (finish_one_fueled o Ho tr) as Hr.
  destruct (finish_one o tr) as [r tr1]. simpl in *. subst tr1.
  destruct (IH (tr ++ d1)) as (d2 & Hd2 & HP2 & Hrs).
  destruct (finish_all os _) as [rs tr2]. simpl in *. subst tr2.
  exists (d1 ++ d2). rewrite <-app_assoc.
  split_and!; [done | by apply Forall_app |].
  intros [?|?]%elem_of_cons; done.
Qed.

End fetch.

(** * The whole function *)

Section collect.
Context `{Env}.
Implicit Types (tr : trace) (operation : Operation).

Lemma collect_no_videos operation tr :
  videos_of operation = [] →
  collect operation tr = (Rejected No_videos_generated, tr).
Proof.
  unfold videos_of, collect. destruct (response operation) as [resp|]; [|done].
  simpl. destruct (generatedVideos resp) as [[|v vs]|]; done.
Qed.

Lemma collect_videos operation tr :
  videos_of operation ≠ [] →
  collect operation tr =
    let '(started, tr1) := start_all (videos_of operation) tr in
    let '(results, tr2) := finish_all started tr1 in
    (promise_all results, tr2).
Proof.
  unfold videos_of, collect. destruct (response operation) as [resp|]; [|done].
  simpl. destruct (generatedVideos resp) as [[|v vs]|]; done.
Qed.

(** What [collect] leaves in the trace: one [fetch] per startable video,
    then the reads of the answers. *)
Lemma collect_trace operation tr :
  ∃ urls d,
    (collect operation tr).2 = tr ++ (EFetch ∘ fetch_url <$> urls) ++ d
    ∧ length urls = count_if startable (videos_of operation)
    ∧ Forall (λ e, is_download e = true) d.
Proof.
  destruct (decide (videos_of operation = [])) as [Hv|Hv].
  { rewrite collect_no_videos, Hv by done. exists [], []. by rewrite app_nil_r. }
  rewrite collect_videos by done.
  destruct (start_all_spec (videos_of operation) tr) as (urls & Htr1 & Hlen & Hs).
  destruct (start_all _ tr) as [started tr1]. simpl in *. subst tr1.
  destruct (finish_all_spec started (tr ++ (EFetch ∘ fetch_url <$> urls)) Hs)
    as (d & Htr2 & Hd & _).
  destruct (finish_all started _) as [results tr2]. simpl in *. subst tr2.
  exists urls, d. by rewrite <-app_assoc.
Qed.

Lemma collect_fueled operation : fueled (collect operation).
Proof.
  intros tr. destruct (decide (videos_of operation = [])) as [Hv|Hv].
  { by rewrite collect_no_videos. }
  rewrite collect_videos by done.
  destruct (start_all_spec (videos_of operation) tr) as (urls & _ & _ & Hs).
  destruct (start_all _ tr) as [started tr1]. simpl in *.
  destruct (finish_all_spec started tr1 Hs) as (d & _ & _ & Hoof).
  destruct (finish_all started _) as [results tr2]. simpl in *.
  by intros ?%promise_all_out_of_fuel.
Qed.

(** A fulfilled [collect] has one value per generated video. *)
Lemma collect_fulfilled operation tr l tr' :
  collect operation tr = (Fulfilled l, tr') →
  length l = length (videos_of operation) ∧ videos_of operation ≠ [].
Proof.
  destruct (decide (videos_of operation = [])) as [Hv|Hv].
  { by rewrite collect_no_videos. }
  rewrite collect_videos by done.
  pose proof (start_all_length (videos_of operation) tr) as Hl1.
  destruct (start_all _ tr) as [started tr1].
  pose proof (finish_all_length started tr1) as Hl2.
  destruct (finish_all started _) as [results tr2]. simpl in *.
  intros [= Hall _]. apply promise_all_length in Hall. split; [congruence | done].
Qed.

End collect.

(** * The values of the result

    What every element of the result satisfies, from what the blobs of
    the environment satisfy ([B]) and what [bloblToBase64] makes of such
    a blob ([Q]). *)

Section yields.
Context `{Env} (B : Blob → Prop) (Q : option jsstring → Prop).
Context (Hblob : ∀ tr res blob, env_blob tr res = Resolves blob → B blob).
Context (HQ : ∀ blob, B blob → yields Q (bloblToBase64 blob)).

Lemma fetch_finish_yields url : yields Q (fetch_finish url).
Proof.
  unfold fetch_finish. apply yields_bind. intros res.
  destruct (negb (ok res)); [apply yields_throw|].
  eapply yields_bind_strong; [|apply HQ].
  apply yields_call. intros tr blob Hb. apply (Hblob tr res).
  by destruct (env_blob tr res); simplify_eq/=.
Qed.

Lemma finish_one_yields o : yields Q (finish_one o).
Proof.
  destruct o; simpl;
    [apply fetch_finish_yields | apply yields_throw | by apply yields_lift
    | apply yields_out_of_fuel].
Qed.

Lemma finish_all_yields started tr :
  Forall (λ r, ∀ a, r = Fulfilled a → Q a) (finish_all started tr).1.
Proof.
  revert tr. induction started as [|o os IH]; intros tr; simpl; [done|].
  pose proof (finish_one_yields o tr) as Ho.
  destruct (finish_one o tr) as [r tr1]. specialize (IH tr1).
  destruct (finish_all os tr1) as [rs tr2]. constructor; [|done].
  intros a ->. by eapply Ho.
Qed.

Lemma collect_yields operation : yields (Forall Q) (collect operation).
Proof.
  intros tr l tr'. destruct (decide (videos_of operation = [])) as [Hv|Hv].
  { by rewrite collect_no_videos. }
  rewrite collect_videos by done.
  destruct (start_all _ tr) as [started tr1].
  pose proof (finish_all_yields started tr1) as Hall.
  destruct (finish_all started tr1) as [results tr2]. simpl in *.
  intros [= ->%promise_all_fulfilled _].
  apply Forall_fmap in Hall. eapply Forall_impl; [done|]. simpl. eauto.
Qed.

Lemma generateVideoFromText_yields fuel prompt numberOfVideos :
  yields (Forall Q) (generateVideoFromText fuel prompt numberOfVideos).
Proof.
  unfold generateVideoFromText. do 2 (apply yields_bind; intros ?).
  apply collect_yields.
Qed.

End yields.

Section generateVideoFromText.
Context `{Env}.
Implicit Types (tr : trace) (prompt : jsstring) (fuel : nat).

(** Unfolding the function once the request is answered. *)
Lemma generateVideoFromText_run fuel prompt numberOfVideos tr :
  generateVideoFromText fuel prompt numberOfVideos tr =
    let tr1 := tr ++ [EGenerateVideos (request prompt numberOfVideos)] in
    match sdk_generateVideos tr (request prompt numberOfVideos) with
    | Resolves operation => bind (poll fuel operation) collect tr1
    | Rejects e => (Rejected e, tr1)
    | NeverSettles => (Pending, tr1)
    end.
Proof.
  unfold generateVideoFromText, bind at 1, call.
  by destruct (sdk_generateVideos _ _).
Qed.

(** With enough fuel for the loop, the loop followed by the downloads
    does not run out of fuel. *)
Lemma poll_collect_fueled k fuel operation tr0 :
  finishes_within k tr0 → (k ≤ S fuel)%nat →
  (bind (poll (S fuel) operation) collect tr0).1 ≠ OutOfFuel.
Proof.
  intros Hk Hle. pose proof (poll_terminates k _ fuel [] operation Hk) as Hp.
  rewrite app_nil_r in Hp. unfold bind.
  destruct (poll (S fuel) operation _) as [[op| | |] tr1]; simpl in *;
    [apply collect_fueled | done.. | exfalso; apply Hp; [simpl; lia | done]].
Qed.

(** C5: when [generateVideoFromText] resolves, the array it resolves with
    is not empty: the function throws [No videos generated] before it
    would return an empty one, so the callers' test
    [videoObjects.length === 0] (lines 141, 194) never holds. *)
Theorem generateVideoFromText_nonempty fuel prompt numberOfVideos tr l tr' :
  generateVideoFromText fuel prompt numberOfVideos tr = (Fulfilled l, tr') →
  l ≠ [].
Proof.
  rewrite generateVideoFromText_run. simpl.
  destruct (sdk_generateVideos _ _) as [operation|e|]; [|done..].
  intros (op & tr1 & _ & [Hlen Hv]%collect_fulfilled)%bind_fulfilled.
  destruct l; [|done]. by destruct (videos_of op).
Qed.

(** C2: termination of the polling loop. When the service reports the
    operation done within [k] polls, a model with at least [k] units of
    fuel does not run out of it: the call settles or waits for the
    environment, whatever else the environment answers. *)
Theorem generateVideoFromText_terminates k fuel prompt numberOfVideos tr :
  finishes_within k (tr ++ [EGenerateVideos (request prompt numberOfVideos)]) →
  (k ≤ S fuel)%nat →
  (generateVideoFromText (S fuel) prompt numberOfVideos tr).1 ≠ OutOfFuel.
Proof.
  intros Hk Hle. rewrite generateVideoFromText_run. simpl.
  destruct (sdk_generateVideos _ _) as [operation|e|]; [|done..].
  by eapply poll_collect_fueled.
Qed.

(** Fuel is only a bound on the model. A run that does not run out
    of fuel is the same run, outcome and trace, with any larger fuel. *)
Theorem generateVideoFromText_fuel_mono fuel fuel' prompt numberOfVideos tr :
  (generateVideoFromText fuel prompt numberOfVideos tr).1 ≠ OutOfFuel →
  (fuel ≤ fuel')%nat →
  generateVideoFromText fuel' prompt numberOfVideos tr
  = generateVideoFromText fuel prompt numberOfVideos tr.
Proof.
  rewrite !generateVideoFromText_run. simpl.
  destruct (sdk_generateVideos _ _) as [operation|e|]; [|done..].
  intros Hne Hle. unfold bind in *.
  rewrite (poll_fuel_mono fuel fuel'); [done | | done].
  by destruct (poll fuel operation _) as [[]].
Qed.

(** C6: the protocol of one call of [generateVideoFromText], whatever the
    environment answers: one request with the model name and the prompt,
    then rounds of a ten-second timeout, a log line and a poll, then the
    fetches of the download URLs, all started before any body is read,
    then the reads. *)
Theorem generateVideoFromText_trace fuel prompt numberOfVideos tr :
  ∃ operations urls d,
    (generateVideoFromText fuel prompt numberOfVideos tr).2
    = tr ++ EGenerateVideos (request prompt numberOfVideos)
         :: poll_rounds operations ++ (EFetch ∘ fetch_url <$> urls) ++ d
    ∧ (length operations ≤ fuel)%nat
    ∧ Forall (λ e, is_download e = true) d.
Proof.
  rewrite generateVideoFromText_run. simpl.
  destruct (sdk_generateVideos _ _) as [operation|e|];
    [|exists [], [], []; split_and!; [done | simpl; lia | done]..].
  unfold bind.
  destruct (poll_trace fuel operation
              (tr ++ [EGenerateVideos (request prompt numberOfVideos)]))
    as (ops & Htr & Hlen).
  destruct (poll fuel operation _) as [[op| | |] tr1]; simpl in *; subst tr1;
    [|exists ops, [], []; split_and!; [by rewrite <-app_assoc, !app_nil_r | done..]..].
  destruct (collect_trace op
      ((tr ++ [EGenerateVideos (request prompt numberOfVideos)]) ++ poll_rounds ops))
    as (urls & d & -> & _ & Hd).
  exists ops, urls, d. rewrite <-!app_assoc. by split_and!.
Qed.

(** C18: the error path of lines 56-58. A finished operation without
    videos makes the function throw [No videos generated], and no [fetch]
    is made. *)
Theorem generateVideoFromText_no_videos fuel prompt numberOfVideos tr
    operation operation' tr1 :
  sdk_generateVideos tr (request prompt numberOfVideos) = Resolves operation →
  poll fuel operation
    (tr ++ [EGenerateVideos (request prompt numberOfVideos)])
  = (Fulfilled operation', tr1) →
  videos_of operation' = [] →
  generateVideoFromText fuel prompt numberOfVideos tr
  = (Rejected No_videos_generated, tr1)
  ∧ count_if is_fetch tr1 = count_if is_fetch tr.
Proof.
  intros Hgen Hpoll Hv. rewrite generateVideoFromText_run, Hgen. simpl.
  unfold bind. rewrite Hpoll, collect_no_videos by done. split; [done|].
  destruct (poll_trace fuel operation
              (tr ++ [EGenerateVideos (request prompt numberOfVideos)]))
    as (ops & Htr & _).
  rewrite Hpoll in Htr. simpl in Htr. subst tr1.
  rewrite !count_if_app, poll_rounds_fetches, count_if_cons, count_if_nil.
  simpl. lia.
Qed.

End generateVideoFromText.

(** * What is read from a data URL *)

Section dataurl.
Context `{Env}.
Implicit Types (tr : trace) (blob : Blob).

(** When the reader delivers [url] the promise resolves with its second
    piece. *)
Lemma bloblToBase64_run blob tr url :
  env_readAsDataURL tr blob = Some url →
  bloblToBase64 blob tr
  = (Fulfilled (split comma url !! 1%nat), tr ++ [EReadAsDataURL blob]).
Proof. intros Hurl. unfold bloblToBase64, bind, call, ret. by rewrite Hurl. Qed.

(** [bloblToBase64] on a data URL whose media type has no comma
    resolves with what stands between the first comma and the next one
    (or the end): the base64 payload of [data:<type>;base64,<payload>]. *)
Theorem bloblToBase64_payload blob tr header payload rest :
  comma ∉ header → comma ∉ payload →
  env_readAsDataURL tr blob
  = Some (header ++ comma :: payload ++ match rest with
                                       | [] => []
                                       | _ => comma :: rest
                                       end) →
  bloblToBase64 blob tr = (Fulfilled (Some payload), tr ++ [EReadAsDataURL blob]).
Proof.
  intros Hh Hp Hurl. rewrite (bloblToBase64_run _ _ _ Hurl).
  f_equal. f_equal. rewrite split_app_sep by done.
  destruct rest as [|c rest].
  - by rewrite app_nil_r, split_no_occurrence.
  - by rewrite split_app_sep.
Qed.

(** When the reader's result has no comma, [url.split(',')[1]] is
    undefined and the promise resolves with it; the caller then builds the
    source [data:video/mp4;base64,undefined]. *)
Theorem bloblToBase64_no_comma blob tr url :
  comma ∉ url →
  env_readAsDataURL tr blob = Some url →
  bloblToBase64 blob tr = (Fulfilled None, tr ++ [EReadAsDataURL blob]).
Proof.
  intros Hc Hurl. rewrite (bloblToBase64_run _ _ _ Hurl).
  by rewrite split_no_occurrence.
Qed.

End dataurl.

(** * Liveness *)

Lemma promise_all_pending {E A} (ps : list (outcome E A)) :
  promise_all ps = Pending → Pending ∈ ps.
Proof.
  induction ps as [|p ps IH]; simpl; [done|].
  destruct p, (promise_all ps); try done; intros _;
    first [by left | right; by apply IH].
Qed.

Section liveness.
Context `{Env} (Hresp : responsive).
Implicit Types (tr : trace) (fuel : nat).

Lemma poll_lively fuel operation : lively (poll fuel operation).
Proof.
  revert operation. induction fuel as [|fuel IH]; intros operation tr;
    destruct (truthy_bool (done operation)) eqn:Hd;
    rewrite ?poll_done, ?poll_O by done; try done.
  rewrite poll_S by done.
  pose proof (getVideosOperation_settles Hresp
    (tr ++ [ESetTimeout 10000; EConsoleLog [lit "...Generating..."]]) operation).
  destruct (sdk_getVideosOperation _ _); [apply IH | done..].
Qed.

Lemma bloblToBase64_lively blob : lively (bloblToBase64 blob).
Proof.
  unfold bloblToBase64. apply lively_bind; [|eauto with js].
  apply lively_call. intros tr. pose proof (reader_loads Hresp tr blob).
  by destruct (env_readAsDataURL tr blob).
Qed.

Lemma fetch_finish_lively url : lively (fetch_finish url).
Proof.
  unfold fetch_finish. apply lively_bind.
  { apply lively_receive. intros tr. apply await_resolves, Hresp. }
  intros res. destruct (negb (ok res)); [eauto with js|].
  apply lively_bind; [|apply bloblToBase64_lively].
  apply lively_call. intros tr. apply await_resolves, Hresp.
Qed.

Lemma finish_one_lively o : is_settled o = true → lively (finish_one o).
Proof. destruct o; simpl; eauto using fetch_finish_lively with js; done. Qed.

Lemma finish_all_lively started tr :
  Forall (λ o, is_settled o = true) started →
  Pending ∉ (finish_all started tr).1.
Proof.
  intros Hs. revert tr. induction Hs as [|o os Ho _ IH]; intros tr; simpl.
  { by intros ?%elem_of_nil. }
  pose proof (finish_one_lively o Ho tr) as Hr.
  destruct (finish_one o tr) as [r tr1]. specialize (IH tr1).
  destruct (finish_all os tr1) as [rs tr2]. simpl in *.
  by intros [?|?]%elem_of_cons.
Qed.

Lemma collect_lively operation : lively (collect operation).
Proof.
  intros tr. destruct (decide (videos_of operation = [])) as [Hv|Hv].
  { by rewrite collect_no_videos. }
  rewrite collect_videos by done.
  destruct (start_all_spec (videos_of operation) tr) as (urls & _ & _ & Hs).
  destruct (start_all _ tr) as [started tr1]. simpl in *.
  pose proof (finish_all_lively started tr1 Hs) as Hp.
  destruct (finish_all started _) as [results tr2]. simpl in *.
  by intros ?%promise_all_pending.
Qed.

Lemma generateVideoFromText_lively fuel prompt numberOfVideos :
  lively (generateVideoFromText fuel prompt numberOfVideos).
Proof.
  unfold generateVideoFromText. apply lively_bind.
  { apply lively_call. intros tr. apply await_resolves, Hresp. }
  intros operation. apply lively_bind; [apply poll_lively|].
  apply collect_lively.
Qed.

(** When every request to the environment is answered and the service
    reports the operation done within [k] polls, [generateVideoFromText]
    with fuel at least [k] settles: it resolves with the videos or rejects
    with an error. *)
Lemma generateVideoFromText_settles k fuel prompt numberOfVideos tr :
  finishes_within k (tr ++ [EGenerateVideos (request prompt numberOfVideos)]) →
  (k ≤ S fuel)%nat →
  is_settled (generateVideoFromText (S fuel) prompt numberOfVideos tr).1 = true.
Proof.
  intros Hk Hle. apply is_settled_true; [apply generateVideoFromText_lively|].
  rewrite generateVideoFromText_run. simpl.
  destruct (sdk_generateVideos _ _) as [operation|e|]; [|done..].
  by eapply poll_collect_fueled.
Qed.

End liveness.

(** * The scripted service *)

(** The scripted service answers every request when it has a data URL to
    deliver. *)
Lemma scripted_responsive n videos dataurl :
  responsive (H:=scripted_env n videos (Some dataurl)).
Proof. split; intros; simpl; try done. by case_bool_decide. Qed.


(** The scripted service finishes within the polls it is scripted for. *)
Lemma scripted_finishes_within n videos dataurl tr0 :
  finishes_within (H:=scripted_env n videos dataurl) n tr0.
Proof.
  intros d operation operation' Hn. simpl.
  rewrite bool_decide_eq_true_2 by (rewrite count_if_app; lia).
  by intros [= <-].
Qed.

(** * The theorems on the concrete run *)

Lemma generateVideoFromText_nonempty_witness :
  ∃ l, (generateVideoFromText (H:=example_env) 2 example_prompt 1 []).1
       = Fulfilled l ∧ l ≠ [].
Proof.
  eexists. split; [vm_compute; reflexivity|].
  apply (generateVideoFromText_nonempty (H:=example_env) 2 example_prompt 1 []
           _ (generateVideoFromText (H:=example_env) 2 example_prompt 1 []).2).
  vm_compute. reflexivity.
Defined.

Lemma generateVideoFromText_terminates_witness :
  finishes_within (H:=example_env) 2
    ([] ++ [EGenerateVideos (request example_prompt 1)])
  ∧ (generateVideoFromText (H:=example_env) 2 example_prompt 1 []).1
    ≠ OutOfFuel.
Proof.
  pose proof (scripted_finishes_within 2 (Some example_videos)
                (Some example_dataurl)
                ([] ++ [EGenerateVideos (request example_prompt 1)])) as Hk.
  split; [exact Hk|].
  apply (generateVideoFromText_terminates (H:=example_env) 2 1
           example_prompt 1 [] Hk).
  lia.
Defined.

Lemma generateVideoFromText_fuel_mono_witness :
  generateVideoFromText (H:=example_env) 5 example_prompt 1 []
  = generateVideoFromText (H:=example_env) 2 example_prompt 1 [].
Proof.
  apply (generateVideoFromText_fuel_mono (H:=example_env) 2 5
           example_prompt 1 []); [by vm_compute | lia].
Defined.

Lemma generateVideoFromText_no_videos_witness :
  ∃ tr1, generateVideoFromText (H:=empty_env) 1 example_prompt 1 []
         = (Rejected No_videos_generated, tr1)
         ∧ count_if is_fetch tr1 = 0%nat.
Proof.
  eexists.
  eapply (generateVideoFromText_no_videos (H:=empty_env) 1 example_prompt 1 []);
    [reflexivity | vm_compute; reflexivity | reflexivity].
Defined.

Lemma bloblToBase64_payload_witness :
  bloblToBase64 (H:=example_env) (mkBlob (lit "video/mp4") [0; 1; 2]) []
  = (Fulfilled (Some (lit "AAAA")),
     [EReadAsDataURL (mkBlob (lit "video/mp4") [0; 1; 2])]).
Proof.
  apply (bloblToBase64_payload (H:=example_env) _ []
           (lit "data:video/mp4;base64") (lit "AAAA") []);
    [compute_done | compute_done | reflexivity].
Defined.

Lemma bloblToBase64_no_comma_witness :
  bloblToBase64 (H:=scripted_env 1 None (Some (lit "AAAA")))
    (mkBlob (lit "video/mp4") [0; 1; 2]) []
  = (Fulfilled None, [EReadAsDataURL (mkBlob (lit "video/mp4") [0; 1; 2])]).
Proof.
  apply (bloblToBase64_no_comma (H:=scripted_env 1 None (Some (lit "AAAA")))
           _ [] (lit "AAAA")); [compute_done | reflexivity].
Defined.
