(* ===== verification/Loop.v ===== *)
(** * The generation workflow without fuel

    [Generate.poll] bounds the loop of [src/unnamed/part_000], lines 50-54,
    by its fuel. This file gives the loop and [generateVideoFromText]
    (lines 37-78) their natural semantics, an inductive predicate with one
    rule per way an iteration can go and no bound, and shows that the
    bounded functions compute exactly what the predicates derive: a run
    with enough fuel is a derivation, and every derivation is the run with
    any fuel above its number of iterations. A loop the service never
    lets finish has no derivation, and no fuel is enough for it. *)

From S2P Require Import Prelude JsString Types Env Generate.

#[local] Open Scope N_scope.

Section natural.
Context `{Env}.
Implicit Types (operation : Operation) (tr : trace) (fuel : nat).

(** The history in which the answer to a poll is read: the timeout has
    fired and the line is logged (lines 51-52). *)
Definition before_poll (tr : trace) : trace :=
  tr ++ [ESetTimeout 10000; EConsoleLog [lit "...Generating..."]].

(** [polls operation tr o tr']: started on [operation] with the history
    [tr], the loop of lines 50-54 ends with the outcome [o] and the
    history [tr']. *)
Inductive polls :
  Operation → trace → outcome JsError Operation → trace → Prop :=
| polls_done operation tr :
    truthy_bool (done operation) = true →
    polls operation tr (Fulfilled operation) tr
| polls_again operation tr operation' o tr' :
    truthy_bool (done operation) = false →
    sdk_getVideosOperation (before_poll tr) operation = Resolves operation' →
    polls operation' (tr ++ poll_round operation) o tr' →
    polls operation tr o tr'
| polls_rejected operation tr e :
    truthy_bool (done operation) = false →
    sdk_getVideosOperation (before_poll tr) operation = Rejects e →
    polls operation tr (Rejected e) (tr ++ poll_round operation)
| polls_pending operation tr :
    truthy_bool (done operation) = false →
    sdk_getVideosOperation (before_poll tr) operation = NeverSettles →
    polls operation tr Pending (tr ++ poll_round operation).

(** The history once the request of lines 41-48 is made. *)
Definition requested (prompt : jsstring) (numberOfVideos : N) (tr : trace) :
  trace :=
  tr ++ [EGenerateVideos (request prompt numberOfVideos)].

(** [generates prompt numberOfVideos tr o tr']: a call of
    [generateVideoFromText] (lines 37-78) settles with, or waits for ever
    as, [o], and leaves the history [tr']. *)
Inductive generates (prompt : jsstring) (numberOfVideos : N) (tr : trace) :
  outcome JsError (list (option jsstring)) → trace → Prop :=
| generates_request_rejected e :
    sdk_generateVideos tr (request prompt numberOfVideos) = Rejects e →
    generates prompt numberOfVideos tr (Rejected e)
      (requested prompt numberOfVideos tr)
| generates_request_pending :
    sdk_generateVideos tr (request prompt numberOfVideos) = NeverSettles →
    generates prompt numberOfVideos tr Pending
      (requested prompt numberOfVideos tr)
| generates_poll_rejected operation e tr1 :
    sdk_generateVideos tr (request prompt numberOfVideos) = Resolves operation →
    polls operation (requested prompt numberOfVideos tr) (Rejected e) tr1 →
    generates prompt numberOfVideos tr (Rejected e) tr1
| generates_poll_pending operation tr1 :
    sdk_generateVideos tr (request prompt numberOfVideos) = Resolves operation →
    polls operation (requested prompt numberOfVideos tr) Pending tr1 →
    generates prompt numberOfVideos tr Pending tr1
| generates_collect operation operation' tr1 o tr' :
    sdk_generateVideos tr (request prompt numberOfVideos) = Resolves operation →
    polls operation (requested prompt numberOfVideos tr)
      (Fulfilled operation') tr1 →
    collect operation' tr1 = (o, tr') →
    generates prompt numberOfVideos tr o tr'.

(** After the history [tr0] the service never reports an operation
    done. *)
Definition never_done (tr0 : trace) : Prop :=
  ∀ d operation,
    ∃ operation',
      sdk_getVideosOperation (tr0 ++ d) operation = Resolves operation'
      ∧ truthy_bool (done operation') = false.

End natural.

(** A service that accepts the request and then answers every poll with
    an operation that is not done. *)
Definition endless_env : Env := {|
  API_KEY := Some (lit "KEY");
  sdk_generateVideos _ p := Resolves (mkOperation (lit "op/1") None None);
  sdk_getVideosOperation _ operation :=
    Resolves (mkOperation (name operation) (Some false) None);
  env_decodeURIComponent s := Normal s;
  env_fetch _ _ := Resolves (mkResponse true 200 (lit "OK"));
  env_blob _ _ := Resolves (mkBlob (lit "video/mp4") []);
  env_readAsDataURL _ _ := None;
  env_randomUUID _ := Normal (lit "uuid");
  env_now _ := 0%Z;
|}.

Section natural_lemmas.
Context `{Env}.
Implicit Types (operation : Operation) (tr : trace) (fuel : nat).

(** * The loop *)

Lemma polls_not_out_of_fuel operation tr o tr' :
  polls operation tr o tr' → o ≠ OutOfFuel.
Proof. by induction 1. Qed.

(** A run of the bounded loop that does not run out of fuel is a
    derivation. *)
Lemma poll_sound fuel operation tr o tr' :
  poll fuel operation tr = (o, tr') → o ≠ OutOfFuel → polls operation tr o tr'.
Proof.
  revert operation tr. induction fuel as [|fuel IH]; intros operation tr;
    destruct (truthy_bool (done operation)) eqn:Hd;
    rewrite ?poll_done, ?poll_O, ?poll_S by done;
    try (intros [= <- <-]; by first [constructor | intros []]).
  destruct (sdk_getVideosOperation _ _) as [operation'|e|] eqn:Hans.
  - intros Hp Ho. eapply polls_again; [done..|]. by apply IH.
  - intros [= <- <-] _. by apply polls_rejected.
  - intros [= <- <-] _. by apply polls_pending.
Qed.

(** A derivation is the run of the bounded loop with any fuel above its
    number of iterations. *)
Lemma poll_complete operation tr o tr' :
  polls operation tr o tr' →
  ∃ fuel1, ∀ fuel, (fuel1 ≤ fuel)%nat → poll fuel operation tr = (o, tr').
Proof.
  induction 1 as [operation tr Hd|operation tr operation' o tr' Hd Hans _ IH
                 |operation tr e Hd Hans|operation tr Hd Hans].
  - exists 0%nat. intros fuel _. by apply poll_done.
  - destruct IH as [fuel1 IH]. exists (S fuel1). intros [|fuel] Hle; [lia|].
    rewrite poll_S by done. unfold before_poll in Hans. rewrite Hans.
    apply IH. lia.
  - exists 1%nat. intros [|fuel] Hle; [lia|].
    rewrite poll_S by done. unfold before_poll in Hans. by rewrite Hans.
  - exists 1%nat. intros [|fuel] Hle; [lia|].
    rewrite poll_S by done. unfold before_poll in Hans. by rewrite Hans.
Qed.

(** The loop has at most one outcome. *)
Lemma polls_deterministic operation tr o1 tr1 o2 tr2 :
  polls operation tr o1 tr1 → polls operation tr o2 tr2 →
  o1 = o2 ∧ tr1 = tr2.
Proof.
  intros [f1 H1]%poll_complete [f2 H2]%poll_complete.
  pose proof (H1 (f1 `max` f2)%nat ltac:(lia)) as E1.
  pose proof (H2 (f1 `max` f2)%nat ltac:(lia)) as E2.
  rewrite E1 in E2. by injection E2.
Qed.

(** C39: a loop that the service never lets finish diverges: the bounded
    loop runs out of any fuel, and the loop has no outcome at all, not
    even a rejection: [generateVideoFromText] has no timeout and no limit
    on the number of polls. *)
Theorem poll_diverges operation tr :
  never_done tr →
  truthy_bool (done operation) = false →
  (∀ fuel, (poll fuel operation tr).1 = OutOfFuel)
  ∧ ¬ ∃ o tr', polls operation tr o tr'.
Proof.
  intros Hnever Hd.
  assert (∀ fuel d operation, truthy_bool (done operation) = false →
            (poll fuel operation (tr ++ d)).1 = OutOfFuel) as Hall.
  { clear operation Hd. induction fuel as [|fuel IH]; intros d operation Hd.
    - by rewrite poll_O.
    - rewrite poll_S by done. rewrite <-app_assoc.
      destruct (Hnever (d ++ [ESetTimeout 10000;
                              EConsoleLog [lit "...Generating..."]])
                  operation) as (operation' & -> & Hd').
      rewrite <-app_assoc. by apply IH. }
  split.
  - intros fuel. specialize (Hall fuel [] operation Hd).
    by rewrite app_nil_r in Hall.
  - intros (o & tr' & Hp).
    pose proof (polls_not_out_of_fuel _ _ _ _ Hp) as Hne.
    apply poll_complete in Hp as [fuel1 Hp].
    specialize (Hall fuel1 [] operation Hd).
    by rewrite app_nil_r, Hp in Hall.
Qed.

(** * The function *)

(** C38: the bounded model of [generateVideoFromText] computes the
    natural semantics of the function. A call has the outcome [o] and
    leaves the history [tr'] exactly when the model, given some fuel,
    returns them without running out of it. *)
Theorem generateVideoFromText_natural prompt numberOfVideos tr o tr' :
  generates prompt numberOfVideos tr o tr'
  ↔ ∃ fuel, generateVideoFromText fuel prompt numberOfVideos tr = (o, tr')
            ∧ o ≠ OutOfFuel.
Proof.
  split.
  - intros Hg. destruct Hg as [e He|He|op e tr1 Hop Hp|op tr1 Hop Hp
                              |op op' tr1 o tr' Hop Hp Hc];
      try apply poll_complete in Hp as [fuel1 Hp];
      try specialize (Hp fuel1 (le_n _));
      first [exists fuel1 | exists 0%nat];
      rewrite generateVideoFromText_run; simpl;
      rewrite ?He, ?Hop; unfold bind; unfold requested in *;
      rewrite ?Hp; split; try done.
    pose proof (collect_fueled op' tr1) as Hf. by rewrite Hc in Hf.
  - intros (fuel & Hrun & Ho). rewrite generateVideoFromText_run in Hrun.
    simpl in Hrun.
    destruct (sdk_generateVideos _ _) as [op|e|] eqn:Hop;
      [|injection Hrun as <- <-; by constructor..].
    unfold bind in Hrun.
    destruct (poll fuel op _) as [[op'|e| |] tr1] eqn:Hp;
      try (injection Hrun as <- <-); try done;
      apply poll_sound in Hp; try done;
      eauto using generates_poll_rejected, generates_poll_pending,
        generates_collect.
Qed.

End natural_lemmas.

(** * On a service that never finishes *)

Lemma endless_never_done tr0 : never_done (H:=endless_env) tr0.
Proof. intros d operation. by eexists. Qed.

Lemma poll_diverges_witness :
  (∀ fuel,
     (poll (H:=endless_env) fuel (mkOperation (lit "op/1") None None) []).1
     = OutOfFuel)
  ∧ ¬ ∃ o tr',
        polls (H:=endless_env) (mkOperation (lit "op/1") None None) [] o tr'.
Proof.
  apply (poll_diverges (H:=endless_env) (mkOperation (lit "op/1") None None) []
           (endless_never_done [])).
  reflexivity.
Defined.
