(* ===== verification/App.v ===== *)
(** * The [App] component: its state, its handlers, what it renders

    [src/unnamed/part_000], lines 84-344.

    - [AppState] is the eleven [useState] cells of lines 85-99 and [Update]
      the calls of their setters. A handler is the list of the setter calls
      it makes, in program order ([apply_all] runs them); a functional
      update ([setVideos(cur => ...)]) is a function, a plain one a value.
    - The two asynchronous handlers are split at their [await]:
      [handleSaveEdit_begin] and [handleGenerateNewVideo_begin] are the
      calls before it, [handleSaveEdit_settled] and
      [handleGenerateNewVideo_settled] the [try], [catch] and [finally]
      code that runs once the generation settles, as a function of its
      outcome and of the identifier and date the environment provides.
      [handleSaveEdit] and [handleGenerateNewVideo] compose them with
      [Generate.generateVideoFromText] in the environment.
    - [render] is the JSX of lines 236-343 reduced to what decides the
      behaviour: which component is mounted with which props, which
      controls are disabled. [enabled] says which handlers the rendered
      tree can call: the model lets the user (or the video element) fire
      any handler wired to a mounted, enabled control.
    - [step] is the resulting transition system on a [Config]: the state
      and the generations in flight. *)

From S2P Require Import Prelude JsString Types Env Generate.

#[local] Open Scope N_scope.
#[local] Open Scope js_scope.

(** * State *)

Inductive View := gallery | history.

#[export] Instance View_eq_dec : EqDecision View.
Proof. solve_decision. Defined.

(** Lines 85-99. *)
Record AppState := mkApp {
  videos : list Video;
  playingVideo : option Video;
  editingVideo : option Video;
  isSaving : bool;
  savingMessage : jsstring;
  generationError : option (list jsstring);
  view : View;
  generatedVideosHistory : list HistoryVideo;
  newVideoPrompt : jsstring;
  loadingVideoId : option jsstring;
  isPlaying : bool;
}.

(** The initial values of lines 85-99; [MOCK_VIDEOS] is imported from
    [./constants]. *)
Definition init (MOCK_VIDEOS : list Video) : AppState := {|
  videos := MOCK_VIDEOS;
  playingVideo := None;
  editingVideo := None;
  isSaving := false;
  savingMessage := [];
  generationError := None;
  view := gallery;
  generatedVideosHistory := [];
  newVideoPrompt := [];
  loadingVideoId := None;
  isPlaying := false;
|}.

(** A call of a state setter. *)
Inductive Update :=
| setVideos (f : list Video → list Video)
| setPlayingVideo (v : option Video)
| setEditingVideo (v : option Video)
| setIsSaving (b : bool)
| setSavingMessage (s : jsstring)
| setGenerationError (e : option (list jsstring))
| setView (v : View)
| setGeneratedVideosHistory (f : list HistoryVideo → list HistoryVideo)
| setNewVideoPrompt (s : jsstring)
| setLoadingVideoId (i : option jsstring)
| setIsPlaying (b : bool).

Definition apply (u : Update) (st : AppState) : AppState :=
  let 'mkApp vs pv ev sv sm ge vw hs np li ip := st in
  match u with
  | setVideos f => mkApp (f vs) pv ev sv sm ge vw hs np li ip
  | setPlayingVideo x => mkApp vs x ev sv sm ge vw hs np li ip
  | setEditingVideo x => mkApp vs pv x sv sm ge vw hs np li ip
  | setIsSaving x => mkApp vs pv ev x sm ge vw hs np li ip
  | setSavingMessage x => mkApp vs pv ev sv x ge vw hs np li ip
  | setGenerationError x => mkApp vs pv ev sv sm x vw hs np li ip
  | setView x => mkApp vs pv ev sv sm ge x hs np li ip
  | setGeneratedVideosHistory f => mkApp vs pv ev sv sm ge vw (f hs) np li ip
  | setNewVideoPrompt x => mkApp vs pv ev sv sm ge vw hs x li ip
  | setLoadingVideoId x => mkApp vs pv ev sv sm ge vw hs np x ip
  | setIsPlaying x => mkApp vs pv ev sv sm ge vw hs np li x
  end.

(** The setter calls of a handler, in program order. *)
Definition apply_all (us : list Update) (st : AppState) : AppState :=
  foldl (λ st u, apply u st) st us.

(** * The synchronous handlers *)

(** Lines 101-105. *)
Definition handlePlayVideo (video : Video) : list Update :=
  [setLoadingVideoId (Some (id video));
   setPlayingVideo (Some video);
   setIsPlaying true].

(** Lines 107-111. *)
Definition handleClosePlayer : list Update :=
  [setPlayingVideo None; setLoadingVideoId None; setIsPlaying false].

(** Lines 113-115. *)
Definition handleVideoLoaded : list Update :=
  [setLoadingVideoId None].

(** Lines 117-122. *)
Definition handleStartEdit (video : Video) : list Update :=
  [setPlayingVideo None;
   setIsPlaying false;
   setLoadingVideoId None;
   setEditingVideo (Some video)].

(** Lines 124-126. *)
Definition handleCancelEdit : list Update :=
  [setEditingVideo None].

(** * The asynchronous handlers *)

(** The double quote of the template literals of lines 151 and 204. *)
Definition dquote : jsstring := [34].

Definition mimeType : jsstring := lit "video/mp4".

(** Lines 147 and 200. *)
Definition data_url (videoSrc : option jsstring) : jsstring :=
  lit "data:" ++ mimeType ++ lit ";base64," ++ tmpl videoSrc.

(** The message of lines 171-174 and 227-230. *)
Definition generation_failed : list jsstring :=
  [lit "Video generation failed.";
   lit "This may be due to an invalid API key or network issues."].

Definition no_data : JsError := Error (lit "Video generation returned no data.").

(** Lines 129-132. *)
Definition handleSaveEdit_begin : list Update :=
  [setEditingVideo None;
   setSavingMessage (lit "Creating your remix...");
   setIsSaving true;
   setGenerationError None].

(** Lines 149-154. *)
Definition remix_of (originalVideo : Video) (uuid : jsstring)
    (videoSrc : option jsstring) : Video := {|
  id := uuid;
  title := lit "Remix of " ++ dquote ++ title originalVideo ++ dquote;
  description := description originalVideo;
  videoUrl := data_url videoSrc;
|}.

(** Lines 143-168: the setter calls of the [try] block when the generation
    returned a non-empty array. [videoObjects[0]] is undefined when that
    element is. *)
Definition handleSaveEdit_success (originalVideo : Video)
    (videoObjects : list (option jsstring)) (uuid : jsstring) (now : Z) :
  list Update :=
  let videoSrc := mjoin (videoObjects !! 0%nat) in
  let newVideo := remix_of originalVideo uuid videoSrc in
  let newHistoryVideo := mkHistoryVideo newVideo now in
  [setVideos (λ currentVideos, newVideo :: currentVideos);
   setGeneratedVideosHistory
     (λ currentHistory, newHistoryVideo :: currentHistory);
   setView history;
   setPlayingVideo (Some newVideo);
   setIsPlaying true].

(** The [catch] blocks (lines 169-174, 225-230). *)
Definition on_failure : list Update :=
  [setGenerationError (Some generation_failed)].

(** The [finally] blocks (lines 175-177, 231-233). *)
Definition on_finally : list Update :=
  [setIsSaving false].

(** Lines 139-177: the setter calls made once the generation has settled
    with [r]: the [try] block from the [await] on, [catch] and [finally].
    None when it never settles. *)
Definition handleSaveEdit_settled (originalVideo : Video)
    (r : outcome JsError (list (option jsstring))) (uuid : jsstring) (now : Z) :
  option (list Update) :=
  match r with
  | Fulfilled videoObjects =>
      if bool_decide (videoObjects = []) then Some (on_failure ++ on_finally)
      else Some (handleSaveEdit_success originalVideo videoObjects uuid now
                 ++ on_finally)
  | Rejected _ => Some (on_failure ++ on_finally)
  | Pending | OutOfFuel => None
  end.

(** Line 181: the guard of [handleGenerateNewVideo]. *)
Definition prompt_is_blank (newVideoPrompt : jsstring) : bool :=
  negb (truthy_string (trim newVideoPrompt)).

(** Lines 183-185. *)
Definition handleGenerateNewVideo_begin : list Update :=
  [setSavingMessage (lit "Generating your video...");
   setIsSaving true;
   setGenerationError None].

(** Lines 204-206. *)
Definition generated_title (promptText : jsstring) : jsstring :=
  lit "Generated: " ++ dquote ++ substring promptText 0 40
  ++ (if bool_decide (40 < length promptText)%nat then lit "..." else [])
  ++ dquote.

(** Lines 202-209. *)
Definition generated_from (promptText : jsstring) (uuid : jsstring)
    (videoSrc : option jsstring) : Video := {|
  id := uuid;
  title := generated_title promptText;
  description := promptText;
  videoUrl := data_url videoSrc;
|}.

(** Lines 196-224. *)
Definition handleGenerateNewVideo_success (promptText : jsstring)
    (videoObjects : list (option jsstring)) (uuid : jsstring) (now : Z) :
  list Update :=
  let videoSrc := mjoin (videoObjects !! 0%nat) in
  let newVideo := generated_from promptText uuid videoSrc in
  let newHistoryVideo := mkHistoryVideo newVideo now in
  [setVideos (λ currentVideos, newVideo :: currentVideos);
   setGeneratedVideosHistory
     (λ currentHistory, newHistoryVideo :: currentHistory);
   setNewVideoPrompt [];
   setView history;
   setPlayingVideo (Some newVideo);
   setIsPlaying true].

(** Lines 192-233. *)
Definition handleGenerateNewVideo_settled (promptText : jsstring)
    (r : outcome JsError (list (option jsstring))) (uuid : jsstring) (now : Z) :
  option (list Update) :=
  match r with
  | Fulfilled videoObjects =>
      if bool_decide (videoObjects = []) then Some (on_failure ++ on_finally)
      else Some (handleGenerateNewVideo_success promptText videoObjects uuid now
                 ++ on_finally)
  | Rejected _ => Some (on_failure ++ on_finally)
  | Pending | OutOfFuel => None
  end.

(** * What is rendered *)

(** The prompt form of lines 269-284. *)
Record PromptForm := mkPromptForm {
  textarea_value : jsstring;
  textarea_disabled : bool;
  button_disabled : bool;
  button_label : jsstring;
}.

(** [<main>], lines 308-322. *)
Inductive MainView :=
| VideoGridView (videos : list Video) (loadingVideoId : option jsstring)
| HistoryPageView (videos : list HistoryVideo)
    (loadingVideoId : option jsstring).

(** Lines 242-324: the edit page, or the header, the form, the two tabs
    (which one is highlighted) and [<main>]. *)
Inductive BodyView :=
| EditVideoPageView (video : Video)
| GalleryView (form : PromptForm) (galleryTab historyTab : bool)
    (main : MainView).

(** Lines 236-343. *)
Inductive Screen :=
| SavingProgressPageView (message : jsstring)
| PageView (body : BodyView) (player : option Video)
    (errorModal : option (list jsstring)).

Definition render_form (st : AppState) : PromptForm := {|
  textarea_value := newVideoPrompt st;
  textarea_disabled := isSaving st;
  button_disabled := prompt_is_blank (newVideoPrompt st) || isSaving st;
  button_label :=
    if isSaving st then lit "Generating..." else lit "Generate Video";
|}.

Definition render_main (st : AppState) : MainView :=
  match view st with
  | gallery => VideoGridView (videos st) (loadingVideoId st)
  | history => HistoryPageView (generatedVideosHistory st) (loadingVideoId st)
  end.

Definition render_body (st : AppState) : BodyView :=
  match editingVideo st with
  | Some video => EditVideoPageView video
  | None =>
      GalleryView (render_form st)
        (bool_decide (view st = gallery)) (bool_decide (view st = history))
        (render_main st)
  end.

(** [isPlaying && playingVideo && <VideoPlayer .../>] (lines 326-333). *)
Definition render_player (st : AppState) : option Video :=
  if isPlaying st then playingVideo st else None.

Definition render (st : AppState) : Screen :=
  if isSaving st then SavingProgressPageView (savingMessage st)
  else PageView (render_body st) (render_player st) (generationError st).

(** * Events *)

(** What the mounted components can call. *)
Inductive Event :=
| PlayVideo (video : Video)
| ClosePlayer
| VideoLoaded
| VideoEnded
| StartEdit
| CancelEdit
| SaveEdit (originalVideo : Video)
| ChangePrompt (value : jsstring)
| GenerateNewVideo
| SelectView (v : View)
| CloseError
| SelectKey.

(** The videos a [<main>] offers to play. *)
Definition offered (m : MainView) : list Video :=
  match m with
  | VideoGridView vs _ => vs
  | HistoryPageView hs _ => toVideo <$> hs
  end.

(** Whether the rendered tree has a mounted, enabled control wired to the
    handler of the event. The page is the one rendered for the state:
    React renders again after every event it handles, before the next.
    Layout is not part of it: a control counts when it is in the tree,
    also when the overlay of the player covers it (VideoPlayer.tsx:74,
    [fixed inset-0]) and only the keyboard reaches it. The events allowed
    are then at least those of a real session, and an invariant of the
    transition system holds of every real session. *)
Definition enabled (s : Screen) (ev : Event) : bool :=
  match s with
  | SavingProgressPageView _ => false
  | PageView body player errorModal =>
      match ev with
      | PlayVideo video =>
          match body with
          | GalleryView _ _ _ m => bool_decide (video ∈ offered m)
          | EditVideoPageView _ => false
          end
      | ClosePlayer | VideoLoaded | VideoEnded | StartEdit =>
          truthy_ref player
      | CancelEdit | SaveEdit _ =>
          match body with EditVideoPageView _ => true | _ => false end
      | ChangePrompt _ =>
          match body with
          | GalleryView form _ _ _ => negb (textarea_disabled form)
          | _ => false
          end
      | GenerateNewVideo =>
          match body with
          | GalleryView form _ _ _ => negb (button_disabled form)
          | _ => false
          end
      | SelectView _ =>
          match body with GalleryView _ _ _ _ => true | _ => false end
      | CloseError | SelectKey => truthy_ref errorModal
      end
  end.

(** * The transition system *)

(** A generation in flight: the handler that awaits it and the variables
    its continuation closes over. *)
Inductive Job :=
| SaveEditJob (originalVideo : Video)
| GenerateJob (promptText : jsstring).

#[export] Instance Job_eq_dec : EqDecision Job.
Proof. solve_decision. Defined.

Record Config := mkConfig {
  app : AppState;
  pending : list Job;
}.

(** The prompt a job sends to [generateVideoFromText] (lines 135, 188). *)
Definition job_prompt (j : Job) : jsstring :=
  match j with
  | SaveEditJob originalVideo => description originalVideo
  | GenerateJob promptText => promptText
  end.

(** The continuation of a job. *)
Definition job_settled (j : Job)
    (r : outcome JsError (list (option jsstring))) (uuid : jsstring) (now : Z) :
  option (list Update) :=
  match j with
  | SaveEditJob originalVideo =>
      handleSaveEdit_settled originalVideo r uuid now
  | GenerateJob promptText =>
      handleGenerateNewVideo_settled promptText r uuid now
  end.

(** The handler of an event up to its first [await]: the setter calls and
    the generation it starts. [handleGenerateNewVideo] returns at once on
    a blank prompt (line 181). *)
Definition handle (st : AppState) (ev : Event) : list Update * option Job :=
  match ev with
  | PlayVideo video => (handlePlayVideo video, None)
  | ClosePlayer | VideoEnded => (handleClosePlayer, None)
  | VideoLoaded => (handleVideoLoaded, None)
  | StartEdit =>
      match playingVideo st with
      | Some video => (handleStartEdit video, None)
      | None => ([], None)
      end
  | CancelEdit => (handleCancelEdit, None)
  | SaveEdit originalVideo =>
      (handleSaveEdit_begin, Some (SaveEditJob originalVideo))
  | ChangePrompt value => ([setNewVideoPrompt value], None)
  | GenerateNewVideo =>
      if prompt_is_blank (newVideoPrompt st) then ([], None)
      else (handleGenerateNewVideo_begin,
            Some (GenerateJob (trim (newVideoPrompt st))))
  | SelectView v => ([setView v], None)
  | CloseError => ([setGenerationError None], None)
  | SelectKey => ([], None)
  end.

(** A settled job leaves the jobs in flight. *)
Fixpoint remove_job (j : Job) (js : list Job) : list Job :=
  match js with
  | [] => []
  | j' :: js' => if bool_decide (j = j') then js' else j' :: remove_job j js'
  end.

(** What happens next: an enabled event is handled, or a generation in
    flight settles. *)
Inductive Label :=
| User (ev : Event)
| Settle (j : Job) (r : outcome JsError (list (option jsstring)))
    (uuid : jsstring) (now : Z).

Definition step (c : Config) (l : Label) : option Config :=
  match l with
  | User ev =>
      if enabled (render (app c)) ev then
        let '(us, job) := handle (app c) ev in
        Some (mkConfig (apply_all us (app c))
                (pending c ++ option_list job))
      else None
  | Settle j r uuid now =>
      if bool_decide (j ∈ pending c) then
        match job_settled j r uuid now with
        | Some us =>
            Some (mkConfig (apply_all us (app c))
                    (remove_job j (pending c)))
        | None => None
        end
      else None
  end.

(** The events of the user among the labels of a run. *)
Definition user_events (ls : list Label) : list Event :=
  omap (λ l, match l with User ev => Some ev | Settle _ _ _ _ => None end) ls.

(** Running a list of labels; [None] when one of them is not possible. *)
Fixpoint run (c : Config) (ls : list Label) : option Config :=
  match ls with
  | [] => Some c
  | l :: ls' =>
      match step c l with
      | Some c' => run c' ls'
      | None => None
      end
  end.

Definition start (MOCK_VIDEOS : list Video) : Config :=
  mkConfig (init MOCK_VIDEOS) [].

(** The configurations the program can be in when every step satisfies
    [ok], an assumption on what the environment provides. *)
Inductive reachable_if (ok : Config → Label → Prop)
    (MOCK_VIDEOS : list Video) : Config → Prop :=
| reachable_start : reachable_if ok MOCK_VIDEOS (start MOCK_VIDEOS)
| reachable_step c l c' :
    reachable_if ok MOCK_VIDEOS c → ok c l → step c l = Some c' →
    reachable_if ok MOCK_VIDEOS c'.

(** The configurations the program can be in. *)
Definition reachable : list Video → Config → Prop :=
  reachable_if (λ _ _, True).

(** The environment hands out an identifier no video has yet and a date
    that is not before the dates handed out earlier. *)
Definition good_env (c : Config) (l : Label) : Prop :=
  match l with
  | Settle _ _ uuid now =>
      (uuid ∉ ids (videos (app c)))
      ∧ Forall (λ h, createdAt h ≤ now)%Z (generatedVideosHistory (app c))
  | User _ => True
  end.

(** * The asynchronous handlers in the environment *)

Section handlers.
Context `{Env}.

(** Lines 135-159: the [try] block of [handleSaveEdit] in the environment;
    it returns the setter calls of lines 161-168. It throws when the
    generation brought no data (line 140) and when
    [self.crypto.randomUUID()] does (line 150); [new Date()] does not
    throw. *)
Definition handleSaveEdit_try (fuel : nat) (originalVideo : Video) :
  JS (list Update) :=
  let promptText := description originalVideo in
  emit (EConsoleLog [lit "Generating video..."; promptText]) ;;
  videoObjects <- generateVideoFromText fuel promptText 1 ;;
  if bool_decide (videoObjects = []) then throw no_data
  else
    emit (EConsoleLog [lit "Generated video data received."]) ;;
    uuid <- call ERandomUUID (λ tr, complete (env_randomUUID tr)) ;;
    now <- call ENewDate (λ tr, Fulfilled (env_now tr)) ;;
    ret (handleSaveEdit_success originalVideo videoObjects uuid now).

(** Lines 188-214. *)
Definition handleGenerateNewVideo_try (fuel : nat) (promptText : jsstring) :
  JS (list Update) :=
  emit (EConsoleLog [lit "Generating video from new prompt..."; promptText]) ;;
  videoObjects <- generateVideoFromText fuel promptText 1 ;;
  if bool_decide (videoObjects = []) then throw no_data
  else
    emit (EConsoleLog [lit "Generated video data received."]) ;;
    uuid <- call ERandomUUID (λ tr, complete (env_randomUUID tr)) ;;
    now <- call ENewDate (λ tr, Fulfilled (env_now tr)) ;;
    ret (handleGenerateNewVideo_success promptText videoObjects uuid now).

Definition job_try (fuel : nat) (j : Job) : JS (list Update) :=
  match j with
  | SaveEditJob originalVideo => handleSaveEdit_try fuel originalVideo
  | GenerateJob promptText => handleGenerateNewVideo_try fuel promptText
  end.

(** [try], [catch] and [finally] around the generation (lines 134-177
    for [handleSaveEdit]; lines 187-233 for [handleGenerateNewVideo] are
    the same around their own [try] block): the state and the trace once
    the handler has run as far as it can. A generation that never
    settles leaves the state as it was after the calls before the
    [await]; so does a run of the model that is out of fuel, which
    stands for no run of the program and which the theorems exclude by
    their hypotheses or treat as not settled. *)
Definition finish_job (fuel : nat) (j : Job) (st : AppState) (tr : trace) :
  AppState * trace :=
  match job_try fuel j tr with
  | (Fulfilled us, tr') => (apply_all (us ++ on_finally) st, tr')
  | (Rejected e, tr') =>
      (apply_all (on_failure ++ on_finally) st,
       tr' ++ [EConsoleError [lit "Video generation failed:"; err_message e]])
  | (Pending, tr') | (OutOfFuel, tr') => (st, tr')
  end.

(** [handleSaveEdit] (lines 128-178). *)
Definition handleSaveEdit (fuel : nat) (originalVideo : Video)
    (st : AppState) (tr : trace) : AppState * trace :=
  finish_job fuel (SaveEditJob originalVideo)
    (apply_all handleSaveEdit_begin st) tr.

(** [handleGenerateNewVideo] (lines 180-234). *)
Definition handleGenerateNewVideo (fuel : nat) (st : AppState) (tr : trace) :
  AppState * trace :=
  if prompt_is_blank (newVideoPrompt st) then (st, tr)
  else
    finish_job fuel (GenerateJob (trim (newVideoPrompt st)))
      (apply_all handleGenerateNewVideo_begin st) tr.

End handlers.

(** * Specification vocabulary *)

(** The events the rendered tree enables, read off the state. *)
Definition can_fire (st : AppState) (ev : Event) : bool :=
  negb (isSaving st) &&
  match ev with
  | PlayVideo video =>
      negb (truthy_ref (editingVideo st))
      && bool_decide (video ∈ offered (render_main st))
  | ClosePlayer | VideoLoaded | VideoEnded | StartEdit =>
      isPlaying st && truthy_ref (playingVideo st)
  | CancelEdit | SaveEdit _ => truthy_ref (editingVideo st)
  | ChangePrompt _ | SelectView _ => negb (truthy_ref (editingVideo st))
  | GenerateNewVideo =>
      negb (truthy_ref (editingVideo st))
      && negb (prompt_is_blank (newVideoPrompt st))
  | CloseError | SelectKey => truthy_ref (generationError st)
  end.

(** The user-interface invariant. *)
Record ui_inv (c : Config) : Prop := {
  inv_saving : isSaving (app c) = bool_decide (pending c ≠ []);
  inv_single : (length (pending c) ≤ 1)%nat;
  inv_playing : isPlaying (app c) = truthy_ref (playingVideo (app c));
  inv_loading :
    truthy_ref (loadingVideoId (app c)) = true → isPlaying (app c) = true;
  inv_editing :
    truthy_ref (editingVideo (app c)) = true →
    isPlaying (app c) = false ∧ isSaving (app c) = false;
}.

(** The gallery is the history followed by the initial videos. *)
Definition data_inv (MOCK_VIDEOS : list Video) (st : AppState) : Prop :=
  videos st = (toVideo <$> generatedVideosHistory st) ++ MOCK_VIDEOS.

(** Newest first. *)
Definition newest_first (hs : list HistoryVideo) : Prop :=
  StronglySorted (λ a b, createdAt b ≤ createdAt a)%Z hs.

(** The video a job adds when its generation succeeds. *)
Definition job_video (j : Job) (uuid : jsstring) (videoSrc : option jsstring) :
  Video :=
  match j with
  | SaveEditJob originalVideo => remix_of originalVideo uuid videoSrc
  | GenerateJob promptText => generated_from promptText uuid videoSrc
  end.

(** The first line a job logs (lines 136, 189). *)
Definition job_log (j : Job) : jsstring :=
  match j with
  | SaveEditJob _ => lit "Generating video..."
  | GenerateJob _ => lit "Generating video from new prompt..."
  end.

(** The setter calls of a job whose generation succeeded. *)
Definition job_success (j : Job) (videoObjects : list (option jsstring))
    (uuid : jsstring) (now : Z) : list Update :=
  match j with
  | SaveEditJob v => handleSaveEdit_success v videoObjects uuid now
  | GenerateJob p => handleGenerateNewVideo_success p videoObjects uuid now
  end.

(** The effects of a job before it calls [generateVideoFromText]. *)
Definition job_intro (j : Job) : trace :=
  [EConsoleLog [job_log j; job_prompt j]].

(** The effects of a job after a successful generation. *)
Definition job_outro : trace :=
  [EConsoleLog [lit "Generated video data received."]; ERandomUUID; ENewDate].

Section vocabulary.
Context `{Env}.

(** The outcome of the generation a job awaits. *)
Definition job_generation (fuel : nat) (j : Job) (tr : trace) :
  outcome JsError (list (option jsstring)) * trace :=
  generateVideoFromText fuel (job_prompt j) 1 (tr ++ job_intro j).

(** What [crypto.randomUUID] does for a job whose generation settles
    with the trace [tr1]. *)
Definition job_randomUUID (tr1 : trace) : completion JsError jsstring :=
  env_randomUUID (tr1 ++ [EConsoleLog [lit "Generated video data received."]]).

(** The identifier and the date the environment gives a job that settles
    with the trace [tr1]; no identifier is read when the call throws. *)
Definition job_uuid (tr1 : trace) : jsstring :=
  match job_randomUUID tr1 with
  | Normal uuid => uuid
  | Throws _ => []
  end.
Definition job_now (tr1 : trace) : Z :=
  env_now (tr1 ++ [EConsoleLog [lit "Generated video data received."];
                   ERandomUUID]).

(** What the [try] block of a job comes to before its setter calls, with
    the trace at the end of the generation: the outcome of the
    generation, unless it brought videos and [crypto.randomUUID] then
    throws (lines 150, 203), which the [catch] block hears as it hears a
    failed generation. *)
Definition job_outcome (fuel : nat) (j : Job) (tr : trace) :
  outcome JsError (list (option jsstring)) * trace :=
  let '(r, tr1) := job_generation fuel j tr in
  (match r, job_randomUUID tr1 with
   | Fulfilled videoObjects, Throws e =>
       if bool_decide (videoObjects = []) then r else Rejected e
   | _, _ => r
   end, tr1).

(** The browser does not define [crypto.randomUUID]. *)
Definition no_randomUUID : Prop :=
  ∀ tr, ∃ e, env_randomUUID tr = Throws e.

End vocabulary.

(** Every label of a run satisfies [ok] in the configuration it is taken
    in. *)
Fixpoint all_ok (ok : Config → Label → Prop) (c : Config) (ls : list Label) :
  Prop :=
  match ls with
  | [] => True
  | l :: ls' =>
      ok c l ∧ match step c l with
               | Some c' => all_ok ok c' ls'
               | None => True
               end
  end.

(** * A concrete session

    One video in the gallery; the user generates a video from a prompt,
    then a second one. *)
Definition example_video : Video :=
  mkVideo (lit "1") (lit "https://example.com/1.mp4") (lit "Cat: the movie")
    (lit "a cat").

Definition example_mock : list Video := [example_video].

Definition example_start_generation : list Label :=
  [User (ChangePrompt (lit " a cat ")); User GenerateNewVideo].

Definition example_session : list Label :=
  [User (ChangePrompt (lit " a cat ")); User GenerateNewVideo;
   Settle (GenerateJob (lit "a cat")) (Fulfilled [Some (lit "AAAA")])
     (lit "uuid-1") 5;
   User (ChangePrompt (lit "a dog")); User GenerateNewVideo;
   Settle (GenerateJob (lit "a dog")) (Fulfilled [Some (lit "BBBB")])
     (lit "uuid-2") 9].

(** The configuration while the first generation is in flight, and the
    one at the end of the session. *)
Definition example_saving : Config :=
  default (start example_mock)
    (run (start example_mock) example_start_generation).

Definition example_config : Config :=
  default (start example_mock) (run (start example_mock) example_session).

(** The state of the edit page on the example video. *)
Definition example_editing : AppState :=
  apply_all (handlePlayVideo example_video ++ handleStartEdit example_video)
    (init example_mock).

(** The state once the prompt is typed. *)
Definition example_typing : AppState :=
  apply_all [setNewVideoPrompt (lit " a cat ")] (init example_mock).

(** The first generation settles: with a video, or with an error. *)
Definition example_settle : Label :=
  Settle (GenerateJob (lit "a cat")) (Fulfilled [Some (lit "AAAA")])
    (lit "uuid-1") 5.

Definition example_reject : Label :=
  Settle (GenerateJob (lit "a cat")) (Rejected (Error (lit "quota")))
    (lit "uuid-1") 5.

(** A service whose video is downloaded and never read. *)
Definition stuck_env : Env := scripted_env 1 (Some example_videos) None.

(** The example environment in a browser that does not define
    [crypto.randomUUID], as outside a secure context. *)
Definition insecure_env : Env := {|
  API_KEY := @API_KEY example_env;
  sdk_generateVideos := @sdk_generateVideos example_env;
  sdk_getVideosOperation := @sdk_getVideosOperation example_env;
  env_decodeURIComponent := @env_decodeURIComponent example_env;
  env_fetch := @env_fetch example_env;
  env_blob := @env_blob example_env;
  env_readAsDataURL := @env_readAsDataURL example_env;
  env_randomUUID _ :=
    Throws (TypeError (lit "self.crypto.randomUUID is not a function"));
  env_now := @env_now example_env;
|}.

(** * Tactics *)

(** Compute the length of the literals of the goal. *)
Ltac lit_length :=
  repeat match goal with
  | |- context [length (lit ?s)] =>
      let n := eval vm_compute in (length (lit s)) in
      change (length (lit s)) with n
  end.

(** * Steps *)

Section step.
Implicit Types (c : Config) (st : AppState).

Lemma step_user c ev c' :
  step c (User ev) = Some c' →
  enabled (render (app c)) ev = true
  ∧ c' = mkConfig (apply_all (handle (app c) ev).1 (app c))
           (pending c ++ option_list (handle (app c) ev).2).
Proof.
  simpl. destruct (enabled _ ev); [|done].
  destruct (handle (app c) ev) as [us job]. by intros [= <-].
Qed.

Lemma step_settle c j r uuid now c' :
  step c (Settle j r uuid now) = Some c' →
  j ∈ pending c
  ∧ ∃ us, job_settled j r uuid now = Some us
          ∧ c' = mkConfig (apply_all us (app c)) (remove_job j (pending c)).
Proof.
  simpl. case_bool_decide; [|done].
  destruct (job_settled j r uuid now) as [us|]; [|done].
  intros [= <-]. eauto.
Qed.

Lemma enabled_render st ev : enabled (render st) ev = can_fire st ev.
Proof.
  unfold render, can_fire, render_body, render_player.
  destruct (isSaving st) eqn:Hs; [done|].
  destruct ev, (editingVideo st), (isPlaying st), (playingVideo st);
    simpl; rewrite ?Hs, ?orb_false_r, ?andb_true_r; done.
Qed.

(** The setter calls of a settled job: the failure calls or the success
    calls, then [setIsSaving(false)]. *)
Lemma job_settled_cases j r uuid now us :
  job_settled j r uuid now = Some us →
  us = on_failure ++ on_finally
  ∨ ∃ videoObjects, us = job_success j videoObjects uuid now ++ on_finally.
Proof.
  destruct j, r as [vo|e| |]; simpl; try done;
    try case_bool_decide; intros [= <-]; eauto.
Qed.

Lemma remove_job_head j js : remove_job j (j :: js) = js.
Proof. simpl. by rewrite bool_decide_eq_true_2. Qed.

Lemma ui_inv_step c l c' : ui_inv c → step c l = Some c' → ui_inv c'.
Proof.
  intros [Hs H1 Hp Hl He] Hstep. destruct l as [ev|j r uuid now].
  - apply step_user in Hstep as [Hen ->]. rewrite enabled_render in Hen.
    destruct c as [[vs pv ev' sv sm ge vw hs np li ip] pend].
    unfold can_fire in Hen. simpl in *.
    destruct sv; [done|]. symmetry in Hs. apply bool_decide_eq_false in Hs.
    apply dec_stable in Hs. subst pend. clear H1.
    destruct ev, ev', pv, li; simpl in *; bool_to_prop; simplify_eq/=;
      try match goal with H : prompt_is_blank _ = false |- _ => rewrite H end;
      split; simpl; auto.
  - apply step_settle in Hstep as (Hj & us & Hus & ->).
    destruct c as [[vs pv ev' sv sm ge vw hs np li ip] pend]. simpl in *.
    destruct pend as [|j' [|]]; [by apply elem_of_nil in Hj | | simpl in *; lia].
    apply list_elem_of_singleton in Hj as ->. simpl in Hs. subst sv.
    assert (ev' = None) as -> by (destruct ev'; [by destruct He|done]).
    rewrite remove_job_head.
    apply job_settled_cases in Hus as [->|[vo ->]]; [|destruct j'];
      split; simpl; auto; done.
Qed.

End step.

(** * Reachable configurations *)

Section reach.
Context (MOCK_VIDEOS : list Video).
Implicit Types (c : Config) (st : AppState).

Lemma ui_inv_start : ui_inv (start MOCK_VIDEOS).
Proof. split; simpl; first [done | lia]. Qed.

Lemma reachable_ui_inv c : reachable MOCK_VIDEOS c → ui_inv c.
Proof. induction 1; eauto using ui_inv_start, ui_inv_step. Qed.

(** A run whose labels are all allowed stays among the reachable
    configurations. *)
Lemma run_reachable_if (ok : Config → Label → Prop) ls c c' :
  reachable_if ok MOCK_VIDEOS c → all_ok ok c ls → run c ls = Some c' →
  reachable_if ok MOCK_VIDEOS c'.
Proof.
  revert c. induction ls as [|l ls IH]; intros c Hc; simpl.
  - by intros _ [= <-].
  - intros [Hok Hall]. destruct (step c l) as [c1|] eqn:Hstep; [|done].
    apply IH; [by eapply reachable_step | done].
Qed.

Lemma all_ok_True c ls : all_ok (λ _ _, True) c ls.
Proof.
  revert c. induction ls as [|l ls IH]; intros c; simpl; [done|].
  split; [done|]. by destruct (step c l).
Qed.

(** Every run from the start is reachable. *)
Lemma run_reachable ls c :
  run (start MOCK_VIDEOS) ls = Some c → reachable MOCK_VIDEOS c.
Proof.
  apply run_reachable_if; [constructor | apply all_ok_True].
Qed.

(** A run from a reachable configuration stays reachable. *)
Lemma reachable_run ls c c' :
  reachable MOCK_VIDEOS c → run c ls = Some c' → reachable MOCK_VIDEOS c'.
Proof. intros Hc. by apply run_reachable_if; [|apply all_ok_True]. Qed.

(** C1: at most one generation is in flight in any configuration the
    program can reach, and [isSaving] is true exactly while one is: the
    progress page replaces everything that could start a second one. *)
Theorem one_generation_in_flight c :
  reachable MOCK_VIDEOS c →
  (length (pending c) ≤ 1)%nat
  ∧ (isSaving (app c) = true ↔ pending c ≠ []).
Proof.
  intros [Hs H1 _ _ _]%reachable_ui_inv. split; [done|].
  by rewrite Hs, bool_decide_eq_true.
Qed.

(** C15: while a generation is in flight no handler can be called: every
    event of the user or of the video element is refused until the
    generation settles. *)
Theorem in_flight_blocks_events c ev :
  reachable MOCK_VIDEOS c → pending c ≠ [] → step c (User ev) = None.
Proof.
  intros [Hs _ _ _ _]%reachable_ui_inv Hp. simpl.
  rewrite enabled_render. unfold can_fire.
  by rewrite Hs, bool_decide_eq_true_2.
Qed.


#[local] Arguments trim : simpl never.
#[local] Arguments bool_decide : simpl never.

(** C30: the loading identifier can name another video than the one
    played. A generation started while a video of the gallery is still
    loading keeps that video's identifier in [loadingVideoId] when it
    replaces the video played: nothing resets it. *)
Theorem spinner_on_another_video video value uuid (now : Z)
    (videoObjects : list (option jsstring)) :
  video ∈ MOCK_VIDEOS →
  prompt_is_blank value = false →
  videoObjects ≠ [] →
  uuid ≠ id video →
  ∃ c newVideo,
    reachable MOCK_VIDEOS c
    ∧ playingVideo (app c) = Some newVideo
    ∧ loadingVideoId (app c) = Some (id video)
    ∧ id newVideo ≠ id video.
Proof.
  intros Hin Hb Hvo Hne. eexists _, _. split.
  { apply (run_reachable
             [User (PlayVideo video); User (ChangePrompt value);
              User GenerateNewVideo;
              Settle (GenerateJob (trim value)) (Fulfilled videoObjects)
                uuid now]).
    cbn [run]. unfold step at 1. cbn.
    rewrite bool_decide_eq_true_2 by done. cbn. rewrite Hb. cbn.
    rewrite bool_decide_eq_true_2 by apply list_elem_of_here.
    rewrite bool_decide_eq_false_2 by done. reflexivity. }
  cbn. split_and!; [reflexivity..|]. cbn. congruence.
Qed.

End reach.

(** * The data *)

Section data.
Context (MOCK_VIDEOS : list Video).
Implicit Types (c : Config) (st : AppState).

Lemma data_inv_step c l c' :
  data_inv MOCK_VIDEOS (app c) → step c l = Some c' → data_inv MOCK_VIDEOS (app c').
Proof.
  unfold data_inv. intros Hd Hstep. destruct l as [ev|j r uuid now].
  - apply step_user in Hstep as [_ ->].
    destruct c as [[vs pv ev' sv sm ge vw hs np li ip] pend]. simpl in *.
    destruct ev; simpl; try done; repeat case_match; done.
  - apply step_settle in Hstep as (_ & us & Hus & ->).
    destruct c as [[vs pv ev' sv sm ge vw hs np li ip] pend]. simpl in *.
    apply job_settled_cases in Hus as [->|[vo ->]]; [done|].
    destruct j; simpl; by rewrite Hd.
Qed.

(** C10: in every reachable configuration the gallery ([videos]) is the
    generation history, newest first, followed by the initial videos:
    the two lists are updated together and nothing is ever removed. *)
Theorem gallery_is_history_then_mock c :
  reachable MOCK_VIDEOS c → data_inv MOCK_VIDEOS (app c).
Proof.
  induction 1 as [|c l c' _ IH _ Hstep]; [done|].
  by eapply data_inv_step.
Qed.

(** The same under any assumption on the environment. *)
Lemma reachable_data_inv (ok : Config → Label → Prop) c :
  reachable_if ok MOCK_VIDEOS c → data_inv MOCK_VIDEOS (app c).
Proof. induction 1; [done | by eapply data_inv_step]. Qed.

End data.

(** * Fresh identifiers and a clock that does not go back *)

Section good_env.
Context (MOCK_VIDEOS : list Video).
Implicit Types (c : Config) (st : AppState).

(** What a step does to the two lists: nothing, or it puts the video of a
    settled job in front of both. *)
Lemma step_data c l c' :
  step c l = Some c' →
  (videos (app c') = videos (app c)
   ∧ generatedVideosHistory (app c') = generatedVideosHistory (app c))
  ∨ ∃ j r uuid now videoSrc,
      l = Settle j r uuid now
      ∧ videos (app c') = job_video j uuid videoSrc :: videos (app c)
      ∧ generatedVideosHistory (app c')
        = mkHistoryVideo (job_video j uuid videoSrc) now
          :: generatedVideosHistory (app c).
Proof.
  intros Hstep. destruct l as [ev|j r uuid now].
  - apply step_user in Hstep as [_ ->]. left.
    destruct c as [[vs pv ev' sv sm ge vw hs np li ip] pend]. simpl.
    destruct ev; simpl; try done; by repeat case_match.
  - apply step_settle in Hstep as (_ & us & Hus & ->).
    destruct c as [[vs pv ev' sv sm ge vw hs np li ip] pend]. simpl.
    apply job_settled_cases in Hus as [->|[vo ->]]; [by left|].
    right. exists j, r, uuid, now, (mjoin (vo !! 0%nat)). by destruct j.
Qed.

Lemma reachable_if_weaken (ok : Config → Label → Prop) c :
  reachable_if ok MOCK_VIDEOS c → reachable MOCK_VIDEOS c.
Proof. induction 1; [constructor | by econstructor]. Qed.

Lemma job_video_id j uuid videoSrc : id (job_video j uuid videoSrc) = uuid.
Proof. by destruct j. Qed.

(** A step with a fresh identifier keeps the identifiers distinct. *)
Lemma step_unique_ids c l c' :
  good_env c l → step c l = Some c' →
  NoDup (ids (videos (app c))) → NoDup (ids (videos (app c'))).
Proof.
  intros Hok Hstep Hnd.
  apply step_data in Hstep as [[-> _]|(j & r & uuid & now & src & -> & -> & _)];
    [done|].
  rewrite ids_cons, job_video_id. destruct Hok as [Hfresh _].
  by constructor.
Qed.

(** C9: when the initial videos have distinct identifiers and
    [crypto.randomUUID] returns an identifier no video has yet, no two
    videos of the gallery share an identifier: the keys given to React are
    unique. *)
Theorem unique_ids c :
  NoDup (ids MOCK_VIDEOS) →
  reachable_if good_env MOCK_VIDEOS c →
  NoDup (ids (videos (app c))).
Proof.
  intros Hmock. induction 1 as [|c l c' _ IH Hok Hstep]; [done|].
  by eapply step_unique_ids.
Qed.

(** The two facts the history page relies on. *)
Lemma reachable_gallery c :
  NoDup (ids MOCK_VIDEOS) →
  reachable_if good_env MOCK_VIDEOS c →
  data_inv MOCK_VIDEOS (app c) ∧ NoDup (ids (videos (app c))).
Proof.
  intros Hmock Hc. split; [by eapply reachable_data_inv|].
  induction Hc; [done | by eapply step_unique_ids].
Qed.

(** With a clock that does not go back the history is stored newest
    first. *)
Lemma history_newest_first c :
  reachable_if good_env MOCK_VIDEOS c →
  newest_first (generatedVideosHistory (app c)).
Proof.
  induction 1 as [|c l c' _ IH Hok Hstep]; [constructor|].
  apply step_data in Hstep as [[_ ->]|(j & r & uuid & now & src & -> & _ & ->)];
    [done|].
  destruct Hok as [_ Hnow]. by constructor.
Qed.

End good_env.

(** * Settling a generation *)

Section settle.
Implicit Types (c : Config) (st : AppState) (j : Job).

(** C4: the continuation of a settled generation is atomic for the user.
    Whatever proper prefix of its setter calls has been applied, the
    progress page is still what is rendered: [setIsSaving(false)] is the
    last call, so no half-updated gallery is ever shown. *)
Theorem settled_keeps_progress_page j r uuid now us st n :
  job_settled j r uuid now = Some us →
  isSaving st = true →
  (n < length us)%nat →
  render (apply_all (take n us) st) = SavingProgressPageView (savingMessage st).
Proof.
  intros Hus Hs Hn. destruct st as [vs pv ev sv sm ge vw hs np li ip].
  simpl in Hs. subst sv.
  apply job_settled_cases in Hus as [->|[vo ->]]; [|destruct j];
    simpl in Hn; do 7 (destruct n as [|n]; [first [done | lia]|]); lia.
Qed.

(** C7: a generation fulfilled with a non-empty array puts the new video
    first in the gallery and in the history, with the date given, shows
    the history, plays the video, leaves the progress page and keeps the
    error as it was. *)
Theorem settle_success c j videoObjects uuid now c' :
  videoObjects ≠ [] →
  step c (Settle j (Fulfilled videoObjects) uuid now) = Some c' →
  let newVideo := job_video j uuid (mjoin (videoObjects !! 0%nat)) in
  videos (app c') = newVideo :: videos (app c)
  ∧ generatedVideosHistory (app c')
    = mkHistoryVideo newVideo now :: generatedVideosHistory (app c)
  ∧ view (app c') = history
  ∧ playingVideo (app c') = Some newVideo
  ∧ isPlaying (app c') = true
  ∧ isSaving (app c') = false
  ∧ generationError (app c') = generationError (app c).
Proof.
  intros Hne (_ & us & Hus & ->)%step_settle.
  destruct j; simpl in Hus; rewrite bool_decide_eq_false_2 in Hus by done;
    simplify_eq; by destruct c as [[]].
Qed.

(** C17: a rejected generation, whatever the error: the state is the old
    one with the two-line error message set and [isSaving] cleared; no
    video is added and the view is not changed. *)
Theorem settle_failure c j e uuid now c' :
  step c (Settle j (Rejected e) uuid now) = Some c' →
  app c' = apply (setIsSaving false)
             (apply (setGenerationError (Some generation_failed)) (app c)).
Proof.
  intros (_ & us & Hus & ->)%step_settle. by destruct j; simplify_eq/=.
Qed.

(** A generation that returns the empty array is handled as a failure. *)
Lemma settle_no_data c j uuid now c' :
  step c (Settle j (Fulfilled []) uuid now) = Some c' →
  app c' = apply (setIsSaving false)
             (apply (setGenerationError (Some generation_failed)) (app c)).
Proof.
  intros (_ & us & Hus & ->)%step_settle. by destruct j; simplify_eq/=.
Qed.

End settle.

Section title.
Implicit Types (promptText : jsstring).

(** C21: the title of a generated video is at most 56 code units long:
    the prefix, the two quotes, 40 code units of the prompt and the
    ellipsis. *)
Theorem generated_title_length promptText :
  (length (generated_title promptText) ≤ 56)%nat.
Proof.
  unfold generated_title, dquote. rewrite !length_app, substring_0, length_take.
  case_bool_decide; lit_length; cbn [length]; lia.
Qed.

Lemma generated_title_short promptText :
  (length promptText ≤ 40)%nat →
  generated_title promptText
  = lit "Generated: " ++ dquote ++ promptText ++ dquote.
Proof.
  intros Hle. unfold generated_title.
  rewrite substring_0_short by done.
  by rewrite bool_decide_eq_false_2 by lia.
Qed.

(** When the Generate button can be pressed, the handler starts a
    generation whose prompt is the trimmed text of the form: it is not
    empty and has no white space at either end. *)
Theorem generate_prompt_trimmed st :
  enabled (render st) GenerateNewVideo = true →
  ∃ job, (handle st GenerateNewVideo).2 = Some job
         ∧ job_prompt job = trim (newVideoPrompt st)
         ∧ job_prompt job ≠ []
         ∧ trim (job_prompt job) = job_prompt job.
Proof.
  rewrite enabled_render. unfold can_fire. intros H. bool_to_prop.
  simpl. match goal with H : prompt_is_blank _ = false |- _ => rewrite H end.
  eexists. split_and!; [done..| |apply trim_idemp].
  simpl. unfold prompt_is_blank in *. by destruct (trim _).
Qed.

End title.

(** * The handlers in the environment *)

Section refine.
Context `{Env}.
Implicit Types (st : AppState) (tr : trace) (j : Job).

Lemma job_try_run fuel j tr :
  job_try fuel j tr =
    match job_generation fuel j tr with
    | (Fulfilled videoObjects, tr1) =>
        if bool_decide (videoObjects = []) then (Rejected no_data, tr1)
        else
          match job_randomUUID tr1 with
          | Normal uuid =>
              (Fulfilled (job_success j videoObjects uuid (job_now tr1)),
               tr1 ++ job_outro)
          | Throws e =>
              (Rejected e,
               tr1 ++ [EConsoleLog [lit "Generated video data received."];
                       ERandomUUID])
          end
    | (Rejected e, tr1) => (Rejected e, tr1)
    | (Pending, tr1) => (Pending, tr1)
    | (OutOfFuel, tr1) => (OutOfFuel, tr1)
    end.
Proof.
  unfold job_generation, job_randomUUID, job_now, job_outro.
  destruct j; simpl; unfold handleSaveEdit_try, handleGenerateNewVideo_try;
    unfold bind at 1; simpl; unfold bind at 1;
    destruct (generateVideoFromText _ _ _ _) as [[vo|e| |] tr1]; try done;
    case_bool_decide; try done;
    unfold bind, emit, effect, call, ret; simpl;
    destruct (env_randomUUID _); simpl; by rewrite <-?app_assoc.
Qed.

(** The generation settles exactly when the [try] block comes to its
    setter calls or to [catch]. *)
Lemma job_outcome_settled fuel j tr :
  is_settled (job_outcome fuel j tr).1
  = is_settled (job_generation fuel j tr).1.
Proof.
  unfold job_outcome.
  destruct (job_generation fuel j tr) as [[vo|e| |] tr1]; simpl; try done.
  destruct (job_randomUUID tr1); [done|]. by case_bool_decide.
Qed.

(** The state a job leaves is the one its continuation computes from the
    outcome it sees. *)
Lemma finish_job_settled fuel j st tr :
  (finish_job fuel j st tr).1 =
    let '(r, tr1) := job_outcome fuel j tr in
    match job_settled j r (job_uuid tr1) (job_now tr1) with
    | Some us => apply_all us st
    | None => st
    end.
Proof.
  unfold finish_job, job_outcome, job_uuid. rewrite job_try_run.
  destruct (job_generation fuel j tr) as [[vo|e| |] tr1]; try done;
    destruct j, (job_randomUUID tr1); simpl; try done;
    case_bool_decide; try done; simpl;
    by rewrite ?bool_decide_eq_true_2, ?bool_decide_eq_false_2 by done.
Qed.

(** C3: refinement. [handleSaveEdit] run against the environment, with
    [generateVideoFromText] in it, is two steps of the transition system:
    the event, then the settlement of its job with the outcome its [try]
    block sees (that of the generation, or the error [crypto.randomUUID]
    throws after it) and the identifier and date the environment gives;
    or the event alone when the generation never settles. *)
Theorem handleSaveEdit_simulates fuel originalVideo st tr :
  enabled (render st) (SaveEdit originalVideo) = true →
  let j := SaveEditJob originalVideo in
  let '(r, tr1) := job_outcome fuel j tr in
  let st' := (handleSaveEdit fuel originalVideo st tr).1 in
  ∃ c1, step (mkConfig st []) (User (SaveEdit originalVideo)) = Some c1
        ∧ pending c1 = [j]
        ∧ if is_settled r
          then step c1 (Settle j r (job_uuid tr1) (job_now tr1))
               = Some (mkConfig st' [])
          else st' = app c1.
Proof.
  intros Hen. unfold handleSaveEdit. rewrite finish_job_settled.
  destruct (job_outcome _ _ tr) as [r tr1] eqn:Hg.
  exists (mkConfig (apply_all handleSaveEdit_begin st)
            [SaveEditJob originalVideo]).
  split; [by simpl; rewrite Hen|]. split; [done|].
  unfold step. cbn [pending app].
  rewrite bool_decide_eq_true_2, remove_job_head by apply list_elem_of_here.
  destruct r as [vo|e| |]; simpl; try done; by repeat case_match.
Qed.

(** C14: refinement. [handleGenerateNewVideo] run against the
    environment is the event followed by the settlement of its job, whose
    prompt is the trimmed text of the form; or the event alone when the
    generation never settles. *)
Theorem handleGenerateNewVideo_simulates fuel st tr :
  enabled (render st) GenerateNewVideo = true →
  let j := GenerateJob (trim (newVideoPrompt st)) in
  let '(r, tr1) := job_outcome fuel j tr in
  let st' := (handleGenerateNewVideo fuel st tr).1 in
  ∃ c1, step (mkConfig st []) (User GenerateNewVideo) = Some c1
        ∧ pending c1 = [j]
        ∧ if is_settled r
          then step c1 (Settle j r (job_uuid tr1) (job_now tr1))
               = Some (mkConfig st' [])
          else st' = app c1.
Proof.
  intros Hen. pose proof Hen as Hen'. rewrite enabled_render in Hen'.
  unfold can_fire in Hen'. bool_to_prop.
  unfold handleGenerateNewVideo.
  match goal with H : prompt_is_blank _ = false |- _ => rename H into Hb end.
  rewrite Hb, finish_job_settled.
  destruct (job_outcome _ _ tr) as [r tr1] eqn:Hg.
  exists (mkConfig (apply_all handleGenerateNewVideo_begin st)
            [GenerateJob (trim (newVideoPrompt st))]).
  split; [by simpl; rewrite Hen, Hb|]. split; [done|].
  unfold step. cbn [pending app].
  rewrite bool_decide_eq_true_2, remove_job_head by apply list_elem_of_here.
  destruct r as [vo|e| |]; simpl; try done; by repeat case_match.
Qed.

(** C12: a generation that never settles (a request the service never
    answers, a blob the reader never delivers) leaves the progress page
    for ever: the handler does not resume, [isSaving] stays true and no
    handler can be called any more. *)
Theorem pending_generation_blocks fuel j st tr ev :
  isSaving st = true →
  is_settled (job_generation fuel j tr).1 = false →
  enabled (render (finish_job fuel j st tr).1) ev = false.
Proof.
  intros Hs Hr. rewrite finish_job_settled. rewrite <-job_outcome_settled in Hr.
  destruct (job_outcome fuel j tr) as [[vo|e| |] tr1]; try done;
    destruct j; simpl; unfold render; by rewrite Hs.
Qed.

(** Liveness. When every request to the environment is answered and
    the service reports the operation done within [k] polls, a handler
    that awaits a generation resumes and leaves the progress page: either
    with the error message, or with the new video first in the gallery,
    selected and played in the history view. *)
Theorem generation_ends k fuel j st tr :
  responsive →
  finishes_within k
    ((tr ++ job_intro j) ++ [EGenerateVideos (request (job_prompt j) 1)]) →
  (k ≤ S fuel)%nat →
  let st' := (finish_job (S fuel) j st tr).1 in
  isSaving st' = false
  ∧ (generationError st' = Some generation_failed
     ∨ ∃ newVideo,
         videos st' = newVideo :: videos st
         ∧ playingVideo st' = Some newVideo
         ∧ isPlaying st' = true
         ∧ view st' = history).
Proof.
  intros Hresp Hk Hle. simpl. rewrite finish_job_settled.
  pose proof (generateVideoFromText_settles Hresp k fuel (job_prompt j) 1
                (tr ++ job_intro j) Hk Hle) as Hs.
  fold (job_generation (S fuel) j tr) in Hs. rewrite <-job_outcome_settled in Hs.
  destruct (job_outcome _ _ _) as [[vo|e| |] tr1]; try done;
    destruct st, j; simpl; try case_bool_decide; simpl; eauto 10.
Qed.

(** Where the browser does not define [crypto.randomUUID] no generation
    adds a video. The call is inside [try] (lines 150, 203): when the
    generation has brought its videos the handler throws, and the user
    is shown the message of a failed generation. *)
Lemma no_randomUUID_fails fuel j st tr :
  no_randomUUID →
  is_settled (job_generation fuel j tr).1 = true →
  let st' := (finish_job fuel j st tr).1 in
  generationError st' = Some generation_failed
  ∧ videos st' = videos st
  ∧ generatedVideosHistory st' = generatedVideosHistory st.
Proof.
  intros Hno Hs. simpl. rewrite finish_job_settled. unfold job_outcome.
  destruct (job_generation fuel j tr) as [[vo|e| |] tr1]; try done;
    [destruct (Hno (tr1 ++ [EConsoleLog [lit "Generated video data received."]]))
       as [e He]; unfold job_randomUUID; rewrite He|];
    destruct st, j; simpl; try case_bool_decide; simpl;
    by rewrite ?bool_decide_eq_true_2 by done.
Qed.

End refine.

(** * The theorems on the concrete session *)

Lemma example_saving_reachable : reachable example_mock example_saving.
Proof.
  apply (run_reachable example_mock example_start_generation). by vm_compute.
Qed.

Ltac all_ok_step :=
  lazymatch goal with
  | |- all_ok _ _ [] => exact I
  | |- all_ok _ ?c (?l :: _) =>
      let c' := eval vm_compute in (step c l) in
      split; [| change (step c l) with c'; cbv beta iota]
  end.

Lemma example_config_reachable :
  reachable_if good_env example_mock example_config.
Proof.
  apply (run_reachable_if example_mock good_env example_session
           (start example_mock)); [constructor | | by vm_compute].
  unfold example_session.
  repeat (all_ok_step; [first [exact I | split; compute_done]|]).
  exact I.
Qed.

Lemma one_generation_in_flight_witness :
  (length (pending example_saving) ≤ 1)%nat
  ∧ (isSaving (app example_saving) = true ↔ pending example_saving ≠ []).
Proof.
  exact (one_generation_in_flight example_mock example_saving
           example_saving_reachable).
Defined.

Lemma in_flight_blocks_events_witness :
  step example_saving (User (PlayVideo example_video)) = None.
Proof.
  apply (in_flight_blocks_events example_mock);
    [exact example_saving_reachable | compute_done].
Defined.


Lemma gallery_is_history_then_mock_witness :
  data_inv example_mock (app example_config).
Proof.
  apply (gallery_is_history_then_mock example_mock example_config).
  exact (reachable_if_weaken example_mock good_env example_config
           example_config_reachable).
Defined.

Lemma unique_ids_witness : NoDup (ids (videos (app example_config))).
Proof.
  apply (unique_ids example_mock example_config);
    [compute_done | exact example_config_reachable].
Defined.

Lemma settled_keeps_progress_page_witness :
  render (apply_all
            (take 3 (handleGenerateNewVideo_success (lit "a cat")
                       [Some (lit "AAAA")] (lit "uuid-1") 5 ++ on_finally))
            (app example_saving))
  = SavingProgressPageView (savingMessage (app example_saving)).
Proof.
  apply (settled_keeps_progress_page (GenerateJob (lit "a cat"))
           (Fulfilled [Some (lit "AAAA")]) (lit "uuid-1") 5);
    [reflexivity | reflexivity | compute_done].
Defined.

Lemma settle_success_witness :
  let c' := default example_saving (step example_saving example_settle) in
  let newVideo :=
    job_video (GenerateJob (lit "a cat")) (lit "uuid-1") (Some (lit "AAAA")) in
  videos (app c') = newVideo :: videos (app example_saving)
  ∧ generatedVideosHistory (app c')
    = mkHistoryVideo newVideo 5 :: generatedVideosHistory (app example_saving)
  ∧ view (app c') = history
  ∧ playingVideo (app c') = Some newVideo
  ∧ isPlaying (app c') = true
  ∧ isSaving (app c') = false
  ∧ generationError (app c') = generationError (app example_saving).
Proof.
  apply (settle_success example_saving (GenerateJob (lit "a cat"))
           [Some (lit "AAAA")] (lit "uuid-1") 5); [done | by vm_compute].
Defined.

Lemma settle_failure_witness :
  app (default example_saving (step example_saving example_reject))
  = apply (setIsSaving false)
      (apply (setGenerationError (Some generation_failed))
         (app example_saving)).
Proof.
  apply (settle_failure example_saving (GenerateJob (lit "a cat"))
           (Error (lit "quota")) (lit "uuid-1") 5).
  by vm_compute.
Defined.

Lemma generate_prompt_trimmed_witness :
  ∃ job, (handle example_typing GenerateNewVideo).2 = Some job
         ∧ job_prompt job = trim (newVideoPrompt example_typing)
         ∧ job_prompt job ≠ []
         ∧ trim (job_prompt job) = job_prompt job.
Proof. apply (generate_prompt_trimmed example_typing). reflexivity. Defined.

Lemma handleSaveEdit_simulates_witness :
  let j := SaveEditJob example_video in
  let '(r, tr1) := job_outcome (H:=example_env) 2 j [] in
  let st' := (handleSaveEdit (H:=example_env) 2 example_video
                example_editing []).1 in
  ∃ c1, step (mkConfig example_editing []) (User (SaveEdit example_video))
        = Some c1
        ∧ pending c1 = [j]
        ∧ if is_settled r
          then step c1 (Settle j r (job_uuid (H:=example_env) tr1)
                          (job_now (H:=example_env) tr1))
               = Some (mkConfig st' [])
          else st' = app c1.
Proof.
  apply (handleSaveEdit_simulates (H:=example_env) 2 example_video
           example_editing []).
  reflexivity.
Defined.

Lemma handleGenerateNewVideo_simulates_witness :
  let j := GenerateJob (trim (newVideoPrompt example_typing)) in
  let '(r, tr1) := job_outcome (H:=example_env) 2 j [] in
  let st' := (handleGenerateNewVideo (H:=example_env) 2 example_typing []).1 in
  ∃ c1, step (mkConfig example_typing []) (User GenerateNewVideo) = Some c1
        ∧ pending c1 = [j]
        ∧ if is_settled r
          then step c1 (Settle j r (job_uuid (H:=example_env) tr1)
                          (job_now (H:=example_env) tr1))
               = Some (mkConfig st' [])
          else st' = app c1.
Proof.
  apply (handleGenerateNewVideo_simulates (H:=example_env) 2
           example_typing []).
  reflexivity.
Defined.

Lemma pending_generation_blocks_witness :
  enabled
    (render (finish_job (H:=stuck_env) 2 (GenerateJob (lit "a cat"))
               (app example_saving) []).1)
    (PlayVideo example_video)
  = false.
Proof.
  apply (pending_generation_blocks (H:=stuck_env) 2 (GenerateJob (lit "a cat"))
           (app example_saving) [] (PlayVideo example_video));
    [reflexivity | by vm_compute].
Defined.

(** In the browser without [crypto.randomUUID] the video of the example
    is generated and downloaded, and the page shows that the generation
    failed. *)
Example insecure_generation_fails :
  let '(st', tr') := handleGenerateNewVideo (H:=insecure_env) 2 example_typing [] in
  generationError st' = Some generation_failed
  ∧ videos st' = videos example_typing
  ∧ isSaving st' = false
  ∧ count_if is_fetch tr' = 1%nat.
Proof. by vm_compute. Qed.

Lemma spinner_on_another_video_witness :
  ∃ c newVideo,
    reachable example_mock c
    ∧ playingVideo (app c) = Some newVideo
    ∧ loadingVideoId (app c) = Some (id example_video)
    ∧ id newVideo ≠ id example_video.
Proof.
  apply (spinner_on_another_video example_mock example_video (lit "a cat")
           (lit "uuid-1") 5 [Some (lit "AAAA")]);
    [compute_done | reflexivity | done | compute_done].
Defined.

Lemma generation_ends_witness :
  let st' := (finish_job (H:=example_env) 2 (GenerateJob (lit "a cat"))
                (app example_saving) []).1 in
  isSaving st' = false
  ∧ (generationError st' = Some generation_failed
     ∨ ∃ newVideo,
         videos st' = newVideo :: videos (app example_saving)
         ∧ playingVideo st' = Some newVideo
         ∧ isPlaying st' = true
         ∧ view st' = history).
Proof.
  apply (generation_ends (H:=example_env) 2 1 (GenerateJob (lit "a cat"))
           (app example_saving) []
           (scripted_responsive 2 (Some example_videos) example_dataurl));
    [apply scripted_finishes_within | lia].
Defined.
