(* ===== verification/Schedule.v ===== *)
(** * The downloads of one call, in every order

    [src/unnamed/part_000], lines 62-73: [Promise.all(videos.map(async
    ...))]. [Generate.finish_all] runs the callbacks one after the other,
    in index order. In the browser every callback is suspended at its
    [await]s and resumed when the answer it waits for arrives, in whatever
    order the network and the reader deliver them; [Promise.all] rejects
    with the first rejection in time and is fulfilled, with the values in
    index order, when the last callback is.

    - A [Task] is a callback suspended at one of its three [await]s
      (the response of line 65, the blob of line 71, the [onload] of
      [bloblToBase64]) or settled; [resume] is the code that runs when
      the answer arrives.
    - A [Pool] is the array of callbacks with the state of the promise
      of [Promise.all]; [fire] resumes one callback, [pool_step] is the
      step relation and [run_schedule] runs a list of indices.
    - [oblivious]: the answers to the downloads of a call do not depend
      on how far the other downloads of the call have got.

    - [collects] is lines 56-77 with the answers in any order: the
      promise of [Promise.all] as soon as it has settled, whatever the
      other callbacks still do.

    The theorems show that every order ends ([every_order_ends]), that
    the index order of [Generate] is one of them ([index_order],
    [collect_is_an_order]), and that under [oblivious] every order gives
    every callback the outcome [Generate.finish_all] gives it
    ([downloads_confluent]) and makes the same effects in another order
    ([downloads_effects]), so that [Promise.all] settles as
    [Generate.collect] says up to which error it rejects with
    ([collect_any_order]) and the handlers of [App] make the same setter
    calls ([settled_any_order]). The error itself depends on the order
    ([failing_orders]), except that a callback that threw before its
    first [await] always wins ([start_rejection_wins]), which the index
    order does not show ([index_order_error_differs]); and a rejection
    aborts no download ([rejected_downloads_go_on]). *)

From S2P Require Import Prelude JsString Types Env Generate App.

#[local] Open Scope js_scope.

(** * Callbacks *)

(** A callback of line 63 between two of its [await]s. The answers of
    [res.blob()] and of the reader are decided when the call is made and
    delivered when the callback is resumed. *)
Inductive Task :=
| AwaitFetch (url : jsstring)
| AwaitBlob (answer : settlement JsError Blob)
| AwaitReader (answer : option jsstring)
| Settled (o : outcome JsError (option jsstring)).

(** The state of [Promise.all] (line 62): the callbacks, and the error
    of the first of them to be rejected. *)
Record Pool := mkPool {
  tasks : list Task;
  rejection : option JsError;
}.

(** A callback that has run to its first [await] (lines 64-65). *)
Definition spawn (o : outcome JsError jsstring) : Task :=
  match o with
  | Fulfilled url => AwaitFetch url
  | Rejected e => Settled (Rejected e)
  | Pending => Settled Pending
  | OutOfFuel => Settled OutOfFuel
  end.

(** What awaiting the promise of a callback gives now. *)
Definition task_outcome (t : Task) : outcome JsError (option jsstring) :=
  match t with
  | Settled o => o
  | _ => Pending
  end.

Definition rejected_with (t : Task) : option JsError :=
  match t with
  | Settled (Rejected e) => Some e
  | _ => None
  end.

(** [Promise.all] subscribes to the promises in index order: of the
    callbacks that threw before their first [await], the first one
    rejects it. *)
Definition first_rejection (ts : list Task) : option JsError :=
  head (omap rejected_with ts).

Definition spawn_all (started : list (outcome JsError jsstring)) : Pool :=
  let ts := spawn <$> started in
  mkPool ts (first_rejection ts).

(** The promise [Promise.all] returns. *)
Definition all_outcome (p : Pool) : outcome JsError (list (option jsstring)) :=
  match rejection p with
  | Some e => Rejected e
  | None => promise_all (task_outcome <$> tasks p)
  end.

(** The resumptions a callback has left at most. *)
Definition work (t : Task) : nat :=
  match t with
  | AwaitFetch _ => 3
  | AwaitBlob _ => 2
  | AwaitReader _ => 1
  | Settled _ => 0
  end.

Definition pool_work (p : Pool) : nat := sum_list (work <$> tasks p).

(** Two outcomes that differ at most in the error. *)
Definition agree {A} (o o' : outcome JsError A) : Prop :=
  match o, o' with
  | Rejected _, Rejected _ => True
  | _, _ => o = o'
  end.

Section schedule.
Context `{Env}.

(** The value [reader.onload] resolves with (lines 27-30). *)
Definition read_outcome (answer : option jsstring) :
  outcome JsError (option jsstring) :=
  match answer with
  | Some url => Fulfilled (split comma url !! 1%nat)
  | None => Pending
  end.

(** The code of a callback from the [await] it is suspended at to the
    next (lines 65-72 and 25-32); [None] while the answer has not
    arrived, or when the callback has settled. *)
Definition resume (t : Task) (tr : trace) : option (Task * trace) :=
  match t with
  | AwaitFetch url =>
      match env_fetch tr url with
      | Resolves res =>
          if negb (ok res) then Some (Settled (Rejected (fetch_failed res)), tr)
          else Some (AwaitBlob (env_blob tr res), tr ++ [EBlob res])
      | Rejects e => Some (Settled (Rejected e), tr)
      | NeverSettles => None
      end
  | AwaitBlob answer =>
      match answer with
      | Resolves blob =>
          Some (AwaitReader (env_readAsDataURL tr blob),
                tr ++ [EReadAsDataURL blob])
      | Rejects e => Some (Settled (Rejected e), tr)
      | NeverSettles => None
      end
  | AwaitReader answer =>
      match answer with
      | Some url => Some (Settled (read_outcome answer), tr)
      | None => None
      end
  | Settled _ => None
  end.

(** The callback [i] is resumed; a rejection reaches [Promise.all] when
    it is the first. *)
Definition fire (i : nat) (p : Pool) (tr : trace) : option (Pool * trace) :=
  t ← tasks p !! i;
  '(t', tr') ← resume t tr;
  Some (mkPool (<[i := t']> (tasks p))
          (match rejection p with
           | Some e => Some e
           | None => rejected_with t'
           end),
        tr').

(** The callbacks resumed in the order [sched]; [None] when one of them
    cannot be. *)
Fixpoint run_schedule (sched : list nat) (p : Pool) (tr : trace) :
  option (Pool * trace) :=
  match sched with
  | [] => Some (p, tr)
  | i :: sched' => '(p', tr') ← fire i p tr; run_schedule sched' p' tr'
  end.

(** One resumption of one callback. *)
Inductive task_step : Task * trace → Task * trace → Prop :=
| task_resume t tr t' tr' :
    resume t tr = Some (t', tr') → task_step (t, tr) (t', tr').

(** One resumption of some callback of the pool. *)
Inductive pool_step : Pool * trace → Pool * trace → Prop :=
| pool_fire i p tr p' tr' :
    fire i p tr = Some (p', tr') → pool_step (p, tr) (p', tr').

(** No callback can be resumed: each is settled or waits for an answer
    that does not come. *)
Definition quiescent (p : Pool) (tr : trace) : bool :=
  forallb (λ t, bool_decide (resume t tr = None)) (tasks p).

(** The answers to the downloads made after the history [tr0] do not
    depend on the downloads made since. *)
Definition oblivious (tr0 : trace) : Prop :=
  ∀ d, Forall (λ e, is_download e = true) d →
    (∀ url, env_fetch (tr0 ++ d) url = env_fetch tr0 url)
    ∧ (∀ res, env_blob (tr0 ++ d) res = env_blob tr0 res)
    ∧ (∀ blob, env_readAsDataURL (tr0 ++ d) blob = env_readAsDataURL tr0 blob).

(** What a callback suspended on [res.blob()] ends as. *)
Definition blob_outcome (tr0 : trace) (answer : settlement JsError Blob) :
  outcome JsError (option jsstring) :=
  match answer with
  | Resolves blob => read_outcome (env_readAsDataURL tr0 blob)
  | Rejects e => Rejected e
  | NeverSettles => Pending
  end.

(** What a callback ends as when the answers are those given after
    [tr0]. *)
Definition destiny (tr0 : trace) (t : Task) : outcome JsError (option jsstring) :=
  match t with
  | AwaitFetch url =>
      match env_fetch tr0 url with
      | Resolves res =>
          if negb (ok res) then Rejected (fetch_failed res)
          else blob_outcome tr0 (env_blob tr0 res)
      | Rejects e => Rejected e
      | NeverSettles => Pending
      end
  | AwaitBlob answer => blob_outcome tr0 answer
  | AwaitReader answer => read_outcome answer
  | Settled o => o
  end.

(** The history is [tr0] followed by effects of the downloads. *)
Definition downloading (tr0 tr : trace) : Prop :=
  ∃ d, tr = tr0 ++ d ∧ Forall (λ e, is_download e = true) d.

(** [Promise.all] never rejects for an error no callback has, and
    rejects as soon as a callback has one. *)
Record pool_inv (p : Pool) : Prop := {
  rejection_genuine e :
    rejection p = Some e → Settled (Rejected e) ∈ tasks p;
  rejection_recorded :
    rejection p = None → Forall (λ t, rejected_with t = None) (tasks p);
}.


(** The effect a callback suspended on [res.blob()] still has. *)
Definition blob_effects (answer : settlement JsError Blob) : trace :=
  match answer with
  | Resolves blob => [EReadAsDataURL blob]
  | _ => []
  end.

(** The effects a callback still has when the answers are those given
    after [tr0]. *)
Definition pending_effects (tr0 : trace) (t : Task) : trace :=
  match t with
  | AwaitFetch url =>
      match env_fetch tr0 url with
      | Resolves res =>
          if negb (ok res) then []
          else EBlob res :: blob_effects (env_blob tr0 res)
      | _ => []
      end
  | AwaitBlob answer => blob_effects answer
  | AwaitReader _ | Settled _ => []
  end.

(** The callbacks of lines 63-73 when [map] has returned, and the
    history then. *)
Definition downloads_of (operation : Operation) (tr : trace) : Pool * trace :=
  let '(started, tr1) := start_all (videos_of operation) tr in
  (spawn_all started, tr1).

(** [collects operation tr o tr']: lines 56-77 with the answers in some
    order. The promise of [Promise.all] has settled as [o] when the
    history is [tr'], while other callbacks may still run; or it is
    still pending and no callback can be resumed any more. *)
Inductive collects (operation : Operation) (tr : trace) :
  outcome JsError (list (option jsstring)) → trace → Prop :=
| collects_no_videos :
    videos_of operation = [] →
    collects operation tr (Rejected No_videos_generated) tr
| collects_settled p tr' :
    videos_of operation ≠ [] →
    rtc pool_step (downloads_of operation tr) (p, tr') →
    is_settled (all_outcome p) = true →
    collects operation tr (all_outcome p) tr'
| collects_quiescent p tr' :
    videos_of operation ≠ [] →
    rtc pool_step (downloads_of operation tr) (p, tr') →
    quiescent p tr' = true →
    collects operation tr (all_outcome p) tr'.


End schedule.

(** * Two downloads that fail

    The first video is answered 404, the request of the second fails in
    the network, the third is downloaded. *)
#[local] Open Scope N_scope.

Definition missing_uri : jsstring := lit "https://v/missing?alt=media".
Definition offline_uri : jsstring := lit "https://v/offline?alt=media".

Definition ready_uri : jsstring := lit "https://v/ready?alt=media".

Definition failing_videos : list GeneratedVideo :=
  [mkGeneratedVideo (Some (mkSdkVideo (Some missing_uri)));
   mkGeneratedVideo (Some (mkSdkVideo (Some offline_uri)));
   mkGeneratedVideo (Some (mkSdkVideo (Some ready_uri)))].

(** A first video answered 404 and a second without [video]. *)
Definition broken_videos : list GeneratedVideo :=
  [mkGeneratedVideo (Some (mkSdkVideo (Some missing_uri)));
   mkGeneratedVideo None].

Definition failing_env : Env := {|
  API_KEY := Some (lit "KEY");
  sdk_generateVideos _ p := Resolves (mkOperation (lit "op/1") None None);
  sdk_getVideosOperation _ operation :=
    Resolves (mkOperation (name operation) (Some true)
                (Some (mkGenerateVideosResponse (Some failing_videos))));
  env_decodeURIComponent s := Normal s;
  env_fetch _ url :=
    if startsWith url missing_uri
    then Resolves (mkResponse false 404 (lit "Not Found"))
    else if startsWith url offline_uri
    then Rejects (TypeError (lit "Failed to fetch"))
    else Resolves (mkResponse true 200 (lit "OK"));
  env_blob _ _ := Resolves (mkBlob (lit "video/mp4") [0; 1; 2]);
  env_readAsDataURL _ _ := Some example_dataurl;
  env_randomUUID _ := Normal (lit "uuid");
  env_now _ := 0%Z;
|}.

(** The callbacks of the example once [map] has returned. *)
Definition failing_pool : Pool :=
  spawn_all (@start_all failing_env failing_videos []).1.

Definition failing_trace : trace :=
  (@start_all failing_env failing_videos []).2.

Definition failing_operation : Operation :=
  mkOperation (lit "op/1") (Some true)
    (Some (mkGenerateVideosResponse (Some failing_videos))).

(** The answer to the second request arrives first. *)
Definition offline_first : option (Pool * trace) :=
  @run_schedule failing_env [1%nat] failing_pool failing_trace.

(** The callbacks of the second example once [map] has returned. *)
Definition broken_started : list (outcome JsError jsstring) :=
  (@start_all failing_env broken_videos []).1.

#[local] Close Scope N_scope.

(** * Lemmas *)

Section schedule_lemmas.
Context `{Env}.
Implicit Types (t : Task) (p : Pool) (tr : trace) (i : nat).

Lemma resume_work t tr t' tr' :
  resume t tr = Some (t', tr') → work t' < work t.
Proof.
  destruct t as [url|[blob|e|]|[url|]|o]; simpl; intros ?; simplify_eq/=; try lia.
  destruct (env_fetch tr url) as [res|e|]; [|by simplify_eq/=; lia|done].
  destruct (negb (ok res)); simplify_eq/=; lia.
Qed.

Lemma resume_downloading t tr t' tr' :
  resume t tr = Some (t', tr') → downloading tr tr'.
Proof.
  unfold downloading.
  destruct t as [url|[blob|e|]|[url|]|o]; simpl; intros ?; simplify_eq/=;
    try (by exists []; rewrite app_nil_r); [|by eexists [_]; repeat constructor].
  destruct (env_fetch tr url) as [res|e|]; [| |done];
    [destruct (negb (ok res))|]; simplify_eq/=;
    try (by exists []; rewrite app_nil_r); by eexists [_]; repeat constructor.
Qed.

Lemma fire_inv i p tr p' tr' :
  fire i p tr = Some (p', tr') →
  ∃ t t', tasks p !! i = Some t ∧ resume t tr = Some (t', tr')
    ∧ p' = mkPool (<[i:=t']> (tasks p))
             (match rejection p with Some e => Some e | None => rejected_with t' end).
Proof.
  unfold fire. destruct (tasks p !! i) as [t|]; [|done]. simpl.
  destruct (resume t tr) as [[t' tr1]|] eqn:Ht; [|done]. simpl.
  intros [= <- <-]. by eexists _, _.
Qed.

Lemma fire_work i p tr p' tr' :
  fire i p tr = Some (p', tr') → pool_work p' < pool_work p.
Proof.
  intros (t & t' & Hi & Ht & ->)%fire_inv. unfold pool_work. simpl.
  apply resume_work in Ht.
  pose proof (sum_list_insert (work <$> tasks p) i (work t) (work t')) as Hs.
  rewrite list_fmap_insert. rewrite list_lookup_fmap, Hi in Hs.
  specialize (Hs eq_refl). lia.
Qed.

Lemma pool_work_bound p : pool_work p ≤ 3 * length (tasks p).
Proof.
  unfold pool_work. induction (tasks p) as [|t ts IH]; csimpl; [lia|].
  destruct t; simpl in *; lia.
Qed.

Lemma pool_step_work x y : pool_step x y → pool_work y.1 < pool_work x.1.
Proof. destruct 1. simpl. by eapply fire_work. Qed.

Lemma pool_step_sn x : sn pool_step x.
Proof.
  apply (wf_projected lt (pool_work ∘ fst)); [|apply lt_wf].
  intros y z Hzy. by apply pool_step_work.
Qed.

Lemma schedule_length n x y :
  nsteps pool_step n x y → n + pool_work y.1 ≤ 3 * length (tasks x.1).
Proof.
  intros Hn. etrans; [|apply pool_work_bound].
  induction Hn as [|n x y z Hxy _ IH]; [lia|]. apply pool_step_work in Hxy. lia.
Qed.

(** C27: the downloads end in whatever order the answers arrive: there
    is no infinite sequence of resumptions, and a sequence has at most
    three resumptions per callback. *)
Theorem every_order_ends x :
  sn pool_step x
  ∧ ∀ n y, nsteps pool_step n x y → n ≤ 3 * length (tasks x.1).
Proof.
  split; [apply pool_step_sn|]. intros n y Hn.
  pose proof (schedule_length _ _ _ Hn). lia.
Qed.

Lemma run_schedule_nsteps sched p tr p' tr' :
  run_schedule sched p tr = Some (p', tr') →
  nsteps pool_step (length sched) (p, tr) (p', tr').
Proof.
  revert p tr. induction sched as [|i sched IH]; intros p tr; simpl.
  { intros [= <- <-]. constructor. }
  destruct (fire i p tr) as [[p1 tr1]|] eqn:Hf; [|done]. simpl. intros Hr.
  eapply nsteps_l; [by econstructor | by apply IH].
Qed.

Lemma nsteps_run_schedule n x y :
  nsteps pool_step n x y →
  ∃ sched, length sched = n ∧ run_schedule sched x.1 x.2 = Some y.
Proof.
  induction 1 as [[p tr]|n x y z Hxy _ (sched & <- & Hr)]; [by exists []|].
  destruct Hxy as [i p tr p' tr' Hf]. exists (i :: sched). simpl in *.
  by rewrite Hf.
Qed.

Lemma quiescent_fire p tr :
  quiescent p tr = true ↔ ∀ i, fire i p tr = None.
Proof.
  unfold quiescent, fire. rewrite <-Is_true_true, forallb_True, Forall_lookup. split.
  - intros Hq i. destruct (tasks p !! i) as [t|] eqn:Hi; [|done]. simpl.
    apply Hq, bool_decide_unpack in Hi. by rewrite Hi.
  - intros Hf i t Hi. apply bool_decide_pack. specialize (Hf i).
    rewrite Hi in Hf. simpl in Hf. by destruct (resume t tr) as [[??]|].
Qed.

Lemma quiescent_nf p tr : quiescent p tr = true ↔ nf pool_step (p, tr).
Proof.
  rewrite quiescent_fire. split.
  - intros Hq [y Hy]. inversion Hy; simplify_eq. by rewrite Hq in *.
  - intros Hnf i. destruct (fire i p tr) as [[p' tr']|] eqn:Hf; [|done].
    destruct Hnf. eexists. by econstructor.
Qed.


(** ** The index order *)

Lemma finish_one_steps o tr :
  ∃ t', rtc task_step (spawn o, tr) (t', (finish_one o tr).2)
        ∧ task_outcome t' = (finish_one o tr).1.
Proof.
  destruct o as [url|e| |]; simpl; try by eexists.
  unfold fetch_finish, bloblToBase64, bind, receive, call, throw, ret.
  destruct (env_fetch tr url) as [res|e|] eqn:Hf; simpl; [| |by eexists].
  2:{ eexists. split; [apply rtc_once; constructor; simpl; by rewrite Hf|done]. }
  destruct (negb (ok res)) eqn:Hok; simpl.
  { eexists. split; [apply rtc_once; constructor; simpl; by rewrite Hf, Hok|done]. }
  assert (task_step (AwaitFetch url, tr)
            (AwaitBlob (env_blob tr res), tr ++ [EBlob res])) as H1.
  { constructor. simpl. by rewrite Hf, Hok. }
  destruct (env_blob tr res) as [blob|e|]; simpl;
    [|eexists; split; [eapply rtc_l; [exact H1|]; by apply rtc_once|done]
     |eexists; split; [by apply rtc_once|done]].
  assert (task_step (AwaitBlob (Resolves blob), tr ++ [EBlob res])
            (AwaitReader (env_readAsDataURL (tr ++ [EBlob res]) blob),
             (tr ++ [EBlob res]) ++ [EReadAsDataURL blob])) as H2 by done.
  destruct (env_readAsDataURL (tr ++ [EBlob res]) blob) as [u|] eqn:Hr; simpl.
  - eexists. split; [eapply rtc_l; [exact H1|]; eapply rtc_l; [exact H2|];
                     by apply rtc_once|done].
  - eexists. split; [eapply rtc_l; [exact H1|]; by apply rtc_once|done].
Qed.

Lemma task_steps_pool i x y :
  rtc task_step x y → ∀ p, tasks p !! i = Some x.1 →
  ∃ p', rtc pool_step (p, x.2) (p', y.2) ∧ tasks p' = <[i:=y.1]> (tasks p).
Proof.
  induction 1 as [[t tr]|x y z [t tr t' tr' Hr] _ IH]; intros p Hi; simpl in *.
  { exists p. by rewrite list_insert_id. }
  assert (fire i p tr = Some
            (mkPool (<[i:=t']> (tasks p))
               (match rejection p with Some e => Some e
                | None => rejected_with t' end), tr')) as Hf.
  { unfold fire. rewrite Hi. simpl. by rewrite Hr. }
  destruct (IH (mkPool (<[i:=t']> (tasks p))
                  (match rejection p with Some e => Some e
                   | None => rejected_with t' end))) as (p' & Hp' & Ht).
  { simpl. apply list_lookup_insert_eq. by eapply lookup_lt_Some. }
  exists p'. split; [eapply rtc_l; [by econstructor|done]|].
  simpl in Ht. by rewrite Ht, list_insert_insert_eq.
Qed.

Lemma index_order_from started : ∀ finished p tr,
  tasks p = finished ++ (spawn <$> started) →
  ∃ p', rtc pool_step (p, tr) (p', (finish_all started tr).2)
        ∧ task_outcome <$> tasks p'
          = (task_outcome <$> finished) ++ (finish_all started tr).1.
Proof.
  induction started as [|o os IH]; intros finished p tr Hp; simpl.
  { exists p. by rewrite Hp, fmap_app. }
  destruct (finish_one_steps o tr) as (t' & Hsteps & Ho).
  destruct (task_steps_pool (length finished) _ _ Hsteps p) as (p1 & Hp1 & Ht1).
  { rewrite Hp. simpl. by apply list_lookup_middle. }
  destruct (finish_one o tr) as [r tr1]. simpl in *. subst r.
  destruct (IH (finished ++ [t']) p1 tr1) as (p' & Hp' & Ht').
  { rewrite Ht1, Hp. simpl. rewrite <-app_assoc.
    by rewrite insert_app_r_alt, Nat.sub_diag by done. }
  destruct (finish_all os tr1) as [rs tr2]. simpl in *.
  exists p'. split; [by etrans|]. by rewrite Ht', fmap_app, <-app_assoc.
Qed.

(** The index order of [Generate.finish_all] is an order in which the
    browser may resume the callbacks: some sequence of resumptions leaves
    the history and, for every callback, the outcome that [finish_all]
    computes. *)
Lemma index_order started tr :
  ∃ p, rtc pool_step (spawn_all started, tr) (p, (finish_all started tr).2)
       ∧ task_outcome <$> tasks p = (finish_all started tr).1.
Proof. by apply (index_order_from started []). Qed.

(** ** What [Promise.all] records *)

Lemma spawn_all_inv started : pool_inv (spawn_all started).
Proof.
  unfold spawn_all, first_rejection. split; simpl.
  - intros e He. apply head_Some_elem_of, list_elem_of_omap in He
      as (t & Ht & Hr). by destruct t as [| | |[]]; simplify_eq/=.
  - intros Hn. apply Forall_forall. intros t Ht.
    destruct (rejected_with t) as [e|] eqn:Hr; [|done].
    assert (e ∈ omap rejected_with (spawn <$> started)) as He
      by (apply list_elem_of_omap; eauto).
    destruct (omap _ _); [by apply elem_of_nil in He|done].
Qed.

Lemma resume_settled o tr : resume (Settled o) tr = None.
Proof. done. Qed.

Lemma fire_inv_pool i p tr p' tr' :
  pool_inv p → fire i p tr = Some (p', tr') → pool_inv p'.
Proof.
  intros [Hg Hr] (t & t' & Hi & Ht & ->)%fire_inv.
  pose proof (lookup_lt_Some _ _ _ Hi) as Hlt. split; simpl.
  - intros e He. destruct (rejection p) as [e'|] eqn:Hrej.
    + simplify_eq. destruct (list_elem_of_lookup_1 _ _ (Hg _ eq_refl)) as [j Hj].
      apply (list_elem_of_lookup_2 _ j). rewrite list_lookup_insert_ne; [done|].
      intros ->. by simplify_eq.
    + apply (list_elem_of_lookup_2 _ i). rewrite list_lookup_insert_eq by done.
      by destruct t' as [| | |[]]; simplify_eq/=.
  - destruct (rejection p); [done|]. intros Hn.
    apply Forall_insert; auto.
Qed.

Lemma pool_steps_inv x y : rtc pool_step x y → pool_inv x.1 → pool_inv y.1.
Proof.
  induction 1 as [|x y z [i p tr p' tr' Hf] _ IH]; [done|].
  intros Hp. apply IH. by eapply fire_inv_pool.
Qed.

Lemma all_outcome_inv p :
  pool_inv p → agree (all_outcome p) (promise_all (task_outcome <$> tasks p)).
Proof.
  intros [Hg Hr]. unfold all_outcome. destruct (rejection p) as [e|].
  - destruct (proj2 (promise_all_rejected (task_outcome <$> tasks p))) as [e' ->];
      [|done]. exists e. apply list_elem_of_fmap. eexists. split; [|by apply Hg]. done.
  - unfold agree. by destruct (promise_all _).
Qed.

Lemma pool_inv_not_rejected p e :
  pool_inv p → rejection p = None →
  promise_all (task_outcome <$> tasks p) ≠ Rejected e.
Proof.
  intros [_ Hr] Hn Hall. specialize (Hr Hn).
  destruct (proj1 (promise_all_rejected _) (ex_intro _ e Hall)) as [e' He'].
  apply list_elem_of_fmap in He' as (t & Ht & Hin).
  rewrite Forall_forall in Hr. specialize (Hr _ Hin).
  by destruct t as [| | |[]]; simplify_eq/=.
Qed.

Lemma all_outcome_rejected p e :
  pool_inv p → all_outcome p = Rejected e →
  Rejected e ∈ task_outcome <$> tasks p.
Proof.
  intros Hinv. unfold all_outcome. destruct (rejection p) as [e'|] eqn:He.
  - intros [= ->]. apply list_elem_of_fmap. eexists.
    split; [|by apply (rejection_genuine _ Hinv)]. done.
  - intros Hall. by apply pool_inv_not_rejected in Hall.
Qed.

(** ** Every order *)

Section oblivious.
Variable tr0 : trace.
Hypothesis Hobl : oblivious tr0.

Lemma downloading_refl tr : downloading tr tr.
Proof. exists []. by rewrite app_nil_r. Qed.

Lemma downloading_trans tr1 tr2 tr3 :
  downloading tr1 tr2 → downloading tr2 tr3 → downloading tr1 tr3.
Proof.
  intros (d1 & -> & H1) (d2 & -> & H2). exists (d1 ++ d2).
  by rewrite app_assoc, Forall_app.
Qed.

Lemma downloading_snoc tr e :
  downloading tr0 tr → is_download e = true → downloading tr0 (tr ++ [e]).
Proof.
  intros Htr He. eapply downloading_trans; [done|]. exists [e]. by repeat constructor.
Qed.

Lemma oblivious_fetch tr url :
  downloading tr0 tr → env_fetch tr url = env_fetch tr0 url.
Proof. intros (d & -> & Hd). by apply Hobl. Qed.

Lemma oblivious_blob tr res :
  downloading tr0 tr → env_blob tr res = env_blob tr0 res.
Proof. intros (d & -> & Hd). by apply Hobl. Qed.

Lemma oblivious_reader tr blob :
  downloading tr0 tr → env_readAsDataURL tr blob = env_readAsDataURL tr0 blob.
Proof. intros (d & -> & Hd). by apply Hobl. Qed.

(** A resumption does not change what the callback ends as. *)
Lemma resume_destiny t tr t' tr' :
  downloading tr0 tr → resume t tr = Some (t', tr') →
  destiny tr0 t' = destiny tr0 t.
Proof.
  intros Htr. destruct t as [url|[blob|e|]|[url|]|o]; simpl; intros ?;
    simplify_eq/=; rewrite ?oblivious_reader by done; try done.
  rewrite oblivious_fetch in * by done.
  destruct (env_fetch tr0 url) as [res|e|]; [|by simplify_eq|done].
  destruct (negb (ok res)); simplify_eq/=; [done|].
  by rewrite oblivious_blob.
Qed.

(** A callback that cannot be resumed has ended. *)
Lemma blocked_destiny t tr :
  downloading tr0 tr → resume t tr = None → task_outcome t = destiny tr0 t.
Proof.
  intros Htr. destruct t as [url|[blob|e|]|[url|]|o]; simpl; try done.
  rewrite oblivious_fetch by done.
  destruct (env_fetch tr0 url) as [res|e|]; [|done..]. by destruct (negb (ok res)).
Qed.

Lemma fire_destiny i p tr p' tr' :
  downloading tr0 tr → fire i p tr = Some (p', tr') →
  destiny tr0 <$> tasks p' = destiny tr0 <$> tasks p ∧ downloading tr0 tr'.
Proof.
  intros Htr (t & t' & Hi & Ht & ->)%fire_inv. simpl. split.
  - rewrite list_fmap_insert, (resume_destiny _ _ _ _ Htr Ht).
    apply list_insert_id. by rewrite list_lookup_fmap, Hi.
  - eapply downloading_trans; [done|]. by eapply resume_downloading.
Qed.

Lemma pool_steps_destiny x y :
  rtc pool_step x y → downloading tr0 x.2 →
  destiny tr0 <$> tasks y.1 = destiny tr0 <$> tasks x.1 ∧ downloading tr0 y.2.
Proof.
  induction 1 as [|x y z [i p tr p' tr' Hf] _ IH]; [done|]. simpl. intros Htr.
  destruct (fire_destiny _ _ _ _ _ Htr Hf) as [<- Htr']. by apply IH.
Qed.

Lemma quiescent_destiny p tr :
  downloading tr0 tr → quiescent p tr = true →
  task_outcome <$> tasks p = destiny tr0 <$> tasks p.
Proof.
  intros Htr. unfold quiescent. rewrite <-Is_true_true, forallb_True.
  intros Hq. apply list_fmap_ext. intros i t Hi.
  rewrite Forall_lookup in Hq. by eapply blocked_destiny, bool_decide_unpack, Hq.
Qed.

Lemma finish_one_destiny o tr :
  downloading tr0 tr →
  (finish_one o tr).1 = destiny tr0 (spawn o)
  ∧ downloading tr0 (finish_one o tr).2.
Proof.
  intros Htr. split; [|by destruct (finish_one_emits o tr) as (d & -> & Hd);
                        eapply downloading_trans; [done|exists d]].
  destruct o as [url|e| |]; simpl; try done.
  unfold fetch_finish, bloblToBase64, bind, receive, call, throw, ret.
  rewrite oblivious_fetch by done.
  destruct (env_fetch tr0 url) as [res|e|]; simpl; [|done..].
  destruct (negb (ok res)); simpl; [done|]. rewrite oblivious_blob by done.
  destruct (env_blob tr0 res) as [blob|e|]; simpl; [|done..].
  rewrite oblivious_reader by by apply downloading_snoc.
  by destruct (env_readAsDataURL tr0 blob).
Qed.

Lemma finish_all_destiny started tr :
  downloading tr0 tr →
  (finish_all started tr).1 = destiny tr0 ∘ spawn <$> started.
Proof.
  revert tr. induction started as [|o os IH]; intros tr Htr; simpl; [done|].
  destruct (finish_one_destiny o tr Htr) as [Ho Htr1].
  destruct (finish_one o tr) as [r tr1]. simpl in *.
  specialize (IH tr1 Htr1). destruct (finish_all os tr1) as [rs tr2].
  simpl in *. by rewrite Ho, IH.
Qed.

(** When the answers do not depend on the order of the downloads,
    whatever the order in which the callbacks are resumed, once none can
    be resumed every callback has the outcome the index order gives
    it. *)
Lemma downloads_confluent started p tr :
  rtc pool_step (spawn_all started, tr0) (p, tr) →
  quiescent p tr = true →
  task_outcome <$> tasks p = (finish_all started tr0).1.
Proof.
  intros Hsteps Hq.
  destruct (pool_steps_destiny _ _ Hsteps (downloading_refl _)) as [Hd Htr].
  rewrite (quiescent_destiny _ _ Htr Hq), finish_all_destiny
    by apply downloading_refl.
  simpl in Hd. by rewrite Hd, list_fmap_compose.
Qed.

(** [Promise.all] then settles as in the index order, up to the error
    it rejects with, which is the error of one of the callbacks. *)
Lemma all_outcome_agrees started p tr :
  rtc pool_step (spawn_all started, tr0) (p, tr) →
  quiescent p tr = true →
  agree (all_outcome p) (promise_all (finish_all started tr0).1)
  ∧ ∀ e, all_outcome p = Rejected e → Rejected e ∈ (finish_all started tr0).1.
Proof.
  intros Hsteps Hq. rewrite <-(downloads_confluent started p tr) by done.
  pose proof (pool_steps_inv _ _ Hsteps (spawn_all_inv started)) as Hinv.
  split; [by apply all_outcome_inv | intros e; by apply all_outcome_rejected].
Qed.

End oblivious.

(** ** The application *)

(** The handlers do not look at the error: which callback [Promise.all]
    rejects for changes nothing but the line logged. *)
Lemma job_settled_agree j r r' uuid now :
  agree r r' → job_settled j r uuid now = job_settled j r' uuid now.
Proof. destruct j, r, r'; simpl; try done; by intros [= ->]. Qed.


(** ** A settled [Promise.all] stays as it is *)

Lemma fire_settled i p tr p' tr' :
  pool_inv p → fire i p tr = Some (p', tr') →
  is_settled (all_outcome p) = true → all_outcome p' = all_outcome p.
Proof.
  intros Hinv (t & t' & Hi & Ht & ->)%fire_inv. unfold all_outcome. simpl.
  destruct (rejection p) as [e|] eqn:Hrej; [done|].
  destruct (promise_all _) as [l|e| |] eqn:Hall; try done.
  - apply promise_all_fulfilled in Hall.
    apply (f_equal (.!! i)) in Hall. rewrite !list_lookup_fmap, Hi in Hall.
    destruct (l !! i); destruct t; simplify_eq/=.
  - by apply pool_inv_not_rejected in Hall.
Qed.

Lemma pool_steps_settled x y :
  rtc pool_step x y → pool_inv x.1 → is_settled (all_outcome x.1) = true →
  all_outcome y.1 = all_outcome x.1.
Proof.
  induction 1 as [|x y z [i p tr p' tr' Hf] _ IH]; [done|]. simpl.
  intros Hinv Hs. rewrite <-(fire_settled _ _ _ _ _ Hinv Hf Hs). apply IH.
  - by eapply fire_inv_pool.
  - simpl. by rewrite (fire_settled _ _ _ _ _ Hinv Hf Hs).
Qed.

(** ** Every order can be continued until no callback is left *)

Lemma not_quiescent p tr : quiescent p tr = false → red pool_step (p, tr).
Proof.
  unfold quiescent. intros Hq%not_true_iff_false.
  rewrite <-Is_true_true, forallb_True in Hq.
  apply not_Forall_Exists, Exists_exists in Hq as (t & Hin & Ht); [|apply _].
  apply list_elem_of_lookup_1 in Hin as [i Hi].
  destruct (resume t tr) as [[t' tr']|] eqn:Hr;
    [|by destruct Ht; apply bool_decide_pack].
  eexists. apply (pool_fire i). unfold fire. rewrite Hi. simpl. by rewrite Hr.
Qed.

#[local] Instance pool_red_dec x : Decision (red pool_step x).
Proof.
  destruct x as [p tr]. destruct (quiescent p tr) eqn:Hq.
  - right. by apply quiescent_nf.
  - left. by apply not_quiescent.
Defined.

Lemma pool_quiesces x :
  ∃ p tr, rtc pool_step x (p, tr) ∧ quiescent p tr = true.
Proof.
  destruct (sn_wn x (pool_step_sn x)) as ([p tr] & Hsteps & Hnf).
  exists p, tr. by rewrite quiescent_nf.
Qed.

(** ** The history, up to the order of the effects *)

Section effects.
Variable tr0 : trace.
Hypothesis Hobl : oblivious tr0.

Lemma resume_effects t tr t' tr' :
  downloading tr0 tr → resume t tr = Some (t', tr') →
  ∃ d, tr' = tr ++ d ∧ pending_effects tr0 t = d ++ pending_effects tr0 t'.
Proof.
  intros Htr. destruct t as [url|[blob|e|]|[url|]|o]; simpl; intros ?;
    simplify_eq/=; try (by exists []; rewrite app_nil_r); [|by eexists [_]].
  rewrite (oblivious_fetch tr0 Hobl tr) in * by done.
  destruct (env_fetch tr0 url) as [res|e|];
    [|by simplify_eq; exists []; rewrite app_nil_r|done].
  destruct (negb (ok res)); simplify_eq/=; [by exists []; rewrite app_nil_r|].
  rewrite (oblivious_blob tr0 Hobl tr) by done. by eexists [_].
Qed.

Lemma blocked_effects t tr :
  downloading tr0 tr → resume t tr = None → pending_effects tr0 t = [].
Proof.
  intros Htr. destruct t as [url|[blob|e|]|[url|]|o]; simpl; try done.
  rewrite (oblivious_fetch tr0 Hobl) by done.
  destruct (env_fetch tr0 url) as [res|e|]; [|done..]. by destruct (negb (ok res)).
Qed.

Lemma fire_effects i p tr p' tr' :
  downloading tr0 tr → fire i p tr = Some (p', tr') →
  tr' ++ (tasks p' ≫= pending_effects tr0)
  ≡ₚ tr ++ (tasks p ≫= pending_effects tr0).
Proof.
  intros Htr (t & t' & Hi & Ht & ->)%fire_inv. simpl.
  destruct (resume_effects _ _ _ _ Htr Ht) as (d & -> & Hd).
  rewrite <-(take_drop_middle _ _ _ Hi) at 2.
  rewrite insert_take_drop by by eapply lookup_lt_Some.
  rewrite !bind_app, !bind_cons, Hd, <-!app_assoc. f_equiv.
  apply Permutation_app_swap_app.
Qed.

Lemma pool_steps_effects x y :
  rtc pool_step x y → downloading tr0 x.2 →
  y.2 ++ (tasks y.1 ≫= pending_effects tr0)
  ≡ₚ x.2 ++ (tasks x.1 ≫= pending_effects tr0).
Proof.
  induction 1 as [|x y z [i p tr p' tr' Hf] _ IH]; [done|]. simpl. intros Htr.
  destruct (fire_destiny tr0 Hobl _ _ _ _ _ Htr Hf) as [_ Htr'].
  rewrite IH by done. by eapply fire_effects.
Qed.

Lemma finish_one_effects o tr :
  downloading tr0 tr →
  (finish_one o tr).2 = tr ++ pending_effects tr0 (spawn o).
Proof.
  intros Htr. destruct o as [url|e| |]; simpl; try by rewrite app_nil_r.
  unfold fetch_finish, bloblToBase64, bind, receive, call, throw, ret.
  rewrite (oblivious_fetch tr0 Hobl) by done.
  destruct (env_fetch tr0 url) as [res|e|]; simpl; try by rewrite app_nil_r.
  destruct (negb (ok res)); simpl; [by rewrite app_nil_r|].
  rewrite (oblivious_blob tr0 Hobl) by done.
  destruct (env_blob tr0 res) as [blob|e|]; simpl; [|done..].
  rewrite (oblivious_reader tr0 Hobl) by by apply downloading_snoc.
  destruct (env_readAsDataURL tr0 blob); simpl; by rewrite <-app_assoc.
Qed.

Lemma finish_all_effects started tr :
  downloading tr0 tr →
  (finish_all started tr).2 = tr ++ ((spawn <$> started) ≫= pending_effects tr0).
Proof.
  revert tr. induction started as [|o os IH]; intros tr Htr; simpl.
  { by rewrite app_nil_r. }
  pose proof (finish_one_effects o tr Htr) as Ho.
  destruct (finish_one_destiny tr0 Hobl o tr Htr) as [_ Htr1].
  destruct (finish_one o tr) as [r tr1]. simpl in *.
  specialize (IH tr1 Htr1). destruct (finish_all os tr1) as [rs tr2].
  simpl in *. by rewrite IH, Ho, <-app_assoc.
Qed.

(** The effects made so far in any order, with those the callbacks
    still have, are the effects of the index order. *)
Lemma downloads_effects started p tr :
  rtc pool_step (spawn_all started, tr0) (p, tr) →
  tr ++ (tasks p ≫= pending_effects tr0) ≡ₚ (finish_all started tr0).2.
Proof.
  intros Hsteps. rewrite finish_all_effects by apply downloading_refl.
  by apply (pool_steps_effects _ _ Hsteps), downloading_refl.
Qed.

End effects.

(** ** The call *)

Lemma pending_effects_download tr0 t :
  Forall (λ e, is_download e = true) (pending_effects tr0 t).
Proof.
  destruct t as [url|[blob|e|]|[url|]|o]; simpl; repeat constructor.
  destruct (env_fetch tr0 url) as [res|e|]; [|done..].
  destruct (negb (ok res)); [done|].
  destruct (env_blob tr0 res); repeat constructor.
Qed.

Lemma pool_effects_download tr0 p :
  Forall (λ e, is_download e = true) (tasks p ≫= pending_effects tr0).
Proof.
  apply Forall_bind, Forall_true. intros t. apply pending_effects_download.
Qed.

Lemma downloads_of_start operation tr :
  downloads_of operation tr
  = (spawn_all (start_all (videos_of operation) tr).1,
     (start_all (videos_of operation) tr).2).
Proof. unfold downloads_of. by destruct (start_all _ _). Qed.

Lemma collect_finish_all operation tr :
  videos_of operation ≠ [] →
  collect operation tr
  = (promise_all (finish_all (start_all (videos_of operation) tr).1
                    (start_all (videos_of operation) tr).2).1,
     (finish_all (start_all (videos_of operation) tr).1
        (start_all (videos_of operation) tr).2).2).
Proof.
  intros Hv. rewrite collect_videos by done.
  destruct (start_all _ _) as [started tr1]. simpl.
  by destruct (finish_all _ _).
Qed.

(** A run of the callbacks in which [Promise.all] has settled or which
    cannot go on agrees with the index order. *)
Lemma downloads_agree started tr0 p tr :
  oblivious tr0 →
  rtc pool_step (spawn_all started, tr0) (p, tr) →
  is_settled (all_outcome p) = true ∨ quiescent p tr = true →
  agree (all_outcome p) (promise_all (finish_all started tr0).1).
Proof.
  intros Hobl Hsteps [Hs|Hq]; [|by eapply all_outcome_agrees].
  destruct (pool_quiesces (p, tr)) as (p' & tr' & Hsteps' & Hq).
  pose proof (pool_steps_inv _ _ Hsteps (spawn_all_inv started)) as Hinv.
  pose proof (pool_steps_settled _ _ Hsteps' Hinv Hs) as Hst. simpl in Hst.
  rewrite <-Hst. eapply all_outcome_agrees; [done| |done]. by etrans.
Qed.

(** C26: when the answers to the downloads do not depend on their
    order, in whatever order they arrive the promise of [Promise.all]
    settles, or stays pending, as [Generate.collect] says, up to which
    error it rejects with; and the effects made by then, with those of
    the callbacks that still run, are the effects of [collect] in
    another order. *)
Theorem collect_any_order operation tr o tr' :
  oblivious (downloads_of operation tr).2 →
  collects operation tr o tr' →
  agree o (collect operation tr).1
  ∧ ∃ d, Forall (λ e, is_download e = true) d
         ∧ tr' ++ d ≡ₚ (collect operation tr).2.
Proof.
  rewrite downloads_of_start. simpl. intros Hobl Hc.
  assert (∀ p, videos_of operation ≠ [] →
    rtc pool_step (downloads_of operation tr) (p, tr') →
    is_settled (all_outcome p) = true ∨ quiescent p tr' = true →
    agree (all_outcome p) (collect operation tr).1
    ∧ ∃ d, Forall (λ e, is_download e = true) d
           ∧ tr' ++ d ≡ₚ (collect operation tr).2) as Hrun.
  { intros p Hv Hsteps Hend. rewrite downloads_of_start in Hsteps.
    rewrite collect_finish_all by done. simpl. split.
    - by eapply downloads_agree.
    - eexists. split; [apply pool_effects_download|].
      by eapply downloads_effects. }
  destruct Hc as [Hv|p tr' Hv Hsteps Hs|p tr' Hv Hsteps Hq]; [|by eauto..].
  rewrite collect_no_videos by done. split; [done|]. exists []. by rewrite app_nil_r.
Qed.

(** C19: the setter calls a handler makes when the generation settles
    are those it makes for the outcome of [Generate.collect], in
    whatever order the answers to the downloads arrive. *)
Theorem settled_any_order j operation tr o tr' uuid now :
  oblivious (downloads_of operation tr).2 →
  collects operation tr o tr' →
  job_settled j o uuid now = job_settled j (collect operation tr).1 uuid now.
Proof.
  intros Hobl Hc. apply job_settled_agree.
  rewrite downloads_of_start in Hobl. simpl in Hobl.
  destruct Hc as [Hv|p tr' Hv Hsteps Hs|p tr' Hv Hsteps Hq].
  - by rewrite collect_no_videos.
  - rewrite collect_finish_all by done. rewrite downloads_of_start in Hsteps.
    eapply downloads_agree; eauto.
  - rewrite collect_finish_all by done. rewrite downloads_of_start in Hsteps.
    eapply downloads_agree; eauto.
Qed.

Lemma first_rejection_spawn started i e :
  started !! i = Some (Rejected e) →
  (∀ j o, (j < i)%nat → started !! j = Some o → is_rejected o = false) →
  rejection (spawn_all started) = Some e.
Proof.
  unfold spawn_all, first_rejection. simpl.
  revert i. induction started as [|o os IH]; intros [|i] Hi Hlt; simplify_eq/=.
  { done. }
  pose proof (Hlt 0%nat o ltac:(lia) eq_refl) as Ho.
  destruct o as [url|e'| |]; simpl in *; try done;
    (apply (IH i); [done|]; intros j o' Hj Ho'; apply (Hlt (S j)); [lia|done]).
Qed.

Lemma pool_steps_rejection x y e :
  rtc pool_step x y → rejection x.1 = Some e → rejection y.1 = Some e.
Proof.
  induction 1 as [|x y z [i p tr p' tr' Hf] _ IH]; [done|]. simpl. intros He.
  apply IH. apply fire_inv in Hf as (t & t' & _ & _ & ->). simpl. by rewrite He.
Qed.

(** C33: a callback that threw before its first [await] (a generated
    video without [video], a URI that does not decode) decides: in every
    order, and however far the downloads have got, [Promise.all] rejects
    with the error of the first such callback. *)
Theorem start_rejection_wins started i e tr p tr' :
  started !! i = Some (Rejected e) →
  (∀ j o, (j < i)%nat → started !! j = Some o → is_rejected o = false) →
  rtc pool_step (spawn_all started, tr) (p, tr') →
  all_outcome p = Rejected e.
Proof.
  intros Hi Hlt Hsteps. unfold all_outcome.
  pose proof (pool_steps_rejection _ _ e Hsteps
                (first_rejection_spawn _ _ _ Hi Hlt)) as Hr.
  simpl in Hr. by rewrite Hr.
Qed.


(** ** The index order is one of the orders *)

Lemma ended_blocked tr0 t tr :
  oblivious tr0 → downloading tr0 tr →
  task_outcome t = destiny tr0 t → pending_effects tr0 t = [] →
  resume t tr = None.
Proof.
  intros Hobl Htr. destruct t as [url|[blob|e|]|[url|]|o]; simpl; try done.
  rewrite (oblivious_fetch tr0 Hobl tr) by done.
  destruct (env_fetch tr0 url) as [res|e|]; [|done..].
  by destruct (negb (ok res)).
Qed.

Lemma index_order_quiescent tr0 started p :
  oblivious tr0 →
  rtc pool_step (spawn_all started, tr0) (p, (finish_all started tr0).2) →
  task_outcome <$> tasks p = (finish_all started tr0).1 →
  quiescent p (finish_all started tr0).2 = true.
Proof.
  intros Hobl Hsteps Ho.
  destruct (pool_steps_destiny tr0 Hobl _ _ Hsteps (downloading_refl _))
    as [Hd Htr]. simpl in Hd, Htr.
  rewrite (finish_all_destiny tr0 Hobl), list_fmap_compose, <-Hd in Ho
    by apply downloading_refl.
  pose proof (downloads_effects tr0 Hobl _ _ _ Hsteps) as He.
  apply Permutation_length in He. rewrite length_app in He.
  assert (tasks p ≫= pending_effects tr0 = []) as Hnil
    by (apply length_zero_iff_nil; lia).
  unfold quiescent. apply Is_true_true, forallb_True, Forall_lookup.
  intros i t Hi. apply bool_decide_pack, (ended_blocked tr0); [done..| |].
  - apply (f_equal (.!! i)) in Ho. rewrite !list_lookup_fmap, Hi in Ho.
    by simplify_eq/=.
  - apply (list_elem_of_lookup_2 _ i) in Hi.
    destruct (pending_effects tr0 t) as [|e d] eqn:Ht; [done|].
    assert (e ∈ tasks p ≫= pending_effects tr0) as Hin
      by (apply list_elem_of_bind; exists t; rewrite Ht; split; [left|done]).
    rewrite Hnil in Hin. by apply elem_of_nil in Hin.
Qed.

(** C37: refinement. When the answers to the downloads do not depend on
    their order, the run of [Generate.collect] is one of the runs of the
    browser: the callbacks resumed in index order leave the history
    [collect] leaves, no callback can then be resumed, and the promise
    of [Promise.all] is as [collect] says, up to the error reported. *)
Theorem collect_is_an_order operation tr :
  oblivious (downloads_of operation tr).2 →
  ∃ o, collects operation tr o (collect operation tr).2
       ∧ agree o (collect operation tr).1.
Proof.
  intros Hobl. destruct (decide (videos_of operation = [])) as [Hv|Hv].
  { rewrite collect_no_videos by done. eexists. split; [by constructor|done]. }
  rewrite downloads_of_start in Hobl. simpl in Hobl.
  rewrite collect_finish_all by done. simpl.
  destruct (index_order_from (start_all (videos_of operation) tr).1 []
              (spawn_all (start_all (videos_of operation) tr).1)
              (start_all (videos_of operation) tr).2 eq_refl)
    as (p & Hsteps & Ho). simpl in Ho.
  pose proof (index_order_quiescent _ _ _ Hobl Hsteps Ho) as Hq.
  exists (all_outcome p). split.
  - apply collects_quiescent; [done| |done]. by rewrite downloads_of_start.
  - by eapply downloads_agree; eauto.
Qed.

End schedule_lemmas.


(** * The examples *)

Lemma failing_oblivious tr0 : @oblivious failing_env tr0.
Proof. done. Qed.

Lemma run_schedule_rtc `{Env} sched p tr p' tr' :
  run_schedule sched p tr = Some (p', tr') → rtc pool_step (p, tr) (p', tr').
Proof. intros Hr. eapply rtc_nsteps_2. by apply run_schedule_nsteps. Qed.

#[local] Open Scope N_scope.

(** The error [Promise.all] rejects with depends on which answer comes
    first; [Generate.collect] reports the one of the index order. *)
Example failing_orders :
  (all_outcome ∘ fst
     <$> @run_schedule failing_env [0; 1]%nat failing_pool failing_trace)
  = Some (Rejected (Error (lit "Failed to fetch video: 404 Not Found")))
  ∧ (all_outcome ∘ fst <$> offline_first)
    = Some (Rejected (TypeError (lit "Failed to fetch")))
  ∧ (@collect failing_env failing_operation []).1
    = Rejected (Error (lit "Failed to fetch video: 404 Not Found")).
Proof. by vm_compute. Qed.

(** When [Promise.all] has rejected, the other downloads go on: nothing
    aborts them, and the third video is fetched and read to the end. *)
Example rejected_downloads_go_on :
  ∃ p tr p' tr',
    offline_first = Some (p, tr) ∧ is_rejected (all_outcome p) = true
    ∧ @run_schedule failing_env [2; 2; 2]%nat p tr = Some (p', tr')
    ∧ tr' = tr ++ [EBlob (mkResponse true 200 (lit "OK"));
                   EReadAsDataURL (mkBlob (lit "video/mp4") [0; 1; 2])]
    ∧ tasks p' !! 2%nat = Some (Settled (Fulfilled (Some (lit "AAAA")))).
Proof. eexists _, _, _, _. by vm_compute. Qed.

(** [Generate.collect] reports the failed download of the first video;
    the browser reports the second video, whose callback threw before
    any answer arrived. *)
Example index_order_error_differs :
  (promise_all (@finish_all failing_env broken_started []).1)
  = Rejected (Error (lit "Failed to fetch video: 404 Not Found"))
  ∧ all_outcome (spawn_all broken_started)
    = Rejected (TypeError (lit "Cannot read properties of undefined")).
Proof. by vm_compute. Qed.

#[local] Close Scope N_scope.

Lemma offline_first_collects :
  ∃ p tr', offline_first = Some (p, tr')
    ∧ @collects failing_env failing_operation [] (all_outcome p) tr'.
Proof.
  eexists _, _. split; [by vm_compute|].
  apply (@collects_settled failing_env); [done| |done].
  apply (@run_schedule_rtc failing_env [1]). by vm_compute.
Qed.

Lemma every_order_ends_witness :
  sn (@pool_step failing_env) (failing_pool, failing_trace)
  ∧ 2 ≤ 3 * length (tasks failing_pool).
Proof.
  destruct (@every_order_ends failing_env (failing_pool, failing_trace))
    as [Hsn Hlen].
  split; [done|]. eapply Hlen.
  apply (@run_schedule_nsteps failing_env [0; 1]). by vm_compute.
Defined.

Lemma collect_any_order_witness :
  ∃ p tr', offline_first = Some (p, tr')
    ∧ agree (all_outcome p) (@collect failing_env failing_operation []).1
    ∧ ∃ d, Forall (λ e, is_download e = true) d
           ∧ tr' ++ d ≡ₚ (@collect failing_env failing_operation []).2.
Proof.
  destruct offline_first_collects as (p & tr' & Hrun & Hc).
  exists p, tr'. split; [done|].
  exact (@collect_any_order failing_env failing_operation [] _ _
           (failing_oblivious _) Hc).
Defined.

Lemma collect_is_an_order_witness :
  ∃ o, @collects failing_env failing_operation [] o
         (@collect failing_env failing_operation []).2
       ∧ agree o (@collect failing_env failing_operation []).1.
Proof.
  exact (@collect_is_an_order failing_env failing_operation []
           (failing_oblivious _)).
Defined.

Lemma settled_any_order_witness :
  ∃ p tr', offline_first = Some (p, tr')
    ∧ job_settled (GenerateJob (lit "a cat")) (all_outcome p) (lit "uuid") 0
      = job_settled (GenerateJob (lit "a cat"))
          (@collect failing_env failing_operation []).1 (lit "uuid") 0.
Proof.
  destruct offline_first_collects as (p & tr' & Hrun & Hc).
  exists p, tr'. split; [done|].
  exact (@settled_any_order failing_env _ failing_operation [] _ _ _ _
           (failing_oblivious _) Hc).
Defined.

Lemma start_rejection_wins_witness :
  ∃ p tr', @run_schedule failing_env [0] (spawn_all broken_started) []
           = Some (p, tr')
    ∧ all_outcome p
      = Rejected (TypeError (lit "Cannot read properties of undefined")).
Proof.
  eexists _, _. split; [by vm_compute|].
  eapply (@start_rejection_wins failing_env broken_started 1 _ []).
  - by vm_compute.
  - intros [|[|j]] o Hj Ho; [by vm_compute in Ho; simplify_eq|lia..].
  - apply (@run_schedule_rtc failing_env [0]). by vm_compute.
Defined.
