(* ===== verification/Session.v ===== *)
(** * A session: the application run against its environment

    [App] (part_000:84-344) is a reactive program: the page binds the
    events of the user to handlers (lines 236-343), a handler runs to its
    end before the next event is handled, and the two handlers that
    await a generation show the progress page, which has no control,
    until they resume. [App.step] describes this as a transition system
    whose settlements are labels chosen freely; here the handlers are run
    against an [Env], with [Generate.generateVideoFromText] in them.

    - [on_event] is one event of the user: nothing when the page has no
      control for it, the setter calls of a synchronous handler, or an
      asynchronous handler run as far as it gets ([App.finish_job]).
    - [session] is a list of events handled in turn, the history of the
      effects threaded through.

    [on_event_run] and [session_run] show that a session is a run of the
    transition system, so that every invariant of [App.reachable] is an
    invariant of the program in any environment ([session_reachable],
    [session_invariants]); [session_interactive] that in an environment
    that answers every request and finishes every job within [k] polls
    the application is never left on the progress page. The file
    [Gestures] states the same of the page under the events of the
    browser. *)

From S2P Require Import Prelude JsString Types Env Generate App.

Section session.
Context `{Env}.

(** One event of the user on the page rendered for [st]. *)
Definition on_event (fuel : nat) (ev : Event) (st : AppState) (tr : trace) :
  AppState * trace :=
  if enabled (render st) ev then
    match handle st ev with
    | (us, None) => (apply_all us st, tr)
    | (us, Some j) => finish_job fuel j (apply_all us st) tr
    end
  else (st, tr).

(** The events of a session, handled one after the other. *)
Fixpoint session (fuel : nat) (evs : list Event) (st : AppState) (tr : trace) :
  AppState * trace :=
  match evs with
  | [] => (st, tr)
  | ev :: evs' =>
      let '(st1, tr1) := on_event fuel ev st tr in
      session fuel evs' st1 tr1
  end.

(** Every generation settles: the handler that awaits it resumes. *)
Definition settling (fuel : nat) : Prop :=
  ∀ j tr, is_settled (job_generation fuel j tr).1 = true.

End session.

(** A session on the example environment: a prompt is typed, a video
    generated, played to its end; a blank prompt is then submitted. *)
Definition example_events : list Event :=
  [ChangePrompt (lit " a cat "); GenerateNewVideo; VideoLoaded; VideoEnded;
   ChangePrompt (lit "  "); GenerateNewVideo].

(** * Lemmas *)

Lemma run_app c ls1 ls2 :
  run c (ls1 ++ ls2) = run c ls1 ≫= λ c1, run c1 ls2.
Proof.
  revert c. induction ls1 as [|l ls1 IH]; intros c; simpl; [done|].
  destruct (step c l); [apply IH | done].
Qed.

(** A control is on the page only while no generation is in flight. *)
Lemma enabled_idle c ev :
  ui_inv c → enabled (render (app c)) ev = true → pending c = [].
Proof.
  intros [Hs _ _ _ _]. rewrite enabled_render. unfold can_fire. rewrite Hs.
  case_bool_decide as Hp; [done|]. by intros _.
Qed.

(** A handler does not resume while its generation has not settled. *)
Lemma job_settled_None j r uuid now :
  job_settled j r uuid now = None → is_settled r = false.
Proof. destruct j, r; simpl; try done; by case_bool_decide. Qed.

Section session_lemmas.
Context `{Env}.
Implicit Types (c : Config) (st : AppState) (tr : trace) (ev : Event).

(** A session goes on where the session before it ended. *)
Lemma session_app fuel evs1 evs2 st tr :
  session fuel (evs1 ++ evs2) st tr
  = session fuel evs2 (session fuel evs1 st tr).1 (session fuel evs1 st tr).2.
Proof.
  revert st tr. induction evs1 as [|ev evs1 IH]; intros st tr; simpl; [done|].
  destruct (on_event fuel ev st tr) as [st1 tr1]. apply IH.
Qed.

(** The two asynchronous handlers are what their buttons run. *)
Lemma on_event_SaveEdit fuel originalVideo st tr :
  enabled (render st) (SaveEdit originalVideo) = true →
  on_event fuel (SaveEdit originalVideo) st tr
  = handleSaveEdit fuel originalVideo st tr.
Proof. unfold on_event. by intros ->. Qed.

Lemma on_event_GenerateNewVideo fuel st tr :
  enabled (render st) GenerateNewVideo = true →
  on_event fuel GenerateNewVideo st tr = handleGenerateNewVideo fuel st tr.
Proof.
  unfold on_event, handleGenerateNewVideo. intros Hen. rewrite Hen.
  rewrite enabled_render in Hen. unfold can_fire in Hen. bool_to_prop.
  simpl. by match goal with H : prompt_is_blank _ = false |- _ => rewrite H end.
Qed.

#[local] Arguments step : simpl never.

(** The step of an event the page allows, and of a settlement. *)
Lemma step_enabled c ev :
  enabled (render (app c)) ev = true →
  step c (User ev)
  = Some (mkConfig (apply_all (handle (app c) ev).1 (app c))
            (pending c ++ option_list (handle (app c) ev).2)).
Proof. unfold step. intros ->. by destruct (handle (app c) ev). Qed.

Lemma step_settled j r uuid now us st :
  job_settled j r uuid now = Some us →
  step (mkConfig st [j]) (Settle j r uuid now)
  = Some (mkConfig (apply_all us st) []).
Proof.
  intros Hus. unfold step. cbn [pending app].
  by rewrite bool_decide_eq_true_2, Hus, remove_job_head
    by apply list_elem_of_here.
Qed.

(** One event is at most two steps of the transition system: the event,
    and the settlement of the generation it started unless it never
    settles. *)
Lemma on_event_run fuel ev c tr :
  ui_inv c →
  ∃ ls c',
    run c ls = Some c' ∧ app c' = (on_event fuel ev (app c) tr).1 ∧ ui_inv c'
    ∧ (pending c' = pending c
       ∨ ∃ j, is_settled (job_generation fuel j tr).1 = false)
    ∧ user_events ls = (if enabled (render (app c)) ev then [ev] else []).
Proof.
  intros Hinv. unfold on_event.
  destruct (enabled (render (app c)) ev) eqn:Hen;
    [|exists [], c; split_and!; auto].
  pose proof (enabled_idle _ _ Hinv Hen) as Hp.
  pose proof (step_enabled _ _ Hen) as Hstep.
  pose proof (ui_inv_step _ _ _ Hinv Hstep) as Hinv1.
  rewrite Hp in *. destruct (handle (app c) ev) as [us [j|]]; simpl in *.
  2:{ exists [User ev]. eexists. cbn [run]. rewrite Hstep. split_and!; auto. }
  pose proof (finish_job_settled fuel j (apply_all us (app c)) tr) as Hfin.
  pose proof (job_outcome_settled fuel j tr) as Hsettled.
  destruct (job_outcome fuel j tr) as [r tr1] eqn:Hg. simpl in Hfin, Hsettled.
  destruct (job_settled j r (job_uuid tr1) (job_now tr1)) as [us'|] eqn:Hus.
  - pose proof (step_settled _ _ _ _ _ (apply_all us (app c)) Hus) as Hstep2.
    exists [User ev; Settle j r (job_uuid tr1) (job_now tr1)]. eexists.
    cbn [run]. rewrite Hstep. cbn [run]. rewrite Hstep2.
    split_and!; [done|done| |by left|done]. by eapply ui_inv_step.
  - exists [User ev]. eexists. cbn [run]. rewrite Hstep.
    split_and!; [done..| |done]. right. exists j. rewrite <-Hsettled.
    by eapply job_settled_None.
Qed.

(** A session is a run of the transition system, which ends with no
    generation in flight when every generation settles. *)
Lemma session_run fuel evs : ∀ c tr,
  ui_inv c →
  ∃ ls c',
    run c ls = Some c' ∧ app c' = (session fuel evs (app c) tr).1 ∧ ui_inv c'
    ∧ (settling fuel → pending c' = pending c).
Proof.
  induction evs as [|ev evs IH]; intros c tr Hinv; simpl.
  { by exists [], c. }
  destruct (on_event_run fuel ev c tr Hinv)
    as (ls1 & c1 & Hr1 & Ha1 & Hi1 & Hp1 & _).
  destruct (on_event fuel ev (app c) tr) as [st1 tr1]. simpl in Ha1. subst st1.
  destruct (IH c1 tr1 Hi1) as (ls2 & c2 & Hr2 & Ha2 & Hi2 & Hp2).
  exists (ls1 ++ ls2), c2. rewrite run_app, Hr1. split_and!; [done..|].
  intros Hs. rewrite Hp2 by done.
  destruct Hp1 as [->|[j Hj]]; [done|]. by rewrite Hs in Hj.
Qed.

(** The generations of a handler settle in an environment that answers
    every request and finishes every job within [k] polls. *)
Lemma responsive_settling k fuel :
  responsive → (∀ tr, finishes_within k tr) → (k ≤ S fuel)%nat →
  settling (S fuel).
Proof.
  intros Hresp Hk Hle j tr. unfold job_generation.
  by apply (generateVideoFromText_settles Hresp k).
Qed.

(** Refinement. The application run against any environment, on
    any events of the user, is in a configuration the transition system
    reaches: the handlers with [generateVideoFromText] in them implement
    [App.step], whatever the service, the network and the reader
    answer. *)
Theorem session_reachable MOCK_VIDEOS fuel evs tr :
  ∃ pend,
    reachable MOCK_VIDEOS
      (mkConfig (session fuel evs (init MOCK_VIDEOS) tr).1 pend).
Proof.
  destruct (session_run fuel evs (start MOCK_VIDEOS) tr
              (ui_inv_start MOCK_VIDEOS)) as (ls & [st pend] & Hr & Ha & _).
  simpl in Ha. subst st. exists pend. by eapply run_reachable.
Qed.

(** What the invariants of the transition system say of a session. *)
Lemma session_invariants MOCK_VIDEOS fuel evs tr :
  let st := (session fuel evs (init MOCK_VIDEOS) tr).1 in
  data_inv MOCK_VIDEOS st
  ∧ isPlaying st = truthy_ref (playingVideo st)
  ∧ (truthy_ref (editingVideo st) = true → isSaving st = false).
Proof.
  destruct (session_run fuel evs (start MOCK_VIDEOS) tr
              (ui_inv_start MOCK_VIDEOS)) as (ls & c & Hr & Ha & Hinv & _).
  simpl in *. rewrite <-Ha. apply run_reachable in Hr.
  split; [by eapply reachable_data_inv|]. destruct Hinv as [_ _ Hp _ He].
  split; [done|]. by intros [_ ?]%He.
Qed.

(** Liveness. In an environment that answers every request and
    whose service finishes every job within [k] polls, after any events
    of the user no generation is in flight and the progress page is not
    shown: the application always comes back to a page the user can act
    on. *)
Theorem session_interactive MOCK_VIDEOS k fuel evs tr :
  responsive → (∀ tr0, finishes_within k tr0) → (k ≤ S fuel)%nat →
  let st := (session (S fuel) evs (init MOCK_VIDEOS) tr).1 in
  reachable MOCK_VIDEOS (mkConfig st []) ∧ isSaving st = false.
Proof.
  intros Hresp Hk Hle.
  destruct (session_run (S fuel) evs (start MOCK_VIDEOS) tr
              (ui_inv_start MOCK_VIDEOS))
    as (ls & [st pend] & Hr & Ha & [Hs _ _ _ _] & Hp).
  simpl in *. subst st. rewrite Hp in * by by eapply responsive_settling.
  split; [by eapply run_reachable | done].
Qed.

End session_lemmas.

(** * The example *)

(** The session of the example: one video is generated and played to
    its end; the blank prompt starts nothing. *)
Example example_events_run :
  let st := (session (H:=example_env) 2 example_events (init example_mock) []).1 in
  title <$> videos st = [generated_title (lit "a cat"); lit "Cat: the movie"]
  ∧ playingVideo st = None ∧ newVideoPrompt st = lit "  ".
Proof. by vm_compute. Qed.

Lemma session_interactive_witness :
  let st := (session (H:=example_env) 2 example_events (init example_mock) []).1 in
  reachable example_mock (mkConfig st []) ∧ isSaving st = false.
Proof.
  apply (session_interactive (H:=example_env) example_mock 2 1 example_events []
           (scripted_responsive 2 (Some example_videos) example_dataurl));
    [intros tr0; apply scripted_finishes_within | lia].
Defined.
