(* ===== verification/Uri.v ===== *)
(** * [decodeURIComponent]

    [src/unnamed/part_000], line 64: every callback of [videos.map]
    decodes the URI of its video before it fetches it. [Env] leaves the
    function to the environment ([env_decodeURIComponent]); this file
    gives it its definition in the language (ECMAScript, [Decode] and
    [Encode] of the URI handling functions, with UTF-8 as in the Unicode
    standard), so that what the callback fetches can be stated.

    - [decodeURIComponent] and [encodeURIComponent] on strings of code
      units, with their [URIError];
    - [standard_decoder], the environments whose function is this one;
    - [decoding_env], a scripted environment with it.

    The theorems show that decoding undoes encoding
    ([decodeURIComponent_encodeURIComponent]), that a URI without a
    percent sign is fetched as it is ([fetch_start_plain]), that a URI
    the service has encoded is fetched decoded ([fetch_start_round_trip])
    and that a percent sign that starts no escape makes the callback, and
    with it the whole call, fail before any download
    ([fetch_start_malformed], [malformed_uri_rejects]). An escaped
    delimiter is decoded with the rest, so the URL fetched is not in
    general the URI received ([decoded_uri_differs]). *)

From S2P Require Import Prelude JsString Types Env Generate App Schedule.

#[local] Open Scope N_scope.

Ltac N_divmod := zify; Z.to_euclidean_division_equations; lia.

Ltac N_bool :=
  repeat match goal with
  | |- context [?a <? ?b] =>
      first [rewrite (proj2 (N.ltb_lt a b)) by N_divmod
            |rewrite (proj2 (N.ltb_ge a b)) by N_divmod]
  | |- context [?a <=? ?b] =>
      first [rewrite (proj2 (N.leb_le a b)) by N_divmod
            |rewrite (proj2 (N.leb_gt a b)) by N_divmod]
  | |- context [?a =? ?b] =>
      first [rewrite (proj2 (N.eqb_eq a b)) by N_divmod
            |rewrite (proj2 (N.eqb_neq a b)) by N_divmod]
  end.

(** The percent sign. *)
Definition percent : N := 37.

(** The error [Decode] and [Encode] throw. *)
Definition URIError : JsError := mkJsError (lit "URIError") (lit "URI malformed").

(** The value of a hexadecimal digit, of either case. *)
Definition hex_value (c : N) : option N :=
  if (48 <=? c) && (c <=? 57) then Some (c - 48)
  else if (65 <=? c) && (c <=? 70) then Some (c - 55)
  else if (97 <=? c) && (c <=? 102) then Some (c - 87)
  else None.

(** The upper-case hexadecimal digit of a value below 16. *)
Definition hex_digit (d : N) : N := if d <? 10 then 48 + d else 55 + d.

(** [ParseHexOctet]: the octet of an escape [%XY] at the head of [s], and
    what follows it. *)
Definition ParseHexOctet (s : jsstring) : option (N * jsstring) :=
  match s with
  | p :: h :: l :: rest =>
      if p =? percent then
        hi ← hex_value h; lo ← hex_value l; Some (16 * hi + lo, rest)
      else None
  | _ => None
  end.

(** The number of leading 1 bits of an octet (5 stands for 5 or more). *)
Definition leading_ones (B : N) : nat :=
  if B <? 128 then 0 else if B <? 192 then 1 else if B <? 224 then 2
  else if B <? 240 then 3 else if B <? 248 then 4 else 5.

(** The octets of the next [n] escapes. *)
Fixpoint continuation_octets (n : nat) (s : jsstring) :
  option (list N * jsstring) :=
  match n with
  | O => Some ([], s)
  | S n' =>
      '(B, rest) ← ParseHexOctet s;
      '(Bs, rest') ← continuation_octets n' rest;
      Some (B :: Bs, rest')
  end.

(** An octet of the form 10xxxxxx. *)
Definition is_continuation (B : N) : bool := (128 <=? B) && (B <? 192).

(** A code unit that is half of a surrogate pair. *)
Definition is_surrogate (c : N) : bool := (55296 <=? c) && (c <=? 57343).

(** The code point of a sequence of two to four octets, when the sequence
    is well-formed UTF-8: continuation octets, no overlong form, no
    surrogate, nothing above U+10FFFF. *)
Definition utf8_decode (Octets : list N) : option N :=
  match Octets with
  | [B0; B1] =>
      let V := (B0 - 192) * 64 + (B1 - 128) in
      if is_continuation B1 && (128 <=? V) then Some V else None
  | [B0; B1; B2] =>
      let V := (B0 - 224) * 4096 + (B1 - 128) * 64 + (B2 - 128) in
      if is_continuation B1 && is_continuation B2 && (2048 <=? V)
         && negb (is_surrogate V)
      then Some V else None
  | [B0; B1; B2; B3] =>
      let V := (B0 - 240) * 262144 + (B1 - 128) * 4096 + (B2 - 128) * 64
               + (B3 - 128) in
      if is_continuation B1 && is_continuation B2 && is_continuation B3
         && (65536 <=? V) && (V <=? 1114111)
      then Some V else None
  | _ => None
  end.

(** [UTF16EncodeCodePoint]: one code unit, or a surrogate pair. *)
Definition UTF16EncodeCodePoint (cp : N) : jsstring :=
  if cp <? 65536 then [cp]
  else [55296 + (cp - 65536) / 1024; 56320 + (cp - 65536) mod 1024].

(** The code units of the escape sequence at the head of [s] (steps 4.c.i
    to 4.c.viii of [Decode]), and what follows it. *)
Definition decode_escape (s : jsstring) : option (jsstring * jsstring) :=
  '(B, rest) ← ParseHexOctet s;
  match leading_ones B with
  | 0%nat => Some ([B], rest)
  | 2%nat | 3%nat | 4%nat =>
      '(Bs, rest') ← continuation_octets (pred (leading_ones B)) rest;
      V ← utf8_decode (B :: Bs);
      Some (UTF16EncodeCodePoint V, rest')
  | _ => None
  end.

(** [Decode(string, preserveEscapeSet)] with an empty set to preserve. One
    unit of fuel per code unit of the result is enough, and
    [decodeURIComponent] passes the length of the string. *)
Fixpoint Decode (fuel : nat) (s : jsstring) : completion JsError jsstring :=
  match s, fuel with
  | [], _ => Normal []
  | _, O => Throws URIError
  | C :: rest, S fuel' =>
      if C =? percent then
        match decode_escape s with
        | Some (units, rest') =>
            match Decode fuel' rest' with
            | Normal R => Normal (units ++ R)
            | Throws e => Throws e
            end
        | None => Throws URIError
        end
      else
        match Decode fuel' rest with
        | Normal R => Normal (C :: R)
        | Throws e => Throws e
        end
  end.

(** [decodeURIComponent(s)] *)
Definition decodeURIComponent (s : jsstring) : completion JsError jsstring :=
  Decode (length s) s.

(** ** Encoding *)

(** The code units [encodeURIComponent] leaves as they are: letters,
    digits and the marks. *)
Definition unescaped (c : N) : bool :=
  ((48 <=? c) && (c <=? 57)) || ((65 <=? c) && (c <=? 90))
  || ((97 <=? c) && (c <=? 122))
  || bool_decide (c ∈ lit "-_.!~*'()").

(** The UTF-8 octets of a code point. *)
Definition utf8_encode (cp : N) : list N :=
  if cp <? 128 then [cp]
  else if cp <? 2048 then [192 + cp / 64; 128 + cp mod 64]
  else if cp <? 65536 then
    [224 + cp / 4096; 128 + (cp / 64) mod 64; 128 + cp mod 64]
  else [240 + cp / 262144; 128 + (cp / 4096) mod 64; 128 + (cp / 64) mod 64;
        128 + cp mod 64].

(** [%XY] *)
Definition escape_octet (B : N) : jsstring :=
  [percent; hex_digit (B / 16); hex_digit (B mod 16)].

(** The two halves of a surrogate pair. *)
Definition is_lead (c : N) : bool := (55296 <=? c) && (c <=? 56319).
Definition is_trail (c : N) : bool := (56320 <=? c) && (c <=? 57343).

(** [CodePointAt]: the code point at the head of [s] and what follows it;
    nothing for a surrogate that is not part of a pair. *)
Definition CodePointAt (s : jsstring) : option (N * jsstring) :=
  match s with
  | [] => None
  | c :: rest =>
      if is_lead c then
        match rest with
        | d :: rest' =>
            if is_trail d
            then Some (65536 + (c - 55296) * 1024 + (d - 56320), rest')
            else None
        | [] => None
        end
      else if is_trail c then None
      else Some (c, rest)
  end.

(** [Encode(string, extraUnescaped)] with no extra code units. *)
Fixpoint Encode (fuel : nat) (s : jsstring) : completion JsError jsstring :=
  match s, fuel with
  | [], _ => Normal []
  | _, O => Throws URIError
  | C :: rest, S fuel' =>
      if unescaped C then
        match Encode fuel' rest with
        | Normal R => Normal (C :: R)
        | Throws e => Throws e
        end
      else
        match CodePointAt s with
        | Some (cp, rest') =>
            match Encode fuel' rest' with
            | Normal R => Normal ((utf8_encode cp ≫= escape_octet) ++ R)
            | Throws e => Throws e
            end
        | None => Throws URIError
        end
  end.

(** [encodeURIComponent(s)] *)
Definition encodeURIComponent (s : jsstring) : completion JsError jsstring :=
  Encode (length s) s.


(** A string of 16-bit code units. *)
Definition code_units (s : jsstring) : Prop := Forall (λ c, c < 65536) s.


(** The environments whose [decodeURIComponent] is that of the
    language. *)
Definition standard_decoder `{Env} : Prop :=
  ∀ s, env_decodeURIComponent s = decodeURIComponent s.

(** A generated video with the URI [uri]. *)
Definition video_at (uri : jsstring) : GeneratedVideo :=
  mkGeneratedVideo (Some (mkSdkVideo (Some uri))).

(** The scripted service of [Generate], with the decoder of the
    language. *)
Definition decoding_env : Env := {|
  API_KEY := Some (lit "KEY");
  sdk_generateVideos := @sdk_generateVideos example_env;
  sdk_getVideosOperation := @sdk_getVideosOperation example_env;
  env_decodeURIComponent := decodeURIComponent;
  env_fetch := @env_fetch example_env;
  env_blob := @env_blob example_env;
  env_readAsDataURL := @env_readAsDataURL example_env;
  env_randomUUID := @env_randomUUID example_env;
  env_now := @env_now example_env;
|}.

Definition example_uri : jsstring := lit "https://v/a b?alt=media".

Definition example_encoded : jsstring :=
  lit "https%3A%2F%2Fv%2Fa%20b%3Falt%3Dmedia".

(** * Lemmas *)

Section hex.
Implicit Types (d B : N).

Lemma hex_value_digit d : d < 16 → hex_value (hex_digit d) = Some d.
Proof.
  intros Hd. unfold hex_digit, hex_value.
  destruct (N.ltb_spec d 10); N_bool; simpl; f_equal; lia.
Qed.

Lemma ParseHexOctet_escape B rest :
  B < 256 → ParseHexOctet (escape_octet B ++ rest) = Some (B, rest).
Proof.
  intros HB. unfold escape_octet, ParseHexOctet. cbn [Datatypes.app].
  change (percent =? percent) with true. cbv iota.
  rewrite !hex_value_digit by N_divmod. simpl. do 2 f_equal. N_divmod.
Qed.

Lemma ParseHexOctet_length s B rest :
  ParseHexOctet s = Some (B, rest) → (length s = 3 + length rest)%nat.
Proof.
  destruct s as [|p [|h [|l rest']]]; simpl; try done.
  destruct (p =? percent); [|done].
  destruct (hex_value h), (hex_value l); simpl; try done. by intros [= _ <-].
Qed.

End hex.

Section utf8.
Implicit Types (cp B : N) (rest : jsstring).

Lemma utf8_encode_octets cp :
  cp ≤ 1114111 → Forall (λ B, B < 256) (utf8_encode cp).
Proof.
  intros Hcp. unfold utf8_encode.
  destruct (N.ltb_spec cp 128); [|destruct (N.ltb_spec cp 2048);
    [|destruct (N.ltb_spec cp 65536)]];
    repeat constructor; N_divmod.
Qed.

Lemma continuation_octets_escape Bs rest :
  Forall (λ B, B < 256) Bs →
  continuation_octets (length Bs) ((Bs ≫= escape_octet) ++ rest)
  = Some (Bs, rest).
Proof.
  induction 1 as [|B Bs HB _ IH]; [done|].
  cbn [length continuation_octets]. rewrite bind_cons, <-app_assoc.
  rewrite ParseHexOctet_escape by done. simpl. by rewrite IH.
Qed.

Lemma utf8_decode_encode cp :
  128 ≤ cp → cp ≤ 1114111 → is_surrogate cp = false →
  utf8_decode (utf8_encode cp) = Some cp.
Proof.
  unfold is_surrogate. intros Hlo Hhi Hs. apply andb_false_iff in Hs.
  rewrite N.leb_gt, N.leb_gt in Hs.
  unfold utf8_encode, utf8_decode, is_continuation, is_surrogate.
  destruct (N.ltb_spec cp 128); [lia|]. destruct (N.ltb_spec cp 2048);
    [|destruct (N.ltb_spec cp 65536)].
  - replace ((192 + cp / 64 - 192) * 64 + (128 + cp mod 64 - 128)) with cp
      by N_divmod. by N_bool.
  - replace ((224 + cp / 4096 - 224) * 4096 + (128 + cp / 64 mod 64 - 128) * 64
             + (128 + cp mod 64 - 128)) with cp by N_divmod.
    N_bool. simpl. destruct Hs; by N_bool.
  - replace ((240 + cp / 262144 - 240) * 262144
             + (128 + cp / 4096 mod 64 - 128) * 4096
             + (128 + cp / 64 mod 64 - 128) * 64 + (128 + cp mod 64 - 128))
      with cp by N_divmod. by N_bool.
Qed.

Lemma leading_ones_encode cp :
  128 ≤ cp → cp ≤ 1114111 →
  ∃ B Bs, utf8_encode cp = B :: Bs ∧ leading_ones B = S (length Bs)
          ∧ (2 ≤ S (length Bs) ≤ 4)%nat.
Proof.
  intros Hlo Hhi. unfold utf8_encode, leading_ones.
  destruct (N.ltb_spec cp 128); [lia|]. destruct (N.ltb_spec cp 2048);
    [|destruct (N.ltb_spec cp 65536)];
    eexists _, _; (split; [done|]); N_bool; simpl; split; (done || lia).
Qed.

#[local] Arguments utf8_decode : simpl never.

Lemma decode_escape_encode cp rest :
  cp ≤ 1114111 → is_surrogate cp = false →
  decode_escape ((utf8_encode cp ≫= escape_octet) ++ rest)
  = Some (UTF16EncodeCodePoint cp, rest).
Proof.
  intros Hhi Hs. pose proof (utf8_encode_octets cp Hhi) as Ho.
  unfold decode_escape. destruct (N.ltb_spec cp 128) as [Hlt|Hge].
  - unfold utf8_encode in *. rewrite (proj2 (N.ltb_lt _ _) Hlt) in *.
    rewrite bind_cons. change ([] ≫= escape_octet) with (@nil N).
    rewrite app_nil_r, ParseHexOctet_escape by lia.
    simpl. unfold leading_ones, UTF16EncodeCodePoint. by N_bool.
  - destruct (leading_ones_encode cp Hge Hhi) as (B & Bs & He & Hn & Hr).
    pose proof (utf8_decode_encode cp Hge Hhi Hs) as Hd.
    rewrite He in *. apply Forall_cons in Ho as [HB HBs].
    rewrite bind_cons, <-app_assoc, ParseHexOctet_escape by done. simpl.
    pose proof (continuation_octets_escape Bs rest HBs) as Hc.
    rewrite Hn. destruct (length Bs) as [|[|[|[|]]]]; try lia;
      cbn [Nat.pred]; rewrite Hc; simpl; by rewrite Hd.
Qed.

End utf8.

Section roundtrip.
Implicit Types (s e rest : jsstring) (cp c : N).

Lemma CodePointAt_spec s cp rest :
  code_units s → CodePointAt s = Some (cp, rest) →
  cp ≤ 1114111 ∧ is_surrogate cp = false ∧ s = UTF16EncodeCodePoint cp ++ rest.
Proof.
  destruct s as [|c s]; [done|]. intros [Hc Hs]%Forall_cons.
  unfold CodePointAt, is_lead, is_trail, is_surrogate, UTF16EncodeCodePoint.
  destruct (N.leb_spec 55296 c), (N.leb_spec c 56319); simpl.
  2,3,4: destruct (N.leb_spec 56320 c), (N.leb_spec c 57343); simpl; try done;
    intros [= <- <-]; N_bool; split_and!; (done || lia).
  destruct s as [|d s]; [done|].
  destruct (N.leb_spec 56320 d), (N.leb_spec d 57343); simpl; try done.
  intros [= <- <-]. N_bool. simpl. split_and!; [lia|done|].
  f_equal; [|f_equal]; N_divmod.
Qed.

Lemma unescaped_not_percent c : unescaped c = true → c ≠ percent.
Proof. intros Hu ->. by vm_compute in Hu. Qed.

Lemma escapes_length cp :
  (3 ≤ length (utf8_encode cp ≫= escape_octet))%nat.
Proof.
  unfold utf8_encode. repeat case_match; rewrite bind_cons, length_app; simpl; lia.
Qed.

Lemma decode_escape_percent s units rest :
  decode_escape s = Some (units, rest) → ∃ t, s = percent :: t.
Proof.
  destruct s as [|p [|h [|l t]]]; try done. unfold decode_escape. simpl.
  destruct (N.eqb_spec p percent) as [->|]; [eauto|done].
Qed.

Lemma Decode_escape fuel s units rest :
  decode_escape s = Some (units, rest) →
  Decode (S fuel) s
  = match Decode fuel rest with
    | Normal R => Normal (units ++ R)
    | Throws e => Throws e
    end.
Proof.
  intros Hd. destruct (decode_escape_percent _ _ _ Hd) as [t ->].
  cbn [Decode]. change (percent =? percent) with true. cbv iota. by rewrite Hd.
Qed.

#[local] Arguments decode_escape : simpl never.
#[local] Arguments CodePointAt : simpl never.

Lemma Decode_Encode fuel : ∀ s e fuel',
  code_units s → Encode fuel s = Normal e → (length e ≤ fuel')%nat →
  Decode fuel' e = Normal s.
Proof.
  induction fuel as [|fuel IH]; intros [|C rest] e fuel' Hs; simpl; try done;
    try (intros [= <-]; by destruct fuel').
  destruct (unescaped C) eqn:Hu.
  - destruct (Encode fuel rest) as [R|] eqn:HR; [|done]. intros [= <-] Hlen.
    destruct fuel' as [|fuel']; [simpl in Hlen; lia|]. simpl.
    rewrite (proj2 (N.eqb_neq _ _) (unescaped_not_percent _ Hu)).
    rewrite (IH rest R fuel'); [done|by inversion Hs|done|simpl in Hlen; lia].
  - destruct (CodePointAt (C :: rest)) as [[cp rest']|] eqn:Hcp; [|done].
    destruct (Encode fuel rest') as [R|] eqn:HR; [|done]. intros [= <-] Hlen.
    apply CodePointAt_spec in Hcp as (Hhi & Hsur & Heq); [|done].
    pose proof (escapes_length cp). rewrite length_app in Hlen.
    destruct fuel' as [|fuel']; [lia|].
    rewrite (Decode_escape _ _ _ _ (decode_escape_encode cp R Hhi Hsur)).
    assert (code_units rest') as Hs'
      by (rewrite Heq in Hs; by apply Forall_app in Hs as [_ ?]).
    rewrite (IH rest' R fuel' Hs' HR) by lia. by rewrite Heq.
Qed.

Lemma decodeURIComponent_encodeURIComponent s e :
  code_units s → encodeURIComponent s = Normal e →
  decodeURIComponent e = Normal s.
Proof. intros Hs He. by eapply Decode_Encode. Qed.

Lemma Decode_plain fuel s :
  percent ∉ s → (length s ≤ fuel)%nat → Decode fuel s = Normal s.
Proof.
  revert fuel. induction s as [|c s IH]; intros fuel Hp Hlen; [by destruct fuel|].
  apply not_elem_of_cons in Hp as [Hc Hs].
  destruct fuel as [|fuel]; [simpl in Hlen; lia|]. simpl.
  rewrite (proj2 (N.eqb_neq c percent)) by congruence.
  rewrite IH; [done..|simpl in Hlen; lia].
Qed.

Lemma Decode_app_plain fuel a t :
  percent ∉ a →
  Decode (length a + fuel) (a ++ t)
  = match Decode fuel t with
    | Normal R => Normal (a ++ R)
    | Throws e => Throws e
    end.
Proof.
  induction a as [|c a IH]; intros Hp; simpl.
  { by destruct (Decode fuel t). }
  apply not_elem_of_cons in Hp as [Hc Hs].
  rewrite (proj2 (N.eqb_neq c percent)) by congruence.
  rewrite IH by done. by destruct (Decode fuel t).
Qed.

Lemma decodeURIComponent_plain s : percent ∉ s → decodeURIComponent s = Normal s.
Proof. intros. by apply Decode_plain. Qed.

Lemma decodeURIComponent_malformed a t :
  percent ∉ a → ParseHexOctet (percent :: t) = None →
  decodeURIComponent (a ++ percent :: t) = Throws URIError.
Proof.
  intros Ha Ht. unfold decodeURIComponent. rewrite length_app.
  rewrite Decode_app_plain by done. cbn [length Decode].
  change (percent =? percent) with true. cbv iota.
  unfold decode_escape. by rewrite Ht.
Qed.

End roundtrip.

(** * The callback *)

Section callback.
Context `{Env} (Hdecoder : standard_decoder).
Implicit Types (uri e : jsstring) (tr : trace).

Lemma fetch_start_decoded e uri tr :
  decodeURIComponent e = Normal uri →
  fetch_start (video_at e) tr
  = (Fulfilled (fetch_url uri), tr ++ [EFetch (fetch_url uri)]).
Proof.
  intros Hd. unfold fetch_start, video_at, video_uri, bind, lift. simpl.
  by rewrite Hdecoder, Hd.
Qed.

(** A URI without a percent sign is fetched as it is, with the key. *)
Lemma fetch_start_plain uri tr :
  percent ∉ uri →
  fetch_start (video_at uri) tr
  = (Fulfilled (fetch_url uri), tr ++ [EFetch (fetch_url uri)]).
Proof. intros Hp. by apply fetch_start_decoded, decodeURIComponent_plain. Qed.

(** A percent sign that is not followed by two hexadecimal digits makes
    the callback throw a URIError before it calls [fetch]. *)
Lemma fetch_start_malformed a t tr :
  percent ∉ a → ParseHexOctet (percent :: t) = None →
  fetch_start (video_at (a ++ percent :: t)) tr = (Rejected URIError, tr).
Proof.
  intros Ha Ht. unfold fetch_start, video_at, video_uri, bind, lift. simpl.
  by rewrite Hdecoder, decodeURIComponent_malformed.
Qed.

End callback.

(** C13: round trip. When the service hands out the URI of a video
    encoded with [encodeURIComponent], the callback of [videos.map]
    requests the URI itself, followed by the key: the decoding of line 64
    undoes the encoding, for every string of code units that can be
    encoded. *)
Theorem fetch_start_round_trip `{Env} uri e tr :
  standard_decoder → code_units uri →
  encodeURIComponent uri = Normal e →
  fetch_start (video_at e) tr
  = (Fulfilled (fetch_url uri), tr ++ [EFetch (fetch_url uri)]).
Proof.
  intros Hdecoder Hu He.
  by apply fetch_start_decoded, decodeURIComponent_encodeURIComponent.
Qed.

(** One malformed URI fails the whole call: when the videos before it
    reach their [fetch], [Promise.all] rejects with the URIError in
    every order and however far the other downloads have got. *)
Theorem malformed_uri_rejects `{Env} videos i a t tr p tr' :
  standard_decoder →
  videos !! i = Some (video_at (a ++ percent :: t)) →
  percent ∉ a → ParseHexOctet (percent :: t) = None →
  (∀ j gv, (j < i)%nat → videos !! j = Some gv → startable gv = true) →
  rtc pool_step (spawn_all (start_all videos tr).1, (start_all videos tr).2)
    (p, tr') →
  all_outcome p = Rejected URIError.
Proof.
  intros Hdecoder Hi Ha Ht Hlt Hsteps. unfold all_outcome.
  assert (rejection (spawn_all (start_all videos tr).1) = Some URIError) as Hr.
  { apply (first_rejection_spawn _ i); rewrite start_all_outcomes.
    - rewrite list_lookup_fmap, Hi. simpl.
      by rewrite (fetch_start_malformed Hdecoder).
    - intros j o Hj. rewrite list_lookup_fmap.
      destruct (videos !! j) as [gv|] eqn:Hgv; [|done]. intros [= <-].
      destruct (fetch_start_startable gv [] (Hlt j gv Hj Hgv)) as [url ->].
      done. }
  pose proof (pool_steps_rejection _ _ _ Hsteps Hr) as Hp. simpl in Hp.
  by rewrite Hp.
Qed.

(** * The examples *)

Lemma decoding_env_standard : @standard_decoder decoding_env.
Proof. done. Qed.

(** The encoding of the example, with a character outside the ASCII
    range and one outside the basic plane. *)
Example encodeURIComponent_example :
  encodeURIComponent example_uri = Normal example_encoded
  ∧ encodeURIComponent [104; 233; 8364; 55357; 56832]
    = Normal (lit "h%C3%A9%E2%82%AC%F0%9F%98%80").
Proof. by vm_compute. Qed.

(** Overlong forms, surrogates and truncated escapes are errors. *)
Example decodeURIComponent_errors :
  Forall (λ s, decodeURIComponent s = Throws URIError)
    [lit "100%"; lit "%4"; lit "%zz"; lit "%C0%80"; lit "%ED%A0%80";
     lit "%F4%90%80%80"; lit "%E2%82"; lit "%80"].
Proof. repeat constructor. Qed.

(** An escaped delimiter is decoded like any other escape: the URL
    fetched has a parameter the URI did not have. *)
Example decoded_uri_differs :
  (@fetch_start decoding_env
     (video_at (lit "https://v/1?alt=media&name=a%26sig%3Dx")) []).1
  = Fulfilled (lit "https://v/1?alt=media&name=a&sig=x&key=KEY").
Proof. by vm_compute. Qed.

Lemma fetch_start_round_trip_witness :
  @fetch_start decoding_env (video_at example_encoded) []
  = (Fulfilled (@fetch_url decoding_env example_uri),
     [EFetch (@fetch_url decoding_env example_uri)]).
Proof.
  apply (@fetch_start_round_trip decoding_env example_uri example_encoded []);
    [exact decoding_env_standard | by repeat constructor | by vm_compute].
Defined.
