(* ===== verification/DataUrl.v ===== *)
(** * Data URLs: what the reader writes and what the video element reads

    [bloblToBase64] ([src/unnamed/part_000], lines 24-33) cuts the result
    of [FileReader.readAsDataURL] at its commas, and the handlers (lines
    145-147, 198-200) put the piece they get behind
    [data:video/mp4;base64,] as the [src] of a video element. Neither the
    reader nor the element is code of the program; this file gives both a
    reference definition, from RFC 4648 (base64) and RFC 2397 (data
    URLs), so that what the program does between them can be stated:

    - [base64_encode] and [base64_decode], on bytes as numbers below 256;
    - [readAsDataURL], the data URL of a blob, and [standard_reader], the
      environments whose reader delivers it;
    - [parse_data_url], the media type and the bytes of a data URL.

    The theorems show that decoding undoes encoding, that the payload
    never holds a comma, and that the source the handlers build holds
    exactly the bytes downloaded when the type of the blob has no
    comma. *)

From S2P Require Import Prelude JsString Types Env Generate App.

#[local] Open Scope N_scope.

(** * Base64 (RFC 4648, section 4) *)

(** The character of a 6-bit value: [A-Z], [a-z], [0-9], [+], [/]. *)
Definition base64_char (sextet : N) : N :=
  if sextet <? 26 then 65 + sextet
  else if sextet <? 52 then 97 + (sextet - 26)
  else if sextet <? 62 then 48 + (sextet - 52)
  else if sextet =? 62 then 43
  else 47.

Definition base64_sextet (c : N) : option N :=
  if (65 <=? c) && (c <=? 90) then Some (c - 65)
  else if (97 <=? c) && (c <=? 122) then Some (c - 97 + 26)
  else if (48 <=? c) && (c <=? 57) then Some (c - 48 + 52)
  else if c =? 43 then Some 62
  else if c =? 47 then Some 63
  else None.

(** The padding character [=]. *)
Definition pad : N := 61.

(** Three octets as one 24-bit group, and the group as four sextets. *)
Definition group (a b c : N) : N := (a * 256 + b) * 256 + c.

Definition sextets (n : N) : list N :=
  [n / 262144; n / 4096 mod 64; n / 64 mod 64; n mod 64].

Definition ungroup (s1 s2 s3 s4 : N) : N := ((s1 * 64 + s2) * 64 + s3) * 64 + s4.

Definition octets (n : N) : list N := [n / 65536; n / 256 mod 256; n mod 256].

Arguments group : simpl never.
Arguments ungroup : simpl never.
Arguments octets : simpl never.

(** A last group of one or two octets is filled with zero bits and its
    unused sextets are written as padding. *)
Fixpoint base64_encode (bytes : list N) : jsstring :=
  match bytes with
  | [] => []
  | [a] => (base64_char <$> take 2 (sextets (group a 0 0))) ++ [pad; pad]
  | [a; b] => (base64_char <$> take 3 (sextets (group a b 0))) ++ [pad]
  | a :: b :: c :: rest =>
      (base64_char <$> sextets (group a b c)) ++ base64_encode rest
  end.

Definition sextet_or_pad (c : N) : option N :=
  if c =? pad then Some 0 else base64_sextet c.

(** A group of four characters none of which is padding. *)
Definition decode_group (c1 c2 c3 c4 : N) : option (list N) :=
  s1 ← base64_sextet c1; s2 ← base64_sextet c2;
  s3 ← base64_sextet c3; s4 ← base64_sextet c4;
  Some (octets (ungroup s1 s2 s3 s4)).

(** The last group: padding stands for the octets that are not there. *)
Definition decode_last (c1 c2 c3 c4 : N) : option (list N) :=
  if (c3 =? pad) && negb (c4 =? pad) then None
  else
    s1 ← base64_sextet c1; s2 ← base64_sextet c2;
    s3 ← sextet_or_pad c3; s4 ← sextet_or_pad c4;
    Some (take (if c3 =? pad then 1%nat else if c4 =? pad then 2%nat else 3%nat)
            (octets (ungroup s1 s2 s3 s4))).

Fixpoint base64_decode (s : jsstring) : option (list N) :=
  match s with
  | [] => Some []
  | c1 :: c2 :: c3 :: c4 :: rest =>
      match rest with
      | [] => decode_last c1 c2 c3 c4
      | _ =>
          bs ← decode_group c1 c2 c3 c4;
          bs' ← base64_decode rest;
          Some (bs ++ bs')
      end
  | _ => None
  end.

(** * Data URLs (RFC 2397) *)

(** The result of [FileReader.readAsDataURL] on a blob. *)
Definition readAsDataURL (blob : Blob) : jsstring :=
  lit "data:" ++ blob_type blob ++ lit ";base64," ++
  base64_encode (blob_bytes blob).

(** The environments whose reader delivers the data URL of the blob. *)
Definition standard_reader `{Env} : Prop :=
  ∀ tr blob, env_readAsDataURL tr blob = Some (readAsDataURL blob).

(** The media type of a header that ends in [;base64]. *)
Definition base64_media_type (header : jsstring) : option jsstring :=
  let n := (length header - 7)%nat in
  if bool_decide (drop n header = lit ";base64") then Some (take n header)
  else None.

(** The media type and the bytes of a base64 data URL: the header is what
    stands between [data:] and the first comma, the body what follows
    it. *)
Definition parse_data_url (url : jsstring) : option (jsstring * list N) :=
  if startsWith url (lit "data:") then
    match split comma (drop 5 url) with
    | header :: body =>
        media_type ← base64_media_type header;
        bytes ← base64_decode (join comma body);
        Some (media_type, bytes)
    | [] => None
    end
  else None.

(** The bytes of a blob are octets. *)
Definition octet_blob (blob : Blob) : Prop :=
  Forall (λ b, b < 256) (blob_bytes blob).

(** The blobs the environment delivers hold octets and have a type
    without a comma. *)
Definition plain_blobs `{Env} : Prop :=
  ∀ tr res blob,
    env_blob tr res = Resolves blob → comma ∉ blob_type blob ∧ octet_blob blob.

(** A string that is the base64 encoding of octets. *)
Definition payload (videoSrc : option jsstring) : Prop :=
  ∃ bytes, Forall (λ b, b < 256) bytes ∧ videoSrc = Some (base64_encode bytes).

(** The test of [payload]: the string decodes to octets whose encoding it
    is. *)
Definition is_payload (videoSrc : option jsstring) : bool :=
  match videoSrc with
  | Some s =>
      match base64_decode s with
      | Some bytes =>
          bool_decide (Forall (λ b, b < 256) bytes ∧ base64_encode bytes = s)
      | None => false
      end
  | None => false
  end.

(** A source the video element can play as the handlers label it: a
    base64 data URL of type [video/mp4]. *)
Definition is_video_url (url : jsstring) : bool :=
  match parse_data_url url with
  | Some (media_type, _) => bool_decide (media_type = mimeType)
  | None => false
  end.

(** The generations of a session are fulfilled with payloads. *)
Definition typed_settle (c : Config) (l : Label) : Prop :=
  match l with
  | Settle _ (Fulfilled videoObjects) _ _ => Forall payload videoObjects
  | _ => True
  end.

(** * A downloaded video *)

Definition example_blob : Blob := mkBlob (lit "video/mp4") [0; 1; 2; 255].

(** A blob whose type lists its codecs. *)
Definition codecs_blob : Blob :=
  mkBlob (lit "video/mp4;codecs=avc1,mp4a") [0; 1; 2].

Definition standard_env : Env := {|
  API_KEY := Some (lit "KEY");
  sdk_generateVideos _ p :=
    Resolves (mkOperation (lit "op/1") (Some true)
                (Some (mkGenerateVideosResponse (Some example_videos))));
  sdk_getVideosOperation _ operation := Resolves operation;
  env_decodeURIComponent s := Normal s;
  env_fetch _ _ := Resolves (mkResponse true 200 (lit "OK"));
  env_blob _ _ := Resolves example_blob;
  env_readAsDataURL _ blob := Some (readAsDataURL blob);
  env_randomUUID _ := Normal (lit "uuid");
  env_now _ := 0%Z;
|}.

(** * Arithmetic of the groups *)

Lemma sextets_join n :
  ungroup (n / 262144) (n / 4096 mod 64) (n / 64 mod 64) (n mod 64) = n.
Proof.
  unfold ungroup.
  assert (n / 4096 = n / 64 / 64) as -> by (by rewrite N.Div0.div_div).
  assert (n / 262144 = n / 64 / 64 / 64) as -> by (by rewrite !N.Div0.div_div).
  pose proof (N.div_mod' n 64). pose proof (N.div_mod' (n / 64) 64).
  pose proof (N.div_mod' (n / 64 / 64) 64).
  set (q1 := n / 64) in *. set (r0 := n mod 64) in *.
  set (q2 := q1 / 64) in *. set (r1 := q1 mod 64) in *.
  set (q3 := q2 / 64) in *. set (r2 := q2 mod 64) in *.
  clearbody q1 r0 q2 r1 q3 r2. lia.
Qed.

Section euclid.
#[local] Ltac Zify.zify_post_hook ::= Z.to_euclidean_division_equations.

Lemma octets_group a b c :
  a < 256 → b < 256 → c < 256 → octets (group a b c) = [a; b; c].
Proof. intros. unfold octets, group. repeat f_equal; lia. Qed.

Lemma group_bound a b c :
  a < 256 → b < 256 → c < 256 → group a b c < 16777216.
Proof. unfold group. lia. Qed.

Lemma sextets_bound n :
  n < 16777216 → Forall (λ s, s < 64) (sextets n).
Proof. intros. unfold sextets. repeat constructor; lia. Qed.

(** The sextets that padding replaces are zero. *)
Lemma sextets_one a :
  group a 0 0 / 64 mod 64 = 0 ∧ group a 0 0 mod 64 = 0.
Proof. unfold group. lia. Qed.

Lemma sextets_two a b : group a b 0 mod 64 = 0.
Proof. unfold group. lia. Qed.

End euclid.

(** * The alphabet *)

(** A property of the 64 sextets is checked on each of them. *)
Lemma sextet_cases (P : N → Prop) :
  Forall P (N.of_nat <$> seq 0 64) → ∀ s, s < 64 → P s.
Proof.
  intros HP s Hs. eapply Forall_forall in HP; [done|].
  apply list_elem_of_fmap. exists (N.to_nat s).
  split; [lia | apply elem_of_seq; lia].
Qed.

Lemma base64_sextet_char s : s < 64 → base64_sextet (base64_char s) = Some s.
Proof. revert s. apply sextet_cases. compute_done. Qed.

(** No character of the alphabet is the padding or the comma. *)
Lemma base64_char_plain s : base64_char s ≠ pad ∧ base64_char s ≠ comma.
Proof.
  unfold base64_char, pad, comma.
  destruct (N.ltb_spec s 26); [lia|]. destruct (N.ltb_spec s 52); [lia|].
  destruct (N.ltb_spec s 62); [lia|]. destruct (N.eqb_spec s 62); lia.
Qed.

Lemma base64_char_not_pad s : (base64_char s =? pad) = false.
Proof. apply N.eqb_neq, base64_char_plain. Qed.

Lemma sextet_or_pad_char s :
  s < 64 → sextet_or_pad (base64_char s) = Some s.
Proof.
  intros Hs. unfold sextet_or_pad.
  by rewrite base64_char_not_pad, base64_sextet_char.
Qed.

(** A three-step induction on lists, for functions that take the elements
    three at a time. *)
Lemma list_ind3 {A} (P : list A → Prop) :
  P [] → (∀ a, P [a]) → (∀ a b, P [a; b]) →
  (∀ a b c l, P l → P (a :: b :: c :: l)) →
  ∀ l, P l.
Proof.
  intros H0 H1 H2 H3. fix IH 1.
  intros [|a [|b [|c l]]];
    [exact H0 | exact (H1 a) | exact (H2 a b) | exact (H3 a b c l (IH l))].
Qed.

(** The payload never holds a comma: [split] does not cut it. *)
Lemma base64_encode_plain bytes :
  Forall (λ c, c ≠ comma) (base64_encode bytes).
Proof.
  induction bytes as [|a|a b|a b c l IH] using list_ind3; simpl;
    repeat first [assumption | apply Forall_nil_2 | apply Forall_cons_2];
    first [apply base64_char_plain | done].
Qed.

Lemma base64_encode_no_comma bytes : comma ∉ base64_encode bytes.
Proof.
  intros Hin.
  by eapply (proj1 (Forall_forall _ _) (base64_encode_plain bytes)).
Qed.

(** The encoding of a non-empty list of groups is not empty. *)
Lemma base64_encode_nil bytes : base64_encode bytes = [] → bytes = [].
Proof. by destruct bytes as [|a [|b [|c l]]]. Qed.

(** * Decoding undoes encoding *)

Lemma decode_group_sextets n :
  n < 16777216 →
  decode_group (base64_char (n / 262144)) (base64_char (n / 4096 mod 64))
    (base64_char (n / 64 mod 64)) (base64_char (n mod 64))
  = Some (octets n).
Proof.
  intros Hn%sextets_bound. unfold sextets in Hn.
  repeat (apply Forall_cons in Hn as [? Hn]).
  unfold decode_group. rewrite !base64_sextet_char by done. simpl.
  by rewrite sextets_join.
Qed.

Lemma decode_last_sextets n :
  n < 16777216 →
  decode_last (base64_char (n / 262144)) (base64_char (n / 4096 mod 64))
    (base64_char (n / 64 mod 64)) (base64_char (n mod 64))
  = Some (octets n).
Proof.
  intros Hn%sextets_bound. unfold sextets in Hn.
  repeat (apply Forall_cons in Hn as [? Hn]).
  unfold decode_last. rewrite !base64_char_not_pad. simpl.
  rewrite !base64_sextet_char, !sextet_or_pad_char by done. simpl.
  by rewrite sextets_join.
Qed.

Lemma decode_last_two a b :
  a < 256 → b < 256 →
  decode_last (base64_char (group a b 0 / 262144))
    (base64_char (group a b 0 / 4096 mod 64))
    (base64_char (group a b 0 / 64 mod 64)) pad
  = Some [a; b].
Proof.
  intros Ha Hb.
  pose proof (sextets_bound _ (group_bound a b 0 Ha Hb eq_refl)) as Hn.
  unfold sextets in Hn. repeat (apply Forall_cons in Hn as [? Hn]).
  unfold decode_last. rewrite base64_char_not_pad. simpl.
  rewrite !base64_sextet_char, sextet_or_pad_char by done. simpl.
  pose proof (sextets_join (group a b 0)) as Hj.
  rewrite (sextets_two a b) in Hj. rewrite Hj.
  pose proof (octets_group a b 0 Ha Hb eq_refl) as Ho.
  by injection Ho as -> ->.
Qed.

Lemma decode_last_one a :
  a < 256 →
  decode_last (base64_char (group a 0 0 / 262144))
    (base64_char (group a 0 0 / 4096 mod 64)) pad pad
  = Some [a].
Proof.
  intros Ha.
  pose proof (sextets_bound _ (group_bound a 0 0 Ha eq_refl eq_refl)) as Hn.
  unfold sextets in Hn. repeat (apply Forall_cons in Hn as [? Hn]).
  unfold decode_last. simpl.
  rewrite !base64_sextet_char by done. simpl.
  pose proof (sextets_join (group a 0 0)) as Hj.
  destruct (sextets_one a) as [H3 H4]. rewrite H3, H4 in Hj. rewrite Hj.
  pose proof (octets_group a 0 0 Ha eq_refl eq_refl) as Ho.
  by injection Ho as ->.
Qed.

(** Decoding the base64 encoding of a list of octets gives the list
    back, whatever its length: full groups, and a last group of one or
    two octets with its padding. *)
Lemma base64_decode_encode bytes :
  Forall (λ b, b < 256) bytes →
  base64_decode (base64_encode bytes) = Some bytes.
Proof.
  induction bytes as [|a|a b|a b c l IH] using list_ind3; intros Hb.
  - done.
  - apply Forall_cons in Hb as [Ha _]. by apply decode_last_one.
  - apply Forall_cons in Hb as [Ha [Hb _]%Forall_cons].
    by apply decode_last_two.
  - apply Forall_cons in Hb as [Ha [Hb [Hc Hl]%Forall_cons]%Forall_cons].
    pose proof (group_bound a b c Ha Hb Hc) as Hn.
    cbn [base64_encode sextets fmap list_fmap Datatypes.app].
    cbn [base64_decode].
    destruct (base64_encode l) eqn:Hl'.
    + apply base64_encode_nil in Hl' as ->.
      by rewrite decode_last_sextets, octets_group.
    + by rewrite (IH Hl), decode_group_sextets, octets_group.
Qed.

(** * Data URLs *)

Lemma base64_media_type_app media_type :
  base64_media_type (media_type ++ lit ";base64") = Some media_type.
Proof.
  unfold base64_media_type. rewrite length_app.
  replace (length media_type + length (lit ";base64") - 7)%nat
    with (length media_type) by (vm_compute (length (lit _)); lia).
  by rewrite drop_app_length, bool_decide_eq_true_2, take_app_length.
Qed.

(** A header without comma followed by a payload is cut at the comma
    that ends the header. *)
Lemma split_header prefix media_type bytes :
  comma ∉ prefix → comma ∉ media_type →
  split comma (prefix ++ media_type ++ lit ";base64," ++ base64_encode bytes)
  = [prefix ++ media_type ++ lit ";base64"; base64_encode bytes].
Proof.
  intros Hp Ht.
  replace (prefix ++ media_type ++ lit ";base64," ++ base64_encode bytes)
    with ((prefix ++ media_type ++ lit ";base64")
          ++ comma :: base64_encode bytes)
    by (by rewrite <-!app_assoc).
  rewrite split_app_sep, split_no_occurrence;
    [done | apply base64_encode_no_comma |].
  rewrite !not_elem_of_app. split_and!; [done.. | compute_done].
Qed.

(** Parsing undoes [readAsDataURL]. *)
Lemma parse_readAsDataURL blob :
  comma ∉ blob_type blob → octet_blob blob →
  parse_data_url (readAsDataURL blob) = Some (blob_type blob, blob_bytes blob).
Proof.
  intros Ht Hb. unfold parse_data_url, readAsDataURL.
  rewrite startsWith_app, (drop_app_length' (lit "data:")) by done.
  pose proof (split_header [] _ (blob_bytes blob) (not_elem_of_nil _) Ht) as Hs.
  rewrite !app_nil_l in Hs. rewrite Hs, base64_media_type_app. simpl.
  by rewrite base64_decode_encode.
Qed.

Section download.
Context `{Env} (Hreader : standard_reader).
Implicit Types (tr : trace) (blob : Blob).

(** With the standard reader the promise resolves with the base64 text
    of the bytes. *)
Lemma bloblToBase64_standard blob tr :
  comma ∉ blob_type blob →
  bloblToBase64 blob tr
  = (Fulfilled (Some (base64_encode (blob_bytes blob))),
     tr ++ [EReadAsDataURL blob]).
Proof.
  intros Ht. rewrite (bloblToBase64_run _ _ _ (Hreader tr blob)).
  unfold readAsDataURL. by rewrite split_header by (done || compute_done).
Qed.

(** C40: round trip of a download. With a reader that delivers the data
    URL of the blob, and a blob whose type has no comma, the source that
    the handlers build from the result of [bloblToBase64] is a data URL
    of type [video/mp4] that holds exactly the bytes of the blob. *)
Theorem download_round_trip blob tr :
  comma ∉ blob_type blob → octet_blob blob →
  ∃ videoSrc,
    bloblToBase64 blob tr = (Fulfilled videoSrc, tr ++ [EReadAsDataURL blob])
    ∧ parse_data_url (data_url videoSrc) = Some (mimeType, blob_bytes blob).
Proof.
  intros Ht Hb. eexists. split; [by apply bloblToBase64_standard|].
  apply (parse_readAsDataURL (mkBlob mimeType (blob_bytes blob)));
    [compute_done | done].
Qed.

End download.

(** * On the example blobs *)

(** * The type of the result *)

Section typed.
Context `{Env} (Hreader : standard_reader).
Implicit Types (tr : trace) (blob : Blob).

Lemma bloblToBase64_string blob : yields is_Some (bloblToBase64 blob).
Proof.
  intros tr a tr'. rewrite (bloblToBase64_run _ _ _ (Hreader tr blob)).
  intros Hrun.
  assert (a = split comma (readAsDataURL blob) !! 1%nat) as -> by congruence.
  apply split_second. unfold readAsDataURL.
  rewrite !elem_of_app. right; right; left. compute_done.
Qed.

Lemma bloblToBase64_payload_of blob :
  comma ∉ blob_type blob ∧ octet_blob blob → yields payload (bloblToBase64 blob).
Proof.
  intros [Ht Hb] tr a tr'. rewrite bloblToBase64_standard by done.
  intros [= <- _]. by exists (blob_bytes blob).
Qed.

(** With plain blobs every element is the encoding of the bytes of a
    blob. *)
Lemma generateVideoFromText_payloads fuel prompt numberOfVideos tr l tr' :
  plain_blobs →
  generateVideoFromText fuel prompt numberOfVideos tr = (Fulfilled l, tr') →
  Forall payload l.
Proof.
  intros Hplain. eapply generateVideoFromText_yields; [apply Hplain|].
  apply bloblToBase64_payload_of.
Qed.

End typed.

(** C34: the type of the result. With a reader that delivers data URLs,
    every element of the array [generateVideoFromText] resolves with is a
    string, as its declared type [Promise<string[]>] says; the cast of
    line 29 hides that a reader that delivers anything else makes an
    element undefined. *)
Theorem generateVideoFromText_strings `{Env} fuel prompt numberOfVideos
    tr l tr' :
  standard_reader →
  generateVideoFromText fuel prompt numberOfVideos tr = (Fulfilled l, tr') →
  Forall is_Some l.
Proof.
  intros Hreader.
  apply (generateVideoFromText_yields (λ _, True) is_Some); [done|].
  intros blob _. by apply bloblToBase64_string.
Qed.

(** * The sources of the generated videos *)

Lemma is_payload_spec videoSrc : is_payload videoSrc = true ↔ payload videoSrc.
Proof.
  unfold is_payload, payload. split.
  - destruct videoSrc as [s|]; [|done].
    destruct (base64_decode s) as [bytes|]; [|done].
    intros [Hb <-]%bool_decide_eq_true. eauto.
  - intros (bytes & Hb & ->). rewrite base64_decode_encode by done.
    by apply bool_decide_eq_true_2.
Qed.

Lemma data_url_payload videoSrc :
  payload videoSrc → is_video_url (data_url videoSrc) = true.
Proof.
  intros (bytes & Hb & ->). unfold is_video_url.
  change (data_url (Some (base64_encode bytes)))
    with (readAsDataURL (mkBlob mimeType bytes)).
  rewrite parse_readAsDataURL; [by apply bool_decide_eq_true_2 | compute_done | done].
Qed.

(** What a step does to the history: nothing, or it puts in front the
    video made of the first element of a fulfilled generation. *)
Lemma step_history c l c' :
  step c l = Some c' →
  generatedVideosHistory (app c') = generatedVideosHistory (app c)
  ∨ ∃ j videoObjects uuid now videoSrc,
      l = Settle j (Fulfilled videoObjects) uuid now
      ∧ videoObjects !! 0%nat = Some videoSrc
      ∧ generatedVideosHistory (app c')
        = mkHistoryVideo (job_video j uuid videoSrc) now
          :: generatedVideosHistory (app c).
Proof.
  intros Hstep. destruct l as [ev|j r uuid now].
  - apply step_user in Hstep as [_ ->]. left.
    destruct c as [[vs pv ev' sv sm ge vw hs np li ip] pend]. simpl.
    destruct ev; simpl; try done; by repeat case_match.
  - apply step_settle in Hstep as (_ & us & Hus & ->).
    destruct c as [[vs pv ev' sv sm ge vw hs np li ip] pend].
    destruct j, r as [[|videoSrc vo]|e| |]; simplify_eq/=; eauto 10.
Qed.

Section history.
Context (MOCK_VIDEOS : list Video).

(** C35: the history is well formed. In a session whose generations are
    fulfilled with payloads, the source of every video of the history is
    a base64 data URL of type [video/mp4]: none reads
    [data:video/mp4;base64,undefined]. *)
Theorem history_data_urls c :
  reachable_if typed_settle MOCK_VIDEOS c →
  Forall (λ h, is_video_url (videoUrl (toVideo h)) = true)
    (generatedVideosHistory (app c)).
Proof.
  induction 1 as [|c l c' _ IH Hok Hstep]; [constructor|].
  apply step_history in Hstep
    as [->|(j & vo & uuid & now & src & -> & Hsrc & ->)]; [done|].
  constructor; [|done]. simpl in Hok.
  apply (Forall_lookup_1 _ _ _ _ Hok) in Hsrc.
  destruct j; by apply data_url_payload.
Qed.

End history.

Lemma standard_env_reader : standard_reader (H:=standard_env).
Proof. by intros tr blob. Qed.


(** A blob whose type lists two codecs: the second piece of its data URL
    is the end of the header, not the payload, and the source built from
    it cannot be parsed. *)
Lemma codecs_blob_cut :
  (bloblToBase64 (H:=standard_env) codecs_blob []).1
  = Fulfilled (Some (lit "mp4a;base64"))
  ∧ is_video_url (data_url (Some (lit "mp4a;base64"))) = false.
Proof. by vm_compute. Qed.

Lemma generateVideoFromText_strings_witness :
  ∃ l, (generateVideoFromText (H:=standard_env) 0 example_prompt 1 []).1
       = Fulfilled l ∧ Forall is_Some l.
Proof.
  eexists. split; [vm_compute; reflexivity|].
  apply (generateVideoFromText_strings (H:=standard_env)
           0 example_prompt 1 [] _
           (generateVideoFromText (H:=standard_env) 0 example_prompt 1 []).2
           standard_env_reader).
  vm_compute. reflexivity.
Defined.

Lemma example_config_typed :
  reachable_if typed_settle example_mock example_config.
Proof.
  apply (run_reachable_if example_mock typed_settle example_session
           (start example_mock)); [constructor | | by vm_compute].
  unfold example_session.
  repeat (all_ok_step;
          [first [exact I
                 | repeat constructor; apply is_payload_spec; compute_done]|]).
  exact I.
Qed.

Lemma history_data_urls_witness :
  Forall (λ h, is_video_url (videoUrl (toVideo h)) = true)
    (generatedVideosHistory (app example_config)).
Proof.
  exact (history_data_urls example_mock example_config example_config_typed).
Defined.

Lemma download_round_trip_witness :
  ∃ videoSrc,
    bloblToBase64 (H:=standard_env) example_blob []
    = (Fulfilled videoSrc, [] ++ [EReadAsDataURL example_blob])
    ∧ parse_data_url (data_url videoSrc) = Some (mimeType, [0; 1; 2; 255]).
Proof.
  apply (download_round_trip (H:=standard_env) standard_env_reader
           example_blob []); compute_done.
Defined.
