(* ===== verification/Dom.v ===== *)
(** * Rendered trees and the dispatch of events

    What a component returns is a tree of elements; an element carries the
    attributes and the listeners its JSX gives it. This file holds the
    tree, the dispatch of an event to the node it targets, and the facts
    on them the components share.

    An event is delivered to its target and then, when its type bubbles,
    to the ancestors of the target from the nearest on, until a listener
    calls [stopPropagation]. Of the types the components listen to,
    [click] and [change] bubble and the media events [canplay] and
    [ended] do not. A disabled control is the target of no event, and
    its listeners hear none. A listener is what it calls in the
    component, given the value of the target of the event
    ([e.target.value]), and whether it stops the event; what the calls do
    is the business of the component.

    A component whose source is not in the repository is a leaf,
    [component]: all that is known of it is the props it is given, the
    values ([PropValue], by the types of the program) and the functions
    it may call; an icon is such a leaf that calls nothing.

    A node is named by its path, the positions of the children to go
    through from the root. [paths] lists the paths of a tree, so that a
    property of every node of a tree whose shape is known is checked node
    by node ([fired_paths]).

    The [className] of an element is kept only where the component
    computes it. *)

From S2P Require Import Prelude JsString Types.

(** The values the program passes as props to the components outside
    the repository: a string ([message] of [SavingProgressPage]), an
    array of strings ([message] of [ErrorModal]), a video, an array of
    videos, an identifier or [null]. *)
Inductive PropValue :=
| string_prop (s : jsstring)
| strings_prop (l : list jsstring)
| video_prop (video : Video)
| videos_prop (videos : list Video)
| id_prop (id : option jsstring).

Inductive EventType := click | change | canplay | ended.

#[export] Instance EventType_eq_dec : EqDecision EventType.
Proof. solve_decision. Defined.

(** Whether an event of the type reaches the ancestors of its target. *)
Definition bubbles (type : EventType) : bool :=
  match type with
  | click | change => true
  | canplay | ended => false
  end.

(** A listener: the type it listens to, whether it calls
    [e.stopPropagation()], and the calls it makes, given
    [e.target.value]. *)
Record Listener (A : Type) := mkListener {
  listener_type : EventType;
  stopPropagation : bool;
  calls : jsstring → list A;
}.

Arguments mkListener {A} _ _ _.
Arguments listener_type {A} _.
Arguments stopPropagation {A} _.
Arguments calls {A} _ _.

Unset Elimination Schemes.
Inductive Element (A : Type) :=
| text (s : jsstring)
| icon (name : jsstring)
| component (name : jsstring) (props : list (jsstring * PropValue))
    (may_call : A → bool)
| element (tag : jsstring) (attributes : list (jsstring * jsstring))
    (listeners : list (Listener A)) (children : list (Element A)).
Set Elimination Schemes.

Arguments text {A} s.
Arguments icon {A} name.
Arguments component {A} name props may_call.
Arguments element {A} tag attributes listeners children.

(** Induction on a tree gives the property of every child. *)
Section Element_ind.
Context {A : Type} (P : Element A → Prop).
Context (Htext : ∀ s, P (text s)) (Hicon : ∀ name, P (icon name)).
Context (Hcomponent : ∀ name props may_call,
           P (component name props may_call)).
Context (Helement : ∀ tag attributes listeners children,
           Forall P children → P (element tag attributes listeners children)).

Fixpoint Element_ind (e : Element A) : P e :=
  match e with
  | text s => Htext s
  | icon name => Hicon name
  | component name props may_call => Hcomponent name props may_call
  | element tag attributes listeners children =>
      Helement tag attributes listeners children
        ((fix go (cs : list (Element A)) : Forall P cs :=
            match cs with
            | [] => List.Forall_nil P
            | c :: cs' => List.Forall_cons P c cs' (Element_ind c) (go cs')
            end) children)
  end.

End Element_ind.

Section dispatch.
Context {A : Type}.
Implicit Types (e : Element A) (path : list nat) (type : EventType).
Implicit Types (value : jsstring).

(** [onClick={f}]: a listener that calls [f] and lets the event go on. *)
Definition on (type : EventType) (call : A) : Listener A :=
  mkListener type false (λ _, [call]).

(** [onChange={(e) => f(e.target.value)}] *)
Definition on_value (type : EventType) (call : jsstring → A) : Listener A :=
  mkListener type false (λ value, [call value]).

(** [onClick={(e) => e.stopPropagation()}] *)
Definition stops (type : EventType) : Listener A :=
  mkListener type true (λ _, []).

Definition children_of e : list (Element A) :=
  match e with
  | element _ _ _ children => children
  | text _ | icon _ | component _ _ _ => []
  end.

Definition listeners_of e : list (Listener A) :=
  match e with
  | element _ _ listeners _ => listeners
  | text _ | icon _ | component _ _ _ => []
  end.

Definition attributes_of e : list (jsstring * jsstring) :=
  match e with
  | element _ attributes _ _ => attributes
  | text _ | icon _ | component _ _ _ => []
  end.

(** The value of an attribute. *)
Definition attribute (name : jsstring) e : option jsstring :=
  (λ r, r.2.2) <$> list_find (λ a, a.1 = name) (attributes_of e).

(** [disabled={b}]: the attribute is there when [b] holds. *)
Definition disabled_when (b : bool) : list (jsstring * jsstring) :=
  if b then [(lit "disabled", [])] else [].

Definition disabled e : bool :=
  bool_decide (is_Some (attribute (lit "disabled") e)).

(** The listeners of an element for a type of event. *)
Definition handlers type e : list (Listener A) :=
  filter (λ l, listener_type l = type) (listeners_of e).

(** An event reaches an element: when it is still propagating and the
    element is not disabled, the listeners of the element run, and the
    event stops when one of them says so. The pair is what was called so
    far and whether the event goes on. *)
Definition deliver value type e (r : list A * bool) : list A * bool :=
  if r.2 && negb (disabled e) then
    (r.1 ++ (handlers type e ≫= λ l, calls l value),
     negb (existsb stopPropagation (handlers type e)))
  else r.

(** The dispatch of an event to the node at [path]: the target first,
    unless it is disabled, then its ancestors when the type bubbles.
    None when there is no such node. *)
Fixpoint dispatch value type path e : option (list A * bool) :=
  match path with
  | [] =>
      Some (if disabled e then ([], false) else deliver value type e ([], true))
  | i :: path' =>
      child ← children_of e !! i;
      r ← dispatch value type path' child;
      Some (deliver value type e (r.1, r.2 && bubbles type))
  end.

(** What an event on the node at [path] calls, in order. *)
Definition fired value type path e : option (list A) :=
  fst <$> dispatch value type path e.

(** The paths of the nodes of a tree: the root, and the paths of the
    children behind their positions. *)
Fixpoint paths_from (paths : Element A → list (list nat)) (i : nat)
    (children : list (Element A)) : list (list nat) :=
  match children with
  | [] => []
  | child :: rest => (cons i <$> paths child) ++ paths_from paths (S i) rest
  end.

Fixpoint paths e : list (list nat) :=
  [] :: match e with
        | element _ _ _ children => paths_from paths 0 children
        | text _ | icon _ | component _ _ _ => []
        end.

(** The tree whose listeners never stop an event. *)
Fixpoint unstop e : Element A :=
  match e with
  | element tag attributes listeners children =>
      element tag attributes
        ((λ l, mkListener (listener_type l) false (calls l)) <$> listeners)
        (unstop <$> children)
  | text _ | icon _ | component _ _ _ => e
  end.

(** The node at a path. *)
Fixpoint node path e : option (Element A) :=
  match path with
  | [] => Some e
  | i :: path' => children_of e !! i ≫= node path'
  end.

(** The props of the component at a node. *)
Definition props_at path e : list (jsstring * PropValue) :=
  match node path e with
  | Some (component _ props _) => props
  | _ => []
  end.

(** What the component at a node may call. *)
Definition may_call_at path e (call : A) : bool :=
  match node path e with
  | Some (component _ _ may_call) => may_call call
  | _ => false
  end.

(** What a tree offers: a call that an event on one of its nodes makes,
    or that one of its leaves may make. *)
Definition offers e (call : A) : Prop :=
  (∃ value type path called,
     fired value type path e = Some called ∧ call ∈ called)
  ∨ ∃ path, may_call_at path e call = true.

(** A property of what an event calls, for every event on every node of
    a tree. *)
Definition fires (P : list A → Prop) e : Prop :=
  ∀ value type path called, fired value type path e = Some called → P called.

(** A tree on which no event calls two functions. *)
Definition calls_once e : Prop := fires (λ called, (length called ≤ 1)%nat) e.

End dispatch.

(** A tree with its calls translated: a component mounted in another
    calls the functions its props are bound to. *)
Fixpoint map_calls {A B} (f : A → list B) (g : B → option A)
    (e : Element A) : Element B :=
  match e with
  | text s => text s
  | icon name => icon name
  | component name props may_call =>
      component name props (λ b, from_option may_call false (g b))
  | element tag attributes listeners children =>
      element tag attributes
        ((λ l, mkListener (listener_type l) (stopPropagation l)
                 (λ value, calls l value ≫= f)) <$> listeners)
        (map_calls f g <$> children)
  end.

(** * Facts *)

Section dispatch_lemmas.
Context {A : Type}.
Implicit Types (e : Element A) (path : list nat) (type : EventType).
Implicit Types (value : jsstring).

Lemma elem_of_paths_from (f : Element A → list (list nat)) i children path :
  path ∈ paths_from f i children
  ↔ ∃ j child path',
      children !! j = Some child ∧ path = (i + j)%nat :: path' ∧ path' ∈ f child.
Proof.
  revert i. induction children as [|c cs IH]; intros i; simpl.
  { split; [by intros ?%elem_of_nil | by intros (? & ? & ? & ? & _)]. }
  rewrite elem_of_app, list_elem_of_fmap, IH. split.
  - intros [(path' & -> & Hin)|(j & child & path' & Hj & -> & Hin)].
    + exists 0%nat, c, path'. by rewrite Nat.add_0_r.
    + exists (S j), child, path'. by rewrite Nat.add_succ_r.
  - intros ([|j] & child & path' & Hj & -> & Hin); simplify_eq/=.
    + left. exists path'. by rewrite Nat.add_0_r.
    + right. exists j, child, path'. by rewrite Nat.add_succ_r.
Qed.

(** An event can be dispatched to the nodes of the tree and to nothing
    else. *)
Lemma dispatch_paths value type path e :
  is_Some (dispatch value type path e) ↔ path ∈ paths e.
Proof.
  revert path.
  induction e as [s|name|name props may_call|tag attributes listeners children IH];
    intros [|i path]; simpl;
    try (split; [intros _; by left | by eauto]);
    try (split; [by intros [? ?] | by intros [=]%list_elem_of_singleton]).
  rewrite elem_of_cons, elem_of_paths_from. rewrite Forall_lookup in IH. split.
  - destruct (children !! i) as [child|] eqn:Hi; simpl; [|by intros [? ?]].
    destruct (dispatch value type path child) as [r|] eqn:Hd; simpl;
      [|by intros [? ?]].
    intros _. right. exists i, child, path. split_and!; [done..|].
    apply (IH i child Hi). by rewrite Hd.
  - intros [[=]|(j & child & path' & Hj & [= -> ->] & Hin)].
    rewrite Hj. simpl. apply (IH j child Hj) in Hin as [r ->]. by eexists.
Qed.

Lemma fired_paths_iff value type path e :
  is_Some (fired value type path e) ↔ path ∈ paths e.
Proof. unfold fired. by rewrite fmap_is_Some, dispatch_paths. Qed.

(** A property of what every node of a tree fires is checked on the list
    of its paths. *)
Lemma fired_paths value type e (P : list nat → list A → Prop) :
  Forall (λ path,
            ∀ called, fired value type path e = Some called → P path called)
    (paths e) →
  ∀ path called, fired value type path e = Some called → P path called.
Proof.
  intros HP path called Hf.
  assert (path ∈ paths e) as Hin
    by (apply (proj1 (fired_paths_iff value type path e)); by rewrite Hf).
  by apply (proj1 (Forall_forall _ _) HP path Hin).
Qed.

(** A call made on some node is a call of a listener of the tree. *)
Lemma fired_paths_elem value type e (calls : list A) path called call :
  Forall (λ path,
            ∀ called, fired value type path e = Some called → called ⊆ calls)
    (paths e) →
  fired value type path e = Some called → call ∈ called → call ∈ calls.
Proof.
  intros HP Hf Hin.
  by apply (fired_paths value type e (λ _ called, called ⊆ calls) HP
              path called Hf).
Qed.

(** An element without a listener for the event, or disabled, lets the
    event of a descendant pass. *)
Lemma deliver_through value type e r :
  handlers type e = [] ∨ disabled e = true → (deliver value type e r).1 = r.1.
Proof.
  unfold deliver. intros [->| ->]; destruct r as [called []]; simpl;
    rewrite ?andb_false_r, ?app_nil_r; try done; by destruct (disabled e).
Qed.

Lemma fired_through value type i path e :
  handlers type e = [] ∨ disabled e = true →
  fired value type (i :: path) e
  = children_of e !! i ≫= fired value type path.
Proof.
  intros He. unfold fired. simpl.
  destruct (children_of e !! i) as [child|]; [|done]. simpl.
  destruct (dispatch value type path child) as [r|]; [|done]. simpl.
  by rewrite deliver_through.
Qed.

(** A leaf hears nothing. *)
Lemma fired_leaf value type path e called :
  listeners_of e = [] → children_of e = [] →
  fired value type path e = Some called → called = [].
Proof.
  unfold fired. intros Hl Hc. destruct path as [|i path]; simpl.
  - unfold deliver, handlers. rewrite Hl. by destruct (disabled e); intros [= <-].
  - by rewrite Hc.
Qed.

(** An event that does not bubble is heard by its target only. *)
Lemma dispatch_no_bubble value type path e r :
  bubbles type = false → path ≠ [] → dispatch value type path e = Some r →
  ∃ child r', node path e = Some child
              ∧ dispatch value type [] child = Some r' ∧ r.1 = r'.1.
Proof.
  intros Hb. revert e r. induction path as [|i path IH]; intros e r; [done|].
  intros _. simpl. destruct (children_of e !! i) as [child|]; [|done]. simpl.
  destruct (dispatch value type path child) as [r1|] eqn:Hd; [|done]. simpl.
  rewrite Hb, andb_false_r. unfold deliver at 1. simpl. intros [= <-].
  destruct path as [|j path'].
  - simpl in *. eauto.
  - destruct (IH child r1) as (c & r' & ? & ? & ?); [done..|]. eauto.
Qed.

(** The nodes of a tree are the targets of its events. *)
Lemma node_dispatch value type path e :
  is_Some (node path e) ↔ is_Some (dispatch value type path e).
Proof.
  revert e. induction path as [|i path IH]; intros e; simpl; [by split; eauto|].
  destruct (children_of e !! i) as [child|]; simpl; [|done].
  rewrite IH. by destruct (dispatch value type path child).
Qed.

Lemma node_paths path e : is_Some (node path e) ↔ path ∈ paths e.
Proof. by rewrite (node_dispatch [] click), dispatch_paths. Qed.

(** A tree none of whose nodes may call [call]. *)
Lemma may_call_at_paths e call :
  Forall (λ path, may_call_at path e call = false) (paths e) →
  ∀ path, may_call_at path e call = false.
Proof.
  intros HP path. destruct (node path e) as [child|] eqn:Hn.
  - apply (proj1 (Forall_forall _ _) HP), node_paths. by rewrite Hn.
  - unfold may_call_at. by rewrite Hn.
Qed.

(** The component at a node is the component at the node of a child. *)
Lemma may_call_at_cons i path e child call :
  children_of e !! i = Some child →
  may_call_at (i :: path) e call = may_call_at path child call.
Proof. unfold may_call_at. simpl. by intros ->. Qed.

(** What a child offers is offered by an element that has no listener
    of its own. *)
Lemma offers_child e i child call :
  listeners_of e = [] → children_of e !! i = Some child →
  offers child call → offers e call.
Proof.
  intros Hl Hi [(value & type & path & called & Hf & Hin)|[path Hm]].
  - left. exists value, type, (i :: path), called. split; [|done].
    rewrite fired_through, Hi; [done|]. left. unfold handlers. by rewrite Hl.
  - right. exists (i :: path). by rewrite (may_call_at_cons _ _ _ child).
Qed.

(** An event on an element without listeners calls nothing there. *)
Lemma fired_leaf_root value type e called :
  listeners_of e = [] → fired value type [] e = Some called → called = [].
Proof.
  intros Hl. cbn [fired dispatch fmap option_fmap option_map].
  unfold deliver, handlers. rewrite Hl.
  by destruct (disabled e); intros [= <-].
Qed.

(** An element without listeners calls what its children call. *)
Lemma fires_children (P : list A → Prop) e :
  listeners_of e = [] → P [] → Forall (fires P) (children_of e) → fires P e.
Proof.
  intros Hl Hnil Hc value type [|i path] called.
  - intros Hf. by rewrite (fired_leaf_root value type e called Hl Hf).
  - rewrite fired_through by (left; unfold handlers; by rewrite Hl).
    destruct (children_of e !! i) as [child|] eqn:Hi; [|done].
    by apply (proj1 (Forall_lookup _ _) Hc i child Hi).
Qed.

Lemma fires_leaf (P : list A → Prop) e :
  listeners_of e = [] → children_of e = [] → P [] → fires P e.
Proof.
  intros Hl Hc Hnil. apply fires_children; [done..|]. by rewrite Hc.
Qed.

Lemma fires_impl (P Q : list A → Prop) e :
  (∀ called, P called → Q called) → fires P e → fires Q e.
Proof. intros HPQ He value type path called Hf. eapply HPQ, He, Hf. Qed.

End dispatch_lemmas.

(** * Translated calls *)

Section map_calls.
Context {A B : Type} (f : A → list B) (g : B → option A).
Implicit Types (e : Element A) (path : list nat) (type : EventType).
Implicit Types (value : jsstring).

Lemma children_of_map_calls e :
  children_of (map_calls f g e) = map_calls f g <$> children_of e.
Proof. by destruct e. Qed.

Lemma disabled_map_calls e : disabled (map_calls f g e) = disabled e.
Proof. by destruct e. Qed.

Lemma handlers_map_calls type e :
  handlers type (map_calls f g e)
  = (λ l, mkListener (listener_type l) (stopPropagation l)
            (λ value, calls l value ≫= f)) <$> handlers type e.
Proof.
  unfold handlers. destruct e as [| | |tag attributes listeners children];
    try done.
  simpl. induction listeners as [|l ls IH]; [done|].
  rewrite fmap_cons, !filter_cons. simpl. rewrite IH.
  by destruct (decide (listener_type l = type)).
Qed.

Lemma deliver_map_calls value type e r :
  deliver value type (map_calls f g e) (r.1 ≫= f, r.2)
  = ((deliver value type e r).1 ≫= f, (deliver value type e r).2).
Proof.
  unfold deliver. rewrite disabled_map_calls, handlers_map_calls. simpl.
  destruct (r.2 && negb (disabled e)); [|done]. simpl. f_equal.
  - rewrite bind_app. f_equal.
    induction (handlers type e) as [|l ls IH]; [done|].
    rewrite fmap_cons, !bind_cons, bind_app. by rewrite IH.
  - f_equal. induction (handlers type e) as [|l ls IH]; [done|].
    simpl. f_equal. exact IH.
Qed.

(** An event on the translated tree calls the translation of what it
    calls on the tree. *)
Lemma dispatch_map_calls value type path e :
  dispatch value type path (map_calls f g e)
  = (λ r, (r.1 ≫= f, r.2)) <$> dispatch value type path e.
Proof.
  revert e. induction path as [|i path IH]; intros e; simpl.
  - rewrite disabled_map_calls. destruct (disabled e); [done|].
    by rewrite <-deliver_map_calls.
  - rewrite children_of_map_calls, list_lookup_fmap.
    destruct (children_of e !! i) as [child|]; [|done]. simpl. rewrite IH.
    destruct (dispatch value type path child) as [r|]; [|done]. simpl.
    f_equal. apply (deliver_map_calls value type e (r.1, r.2 && bubbles type)).
Qed.

Lemma fired_map_calls value type path e :
  fired value type path (map_calls f g e)
  = (λ called, called ≫= f) <$> fired value type path e.
Proof.
  unfold fired. rewrite dispatch_map_calls.
  by destruct (dispatch value type path e).
Qed.

(** The translated tree offers the translation of what an event calls on
    the tree. *)
Lemma offers_map_calls value type path e called a b :
  fired value type path e = Some called → a ∈ called → b ∈ f a →
  offers (map_calls f g e) b.
Proof.
  intros Hf Ha Hb. left. exists value, type, path, (called ≫= f).
  rewrite fired_map_calls, Hf. split; [done|].
  apply list_elem_of_bind. eauto.
Qed.

Lemma fires_map_calls (P : list A → Prop) (Q : list B → Prop) e :
  (∀ called, P called → Q (called ≫= f)) → fires P e →
  fires Q (map_calls f g e).
Proof.
  intros HPQ He value type path called. rewrite fired_map_calls.
  destruct (fired value type path e) as [called'|] eqn:Hf; [|done].
  intros [= <-]. eapply HPQ, He, Hf.
Qed.

(** Calls translated to at most one call each are still made once. *)
Lemma calls_once_map_calls e :
  (∀ a, (length (f a) ≤ 1)%nat) → calls_once e →
  calls_once (map_calls f g e).
Proof.
  intros Hf. apply fires_map_calls. intros [|a [|??]] Hlen; simpl in *;
    [lia | by rewrite app_nil_r | lia].
Qed.

Lemma node_map_calls path e :
  node path (map_calls f g e) = map_calls f g <$> node path e.
Proof.
  revert e. induction path as [|i path IH]; intros e; simpl; [done|].
  rewrite children_of_map_calls, list_lookup_fmap.
  destruct (children_of e !! i) as [child|]; simpl; [apply IH | done].
Qed.

(** A tree with no leaf that calls has none when translated. *)
Lemma may_call_at_map_calls path e call :
  (∀ call', may_call_at path e call' = false) →
  may_call_at path (map_calls f g e) call = false.
Proof.
  unfold may_call_at. rewrite node_map_calls. intros He.
  destruct (node path e) as [[| |name props may_call|]|]; try done. simpl.
  destruct (g call) as [call'|]; [apply He | done].
Qed.

End map_calls.

(** * Tactics *)

(** Replace the list of the paths of a tree whose shape is known by its
    value. *)
Ltac compute_paths :=
  lazymatch goal with
  | |- Forall ?P (paths ?e) =>
      let ps := eval vm_compute in (paths e) in
      change (Forall P ps)
  end.

(** Prove a property of what every node of such a tree fires: one goal
    per node, in which what the node fires is computed. *)
Ltac each_path :=
  lazymatch goal with
  | |- ∀ path called,
         fired ?value ?type path ?e = Some called → @?P path called =>
      apply (fired_paths value type e P)
  end;
  compute_paths;
  repeat apply Forall_cons_2; [..|apply Forall_nil_2];
  let Hf := fresh "Hf" in
  intros ? Hf; vm_compute in Hf; injection Hf as <-.

(** Prove that no node of such a tree is a leaf that may call. *)
Ltac no_leaf_paths :=
  compute_paths; repeat apply Forall_cons_2; try apply Forall_nil_2;
  by vm_compute.
Ltac no_leaf := apply may_call_at_paths; no_leaf_paths.
