(* ===== verification/HistoryPage.v ===== *)
(** * The [HistoryPage] component

    [src/components/HistoryPage.tsx]: the empty state (lines 21-31), the
    sort by creation date, newest first (lines 34-36), and one
    [HistoryCard] per video with its [isLoading] flag (lines 38-49).

    [Array.prototype.sort] is stable and the comparator is consistent (the
    sign of [b.createdAt.getTime() - a.createdAt.getTime()] is the sign of
    the difference of the two integers, also where the floating-point
    subtraction rounds), so its result is the one stable sorted
    permutation of the array; [sort] computes it by insertion, and
    [sort_unique] shows that every stable sorted permutation is that
    one. *)

From S2P Require Import Prelude JsString Types Env Generate App.

#[local] Open Scope Z_scope.

(** * [Array.prototype.sort] with a comparator *)

Section array_sort.
Context {A : Type} (cmp : A → A → Z).

(** The sort is the engine's, not the repository's: ECMAScript asks of
    it a stable sort by the comparator, and [sort_unique] shows that for
    the comparator of line 35 there is one such result, so any stable
    sort stands for it. This one is by insertion: [x] goes before the
    first element it does not have to follow. *)
Fixpoint insert (x : A) (l : list A) : list A :=
  match l with
  | [] => [x]
  | y :: l' => if cmp x y <=? 0 then x :: y :: l' else y :: insert x l'
  end.

Definition sort (l : list A) : list A := foldr insert [] l.

End array_sort.

(** * The component *)

(** The comparator of line 35. *)
Definition by_date (a b : HistoryVideo) : Z := createdAt b - createdAt a.

(** Lines 34-36. *)
Definition sortedVideos (videos : list HistoryVideo) : list HistoryVideo :=
  sort by_date videos.

(** The props of a [HistoryCard] (lines 41-46); its key is [video.id]. *)
Record HistoryCardProps := mkHistoryCardProps {
  card_video : HistoryVideo;
  card_isLoading : bool;
}.

Inductive HistoryPageScreen :=
| NoVideosGeneratedYet
| HistoryCards (cards : list HistoryCardProps).

(** [loadingVideoId === video.id] *)
Definition is_loading (loadingVideoId : option jsstring) (video : Video) : bool :=
  bool_decide (loadingVideoId = Some (id video)).

(** Lines 16-50. *)
Definition HistoryPage (videos : list HistoryVideo)
    (loadingVideoId : option jsstring) : HistoryPageScreen :=
  if bool_decide (length videos = 0%nat) then NoVideosGeneratedYet
  else
    HistoryCards
      ((λ video, mkHistoryCardProps video (is_loading loadingVideoId video))
       <$> sortedVideos videos).

(** The videos a rendered page offers to play ([onPlay(video)], card
    line 66). *)
Definition playable (s : HistoryPageScreen) : list Video :=
  match s with
  | NoVideosGeneratedYet => []
  | HistoryCards cards => (λ card, toVideo (card_video card)) <$> cards
  end.

(** * Specification vocabulary *)

(** The videos of a list created at [t], in order. *)
Definition created_at (t : Z) (l : list HistoryVideo) : list HistoryVideo :=
  filter (λ h, createdAt h = t) l.

(** [l'] is a stable rearrangement of [l]: videos of the same date keep
    their order. *)
Definition stable (l l' : list HistoryVideo) : Prop :=
  ∀ t, created_at t l' = created_at t l.

(** * A concrete history

    Three videos, two of them created at the same time, stored oldest
    first. *)
Definition example_history : list HistoryVideo :=
  [mkHistoryVideo (mkVideo (lit "a") (lit "data:a") (lit "A") (lit "a")) 5;
   mkHistoryVideo (mkVideo (lit "b") (lit "data:b") (lit "B") (lit "b")) 9;
   mkHistoryVideo (mkVideo (lit "c") (lit "data:c") (lit "C") (lit "c")) 5].

(** The same videos, newest first, the two of the same date in the order
    they are stored in. *)
Definition example_sorted : list HistoryVideo :=
  [mkHistoryVideo (mkVideo (lit "b") (lit "data:b") (lit "B") (lit "b")) 9;
   mkHistoryVideo (mkVideo (lit "a") (lit "data:a") (lit "A") (lit "a")) 5;
   mkHistoryVideo (mkVideo (lit "c") (lit "data:c") (lit "C") (lit "c")) 5].

(** The cards of the page while the video [a] is loading. *)
Definition example_cards : list HistoryCardProps :=
  (λ video, mkHistoryCardProps video (is_loading (Some (lit "a")) video))
  <$> example_sorted.

(** * Sorting *)

Section sort_lemmas.
Implicit Types (h : HistoryVideo) (l : list HistoryVideo).

Lemma insert_perm h l : insert by_date h l ≡ₚ h :: l.
Proof.
  induction l as [|y l IH]; simpl; [done|].
  case_match; [done|]. by rewrite IH, Permutation_swap.
Qed.

Lemma sortedVideos_perm l : sortedVideos l ≡ₚ l.
Proof.
  induction l as [|h l IH]; simpl; [done|].
  unfold sortedVideos in *. simpl. by rewrite insert_perm, IH.
Qed.

Lemma insert_newest_first h l :
  newest_first l → newest_first (insert by_date h l).
Proof.
  unfold newest_first, by_date. induction 1 as [|y l Hl IH Hy]; simpl.
  { by repeat constructor. }
  destruct (Z.leb_spec (createdAt y - createdAt h) 0).
  - constructor; [by constructor|]. constructor; [lia|].
    eapply Forall_impl; [done|]. simpl. lia.
  - constructor; [done|].
    rewrite (insert_perm h l). constructor; [lia | done].
Qed.

Lemma sortedVideos_newest_first l : newest_first (sortedVideos l).
Proof.
  induction l as [|h l IH]; [constructor|].
  by apply insert_newest_first.
Qed.

Lemma created_at_insert t h l :
  created_at t (insert by_date h l) = created_at t (h :: l).
Proof.
  unfold created_at, by_date. induction l as [|y l IH]; simpl; [done|].
  destruct (Z.leb_spec (createdAt y - createdAt h) 0); [done|].
  rewrite !filter_cons in *. rewrite IH.
  repeat case_decide; try done; lia.
Qed.

Lemma sortedVideos_stable l : stable l (sortedVideos l).
Proof.
  intros t. induction l as [|h l IH]; [done|].
  unfold sortedVideos in *. simpl. rewrite created_at_insert.
  unfold created_at in *. by rewrite !filter_cons, IH.
Qed.

(** A list that is already newest first is left as it is. *)
Lemma sortedVideos_sorted l : newest_first l → sortedVideos l = l.
Proof.
  unfold sortedVideos, newest_first. induction 1 as [|h l Hl IH Hh]; [done|].
  simpl. rewrite IH. destruct Hh as [|y l Hy _]; simpl; [done|].
  unfold by_date. by destruct (Z.leb_spec (createdAt y - createdAt h) 0); [|lia].
Qed.

(** Two lists that are newest first and have the same videos at every
    date, in the same order, are equal. *)
Lemma newest_first_stable_eq l1 l2 :
  newest_first l1 → newest_first l2 → stable l1 l2 → l1 = l2.
Proof.
  unfold newest_first, stable, created_at.
  intros H1. revert l2. induction H1 as [|a l1 Hl1 IH Ha]; intros l2 H2 Hst.
  - destruct l2 as [|b l2]; [done|]. specialize (Hst (createdAt b)).
    rewrite filter_cons_True in Hst by done. done.
  - destruct H2 as [|b l2 Hl2 Hb].
    { specialize (Hst (createdAt a)). by rewrite filter_cons_True in Hst. }
    assert (createdAt a = createdAt b) as Hab.
    { apply Z.le_antisymm.
      - assert (a ∈ b :: l2) as [->|Hin]%elem_of_cons; [|done|].
        + pose proof (Hst (createdAt a)) as Heq.
          rewrite (filter_cons_True _ a) in Heq by done.
          eapply list_elem_of_filter. rewrite Heq. by left.
        + by eapply (proj1 (Forall_forall _ _) Hb).
      - assert (b ∈ a :: l1) as [->|Hin]%elem_of_cons; [|done|].
        + pose proof (Hst (createdAt b)) as Heq.
          rewrite (filter_cons_True _ b) in Heq by done.
          eapply list_elem_of_filter. rewrite <-Heq. by left.
        + by eapply (proj1 (Forall_forall _ _) Ha). }
    pose proof (Hst (createdAt a)) as Heq.
    rewrite !filter_cons_True in Heq by done. injection Heq as -> Htl.
    f_equal. apply IH; [done|]. intros t. specialize (Hst t).
    rewrite !filter_cons in Hst. by case_decide; simplify_eq.
Qed.

(** C22: [sortedVideos] is a stable sort by creation date, newest first:
    it returns the videos it was given, with dates that do not increase,
    and videos of the same date in the order they had. *)
Theorem sortedVideos_spec l :
  sortedVideos l ≡ₚ l
  ∧ newest_first (sortedVideos l)
  ∧ stable l (sortedVideos l).
Proof.
  split_and!;
    [apply sortedVideos_perm | apply sortedVideos_newest_first
     | apply sortedVideos_stable].
Qed.

(** C8: the insertion sort of the model is the only stable sort. Whatever
    algorithm the engine's [Array.prototype.sort] runs, an array that is
    newest first and keeps the videos of each date in their order is
    [sortedVideos videos]. *)
Theorem sort_unique l l' :
  newest_first l' → stable l l' → l' = sortedVideos l.
Proof.
  intros Hs Hst. apply newest_first_stable_eq;
    [done | apply sortedVideos_newest_first |].
  intros t. by rewrite sortedVideos_stable, Hst.
Qed.

End sort_lemmas.

(** * The page *)

Section page.
Implicit Types (videos : list HistoryVideo) (loadingVideoId : option jsstring).

(** A page with videos shows one card per video, newest first, and the
    spinner on the cards of the loading identifier. *)
Lemma HistoryPage_cards videos loadingVideoId :
  videos ≠ [] →
  ∃ cards,
    HistoryPage videos loadingVideoId = HistoryCards cards
    ∧ card_video <$> cards = sortedVideos videos
    ∧ Forall (λ card, card_isLoading card
                      = is_loading loadingVideoId (card_video card)) cards.
Proof.
  intros Hne. unfold HistoryPage.
  rewrite bool_decide_eq_false_2 by (by destruct videos).
  eexists. split_and!; [done | |].
  - rewrite <-list_fmap_compose. apply list_fmap_id.
  - by apply Forall_fmap, Forall_true.
Qed.

(** The page offers to play exactly the videos it was given, each
    once: the empty state offers none, the cards are a rearrangement of
    the history. *)
Theorem HistoryPage_playable videos loadingVideoId :
  playable (HistoryPage videos loadingVideoId) ≡ₚ toVideo <$> videos.
Proof.
  unfold HistoryPage. case_bool_decide as Hlen.
  - by destruct videos.
  - simpl. rewrite <-list_fmap_compose.
    apply fmap_Permutation, sortedVideos_perm.
Qed.

(** When the videos of the history have distinct identifiers, at most
    one card of the page is given [isLoading]. *)
Lemma HistoryPage_one_loading videos loadingVideoId cards :
  NoDup (ids (toVideo <$> videos)) →
  HistoryPage videos loadingVideoId = HistoryCards cards →
  (count_if card_isLoading cards ≤ 1)%nat.
Proof.
  unfold HistoryPage. case_bool_decide; [done|]. intros Hnd [= <-].
  assert (NoDup (ids (toVideo <$> sortedVideos videos))) as Hnd'.
  { by rewrite sortedVideos_perm. }
  clear Hnd. induction (sortedVideos videos) as [|h l IH];
    [rewrite fmap_nil, count_if_nil; lia|].
  rewrite fmap_cons, ids_cons in Hnd'. apply NoDup_cons in Hnd' as [Hh Hl].
  rewrite fmap_cons, count_if_cons. simpl. specialize (IH Hl).
  unfold is_loading at 1. case_bool_decide as Heq; [|lia].
  enough (count_if card_isLoading
            ((λ video, mkHistoryCardProps video
                         (is_loading loadingVideoId video)) <$> l) = 0)%nat
    by lia.
  clear IH Hl. induction l as [|h' l IH]; [done|].
  rewrite fmap_cons, ids_cons in Hh. apply not_elem_of_cons in Hh as [Hne Hh].
  rewrite fmap_cons, count_if_cons. simpl. rewrite IH by done.
  unfold is_loading. rewrite bool_decide_eq_false_2; [done|]. congruence.
Qed.

End page.

(** * The page inside the application *)

Section in_app.
Context (MOCK_VIDEOS : list Video).
Implicit Types (c : Config).

(** C11: with a clock that does not go back the history is stored newest
    first, and the sort of the history page changes nothing: the cards
    are in the order the history is stored in. *)
Theorem history_shown_as_stored c :
  reachable_if good_env MOCK_VIDEOS c →
  newest_first (generatedVideosHistory (app c))
  ∧ sortedVideos (generatedVideosHistory (app c))
    = generatedVideosHistory (app c).
Proof.
  intros Hr%history_newest_first. split; [done|].
  by apply sortedVideos_sorted.
Qed.

End in_app.

(** * The theorems on the concrete history *)

Lemma sort_unique_witness : example_sorted = sortedVideos example_history.
Proof.
  apply (sort_unique example_history example_sorted).
  - unfold newest_first. compute_done.
  - intros t. unfold created_at, example_sorted, example_history.
    rewrite !filter_cons, !filter_nil. simpl.
    repeat case_decide; first [done | lia].
Defined.

Lemma history_shown_as_stored_witness :
  newest_first (generatedVideosHistory (app example_config))
  ∧ sortedVideos (generatedVideosHistory (app example_config))
    = generatedVideosHistory (app example_config).
Proof.
  exact (history_shown_as_stored example_mock example_config
           example_config_reachable).
Defined.
