(* ===== verification/VideoPlayer.v ===== *)
(** * The [VideoPlayer] and [HistoryCard] components

    [src/components/VideoPlayer.tsx] and [src/components/HistoryCard.tsx]:
    the download link ([handleDownload], VideoPlayer.tsx:27-38), the share
    button ([handleShare], VideoPlayer.tsx:40-69 and, with the same body
    after [stopPropagation], HistoryCard.tsx:26-57), the timers that clear
    the feedback, what the two components show of it, and the tree the
    player returns with its listeners ([VideoPlayer],
    VideoPlayer.tsx:71-134).

    The browser is a [Browser] record: whether [navigator.share] exists,
    how the share sheet and the clipboard settle, or that there is no
    clipboard to call, the page's URL. The
    component's state is its [shareFeedback] cell and the timers that are
    still to fire. *)

From S2P Require Import Prelude JsString Types Env Generate App Dom.

#[local] Open Scope N_scope.

(** * The download link *)

(** Lines 31-33: the title without the code units that are neither word
    characters nor white space, with underscores for spaces. *)
Definition fileName (title : jsstring) : jsstring :=
  spaces_to_underscores (strip_non_word_space title) ++ lit ".mp4".

(** The anchor element of lines 28-34. *)
Record Link := mkLink {
  href : jsstring;
  download : jsstring;
}.

(** What [handleDownload] does to the document. *)
Inductive DomEffect :=
| AppendChild (link : Link)
| Click (link : Link)
| RemoveChild (link : Link).

(** Lines 27-38. *)
Definition handleDownload (video : Video) : list DomEffect :=
  let link := mkLink (videoUrl video) (fileName (title video)) in
  [AppendChild link; Click link; RemoveChild link].

(** * The share button *)

Record ShareData := mkShareData {
  share_title : jsstring;
  share_text : jsstring;
  share_url : jsstring;
}.

Record Browser := mkBrowser {
  (** whether [navigator.share] is defined *)
  has_share : bool;
  navigator_share : ShareData → settlement JsError ();
  (** [navigator.clipboard.writeText(url)]: the promise it returns, or
      the [TypeError] it throws where the browser does not define
      [navigator.clipboard] (outside a secure context) *)
  clipboard_writeText : jsstring → completion JsError (settlement JsError ());
  (** [window.location.href] *)
  location_href : jsstring;
}.

(** The state of the share button: the feedback shown and the timeouts set
    and not yet fired, oldest first. *)
Record ShareState := mkShareState {
  shareFeedback : jsstring;
  timers : list N;
}.

Definition share_init : ShareState := mkShareState [] [].

(** What the handler does besides changing its state. *)
Inductive ShareEffect :=
| Shared (data : ShareData)
| Copied (url : jsstring)
| Logged (args : list jsstring).

(** Lines 41-43. *)
Definition urlToShare (b : Browser) (video : Video) : jsstring :=
  if startsWith (videoUrl video) (lit "http") then videoUrl video
  else location_href b.

(** Lines 44-48. *)
Definition shareData (b : Browser) (video : Video) : ShareData :=
  mkShareData (title video) (description video) (urlToShare b video).

(** [setShareFeedback(msg); setTimeout(() => setShareFeedback(''), 2000)]
    (lines 61-62, 65-66). *)
Definition show_feedback (msg : jsstring) (st : ShareState) : ShareState :=
  mkShareState msg (timers st ++ [2000]).

(** Lines 40-69. The state is [None] when the promise awaited never
    settles: the handler does not resume. *)
Definition handleShare (b : Browser) (video : Video) (st : ShareState) :
  option ShareState * list ShareEffect :=
  if has_share b then
    match navigator_share b (shareData b video) with
    | Resolves _ => (Some st, [Shared (shareData b video)])
    | Rejects error =>
        (Some st,
         Shared (shareData b video) ::
         if bool_decide (err_name error ≠ lit "AbortError")
         then [Logged [lit "Error sharing:"; err_message error]]
         else [])
    | NeverSettles => (None, [Shared (shareData b video)])
    end
  else
    match clipboard_writeText b (urlToShare b video) with
    | Normal (Resolves _) =>
        (Some (show_feedback (lit "Link Copied!") st),
         [Copied (urlToShare b video)])
    | Normal (Rejects err) =>
        (Some (show_feedback (lit "Failed to copy") st),
         [Copied (urlToShare b video);
          Logged [lit "Failed to copy:"; err_message err]])
    | Normal NeverSettles => (None, [Copied (urlToShare b video)])
    | Throws err =>
        (Some (show_feedback (lit "Failed to copy") st),
         [Logged [lit "Failed to copy:"; err_message err]])
    end.

(** The oldest timeout fires: [setShareFeedback('')]. *)
Definition timer_fires (st : ShareState) : option ShareState :=
  match timers st with
  | [] => None
  | _ :: rest => Some (mkShareState [] rest)
  end.

(** The label of the player's share button, [shareFeedback || 'Share']
    (VideoPlayer.tsx:112). *)
Definition share_label (st : ShareState) : jsstring :=
  if truthy_string (shareFeedback st) then shareFeedback st else lit "Share".

(** The card shows the feedback instead of the icon when there is some
    (HistoryCard.tsx:94-98). *)
Definition card_share_content (st : ShareState) : option jsstring :=
  if truthy_string (shareFeedback st) then Some (shareFeedback st) else None.

(** * What the player renders *)

(** What the listeners of the player call: the props [onClose], [onEdit]
    and [onVideoLoaded] (lines 9-14) and the two handlers of the
    component. *)
Inductive PlayerCall :=
| OnClose
| OnEdit (video : Video)
| OnVideoLoaded
| HandleShare
| HandleDownload.

#[export] Instance PlayerCall_eq_dec : EqDecision PlayerCall.
Proof. solve_decision. Defined.

(** Lines 71-134: the backdrop, which closes the player when clicked; in
    it the dialog, which stops the clicks made inside it; in the dialog
    the close button and the video, then the description and the three
    buttons. *)
Definition VideoPlayer (video : Video) (st : ShareState) : Element PlayerCall :=
  element (lit "div")
    [(lit "aria-modal", lit "true"); (lit "role", lit "dialog")]
    [on click OnClose]
    [element (lit "div") [] [stops click]
       [element (lit "div") [] []
          [element (lit "button")
             [(lit "aria-label", lit "Close video player")]
             [on click OnClose]
             [icon (lit "XMarkIcon")];
           element (lit "div") [] []
             [element (lit "video")
                [(lit "key", id video); (lit "src", videoUrl video);
                 (lit "controls", []); (lit "autoPlay", []);
                 (lit "aria-label", title video)]
                [on canplay OnVideoLoaded; on ended OnClose]
                []]];
        element (lit "div") [] []
          [element (lit "div") [] []
             [element (lit "p") [] [] [text (description video)];
              element (lit "div") [] []
                [element (lit "button") [(lit "aria-label", lit "Share video")]
                   [on click HandleShare]
                   [icon (lit "ShareIcon");
                    element (lit "span") [] [] [text (share_label st)]];
                 element (lit "button")
                   [(lit "aria-label", lit "Download video")]
                   [on click HandleDownload]
                   [icon (lit "DownloadIcon");
                    element (lit "span") [] [] [text (lit "Download")]];
                 element (lit "button")
                   [(lit "aria-label", lit "Edit video details")]
                   [on click (OnEdit video)]
                   [icon (lit "PencilSquareIcon");
                    element (lit "span") [] [] [text (lit "Edit")]]]]]]].

(** The paths of the close button, the video and the three buttons. *)
Definition close_button : list nat := [0; 0; 0]%nat.
Definition video_element : list nat := [0; 0; 1; 0]%nat.
Definition share_button : list nat := [0; 1; 0; 1; 0]%nat.
Definition download_button : list nat := [0; 1; 0; 1; 1]%nat.
Definition edit_button : list nat := [0; 1; 0; 1; 2]%nat.

(** What a media event on the video calls (lines 94-95). *)
Definition media_call (type : EventType) : list PlayerCall :=
  match type with
  | canplay => [OnVideoLoaded]
  | ended => [OnClose]
  | click | change => []
  end.

(** What the calls of the player's own handlers do: to the state of the
    component, and in the browser. *)
Inductive PlayerEffect :=
| Shares (effs : list ShareEffect)
| Downloads (effs : list DomEffect).

Definition player_call (b : Browser) (video : Video) (call : PlayerCall)
    (st : ShareState) : option ShareState * option PlayerEffect :=
  match call with
  | HandleShare =>
      let '(st', effs) := handleShare b video st in (st', Some (Shares effs))
  | HandleDownload => (Some st, Some (Downloads (handleDownload video)))
  | OnClose | OnEdit _ | OnVideoLoaded => (Some st, None)
  end.

(** * Specification vocabulary *)

(** A code unit a file name made by [fileName] can hold before its
    extension: a word character or white space other than the space. *)
Definition stem_unit (c : N) : bool :=
  isWordChar c || (isWhiteSpace c && negb (c =? 32)).

(** A click on the button when the handler resumes, or a timeout. *)
Inductive ShareEvent := ClickShare (video : Video) | TimerFires.

Definition share_step (b : Browser) (st : ShareState) (ev : ShareEvent) :
  option ShareState :=
  match ev with
  | ClickShare video => (handleShare b video st).1
  | TimerFires => timer_fires st
  end.

Fixpoint share_run (b : Browser) (st : ShareState) (evs : list ShareEvent) :
  option ShareState :=
  match evs with
  | [] => Some st
  | ev :: evs' =>
      match share_step b st ev with
      | Some st' => share_run b st' evs'
      | None => None
      end
  end.

(** * Concrete browsers *)

(** A browser without the Web Share API whose clipboard accepts the
    text. *)
Definition example_browser : Browser :=
  mkBrowser false (λ _, Resolves ()) (λ _, Normal (Resolves ()))
    (lit "https://app/").

(** A browser with the Web Share API whose share sheet the user
    dismisses. *)
Definition dismissing_browser : Browser :=
  mkBrowser true
    (λ _, Rejects (mkJsError (lit "AbortError") (lit "Share canceled")))
    (λ _, Normal (Resolves ())) (lit "https://app/").

(** A browser with neither the Web Share API nor a clipboard, as one
    that shows the page outside a secure context. *)
Definition insecure_browser : Browser :=
  mkBrowser false (λ _, Resolves ())
    (λ _, Throws (TypeError (lit "Cannot read properties of undefined")))
    (lit "http://app/").

(** * The download link *)

Section download.
Implicit Types (title : jsstring) (video : Video).

(** C25: the file name offered for download is the sanitised title
    followed by [.mp4]; the sanitised title is not longer than the title
    and holds word characters and white space other than the space (tabs
    and line breaks survive), nothing else. It is empty when the title has
    no such character. *)
Theorem fileName_stem title :
  ∃ stem, fileName title = stem ++ lit ".mp4"
          ∧ (length stem ≤ length title)%nat
          ∧ Forall (λ c, stem_unit c = true) stem.
Proof.
  eexists. split; [done|]. split.
  { rewrite spaces_to_underscores_length. apply strip_non_word_space_length. }
  unfold spaces_to_underscores. apply Forall_fmap, Forall_forall.
  intros c [_ Hc]%strip_non_word_space_spec.
  change (stem_unit (if c =? 32 then 95 else c) = true). unfold stem_unit.
  destruct (c =? 32) eqn:E; [reflexivity|].
  by rewrite E, andb_true_r.
Qed.

(** No dot, slash, backslash, colon, quote, angle bracket, bar,
    star, question mark or NUL survives in the sanitised title. *)
Theorem fileName_safe title c :
  c ∈ [46; 47; 92; 58; 34; 39; 60; 62; 124; 42; 63; 0] →
  ∀ stem, fileName title = stem ++ lit ".mp4" → c ∉ stem.
Proof.
  intros Hc stem Heq Hin.
  apply app_inv_tail in Heq. subst stem.
  unfold spaces_to_underscores in Hin.
  apply list_elem_of_fmap in Hin as (d & -> & [_ Hd]%strip_non_word_space_spec).
  destruct (d =? 32) eqn:E; bool_to_prop.
  - subst. set_solver.
  - set_unfold in Hc. destruct_or!; subst; done.
Qed.

Lemma strip_non_word_space_app s1 s2 :
  strip_non_word_space (s1 ++ s2)
  = strip_non_word_space s1 ++ strip_non_word_space s2.
Proof. unfold strip_non_word_space. apply List.filter_app. Qed.

Lemma spaces_to_underscores_app s1 s2 :
  spaces_to_underscores (s1 ++ s2)
  = spaces_to_underscores s1 ++ spaces_to_underscores s2.
Proof. apply fmap_app. Qed.

(** The file a remix is downloaded as: the quotes that the title
    of a remix puts around the original title are dropped, the spaces
    become underscores. *)
Theorem remix_fileName originalVideo uuid videoSrc :
  fileName (title (remix_of originalVideo uuid videoSrc))
  = lit "Remix_of_"
    ++ spaces_to_underscores (strip_non_word_space (title originalVideo))
    ++ lit ".mp4".
Proof.
  unfold fileName, remix_of. simpl.
  rewrite !strip_non_word_space_app, !spaces_to_underscores_app.
  rewrite <-!app_assoc. reflexivity.
Qed.

End download.

(** * Sharing *)

Section share.
Context (b : Browser).
Implicit Types (video : Video) (st : ShareState).

(** A generated video is shared by the URL of the page, never by its
    own: its URL is a data URL, which does not start with [http]. *)
Theorem generated_shares_page j uuid videoSrc :
  urlToShare b (job_video j uuid videoSrc) = location_href b.
Proof. destruct j; reflexivity. Qed.

(** A video served over HTTP is shared by its own URL. *)
Lemma http_shares_itself video rest :
  videoUrl video = lit "http" ++ rest → urlToShare b video = videoUrl video.
Proof. intros Hurl. unfold urlToShare. by rewrite Hurl, startsWith_app. Qed.

(** With the Web Share API the button never shows feedback and sets no
    timer. *)
Lemma handleShare_native video st st' effs :
  has_share b = true →
  handleShare b video st = (Some st', effs) →
  st' = st ∧ ∃ rest, effs = Shared (shareData b video) :: rest.
Proof.
  unfold handleShare. intros ->.
  destruct (navigator_share _ _); intros [= <- <-]; eauto.
Qed.

(** A share sheet the user dismisses (an [AbortError]) is not
    logged: the handler calls [navigator.share] and does nothing else. *)
Theorem handleShare_abort video st e :
  has_share b = true →
  navigator_share b (shareData b video) = Rejects e →
  err_name e = lit "AbortError" →
  handleShare b video st = (Some st, [Shared (shareData b video)]).
Proof.
  unfold handleShare. intros -> -> Hn.
  by rewrite bool_decide_eq_false_2 by (by intros []).
Qed.

(** Without the Web Share API the URL is written to the clipboard,
    one of the two messages is shown, whichever way the clipboard
    settles, and one two-second timer is set; where there is no
    clipboard nothing is written and the failure is shown. *)
Theorem handleShare_clipboard video st st' effs :
  has_share b = false →
  handleShare b video st = (Some st', effs) →
  (shareFeedback st' = lit "Link Copied!"
   ∨ shareFeedback st' = lit "Failed to copy")
  ∧ timers st' = timers st ++ [2000]
  ∧ match clipboard_writeText b (urlToShare b video) with
    | Normal _ => ∃ rest, effs = Copied (urlToShare b video) :: rest
    | Throws err =>
        shareFeedback st' = lit "Failed to copy"
        ∧ effs = [Logged [lit "Failed to copy:"; err_message err]]
    end.
Proof.
  unfold handleShare. intros ->.
  destruct (clipboard_writeText _ _) as [[| |]|]; intros [= <- <-]; simpl;
    eauto.
Qed.

(** Every timer that fires clears the feedback, whichever click set it. *)
Lemma timer_clears st st' :
  timer_fires st = Some st' →
  shareFeedback st' = [] ∧ length (timers st) = S (length (timers st')).
Proof.
  unfold timer_fires. destruct (timers st) eqn:Ht; [done|].
  by intros [= <-].
Qed.

(** The number of timers is the number of clicks that showed feedback
    less the timers fired: no timer is ever cancelled. *)
Lemma share_step_timers st ev st' :
  share_step b st ev = Some st' →
  match ev with
  | ClickShare _ =>
      length (timers st') = (length (timers st) + if has_share b then 0 else 1)%nat
  | TimerFires => length (timers st) = S (length (timers st'))
  end.
Proof.
  destruct ev as [video|]; simpl; [|by intros [_ ?]%timer_clears].
  unfold handleShare. destruct (has_share b).
  - destruct (navigator_share _ _); intros [= <-]; simpl; lia.
  - destruct (clipboard_writeText _ _) as [[| |]|]; intros [= <-]; simpl;
      rewrite ?length_app; simpl; lia.
Qed.

(** A click that copies the link. *)
Lemma handleShare_copied video st :
  has_share b = false →
  clipboard_writeText b (urlToShare b video) = Normal (Resolves ()) →
  handleShare b video st
  = (Some (show_feedback (lit "Link Copied!") st),
     [Copied (urlToShare b video)]).
Proof. unfold handleShare. by intros -> ->. Qed.

(** C29: the timers are never cancelled. After two clicks within two
    seconds the timer of the first click clears the feedback of the second
    one while the timer of the second is still to fire. *)
Theorem feedback_cleared_early video st :
  has_share b = false →
  clipboard_writeText b (urlToShare b video) = Normal (Resolves ()) →
  timers st = [] →
  share_run b st [ClickShare video; ClickShare video; TimerFires]
  = Some (mkShareState [] [2000]).
Proof.
  intros Hs Hc Ht. cbn [share_run share_step].
  rewrite !handleShare_copied by done. cbn [fst].
  rewrite handleShare_copied by done. cbn [fst].
  unfold timer_fires, show_feedback. simpl. by rewrite Ht.
Qed.

End share.

(** * The rendered player *)

Section view.
Implicit Types (video : Video) (st : ShareState) (path : list nat).
Implicit Types (value : jsstring).

(** C31: a click on the player calls at most one handler, and it closes
    the player exactly when it is made on the backdrop itself or on the
    close button: the dialog stops the clicks made inside it, so that
    neither the video nor a button of the dialog closes the player, and
    the close button closes it once. *)
Theorem VideoPlayer_click video st value path called :
  fired value click path (VideoPlayer video st) = Some called →
  (length called ≤ 1)%nat
  ∧ (OnClose ∈ called ↔ path = [] ∨ close_button `prefix_of` path).
Proof.
  revert path called. each_path; (split; [simpl; lia | compute_done]).
Qed.

(** The three buttons call their handlers, and [onEdit] is given the
    video shown. *)
Lemma VideoPlayer_buttons video st value :
  fired value click share_button (VideoPlayer video st) = Some [HandleShare]
  ∧ fired value click download_button (VideoPlayer video st) = Some [HandleDownload]
  ∧ fired value click edit_button (VideoPlayer video st) = Some [OnEdit video].
Proof. done. Qed.

(** The media events are heard by the video only: [canplay] calls
    [onVideoLoaded] and [ended] calls [onClose]. *)
Lemma VideoPlayer_media video st value type path called :
  bubbles type = false →
  fired value type path (VideoPlayer video st) = Some called →
  called = if bool_decide (path = video_element) then media_call type else [].
Proof.
  intros Hb. revert path called. destruct type; try done; by each_path.
Qed.

(** Whatever the event, the player calls nothing but its props, with the
    video shown, and its two handlers. *)
Lemma VideoPlayer_calls video st value type path called call :
  fired value type path (VideoPlayer video st) = Some called → call ∈ called →
  call ∈ [OnClose; OnEdit video; OnVideoLoaded; HandleShare; HandleDownload].
Proof.
  apply fired_paths_elem. destruct type; compute_paths;
    repeat apply Forall_cons_2; try apply Forall_nil_2;
    intros ? Hf; vm_compute in Hf; injection Hf as <-; set_solver.
Qed.

(** No event on the player calls two functions: the dialog stops the
    clicks made in it before they reach the backdrop. *)
Lemma VideoPlayer_once video st : calls_once (VideoPlayer video st).
Proof. intros value type. destruct type; each_path; simpl; lia. Qed.

(** The player mounts no component that calls. *)
Lemma VideoPlayer_no_leaf video st path (call : PlayerCall) :
  may_call_at path (VideoPlayer video st) call = false.
Proof. revert path. no_leaf. Qed.

End view.

(** * The theorems on concrete inputs *)

Lemma fileName_safe_witness : 58 ∉ lit "Cat_the_movie".
Proof.
  apply (fileName_safe (title example_video) 58); [compute_done | reflexivity].
Defined.

Lemma handleShare_clipboard_witness :
  (shareFeedback (show_feedback (lit "Link Copied!") share_init)
   = lit "Link Copied!"
   ∨ shareFeedback (show_feedback (lit "Link Copied!") share_init)
     = lit "Failed to copy")
  ∧ timers (show_feedback (lit "Link Copied!") share_init)
    = timers share_init ++ [2000]
  ∧ ∃ rest, [Copied (urlToShare example_browser example_video)]
            = Copied (urlToShare example_browser example_video) :: rest.
Proof.
  apply (handleShare_clipboard example_browser example_video share_init);
    reflexivity.
Defined.

(** Where there is no clipboard the [TypeError] is thrown inside [try]:
    nothing is copied, and [catch] logs and shows the failure. *)
Example handleShare_no_clipboard :
  handleShare insecure_browser example_video share_init
  = (Some (mkShareState (lit "Failed to copy") [2000]),
     [Logged [lit "Failed to copy:";
              lit "Cannot read properties of undefined"]]).
Proof. reflexivity. Qed.

Lemma handleShare_abort_witness :
  handleShare dismissing_browser example_video share_init
  = (Some share_init, [Shared (shareData dismissing_browser example_video)]).
Proof.
  apply (handleShare_abort dismissing_browser example_video share_init
           (mkJsError (lit "AbortError") (lit "Share canceled")));
    reflexivity.
Defined.

Lemma feedback_cleared_early_witness :
  share_run example_browser share_init
    [ClickShare example_video; ClickShare example_video; TimerFires]
  = Some (mkShareState [] [2000]).
Proof.
  apply (feedback_cleared_early example_browser example_video share_init);
    reflexivity.
Defined.

Lemma VideoPlayer_click_witness :
  (length [OnClose] ≤ 1)%nat
  ∧ (OnClose ∈ [OnClose]
     ↔ close_button = [] ∨ close_button `prefix_of` close_button).
Proof.
  apply (VideoPlayer_click example_video share_init [] close_button [OnClose]).
  reflexivity.
Defined.
