(* ===== verification/HistoryCard.v ===== *)
(** * The [HistoryCard] component

    [src/components/HistoryCard.tsx]: the props (lines 9-13), the date
    shown (lines 21-24), the share handler (lines 26-57) and the tree the
    component returns (lines 59-112): a play button over the thumbnail,
    with the spinner while the video loads, and beside it the share
    button, the title, the date and the prompt.

    [Date.prototype.toLocaleString] depends on the locale of the browser;
    it is a parameter of the component here. The share handler has the
    body of the player's, which [VideoPlayer.handleShare] models, behind a
    call of [stopPropagation]; the call is the flag of its listener. *)

From S2P Require Import Prelude JsString Types Env Generate App Dom VideoPlayer.

#[local] Open Scope N_scope.

(** What the listeners of a card call: the prop [onPlay] (line 11) and
    the share handler. *)
Inductive CardCall :=
| OnPlay (video : HistoryVideo)
| CardShare.

#[export] Instance CardCall_eq_dec : EqDecision CardCall.
Proof. solve_decision. Defined.

(** Lines 26-57: after [e.stopPropagation()], the share handler of the
    player. *)
Definition card_handleShare (b : Browser) (video : HistoryVideo)
    (st : ShareState) : option ShareState * list ShareEffect :=
  handleShare b (toVideo video) st.

(** The class of the overlay (lines 76-79): opaque while the video
    loads, otherwise only under the pointer. *)
Definition overlay_class (isLoading : bool) : jsstring :=
  lit "absolute inset-0 bg-black/20 flex items-center justify-center transition-opacity duration-300 "
  ++ (if isLoading then lit "opacity-100"
      else lit "opacity-0 group-hover:opacity-100").

Section card.
Context (toLocaleString : Z → jsstring).

(** Lines 21-24. *)
Definition formattedDate (video : HistoryVideo) : jsstring :=
  toLocaleString (createdAt video).

(** Lines 59-112. *)
Definition HistoryCard (video : HistoryVideo) (isLoading : bool)
    (st : ShareState) : Element CardCall :=
  element (lit "div")
    [(lit "aria-label", lit "Generated video: " ++ title (toVideo video))] []
    [element (lit "button")
       [(lit "type", lit "button");
        (lit "aria-label",
         lit "Play generated video: " ++ title (toVideo video))]
       [on click (OnPlay video)]
       [element (lit "video")
          [(lit "src", videoUrl (toVideo video)); (lit "muted", []);
           (lit "playsInline", []); (lit "preload", lit "metadata");
           (lit "aria-hidden", lit "true")] [] [];
        element (lit "div") [(lit "className", overlay_class isLoading)] []
          [if isLoading then
             element (lit "div")
               [(lit "role", lit "status"); (lit "aria-label", lit "Loading...")]
               [] []
           else icon (lit "PlayIcon")]];
     element (lit "div") [] []
       [element (lit "button") [(lit "aria-label", lit "Share this video")]
          [mkListener click true (λ _, [CardShare])]
          [match card_share_content st with
           | Some feedback => element (lit "span") [] [] [text feedback]
           | None => icon (lit "ShareIcon")
           end];
        element (lit "h3") [] [] [text (title (toVideo video))];
        element (lit "p") [] []
          [text (lit "Generated on: "); text (formattedDate video)];
        element (lit "p") [] []
          [element (lit "span") [] [] [text (lit "Prompt:")];
           text (lit " "); text (description (toVideo video))]]].

End card.

(** The paths of the play button and of the share button. *)
Definition play_button : list nat := [0]%nat.
Definition card_share_button : list nat := [1; 0]%nat.

(** What the calls of the card's own handler do. *)
Definition card_call (b : Browser) (video : HistoryVideo) (call : CardCall)
    (st : ShareState) : option ShareState * list ShareEffect :=
  match call with
  | CardShare => card_handleShare b video st
  | OnPlay _ => (Some st, [])
  end.

(** * Specification vocabulary *)

(** Whether a tree shows a loading indicator, an element of role
    [status]. *)
Definition shows_status {A} (e : Element A) : bool :=
  bool_decide
    (Exists (λ child, attribute (lit "role") child = Some (lit "status"))
       (omap (λ path, node path e) (paths e))).

(** A date as the example locale writes it. *)
Definition example_locale (t : Z) : jsstring :=
  lit "t=" ++ of_N (Z.to_N t).

Definition example_card_video : HistoryVideo := mkHistoryVideo example_video 5.

(** * The rendered card *)

Section view.
Context (toLocaleString : Z → jsstring).
Implicit Types (video : HistoryVideo) (st : ShareState) (path : list nat).
Implicit Types (value : jsstring).

(** C32: a click on the play button or in it calls [onPlay] with the
    video of the card, a click on the share button or in it calls the
    share handler, and a click elsewhere on the card calls nothing.
    The share button is not inside the play button, so the
    [stopPropagation] of the share handler changes nothing: without it
    every click calls what it calls with it. *)
Theorem HistoryCard_click video isLoading st value path called :
  fired value click path (HistoryCard toLocaleString video isLoading st)
  = Some called →
  called = (if bool_decide (play_button `prefix_of` path) then [OnPlay video]
            else if bool_decide (card_share_button `prefix_of` path)
                 then [CardShare] else [])
  ∧ fired value click path (unstop (HistoryCard toLocaleString video isLoading st))
    = Some called.
Proof.
  revert path called. unfold HistoryCard.
  destruct isLoading, (card_share_content st); each_path; by vm_compute.
Qed.

(** The card shows the spinner exactly while its video loads. *)
Lemma HistoryCard_spinner video isLoading st :
  shows_status (HistoryCard toLocaleString video isLoading st) = isLoading.
Proof.
  unfold HistoryCard. by destruct isLoading, (card_share_content st).
Qed.

(** Whatever the event, a card calls nothing but [onPlay] with its video
    and its share handler. *)
Lemma HistoryCard_calls video isLoading st value type path called call :
  fired value type path (HistoryCard toLocaleString video isLoading st)
  = Some called →
  call ∈ called → call ∈ [OnPlay video; CardShare].
Proof.
  apply fired_paths_elem. unfold HistoryCard.
  destruct isLoading, (card_share_content st), type; compute_paths;
    repeat apply Forall_cons_2; try apply Forall_nil_2;
    intros ? Hf; vm_compute in Hf; injection Hf as <-; set_solver.
Qed.

(** The play button calls [onPlay] with the video of the card. *)
Lemma HistoryCard_play video isLoading st value :
  fired value click play_button (HistoryCard toLocaleString video isLoading st)
  = Some [OnPlay video].
Proof. unfold HistoryCard. by destruct isLoading, (card_share_content st). Qed.

(** No event on a card calls two functions. *)
Lemma HistoryCard_once video isLoading st :
  calls_once (HistoryCard toLocaleString video isLoading st).
Proof.
  intros value type. unfold HistoryCard.
  destruct isLoading, (card_share_content st), type; each_path; simpl; lia.
Qed.

(** A card mounts no component that calls. *)
Lemma HistoryCard_no_leaf video isLoading st path (call : CardCall) :
  may_call_at path (HistoryCard toLocaleString video isLoading st) call = false.
Proof.
  revert path. unfold HistoryCard.
  destruct isLoading, (card_share_content st); no_leaf.
Qed.

End view.

(** * The theorems on a concrete card *)

Lemma HistoryCard_click_witness :
  [CardShare]
  = (if bool_decide (play_button `prefix_of` card_share_button)
     then [OnPlay example_card_video]
     else if bool_decide (card_share_button `prefix_of` card_share_button)
          then [CardShare] else [])
  ∧ fired [] click card_share_button
      (unstop (HistoryCard example_locale example_card_video true share_init))
    = Some [CardShare].
Proof.
  apply (HistoryCard_click example_locale example_card_video true share_init
           [] card_share_button [CardShare]).
  reflexivity.
Defined.
