(* ===== verification/Mount.v ===== *)
(** * The components as the application mounts them

    [App] ([src/unnamed/part_000]) passes its handlers to the components
    it renders: to the player [onClose], [onEdit] and [onVideoLoaded]
    (lines 326-333), to the history page [onPlayVideo] (lines 316-320),
    which gives it to every card as [onPlay] (HistoryPage.tsx, lines
    41-46).

    The transition system of [App] takes as its events the calls of these
    handlers and says which are possible by [App.enabled]. This file ties
    the two ends: the trees the components return, with the dispatch of
    [Dom], on one side, and the events of the transition system on the
    other. Every call of a prop that an event of the browser can cause on
    a mounted component is an event the transition system allows in that
    state, and the handler of that event makes the setter calls of the
    function that was passed as the prop. *)

From S2P Require Import Prelude JsString Types Env Generate App Dom.
From S2P Require Import HistoryPage VideoPlayer HistoryCard.

(** * The props *)

(** Lines 326-333: what the props of the player are bound to. The share
    and download handlers are the player's own. *)
Definition player_props (call : PlayerCall) : option (list Update) :=
  match call with
  | OnClose => Some handleClosePlayer
  | OnEdit video => Some (handleStartEdit video)
  | OnVideoLoaded => Some handleVideoLoaded
  | HandleShare | HandleDownload => None
  end.

(** Lines 316-320, through HistoryPage.tsx, lines 41-46: what [onPlay]
    of a card is bound to. The object the card passes is a
    [HistoryVideo]; [handlePlayVideo] takes it as a [Video] (part_000:100)
    and the program never reads its [createdAt] again, so the state keeps
    its [Video] part. *)
Definition card_props (call : CardCall) : option (list Update) :=
  match call with
  | OnPlay video => Some (handlePlayVideo (toVideo video))
  | CardShare => None
  end.

(** * The mounted trees *)

(** The player, when the screen has one (lines 326-333). *)
Definition mounted_player (st : AppState) (share : ShareState) :
  option (Element PlayerCall) :=
  match render st with
  | PageView _ (Some video) _ => Some (VideoPlayer video share)
  | _ => None
  end.

Section cards.
Context (toLocaleString : Z → jsstring).
(** The state of the card of each key. *)
Context (shares : jsstring → ShareState).

(** HistoryPage.tsx, lines 41-46. *)
Definition render_card (card : HistoryCardProps) : Element CardCall :=
  HistoryCard toLocaleString (card_video card) (card_isLoading card)
    (shares (id (toVideo (card_video card)))).

(** The cards, when the screen shows the history page (lines 316-320). *)
Definition mounted_cards (st : AppState) : list (Element CardCall) :=
  match render st with
  | PageView (GalleryView _ _ _ (HistoryPageView videos loadingVideoId)) _ _ =>
      match HistoryPage videos loadingVideoId with
      | HistoryCards cards => render_card <$> cards
      | NoVideosGeneratedYet => []
      end
  | _ => []
  end.

End cards.

(** The state of the example session in which the second video plays. *)
Definition example_playing : AppState := app example_config.

(** The state after a click on the card of the first video. *)
Definition example_loading : AppState :=
  apply_all
    (handlePlayVideo
       (generated_from (lit "a cat") (lit "uuid-1") (Some (lit "AAAA"))))
    (apply_all handleClosePlayer (app example_config)).

(** The same state as a configuration of the session: the player is
    closed and the card of the first video clicked. *)
Definition example_click_card : list Label :=
  [User ClosePlayer;
   User (PlayVideo
           (generated_from (lit "a cat") (lit "uuid-1") (Some (lit "AAAA"))))].

Definition example_loading_config : Config :=
  default example_config (run example_config example_click_card).

(** * The player *)

Section player.
Implicit Types (st : AppState) (share : ShareState).

(** The video of the mounted player is the one the state holds. *)
Lemma render_player_video st body video errorModal :
  render st = PageView body (Some video) errorModal →
  playingVideo st = Some video.
Proof.
  unfold render, render_player.
  destruct (isSaving st), (isPlaying st); congruence.
Qed.

(** The player and the transition system agree. Whatever event of
    the browser reaches the mounted player, on whatever node, every prop
    it calls is an event that the transition system allows in that
    state, and the handler of that event makes the setter calls of the
    function [App] passed as the prop; [onEdit] is called with the video
    the state holds. *)
Theorem mounted_player_calls st share tree value type path called call us :
  mounted_player st share = Some tree →
  fired value type path tree = Some called →
  call ∈ called →
  player_props call = Some us →
  ∃ ev, enabled (render st) ev = true ∧ handle st ev = (us, None).
Proof.
  unfold mounted_player.
  destruct (render st) as [|body [video|] err] eqn:Hr; try done.
  intros [= <-] Hf Hin Hus.
  pose proof (render_player_video _ _ _ _ Hr) as Hpv.
  pose proof (VideoPlayer_calls _ _ _ _ _ _ _ Hf Hin) as Hcall.
  repeat (apply elem_of_cons in Hcall as [->|Hcall]); simplify_eq/=;
    [exists ClosePlayer | exists StartEdit | exists VideoLoaded
    | by apply elem_of_nil in Hcall]; simpl; by rewrite ?Hpv.
Qed.

End player.

(** * The cards *)

Section history.
Context (toLocaleString : Z → jsstring) (shares : jsstring → ShareState).
Implicit Types (st : AppState).

(** A mounted card is the card of a video of the history. *)
Lemma mounted_cards_video st tree :
  tree ∈ mounted_cards toLocaleString shares st →
  ∃ video isLoading share,
    tree = HistoryCard toLocaleString video isLoading share
    ∧ enabled (render st) (PlayVideo (toVideo video)) = true.
Proof.
  unfold mounted_cards, HistoryPage.
  destruct (render st) as [|[|form g h [|videos li]] player err] eqn:Hr;
    try by intros ?%elem_of_nil.
  case_bool_decide; [by intros ?%elem_of_nil|].
  rewrite <-list_fmap_compose.
  intros (video & -> & Hin)%list_elem_of_fmap. eexists _, _, _.
  split; [done|]. simpl. apply bool_decide_eq_true_2.
  apply list_elem_of_fmap_2. by rewrite sortedVideos_perm in Hin.
Qed.

(** The cards and the transition system agree: a click that makes a
    mounted card call [onPlay] is the event that plays the video of the
    card, which the transition system allows in that state. *)
Lemma mounted_card_calls st tree value type path called call us :
  tree ∈ mounted_cards toLocaleString shares st →
  fired value type path tree = Some called →
  call ∈ called →
  card_props call = Some us →
  ∃ ev, enabled (render st) ev = true ∧ handle st ev = (us, None).
Proof.
  intros (video & isLoading & share & -> & Hen)%mounted_cards_video Hf Hin Hus.
  pose proof (HistoryCard_calls _ _ _ _ _ _ _ _ _ Hf Hin) as Hcall.
  repeat (apply elem_of_cons in Hcall as [->|Hcall]); simplify_eq/=;
    [by exists (PlayVideo (toVideo video)) | by apply elem_of_nil in Hcall].
Qed.

(** The history page is given the history and the loading identifier of
    the state. *)
Lemma render_history st form galleryTab historyTab videos loadingVideoId
    player errorModal :
  render st
  = PageView
      (GalleryView form galleryTab historyTab
         (HistoryPageView videos loadingVideoId)) player errorModal →
  videos = generatedVideosHistory st ∧ loadingVideoId = App.loadingVideoId st.
Proof.
  unfold render, render_body, render_main.
  destruct (isSaving st), (editingVideo st), (view st); naive_solver.
Qed.

(** In a state whose gallery is the history followed by the initial
    videos and has distinct identifiers, at most one of the mounted cards
    shows the loading indicator: the page gives [isLoading] to the card
    whose identifier is the loading one, and a card shows the spinner
    exactly when it is given it. *)
Lemma mounted_cards_one_spinner MOCK_VIDEOS st :
  data_inv MOCK_VIDEOS st →
  NoDup (ids (videos st)) →
  (count_if shows_status (mounted_cards toLocaleString shares st) ≤ 1)%nat.
Proof.
  intros Hdata Hnd. rewrite Hdata in Hnd. unfold ids in Hnd.
  rewrite fmap_app in Hnd. apply NoDup_app in Hnd as (Hnd & _ & _).
  unfold mounted_cards.
  destruct (render st) as [|[|form g h [|videos li]] player err] eqn:Hr;
    try (rewrite count_if_nil; lia).
  apply render_history in Hr as [-> ->].
  destruct (HistoryPage _ _) as [|cards] eqn:Hpage; [rewrite count_if_nil; lia|].
  rewrite count_if_fmap.
  rewrite (count_if_ext _ card_isLoading)
    by (intros card; apply HistoryCard_spinner).
  by eapply HistoryPage_one_loading.
Qed.

(** C23: the history page shows at most one spinner. When the initial
    videos have distinct identifiers and [crypto.randomUUID] returns
    fresh ones, in every configuration the application can reach at most
    one of the cards the page mounts shows the loading indicator,
    whatever was played, edited, generated or closed before. *)
Theorem mounted_one_spinner MOCK_VIDEOS c :
  NoDup (ids MOCK_VIDEOS) →
  reachable_if good_env MOCK_VIDEOS c →
  (count_if shows_status (mounted_cards toLocaleString shares (app c)) ≤ 1)%nat.
Proof.
  intros Hmock Hc.
  destruct (reachable_gallery MOCK_VIDEOS c Hmock Hc) as [Hdata Hnd].
  by apply (mounted_cards_one_spinner MOCK_VIDEOS).
Qed.

End history.

(** * The theorems on the example session *)

Lemma example_loading_reachable :
  reachable_if good_env example_mock example_loading_config.
Proof.
  apply (run_reachable_if example_mock good_env example_click_card
           example_config); [apply example_config_reachable | | by vm_compute].
  by vm_compute.
Qed.

Lemma mounted_one_spinner_witness :
  (count_if shows_status
     (mounted_cards example_locale (λ _, share_init)
        (app example_loading_config)) ≤ 1)%nat.
Proof.
  apply (mounted_one_spinner example_locale (λ _, share_init) example_mock
           example_loading_config);
    [compute_done | exact example_loading_reachable].
Defined.

Lemma mounted_player_calls_witness :
  ∃ ev, enabled (render example_playing) ev = true
        ∧ handle example_playing ev = (handleClosePlayer, None).
Proof.
  apply (mounted_player_calls example_playing share_init
           (VideoPlayer
              (generated_from (lit "a dog") (lit "uuid-2") (Some (lit "BBBB")))
              share_init)
           [] ended video_element [OnClose] OnClose handleClosePlayer);
    [reflexivity | reflexivity | apply list_elem_of_here | reflexivity].
Defined.
