(* ===== verification/Page.v ===== *)
(** * The page [App] returns

    The return value of [App] ([src/unnamed/part_000], lines 236-343) as
    a tree: the progress page while a generation runs; otherwise the
    edit page or the gallery page (header, prompt form, tabs, and the
    grid or the history page), then the player and the error modal when
    there are any. The player and the history cards are the trees of
    [VideoPlayer] and [HistoryCard] with their calls bound as in
    [Mount]; the components whose source is not in the repository
    ([SavingProgressPage], [EditVideoPage], [VideoGrid], [ErrorModal])
    are leaves that may call the props they are given.

    [App.render] and [App.enabled] are this tree reduced to what the
    transition system needs. The theorems show that the reduction is
    right: an event of the browser on a node of the tree, or a call by
    one of the leaves, is an event [App.enabled] allows, and every event
    it allows can be caused in one of the two ways. *)

From S2P Require Import Prelude JsString Types Env Generate App Dom.
From S2P Require Import HistoryPage VideoPlayer HistoryCard Mount.

(** * The tree *)

(** The events the props of the player are bound to (lines 326-333);
    the share and download handlers are the player's own. *)
Definition player_event (call : PlayerCall) : list Event :=
  match call with
  | OnClose => [ClosePlayer]
  | OnEdit _ => [StartEdit]
  | OnVideoLoaded => [VideoLoaded]
  | HandleShare | HandleDownload => []
  end.

(** The event [onPlay] of a card is bound to (lines 316-320). *)
Definition card_event (call : CardCall) : list Event :=
  match call with
  | OnPlay video => [PlayVideo (toVideo video)]
  | CardShare => []
  end.

(** Lines 250-259. *)
Definition header_tree : Element Event :=
  element (lit "header") [] []
    [element (lit "h1") [] []
       [icon (lit "VideoCameraIcon");
        element (lit "span") [] [] [text (lit "Veo Gallery")]];
     element (lit "p") [] []
       [text (lit "Generate a new video or select one to create variations")]].

(** Lines 261-286: the prompt form. *)
Definition form_tree (st : AppState) : Element Event :=
  element (lit "div") [] []
    [element (lit "div") [] []
       [element (lit "h2") [] [] [text (lit "Create Your Own Video")];
        element (lit "p") [] []
          [text (lit "Enter a text prompt below and let our AI bring your idea to life.")];
        element (lit "textarea")
          ([(lit "value", newVideoPrompt st); (lit "rows", lit "4");
            (lit "placeholder",
             lit "e.g., A cinematic shot of a koala in a leather jacket, riding a motorcycle.")]
           ++ disabled_when (isSaving st))
          [on_value change ChangePrompt] [];
        element (lit "div") [] []
          [element (lit "button")
             (disabled_when (prompt_is_blank (newVideoPrompt st) || isSaving st))
             [on click GenerateNewVideo]
             [text (if isSaving st then lit "Generating..."
                    else lit "Generate Video")]]]].

(** The class of a tab (lines 291-295, 301-305). *)
Definition tab_class (selected : bool) : jsstring :=
  lit "px-4 py-2 text-lg font-medium transition-colors focus:outline-none focus-visible:ring-2 focus-visible:ring-purple-500 rounded-t-md "
  ++ (if selected then lit "text-purple-400 border-b-2 border-purple-400"
      else lit "text-gray-400 hover:text-white").

(** Lines 288-307: the two tabs. *)
Definition nav_tree (st : AppState) : Element Event :=
  element (lit "nav") [] []
    [element (lit "button")
       [(lit "className", tab_class (bool_decide (view st = gallery)))]
       [on click (SelectView gallery)] [text (lit "Gallery")];
     element (lit "button")
       [(lit "className", tab_class (bool_decide (view st = history)))]
       [on click (SelectView history)] [text (lit "History")]].

Section page.
Context (toLocaleString : Z → jsstring).
Context (shares : jsstring → ShareState) (share : ShareState).

(** HistoryPage.tsx, lines 21-31 and 38-49. *)
Definition HistoryPage_tree (s : HistoryPageScreen) : Element CardCall :=
  match s with
  | NoVideosGeneratedYet =>
      element (lit "div") [] []
        [icon (lit "VideoCameraIcon");
         element (lit "h2") [] [] [text (lit "No Videos Generated Yet")];
         element (lit "p") [] []
           [text (lit "Select a video from the gallery to create your first remix.")]]
  | HistoryCards cards =>
      element (lit "div") [] [] (render_card toLocaleString shares <$> cards)
  end.

(** What [VideoGrid] may call: [onPlayVideo] with one of its videos. *)
Definition VideoGrid_calls (videos : list Video) (ev : Event) : bool :=
  match ev with
  | PlayVideo video => bool_decide (video ∈ videos)
  | _ => false
  end.

(** What [EditVideoPage] may call: [onSave] with a video, [onCancel]. *)
Definition EditVideoPage_calls (ev : Event) : bool :=
  match ev with
  | SaveEdit _ | CancelEdit => true
  | _ => false
  end.

(** What [ErrorModal] may call: [onClose], [onSelectKey]. *)
Definition ErrorModal_calls (ev : Event) : bool :=
  match ev with
  | CloseError | SelectKey => true
  | _ => false
  end.

(** Lines 308-322. *)
Definition main_tree (st : AppState) : Element Event :=
  element (lit "main") [] []
    [match view st with
     | gallery =>
         component (lit "VideoGrid")
           [(lit "videos", videos_prop (videos st));
            (lit "loadingVideoId", id_prop (loadingVideoId st))]
           (VideoGrid_calls (videos st))
     | history =>
         map_calls card_event (λ _, None)
           (HistoryPage_tree
              (HistoryPage (generatedVideosHistory st) (loadingVideoId st)))
     end].

(** Lines 249-323. *)
Definition gallery_tree (st : AppState) : Element Event :=
  element (lit "div") [] []
    [header_tree; form_tree st; nav_tree st; main_tree st].

(** Lines 326-333: [isPlaying && playingVideo && <VideoPlayer .../>]. *)
Definition player_trees (st : AppState) : list (Element Event) :=
  if isPlaying st then
    match playingVideo st with
    | Some video =>
        [map_calls player_event (λ _, None) (VideoPlayer video share)]
    | None => []
    end
  else [].

(** Lines 335-341: [generationError && <ErrorModal .../>]. *)
Definition modal_trees (st : AppState) : list (Element Event) :=
  match generationError st with
  | Some message =>
      [component (lit "ErrorModal") [(lit "message", strings_prop message)]
         ErrorModal_calls]
  | None => []
  end.

(** Lines 242-324: the edit page or the gallery page. *)
Definition body_tree (st : AppState) : Element Event :=
  match editingVideo st with
  | Some video =>
      component (lit "EditVideoPage") [(lit "video", video_prop video)]
        EditVideoPage_calls
  | None => gallery_tree st
  end.

(** Lines 236-343. *)
Definition App_tree (st : AppState) : Element Event :=
  if isSaving st then
    component (lit "SavingProgressPage")
      [(lit "message", string_prop (savingMessage st))] (λ _, false)
  else
    element (lit "div") [] []
      (body_tree st :: player_trees st ++ modal_trees st).

End page.

(** The handler the page binds to what an event of the transition
    system stands for: [onEnded={onClose}] (VideoPlayer.tsx:95) gives the
    end of the video to [handleClosePlayer]. *)
Definition heard_as (ev : Event) : Event :=
  match ev with
  | VideoEnded => ClosePlayer
  | _ => ev
  end.

(** The page of the example session while its second video plays. *)
Definition example_page : Element Event :=
  App_tree example_locale (λ _, share_init) share_init example_playing.

(** * The parts of the page *)

#[local] Arguments lit : simpl never.
#[local] Arguments HistoryCard : simpl never.
#[local] Arguments VideoPlayer : simpl never.
#[local] Arguments render_card : simpl never.
#[local] Arguments map_calls : simpl never.
#[local] Arguments fired : simpl never.

Section parts.
Implicit Types (st : AppState) (path : list nat) (value : jsstring).

Lemma header_fires value type path called :
  fired value type path header_tree = Some called → called = [].
Proof. revert path called. destruct type; by each_path. Qed.

(** The form calls [setNewVideoPrompt] with the text typed, and
    [handleGenerateNewVideo] when the button is not disabled. *)
Lemma form_fires st value type path called ev :
  isSaving st = false →
  fired value type path (form_tree st) = Some called → ev ∈ called →
  ev = ChangePrompt value
  ∨ (ev = GenerateNewVideo ∧ prompt_is_blank (newVideoPrompt st) = false).
Proof.
  intros Hs. unfold form_tree. rewrite Hs. revert path called.
  destruct (prompt_is_blank (newVideoPrompt st)), type; each_path;
    set_solver.
Qed.

Lemma nav_fires st value type path called ev :
  fired value type path (nav_tree st) = Some called → ev ∈ called →
  ∃ v, ev = SelectView v.
Proof.
  revert path called. destruct type; each_path; set_solver.
Qed.

End parts.

Section mounted.
Context (toLocaleString : Z → jsstring).
Context (shares : jsstring → ShareState) (share : ShareState).
Implicit Types (st : AppState) (path : list nat) (value : jsstring).

(** A card calls [handlePlayVideo] with its video. *)
Lemma card_fires card value type path called ev :
  fired value type path
    (map_calls card_event (λ _, None) (render_card toLocaleString shares card))
  = Some called →
  ev ∈ called → ev = PlayVideo (toVideo (card_video card)).
Proof.
  rewrite fired_map_calls.
  destruct (fired value type path _) as [called'|] eqn:Hf; [|done].
  intros [= <-] (call & Hev & Hcall)%list_elem_of_bind.
  pose proof (HistoryCard_calls _ _ _ _ _ _ _ _ _ Hf Hcall) as Hc.
  repeat (apply elem_of_cons in Hc as [->|Hc]); simpl in *; set_solver.
Qed.

(** The history page calls [handlePlayVideo] with a video of the
    history. *)
Lemma HistoryPage_fires videos loadingVideoId value type path called ev :
  fired value type path
    (map_calls card_event (λ _, None)
       (HistoryPage_tree toLocaleString shares
          (HistoryPage videos loadingVideoId)))
  = Some called →
  ev ∈ called → ∃ video, ev = PlayVideo video ∧ video ∈ toVideo <$> videos.
Proof.
  unfold HistoryPage. case_bool_decide as Hlen.
  { revert path called. destruct type; each_path; set_solver. }
  destruct path as [|i path]; [by destruct type; intros [= <-] ?%elem_of_nil|].
  rewrite fired_through, children_of_map_calls by (by left).
  simpl. rewrite !list_lookup_fmap.
  destruct (sortedVideos videos !! i) as [video|] eqn:Hi; [|done]. simpl.
  intros Hf Hin. exists (toVideo video). split.
  - by apply (card_fires _ _ _ _ _ _ Hf Hin).
  - apply list_elem_of_fmap_2. rewrite <-(sortedVideos_perm videos).
    by eapply list_elem_of_lookup_2.
Qed.

(** The player calls [handleClosePlayer], [handleStartEdit] and
    [handleVideoLoaded]. *)
Lemma player_fires video value type path called ev :
  fired value type path
    (map_calls player_event (λ _, None) (VideoPlayer video share))
  = Some called →
  ev ∈ called → ev ∈ [ClosePlayer; StartEdit; VideoLoaded].
Proof.
  rewrite fired_map_calls.
  destruct (fired value type path _) as [called'|] eqn:Hf; [|done].
  intros [= <-] (call & Hev & Hcall)%list_elem_of_bind.
  pose proof (VideoPlayer_calls _ _ _ _ _ _ _ Hf Hcall) as Hc.
  repeat (apply elem_of_cons in Hc as [->|Hc]); simpl in *; set_solver.
Qed.

(** Under [<main>]: the grid, a leaf, or the history page. *)
Lemma main_fires st value type path called ev :
  fired value type path (main_tree toLocaleString shares st) = Some called →
  ev ∈ called →
  view st = history
  ∧ ∃ video, ev = PlayVideo video
             ∧ video ∈ toVideo <$> generatedVideosHistory st.
Proof.
  destruct path as [|[|i] path]; [by destruct type; intros [= <-] ?%elem_of_nil| |].
  - rewrite fired_through by (by left). unfold main_tree. simpl.
    destruct (view st); [by intros ->%fired_leaf ?%elem_of_nil|].
    intros Hf Hin. split; [done|]. by eapply HistoryPage_fires.
  - by rewrite fired_through by (by left).
Qed.

(** The gallery page. *)
Lemma gallery_fires st value type path called ev :
  isSaving st = false →
  fired value type path (gallery_tree toLocaleString shares st)
  = Some called →
  ev ∈ called →
  ev = ChangePrompt value
  ∨ (ev = GenerateNewVideo ∧ prompt_is_blank (newVideoPrompt st) = false)
  ∨ (∃ v, ev = SelectView v)
  ∨ (view st = history
     ∧ ∃ video, ev = PlayVideo video
                ∧ video ∈ toVideo <$> generatedVideosHistory st).
Proof.
  intros Hs.
  destruct path as [|i path]; [by destruct type; intros [= <-] ?%elem_of_nil|].
  rewrite fired_through by (by left). unfold gallery_tree.
  destruct i as [|[|[|[|i]]]]; simpl; [| | | |done].
  - by intros ->%header_fires ?%elem_of_nil.
  - intros Hf Hin. destruct (form_fires _ _ _ _ _ _ Hs Hf Hin); auto.
  - intros Hf Hin. right; right; left. by eapply nav_fires.
  - intros Hf Hin. right; right; right. by eapply main_fires.
Qed.

End mounted.

(** * No event calls two handlers *)

Section once.
Context (toLocaleString : Z → jsstring).
Context (shares : jsstring → ShareState) (share : ShareState).
Implicit Types (st : AppState).

Lemma card_event_once call : (length (card_event call) ≤ 1)%nat.
Proof. destruct call; simpl; lia. Qed.

Lemma player_event_once call : (length (player_event call) ≤ 1)%nat.
Proof. destruct call; simpl; lia. Qed.

Lemma header_once : calls_once header_tree.
Proof. intros value type. destruct type; each_path; simpl; lia. Qed.

Lemma form_once st : calls_once (form_tree st).
Proof.
  intros value type. unfold form_tree.
  destruct (isSaving st), (prompt_is_blank (newVideoPrompt st)), type;
    each_path; simpl; lia.
Qed.

Lemma nav_once st : calls_once (nav_tree st).
Proof. intros value type. destruct type; each_path; simpl; lia. Qed.

Lemma HistoryPage_once s :
  calls_once (HistoryPage_tree toLocaleString shares s).
Proof.
  destruct s as [|cards].
  { intros value type. destruct type; each_path; simpl; lia. }
  apply fires_children; [done | simpl; lia |]. simpl.
  apply Forall_fmap, Forall_true. intros card. apply HistoryCard_once.
Qed.

Lemma main_once st : calls_once (main_tree toLocaleString shares st).
Proof.
  apply fires_children; [done | simpl; lia |]. simpl. apply Forall_singleton.
  destruct (view st).
  - apply fires_leaf; [done..|simpl; lia].
  - apply calls_once_map_calls; [apply card_event_once | apply HistoryPage_once].
Qed.

Lemma gallery_once st : calls_once (gallery_tree toLocaleString shares st).
Proof.
  apply fires_children; [done | simpl; lia |]. simpl.
  repeat apply Forall_cons_2;
    [apply header_once | apply form_once | apply nav_once | apply main_once
    |apply Forall_nil_2].
Qed.

Lemma extras_once st :
  Forall calls_once (player_trees share st ++ modal_trees st).
Proof.
  apply Forall_app_2.
  - unfold player_trees. destruct (isPlaying st), (playingVideo st);
      try apply Forall_nil_2.
    apply Forall_singleton, calls_once_map_calls;
      [apply player_event_once | apply VideoPlayer_once].
  - unfold modal_trees. destruct (generationError st); [|apply Forall_nil_2].
    apply Forall_singleton, fires_leaf; [done..|simpl; lia].
Qed.

(** Whatever the state, an event on a node of the page calls at most
    one handler of [App]. *)
Lemma App_once st : calls_once (App_tree toLocaleString shares share st).
Proof.
  unfold App_tree. destruct (isSaving st).
  { apply fires_leaf; [done..|simpl; lia]. }
  apply fires_children; [done | simpl; lia |]. simpl.
  apply Forall_cons_2; [|apply extras_once]. unfold body_tree.
  destruct (editingVideo st); [|apply gallery_once].
  apply fires_leaf; [done..|simpl; lia].
Qed.

End once.

(** * The leaves of the page *)

Section leaves.
Context (toLocaleString : Z → jsstring).
Context (shares : jsstring → ShareState) (share : ShareState).
Implicit Types (st : AppState) (path : list nat) (ev : Event).

Lemma HistoryPage_no_leaf s path (call : CardCall) :
  may_call_at path (HistoryPage_tree toLocaleString shares s) call = false.
Proof.
  destruct s as [|cards]; [revert path; no_leaf|].
  destruct path as [|i path]; [done|]. unfold may_call_at. simpl.
  rewrite list_lookup_fmap. destruct (cards !! i) as [card|]; [|done].
  apply HistoryCard_no_leaf.
Qed.

(** The only leaf of the gallery page that calls is the grid. *)
Lemma gallery_may_call st path ev :
  may_call_at path (gallery_tree toLocaleString shares st) ev = true →
  view st = gallery ∧ VideoGrid_calls (videos st) ev = true.
Proof.
  destruct path as [|[|[|[|[|i]]]] path]; try done.
  - rewrite (may_call_at_cons _ _ _ header_tree) by done.
    by rewrite (may_call_at_paths header_tree ev) by no_leaf_paths.
  - rewrite (may_call_at_cons _ _ _ (form_tree st)) by done.
    unfold form_tree. by rewrite may_call_at_paths by no_leaf_paths.
  - rewrite (may_call_at_cons _ _ _ (nav_tree st)) by done.
    unfold nav_tree. by rewrite may_call_at_paths by no_leaf_paths.
  - rewrite (may_call_at_cons _ _ _ (main_tree toLocaleString shares st))
      by done.
    destruct path as [|[|i] path]; try done. unfold main_tree.
    erewrite may_call_at_cons by done.
    destruct (view st); [by destruct path|].
    by rewrite may_call_at_map_calls by (intros; apply HistoryPage_no_leaf).
Qed.

End leaves.

(** * What the page offers is enabled *)

Section sound.
Context (toLocaleString : Z → jsstring).
Context (shares : jsstring → ShareState) (share : ShareState).
Implicit Types (st : AppState) (path : list nat) (ev : Event).
Implicit Types (value : jsstring).

(** The player and the modal: events. *)
Lemma extras_fire st child value type path called ev :
  child ∈ player_trees share st ++ modal_trees st →
  fired value type path child = Some called → ev ∈ called →
  isPlaying st = true ∧ is_Some (playingVideo st)
  ∧ ev ∈ [ClosePlayer; StartEdit; VideoLoaded].
Proof.
  unfold player_trees, modal_trees. intros [Hc|Hc]%elem_of_app.
  - destruct (isPlaying st), (playingVideo st) as [video|];
      try by apply elem_of_nil in Hc.
    apply list_elem_of_singleton in Hc as ->. intros Hf Hin.
    split_and!; [done | by eexists | by eapply player_fires].
  - destruct (generationError st); [|by apply elem_of_nil in Hc].
    apply list_elem_of_singleton in Hc as ->.
    by intros ->%fired_leaf ?%elem_of_nil.
Qed.

(** The player and the modal: calls of the leaves. *)
Lemma extras_may_call st child path ev :
  child ∈ player_trees share st ++ modal_trees st →
  may_call_at path child ev = true →
  is_Some (generationError st) ∧ ErrorModal_calls ev = true.
Proof.
  unfold player_trees, modal_trees. intros [Hc|Hc]%elem_of_app.
  - destruct (isPlaying st), (playingVideo st) as [video|];
      try by apply elem_of_nil in Hc.
    apply list_elem_of_singleton in Hc as ->.
    by rewrite may_call_at_map_calls by (intros; apply VideoPlayer_no_leaf).
  - destruct (generationError st); [|by apply elem_of_nil in Hc].
    apply list_elem_of_singleton in Hc as ->. by destruct path.
Qed.

Lemma App_fires_enabled st value type path called ev :
  fired value type path (App_tree toLocaleString shares share st)
  = Some called →
  ev ∈ called → can_fire st ev = true.
Proof.
  unfold App_tree, can_fire.
  destruct (isSaving st) eqn:Hs; [by intros ->%fired_leaf ?%elem_of_nil|].
  destruct path as [|i path]; [by destruct type; intros [= <-] ?%elem_of_nil|].
  rewrite fired_through by (by left). destruct i as [|i]; simpl.
  - unfold body_tree. destruct (editingVideo st) eqn:He;
      [by intros ->%fired_leaf ?%elem_of_nil|].
    intros Hf Hin.
    destruct (gallery_fires _ _ _ _ _ _ _ _ Hs Hf Hin)
      as [->|[[-> Hb]|[[v ->]|[Hv (video & -> & Hvideo)]]]];
      simpl; rewrite ?Hb; try done.
    unfold render_main. rewrite Hv. by apply bool_decide_eq_true_2.
  - destruct (_ !! i) as [child|] eqn:Hi; [|done]. simpl. intros Hf Hin.
    apply list_elem_of_lookup_2 in Hi.
    destruct (extras_fire _ _ _ _ _ _ _ Hi Hf Hin) as (-> & [v ->] & Hev).
    repeat (apply elem_of_cons in Hev as [->|Hev]); try done.
    by apply elem_of_nil in Hev.
Qed.

Lemma App_may_call_enabled st path ev :
  may_call_at path (App_tree toLocaleString shares share st) ev = true →
  can_fire st ev = true.
Proof.
  unfold App_tree, can_fire.
  destruct (isSaving st) eqn:Hs; [by destruct path|].
  destruct path as [|[|i] path]; [done| |].
  - erewrite may_call_at_cons by done. unfold body_tree.
    destruct (editingVideo st) eqn:He.
    + destruct path; [|done]. by destruct ev.
    + intros [Hv Hev]%gallery_may_call. destruct ev; try done. simpl in *.
      unfold render_main. by rewrite Hv.
  - unfold may_call_at. simpl.
    destruct (_ !! i) as [child|] eqn:Hi; [|done]. simpl.
    apply list_elem_of_lookup_2 in Hi. intros Hm.
    destruct (extras_may_call _ _ path ev Hi) as [[e ->] Hev];
      [done | by destruct ev].
Qed.

(** C24: the page offers only what the transition system allows.
    Every handler of [App] that an event of the browser on a node of
    the page calls, and every prop that one of the components outside
    the repository may call, is an event [App.enabled] allows in that
    state. *)
Theorem App_offers_enabled st ev :
  offers (App_tree toLocaleString shares share st) ev →
  enabled (render st) ev = true.
Proof.
  rewrite enabled_render.
  intros [(value & type & path & called & Hf & Hin)|[path Hm]];
    [by eapply App_fires_enabled | by eapply App_may_call_enabled].
Qed.

End sound.

(** * What is enabled is offered *)

Section complete.
Context (toLocaleString : Z → jsstring).
Context (shares : jsstring → ShareState) (share : ShareState).
Implicit Types (st : AppState) (path : list nat) (ev : Event).
Implicit Types (value : jsstring).

Lemma form_offers st ev :
  isSaving st = false →
  (∃ value, ev = ChangePrompt value)
  ∨ (ev = GenerateNewVideo ∧ prompt_is_blank (newVideoPrompt st) = false) →
  offers (form_tree st) ev.
Proof.
  intros Hs [[value ->]|[-> Hb]]; left; unfold form_tree; rewrite Hs, ?Hb.
  - exists value, change, [0; 2]%nat, [ChangePrompt value].
    split; [by vm_compute | apply list_elem_of_here].
  - exists [], click, [0; 3; 0]%nat, [GenerateNewVideo].
    split; [by vm_compute | apply list_elem_of_here].
Qed.

Lemma nav_offers st v : offers (nav_tree st) (SelectView v).
Proof.
  left. exists [], click, [match v with gallery => 0 | history => 1 end]%nat,
          [SelectView v].
  split; [by destruct v | apply list_elem_of_here].
Qed.

Lemma HistoryPage_offers videos loadingVideoId video :
  video ∈ videos →
  offers (map_calls card_event (λ _, None)
            (HistoryPage_tree toLocaleString shares
               (HistoryPage videos loadingVideoId)))
    (PlayVideo (toVideo video)).
Proof.
  intros Hin. unfold HistoryPage.
  rewrite bool_decide_eq_false_2 by (by destruct Hin).
  rewrite <-(sortedVideos_perm videos) in Hin.
  apply list_elem_of_lookup_1 in Hin as [i Hi].
  eapply (offers_map_calls _ _ [] click (i :: play_button) _ _ (OnPlay video));
    [|apply list_elem_of_here..].
  rewrite fired_through by (by left). simpl.
  rewrite !list_lookup_fmap, Hi. apply HistoryCard_play.
Qed.

Lemma main_offers st video :
  video ∈ offered (render_main st) →
  offers (main_tree toLocaleString shares st) (PlayVideo video).
Proof.
  unfold render_main, main_tree. intros Hin.
  eapply (offers_child _ 0); [done..|]. destruct (view st); simpl in *.
  - right. exists []. by apply bool_decide_eq_true_2.
  - apply list_elem_of_fmap in Hin as (h & -> & Hin).
    by apply HistoryPage_offers.
Qed.

(** The events of the gallery page. *)
Lemma gallery_offers st ev :
  isSaving st = false →
  match ev with
  | ChangePrompt _ | SelectView _ => True
  | GenerateNewVideo => prompt_is_blank (newVideoPrompt st) = false
  | PlayVideo video => video ∈ offered (render_main st)
  | _ => False
  end →
  offers (gallery_tree toLocaleString shares st) ev.
Proof.
  intros Hs Hev. destruct ev; try done.
  - eapply (offers_child _ 3); [done..|]. by apply main_offers.
  - eapply (offers_child _ 1); [done..|]. apply form_offers; eauto.
  - eapply (offers_child _ 1); [done..|]. apply form_offers; eauto.
  - eapply (offers_child _ 2); [done..|]. apply nav_offers.
Qed.

(** The events of the player. *)
Lemma player_offers video ev :
  ev ∈ [ClosePlayer; StartEdit; VideoLoaded] →
  offers (map_calls player_event (λ _, None) (VideoPlayer video share)) ev.
Proof.
  intros Hev. repeat (apply elem_of_cons in Hev as [->|Hev]);
    [eapply (offers_map_calls _ _ [] click close_button _ _ OnClose)
    |eapply (offers_map_calls _ _ [] click edit_button _ _ (OnEdit video))
    |eapply (offers_map_calls _ _ [] canplay video_element _ _ OnVideoLoaded)
    |by apply elem_of_nil in Hev];
    first [reflexivity | apply list_elem_of_here].
Qed.

(** What a child of the root offers, the page offers. *)
Lemma root_offers st i child ev :
  isSaving st = false →
  (body_tree toLocaleString shares st
   :: player_trees share st ++ modal_trees st) !! i = Some child →
  offers child ev → offers (App_tree toLocaleString shares share st) ev.
Proof.
  intros Hs Hi. unfold App_tree. rewrite Hs. by apply (offers_child _ i).
Qed.

Lemma body_offers st ev :
  isSaving st = false →
  match ev with
  | PlayVideo _ | ChangePrompt _ | GenerateNewVideo | SelectView _
  | CancelEdit | SaveEdit _ => can_fire st ev = true
  | _ => False
  end →
  offers (App_tree toLocaleString shares share st) ev.
Proof.
  intros Hs Hev. apply (root_offers _ 0 _ _ Hs eq_refl).
  unfold can_fire, body_tree in *. rewrite Hs in Hev.
  destruct (editingVideo st) as [video|]; destruct ev; try done;
    try (right; by exists []); bool_to_prop;
    apply (gallery_offers _ _ Hs); try done.
  by match goal with H : bool_decide _ = true |- _ =>
       apply bool_decide_eq_true in H end.
Qed.

Lemma played_offers st ev :
  isSaving st = false → isPlaying st = true → is_Some (playingVideo st) →
  ev ∈ [ClosePlayer; StartEdit; VideoLoaded] →
  offers (App_tree toLocaleString shares share st) ev.
Proof.
  intros Hs Hp [video Hv] Hev.
  apply (root_offers st 1
           (map_calls player_event (λ _, None) (VideoPlayer video share))
           ev Hs).
  - unfold player_trees. by rewrite Hp, Hv.
  - by apply player_offers.
Qed.

Lemma modal_offers st ev :
  isSaving st = false → is_Some (generationError st) →
  ErrorModal_calls ev = true →
  offers (App_tree toLocaleString shares share st) ev.
Proof.
  intros Hs [message He] Hev.
  apply (root_offers st (S (length (player_trees share st)))
           (component (lit "ErrorModal") [(lit "message", strings_prop message)]
              ErrorModal_calls) ev Hs).
  - unfold modal_trees. rewrite He. simpl. by apply list_lookup_middle.
  - right. by exists [].
Qed.

(** What the page calls for an event of the transition system: the end
    of the video is heard by the handler that closes the player
    (VideoPlayer.tsx:95), every other event by its own. *)
Lemma can_fire_offers st ev :
  can_fire st ev = true →
  offers (App_tree toLocaleString shares share st) (heard_as ev).
Proof.
  intros Hcan. pose proof Hcan as Hen.
  unfold can_fire in Hen. destruct (isSaving st) eqn:Hs; [done|].
  simpl in Hen.
  destruct ev; try (by apply body_offers); bool_to_prop;
    try (apply played_offers; try done;
         [by destruct (playingVideo st) | set_solver]);
    by apply modal_offers; [|destruct (generationError st)|].
Qed.

Lemma handle_heard_as st ev : handle st (heard_as ev) = handle st ev.
Proof. by destruct ev. Qed.

(** C28: the page offers what the transition system allows. Every
    event [App.enabled] allows in a state can be caused on the page of
    that state, by an event of the browser on one of its nodes or by a
    call of one of the components outside the repository; the end of
    the video is heard by the handler that closes the player. *)
Theorem enabled_App_offers st ev :
  enabled (render st) ev = true →
  ∃ ev', offers (App_tree toLocaleString shares share st) ev'
         ∧ handle st ev' = handle st ev.
Proof.
  rewrite enabled_render. intros Hcan. exists (heard_as ev).
  split; [by apply can_fire_offers | apply handle_heard_as].
Qed.

End complete.

(** * The page and [App.render] *)

Section render.
Context (toLocaleString : Z → jsstring).
Context (shares : jsstring → ShareState) (share : ShareState).
Implicit Types (st : AppState).

(** The form of [App.render] is the form of the page: the text and the
    state of the textarea, the state and the label of the button. *)
Lemma form_tree_render st :
  ∃ textarea button,
    node [0; 2]%nat (form_tree st) = Some textarea
    ∧ node [0; 3; 0]%nat (form_tree st) = Some button
    ∧ attribute (lit "value") textarea = Some (textarea_value (render_form st))
    ∧ disabled textarea = textarea_disabled (render_form st)
    ∧ disabled button = button_disabled (render_form st)
    ∧ children_of button = [text (button_label (render_form st))].
Proof.
  eexists _, _. split_and!; try reflexivity; simpl;
    by destruct (isSaving st), (prompt_is_blank (newVideoPrompt st)).
Qed.

(** The player of [App.render] is the player of the page. *)
Lemma player_trees_render st :
  player_trees share st
  = option_list
      ((λ video, map_calls player_event (λ _, None) (VideoPlayer video share))
       <$> render_player st).
Proof.
  unfold player_trees, render_player.
  by destruct (isPlaying st), (playingVideo st).
Qed.

(** The form is on the page only while no generation runs, so its button
    never reads [Generating...]. *)
Lemma form_on_page st tree :
  node [0; 1]%nat (App_tree toLocaleString shares share st) = Some tree →
  tree = form_tree st
  ∧ button_label (render_form st) = lit "Generate Video".
Proof.
  unfold App_tree, body_tree, render_form.
  destruct (isSaving st); [done|]. simpl.
  destruct (editingVideo st); [done|]. simpl. by intros [= <-].
Qed.

(** The props of the components outside the repository are the data of
    [App.render]. *)
Lemma progress_page_props st :
  isSaving st = true →
  props_at [] (App_tree toLocaleString shares share st)
  = [(lit "message", string_prop (savingMessage st))].
Proof. unfold App_tree. by intros ->. Qed.

Lemma body_tree_render st st' :
  render_body st = render_body st' →
  body_tree toLocaleString shares st = body_tree toLocaleString shares st'.
Proof.
  unfold render_body, body_tree.
  destruct (editingVideo st), (editingVideo st'); try done; [by intros [= ->]|].
  unfold render_form, render_main, gallery_tree, form_tree, nav_tree, main_tree.
  intros [= Hprompt Hs _ _ Hgallery _ Hmain]. rewrite Hprompt, Hs.
  assert (view st = view st') as Hv
    by (destruct (view st), (view st'); by vm_compute in Hgallery).
  rewrite Hv in *. by destruct (view st'); injection Hmain as -> ->.
Qed.

(** The page depends on the state through [App.render] only: two states
    rendered alike show the same page, whatever else differs in them. *)
Lemma App_tree_render st st' :
  render st = render st' →
  App_tree toLocaleString shares share st
  = App_tree toLocaleString shares share st'.
Proof.
  unfold render, App_tree.
  destruct (isSaving st), (isSaving st'); try done; [by intros [= ->]|].
  intros [= Hbody Hplayer Herror].
  rewrite !player_trees_render, Hplayer, (body_tree_render st st' Hbody).
  unfold modal_trees. by rewrite Herror.
Qed.

End render.

(** * The theorems on the example session *)

Lemma App_offers_enabled_witness :
  enabled (render example_playing) ClosePlayer = true.
Proof.
  apply (App_offers_enabled example_locale (λ _, share_init) share_init
           example_playing ClosePlayer).
  left. exists [], click, (1%nat :: close_button), [ClosePlayer].
  split; [by vm_compute | apply list_elem_of_here].
Defined.

Lemma enabled_App_offers_witness :
  ∃ ev', offers example_page ev'
         ∧ handle example_playing ev' = handle example_playing VideoEnded.
Proof.
  apply (enabled_App_offers example_locale (λ _, share_init) share_init
           example_playing VideoEnded).
  reflexivity.
Defined.
