(* ===== verification/Gestures.v ===== *)
(** * Gestures: the application under the events of the browser

    [Session] runs the handlers of [App] on events named by the
    transition system, and lets an event through when [App.enabled]
    says that the page has a control for it. Here nothing of the model
    stands between the user and the handlers: a gesture is an event of
    the browser on a node of the page [Page.App_tree]
    ([src/unnamed/part_000], lines 236-343), or a call of one of its
    props by a component whose source is not in the repository, and
    what it calls is decided by the tree, through [Dom.dispatch].

    - [called] is what a gesture calls on a page: the handlers of the
      listeners the event reaches, in order, or the prop the component
      calls when it was given it.
    - [on_gesture] runs them as React does: the handlers called by one
      event are closures of the render the page was made by, their
      setter calls are applied in the order made, and the generations
      they await resume afterwards ([App.finish_job]).
    - [gestures] is a list of gestures made one after the other; with
      each comes the state of the share buttons at that time ([Local]),
      which the application never reads.

    A gesture calls at most one handler, which [App.enabled] allows
    ([called_once], [called_enabled]), so the gestures are sessions
    ([gestures_session]) and every session is made of gestures
    ([session_gestures]). [gestures_reachable] and
    [gestures_interactive] state the invariants and the liveness of
    [App] for the page as the user has it. *)

From S2P Require Import Prelude JsString Types Env Generate App Session Dom.
From S2P Require Import HistoryPage VideoPlayer HistoryCard Mount Page.

(** What happens on the page: an event of the browser on the node at
    [path], with the value of its target, or a call of the prop bound to
    [ev] by the component at [path]. *)
Inductive Gesture :=
| Dispatch (type : EventType) (path : list nat) (value : jsstring)
| Call (path : list nat) (ev : Event).

(** The state of the components of the repository that have some: the
    share feedback of every card, by key, and of the player. *)
Record Local := mkLocal {
  card_shares : jsstring → ShareState;
  player_share : ShareState;
}.

Section gestures.
Context `{Env} (toLocaleString : Z → jsstring).

(** The page shown for a state of [App] and of its components. *)
Definition page (loc : Local) (st : AppState) : Element Event :=
  App_tree toLocaleString (card_shares loc) (player_share loc) st.

(** The handlers of [App] a gesture calls, in order. *)
Definition called (tree : Element Event) (g : Gesture) : list Event :=
  match g with
  | Dispatch type path value => default [] (fired value type path tree)
  | Call path ev => if may_call_at path tree ev then [ev] else []
  end.

(** One gesture. The handlers it calls belong to the render of [st]:
    each reads the state of that render, the setter calls of all of
    them are applied in the order made, and the generations awaited
    resume after them. *)
Definition on_gesture (fuel : nat) (loc : Local) (g : Gesture)
    (st : AppState) (tr : trace) : AppState * trace :=
  let handlers := handle st <$> called (page loc st) g in
  foldl (λ r j, finish_job fuel j r.1 r.2)
    (apply_all (handlers ≫= fst) st, tr) (omap snd handlers).

(** Gestures made one after the other. *)
Fixpoint gestures (fuel : nat) (gs : list (Local * Gesture))
    (st : AppState) (tr : trace) : AppState * trace :=
  match gs with
  | [] => (st, tr)
  | (loc, g) :: gs' =>
      let '(st1, tr1) := on_gesture fuel loc g st tr in
      gestures fuel gs' st1 tr1
  end.

(** The handlers the gestures call, in the order called. *)
Fixpoint gesture_events (fuel : nat) (gs : list (Local * Gesture))
    (st : AppState) (tr : trace) : list Event :=
  match gs with
  | [] => []
  | (loc, g) :: gs' =>
      called (page loc st) g
      ++ let '(st1, tr1) := on_gesture fuel loc g st tr in
         gesture_events fuel gs' st1 tr1
  end.

End gestures.

(** * The example *)

(** Where the controls of the page are: the textarea and the button of
    the form, and the video of the player. *)
Definition prompt_textarea : list nat := [0; 1; 0; 2]%nat.
Definition generate_button : list nat := [0; 1; 0; 3; 0]%nat.
Definition player_video : list nat := 1%nat :: video_element.

(** No share button shows any feedback. *)
Definition no_feedback : Local := mkLocal (λ _, share_init) share_init.

(** The session of [Session.example_events] as the user makes it: a
    prompt is typed, the button clicked, the generated video can play
    and ends, blanks are typed and the disabled button is clicked. *)
Definition example_gestures : list (Local * Gesture) :=
  pair no_feedback <$>
    [Dispatch change prompt_textarea (lit " a cat ");
     Dispatch click generate_button [];
     Dispatch canplay player_video [];
     Dispatch ended player_video [];
     Dispatch change prompt_textarea (lit "  ");
     Dispatch click generate_button []].

(** * One gesture *)

Section gesture_lemmas.
Context `{Env} (toLocaleString : Z → jsstring).
Implicit Types (loc : Local) (st : AppState) (tr : trace) (g : Gesture).
Implicit Types (ev : Event) (c : Config).

(** A gesture calls at most one handler of [App]. *)
Lemma called_once loc st g :
  (length (called (page toLocaleString loc st) g) ≤ 1)%nat.
Proof.
  destruct g as [type path value|path ev]; simpl.
  - destruct (fired value type path _) as [evs|] eqn:Hf; simpl; [|lia].
    by eapply App_once.
  - destruct (may_call_at _ _ _); simpl; lia.
Qed.

(** What a gesture calls, the transition system allows. *)
Lemma called_enabled loc st g ev :
  ev ∈ called (page toLocaleString loc st) g → enabled (render st) ev = true.
Proof.
  rewrite enabled_render. destruct g as [type path value|path ev']; simpl.
  - destruct (fired value type path _) as [evs|] eqn:Hf; simpl;
      [|by intros ?%elem_of_nil].
    by eapply App_fires_enabled.
  - destruct (may_call_at _ _ _) eqn:Hm; [|by intros ?%elem_of_nil].
    intros ->%list_elem_of_singleton. by eapply App_may_call_enabled.
Qed.

(** A gesture is handled as the events it calls are by [Session]. *)
Lemma on_gesture_session fuel loc g st tr :
  on_gesture toLocaleString fuel loc g st tr
  = session fuel (called (page toLocaleString loc st) g) st tr.
Proof.
  unfold on_gesture. pose proof (called_once loc st g) as Hlen.
  pose proof (called_enabled loc st g) as Hen.
  destruct (called _ g) as [|ev [|??]]; simpl in *; [done| |lia].
  unfold on_event. rewrite Hen by apply list_elem_of_here.
  destruct (handle st ev) as [us [j|]]; simpl; rewrite app_nil_r;
    [by destruct (finish_job _ _ _ _) | done].
Qed.

(** What a page offers, one gesture calls. *)
Lemma offers_gesture loc st ev :
  offers (page toLocaleString loc st) ev →
  ∃ g, called (page toLocaleString loc st) g = [ev].
Proof.
  intros [(value & type & path & evs & Hf & Hin)|[path Hm]].
  - exists (Dispatch type path value). simpl. rewrite Hf. simpl.
    pose proof (App_once _ _ _ st value type path evs Hf) as Hlen.
    destruct evs as [|ev' [|??]]; simpl in *;
      [by apply elem_of_nil in Hin | |lia].
    by apply list_elem_of_singleton in Hin as ->.
  - exists (Call path ev). simpl. by rewrite Hm.
Qed.

(** The end of the video is handled as the click that closes the
    player. *)
Lemma on_event_heard_as fuel ev st tr :
  on_event fuel (heard_as ev) st tr = on_event fuel ev st tr.
Proof.
  unfold on_event. rewrite handle_heard_as.
  by replace (enabled (render st) (heard_as ev))
    with (enabled (render st) ev) by (by destruct ev).
Qed.

(** An event of a session is a gesture, or none when the page has no
    control for it. *)
Lemma on_event_gesture fuel loc ev st tr :
  ∃ gs, gestures toLocaleString fuel gs st tr = on_event fuel ev st tr
        ∧ (length gs ≤ 1)%nat.
Proof.
  destruct (enabled (render st) ev) eqn:Hen.
  - destruct (offers_gesture loc st (heard_as ev)) as [g Hg].
    { apply can_fire_offers. by rewrite <-enabled_render. }
    exists [(loc, g)]. simpl. rewrite on_gesture_session, Hg. simpl.
    rewrite on_event_heard_as. by destruct (on_event fuel ev st tr).
  - exists []. unfold on_event. rewrite Hen. split; [done | simpl; lia].
Qed.

(** * Gestures and sessions *)

Lemma gestures_app fuel gs1 gs2 st tr :
  gestures toLocaleString fuel (gs1 ++ gs2) st tr
  = gestures toLocaleString fuel gs2
      (gestures toLocaleString fuel gs1 st tr).1
      (gestures toLocaleString fuel gs1 st tr).2.
Proof.
  revert st tr. induction gs1 as [|[loc g] gs1 IH]; intros st tr; simpl;
    [done|].
  destruct (on_gesture _ fuel loc g st tr) as [st1 tr1]. apply IH.
Qed.

(** The gestures are a session: of the events they call, at most one
    each. *)
Lemma gestures_session fuel gs : ∀ st tr,
  ∃ evs, gestures toLocaleString fuel gs st tr = session fuel evs st tr
         ∧ (length evs ≤ length gs)%nat.
Proof.
  induction gs as [|[loc g] gs IH]; intros st tr; simpl; [by exists []|].
  rewrite on_gesture_session.
  destruct (session fuel (called _ g) st tr) as [st1 tr1] eqn:Hs.
  destruct (IH st1 tr1) as (evs & -> & Hlen).
  exists (called (page toLocaleString loc st) g ++ evs).
  rewrite session_app, Hs, length_app. split; [done|].
  pose proof (called_once loc st g). lia.
Qed.

(** Every session is made of gestures: the user can do on the page
    whatever the transition system does. *)
Lemma session_gestures fuel loc evs : ∀ st tr,
  ∃ gs, gestures toLocaleString fuel gs st tr = session fuel evs st tr
        ∧ (length gs ≤ length evs)%nat.
Proof.
  induction evs as [|ev evs IH]; intros st tr; simpl; [by exists []|].
  destruct (on_event_gesture fuel loc ev st tr) as (gs1 & Hgs1 & Hlen1).
  destruct (on_event fuel ev st tr) as [st1 tr1].
  destruct (IH st1 tr1) as (gs2 & Hgs2 & Hlen2).
  exists (gs1 ++ gs2). rewrite gestures_app, Hgs1, length_app.
  split; [done | lia].
Qed.

(** One gesture is simulated by the transition system: by no step, by
    the step of the event called, or by that step and the settlement of
    the generation it started. *)
Lemma on_gesture_run fuel loc g c tr :
  ui_inv c →
  ∃ ls c',
    run c ls = Some c' ∧ ui_inv c'
    ∧ app c' = (on_gesture toLocaleString fuel loc g (app c) tr).1
    ∧ user_events ls = called (page toLocaleString loc (app c)) g
    ∧ (settling fuel → pending c' = pending c).
Proof.
  intros Hinv. rewrite on_gesture_session.
  pose proof (called_once loc (app c) g) as Hlen.
  pose proof (called_enabled loc (app c) g) as Hen.
  destruct (called _ g) as [|ev [|??]]; simpl in *; [by exists [], c| |lia].
  destruct (on_event_run fuel ev c tr Hinv)
    as (ls & c' & Hrun & Happ & Hinv' & Hp & Hev).
  rewrite Hen in Hev by apply list_elem_of_here.
  exists ls, c'. destruct (on_event fuel ev (app c) tr) as [st1 tr1].
  split_and!; try done.
  intros Hs. destruct Hp as [->|[j Hj]]; [done|]. by rewrite Hs in Hj.
Qed.

(** C20: refinement. Whatever the user does on the page, in any
    environment, the transition system has a run that ends in the
    state of the page and whose events are the handlers the gestures
    called, in their order: the tree [App] returns lets through only
    what [App.step] allows, and the handlers with
    [generateVideoFromText] in them implement its steps. The state of
    the page is then reachable, and every invariant of [App.reachable]
    is an invariant of the page. *)
Theorem gestures_simulated MOCK_VIDEOS fuel gs tr :
  ∃ ls c,
    run (start MOCK_VIDEOS) ls = Some c
    ∧ app c = (gestures toLocaleString fuel gs (init MOCK_VIDEOS) tr).1
    ∧ user_events ls
      = gesture_events toLocaleString fuel gs (init MOCK_VIDEOS) tr.
Proof.
  cut (∀ c tr, ui_inv c →
         ∃ ls c',
           run c ls = Some c'
           ∧ app c' = (gestures toLocaleString fuel gs (app c) tr).1
           ∧ user_events ls
             = gesture_events toLocaleString fuel gs (app c) tr).
  { intros Hgs. apply (Hgs (start MOCK_VIDEOS) tr (ui_inv_start MOCK_VIDEOS)). }
  clear tr. induction gs as [|[loc g] gs IH]; intros c tr Hinv; simpl.
  { by exists [], c. }
  destruct (on_gesture_run fuel loc g c tr Hinv)
    as (ls1 & c1 & Hrun1 & Hinv1 & Happ & Hev1 & _).
  destruct (on_gesture _ fuel loc g (app c) tr) as [st1 tr1].
  simpl in Happ. subst st1.
  destruct (IH c1 tr1 Hinv1) as (ls2 & c2 & Hrun2 & Happ2 & Hev2).
  exists (ls1 ++ ls2), c2. rewrite run_app, Hrun1.
  unfold user_events in *. by rewrite omap_app, Hev1, Hev2.
Qed.

(** C36: liveness. In an environment that answers every request and
    whose service finishes every job within [k] polls, after anything
    the user does on the page no generation is in flight and the
    progress page is not shown: the page always comes back to controls
    the user can act on. *)
Theorem gestures_interactive MOCK_VIDEOS k fuel gs tr :
  responsive → (∀ tr0, finishes_within k tr0) → (k ≤ S fuel)%nat →
  let st := (gestures toLocaleString (S fuel) gs (init MOCK_VIDEOS) tr).1 in
  reachable MOCK_VIDEOS (mkConfig st []) ∧ isSaving st = false.
Proof.
  intros Hresp Hk Hle.
  pose proof (responsive_settling k fuel Hresp Hk Hle) as Hsettling.
  cut (∀ c tr, ui_inv c → reachable MOCK_VIDEOS c → pending c = [] →
         ∃ c', reachable MOCK_VIDEOS c' ∧ ui_inv c' ∧ pending c' = []
               ∧ app c'
                 = (gestures toLocaleString (S fuel) gs (app c) tr).1).
  { intros Hgs.
    destruct (Hgs (start MOCK_VIDEOS) tr (ui_inv_start MOCK_VIDEOS)
                (reachable_start _ MOCK_VIDEOS) eq_refl)
      as ([st pend] & Hr & [Hs _ _ _ _] & Hp & Happ).
    simpl in *. by subst st pend. }
  clear tr. induction gs as [|[loc g] gs IH]; intros c tr Hinv Hreach Hp;
    simpl.
  { by exists c. }
  destruct (on_gesture_run (S fuel) loc g c tr Hinv)
    as (ls & c1 & Hrun & Hinv1 & Happ & _ & Hp1).
  destruct (on_gesture _ (S fuel) loc g (app c) tr) as [st1 tr1].
  simpl in Happ. subst st1. apply (IH c1 tr1 Hinv1).
  - by eapply reachable_run.
  - by rewrite Hp1.
Qed.

End gesture_lemmas.

(** * The example *)

(** The gestures of the example do what the events of
    [Session.example_events] do; the last click, on the disabled button,
    calls nothing. *)
Example example_gestures_run :
  gestures (H:=example_env) example_locale 2 example_gestures
    (init example_mock) []
  = session (H:=example_env) 2 example_events (init example_mock) [].
Proof. by vm_compute. Qed.

(** What they call: the end of the video calls the handler that closes
    the player, and the click on the disabled button nothing. *)
Example example_gesture_events :
  gesture_events (H:=example_env) example_locale 2 example_gestures
    (init example_mock) []
  = [ChangePrompt (lit " a cat "); GenerateNewVideo; VideoLoaded; ClosePlayer;
     ChangePrompt (lit "  ")].
Proof. by vm_compute. Qed.

(** A click on the video of the player goes through the dialog, which
    stops it: nothing is called, and the player stays open. *)
Example click_on_video_calls_nothing :
  called (page example_locale no_feedback example_playing)
    (Dispatch click player_video []) = []
  ∧ called (page example_locale no_feedback example_playing)
      (Dispatch click [1]%nat []) = [ClosePlayer].
Proof. by vm_compute. Qed.

Lemma gestures_interactive_witness :
  let st := (gestures (H:=example_env) example_locale 2 example_gestures
               (init example_mock) []).1 in
  reachable example_mock (mkConfig st []) ∧ isSaving st = false.
Proof.
  apply (gestures_interactive (H:=example_env) example_locale example_mock
           2 1 example_gestures []
           (scripted_responsive 2 (Some example_videos) example_dataurl));
    [intros tr0; apply scripted_finishes_within | lia].
Defined.
